(** * Picnic2: GF(2) matrix kernel and MPC-in-the-head signature core

  A shallow embedding of [mzd_additional.c] (dense binary matrices over
  GF(2)) and [picnic2_impl.c] (Picnic2 signer / verifier helpers), with
  the properties of the natural-language specification stated and proved
  over the embedded definitions.

  Conventions.
  - A [uint64_t] ([word]) is a [Z] in [[0, 2^64)]; operations that can
    leave that range in C are wrapped with [wrap] explicitly.
  - Storage reached through a pointer is a [list]; a pointer into it is
    a [nat] offset; [rd] reads and [upd] writes one cell.
  - A [for] loop with a compile-time trip count is a [Fixpoint] on the
    number of remaining iterations, threading the loop-carried state. *)

From Stdlib Require Import ZArith List Lia Bool Arith PeanoNat Ring.
Import ListNotations.

Local Open Scope Z_scope.

(* ================================================================== *)
(** * 64-bit words *)
(* ================================================================== *)

Module W64.

Abbreviation word := Z (only parsing).

Definition wB : Z := 2 ^ 64.
Definition ones : word := wB - 1.

(** Reduction of a mathematical integer to its [uint64_t] value. *)
Definition wrap (z : Z) : word := z mod wB.

(** Unary minus on [uint64_t]: [-(x)]. *)
Definition neg (x : word) : word := wrap (- x).

(** [~x] on [uint64_t]. *)
Definition lnot64 (x : word) : word := wrap (Z.lnot x).

(** [x << n] on [uint64_t]. *)
Definition shl (x : word) (n : Z) : word := wrap (Z.shiftl x n).

(** [x >> n] on [uint64_t] (logical). *)
Definition shr (x : word) (n : Z) : word := Z.shiftr x n.

Definition in_range (x : word) : Prop := 0 <= x < wB.

Definition in_rangeb (x : word) : bool := (0 <=? x) && (x <? wB).

(** The mask [-(bit)] used in every multiply loop. *)
Definition mask_of (bit : word) : word := neg bit.

End W64.

Import W64.

(* ================================================================== *)
(** * Flat storage *)
(* ================================================================== *)

Section Storage.

Variable A : Type.
Variable dflt : A.

(** [p[i]] *)
Definition rd_gen (l : list A) (i : nat) : A := nth i l dflt.

(** [p[i] = x] *)
Fixpoint upd (l : list A) (i : nat) (x : A) : list A :=
  match l, i with
  | [], _ => []
  | _ :: t, O => x :: t
  | h :: t, S i' => h :: upd t i' x
  end.

End Storage.

Arguments rd_gen {A} dflt l i.
Arguments upd {A} l i x.

Definition rd (l : list word) (i : nat) : word := rd_gen 0 l i.

Definition words_ok (l : list word) : Prop := Forall in_range l.

Definition words_okb (l : list word) : bool := forallb in_rangeb l.


(* ================================================================== *)
(** * Iterated XOR *)
(* ================================================================== *)

(** [bigxor n f] is [f 0 ^ f 1 ^ ... ^ f (n-1)]. *)
Fixpoint bigxor (n : nat) (f : nat -> word) : word :=
match n with
| O => 0
| S n' => Z.lxor (bigxor n' f) (f n')
end.

(** Sum over GF(2) of a family of bits. *)
Fixpoint gf2_sum (n : nat) (f : nat -> bool) : bool :=
match n with
| O => false
| S n' => xorb (gf2_sum n' f) (f n')
end.

(* ================================================================== *)
(** * BinMat: dense GF(2) matrices ([mzd_additional.c]) *)
(* ================================================================== *)

Module BinMat.

(** [mzd_local_t]: the header fields followed by the row storage.  The
    storage is modelled by [mem]; [FIRST_ROW] is offset [0] of it. *)
Record mzd_local_t : Type := Mzd {
  nrows : nat;
  ncols : nat;
  width : nat;
  rowstride : nat;
  mem : list word
}.

Definition set_mem (M : mzd_local_t) (m : list word) : mzd_local_t :=
  {| nrows := nrows M; ncols := ncols M; width := width M;
     rowstride := rowstride M; mem := m |}.

(** [sizeof(word)] *)
Definition sizeof_word : nat := 8.

(** [align_bound = 128 / (8 * sizeof(word))] *)
Definition align_bound : nat := (128 / (8 * sizeof_word))%nat.

(** [(x + k) & ~k] for [k + 1] a power of two rounds [x] up to a
    multiple of [k + 1]. *)
Definition round_up (x k1 : nat) : nat := ((x + (k1 - 1)) / k1 * k1)%nat.

Definition calculate_rowstride (width : nat) : nat :=
  if (align_bound <? width)%nat
  then (round_up (width * sizeof_word) 32 / sizeof_word)%nat
  else (round_up (width * sizeof_word) 16 / sizeof_word)%nat.

Definition calculate_width (c : nat) : nat :=
  ((c + sizeof_word * 8 - 1) / (sizeof_word * 8))%nat.

(** [buffer_size = r * rowstride * sizeof(word)] of [mzd_local_init_ex]:
    the product [r * rowstride] is taken in [uint32_t] and wraps at
    [2 ^ 32] before it is widened to [size_t]. *)
Definition buffer_size (r rowstride : nat) : Z :=
  ((Z.of_nat r * Z.of_nat rowstride) mod 2 ^ 32) * Z.of_nat sizeof_word.

(** [mzd_local_init_ex(r, c, clear)].  Without [clear] the storage keeps
    whatever the allocator returned, here [junk].

    The storage is modelled with [r * rowstride] words, the size every row
    access [ROW(M, i)], [i < r], relies on.  This is the storage of
    [buffer_size] bytes the source allocates as long as [r * rowstride]
    is below [2 ^ 32]; above, the source's product wraps and the buffer is
    shorter than the rows it is meant to hold. *)
Definition mzd_local_init_ex (junk : list word) (r c : nat) (clear : bool)
  : mzd_local_t :=
  let width := calculate_width c in
  let rowstride := calculate_rowstride width in
  {| nrows := r; ncols := c; width := width; rowstride := rowstride;
     mem := if clear then repeat 0 (r * rowstride)
            else firstn (r * rowstride) (junk ++ repeat 0 (r * rowstride)) |}.

(** [ROW(M, r)] / [CONST_ROW(M, r)]: offset of row [r] in the storage.

    Modelled from the spec: the macros of [mzd_additional.h] are not part
    of the sources; the data model says rows are stored contiguously,
    [rowstride] words apart, after the 32-byte header. *)
Definition ROW (M : mzd_local_t) (r : nat) : nat := (r * rowstride M)%nat.

(** [FIRST_ROW(M)] *)
Definition FIRST_ROW (M : mzd_local_t) : nat := O.

(** Word [j] of row [i]. *)
Definition row_word (M : mzd_local_t) (i j : nat) : word :=
  rd (mem M) (ROW M i + j).

(** [mzd_local_clear]: [memset] of [nrows * rowstride] words. *)
Definition mzd_local_clear (c : mzd_local_t) : mzd_local_t :=
  let n := (nrows c * rowstride c)%nat in
  set_mem c (repeat 0 n ++ skipn n (mem c)).

(** ** Scalar multiply *)

(** [for (j = 0; j < len; ++j) cptr[j] ^= (Aptr[j] & mask);]
    with [j] the current index and [n] the iterations left. *)
Fixpoint xor_mask_words (n j : nat) (Amem : list word) (Aptr : nat)
         (mask : word) (c : list word) : list word :=
  match n with
  | O => c
  | S n' =>
      xor_mask_words n' (S j) Amem Aptr mask
        (upd c j (Z.lxor (rd c j) (Z.land (rd Amem (Aptr + j)) mask)))
  end.

(** [for (i = 64; i; --i, idx >>= 1, Aptr += rowstride)] of
    [mzd_addmul_v_uint64]; returns the advanced [Aptr] and [c]. *)
Fixpoint addmul_v_bits (i : nat) (len rs : nat) (Amem : list word)
         (idx : word) (Aptr : nat) (c : list word) : nat * list word :=
  match i with
  | O => (Aptr, c)
  | S i' =>
      let mask := neg (Z.land idx 1) in
      let c' := xor_mask_words len 0 Amem Aptr mask c in
      addmul_v_bits i' len rs Amem (shr idx 1) (Aptr + rs) c'
  end.

(** [for (w = width; w; --w, ++vptr)] of [mzd_addmul_v_uint64]. *)
Fixpoint addmul_v_words (w : nat) (len rs : nat) (Amem vmem : list word)
         (vptr Aptr : nat) (c : list word) : list word :=
  match w with
  | O => c
  | S w' =>
      let idx := rd vmem vptr in
      let '(Aptr', c') := addmul_v_bits 64%nat len rs Amem idx Aptr c in
      addmul_v_words w' len rs Amem vmem (S vptr) Aptr' c'
  end.

Definition mzd_addmul_v_uint64 (c v A : mzd_local_t) : mzd_local_t :=
  let len := width A in
  let rowstride := rowstride A in
  set_mem c (addmul_v_words (width v) len rowstride (mem A) (mem v)
               (FIRST_ROW v) (FIRST_ROW A) (mem c)).

Definition mzd_mul_v_uint64 (c v At : mzd_local_t) : mzd_local_t :=
  mzd_addmul_v_uint64 (mzd_local_clear c) v At.

(** ** Lookup-table multiply ([MUL_M4RI]) *)

(** [for (i = 0; i < len; ++i) dst[i] ^= src[i];]
    with [dst] at offset [dptr] of [dmem], [src] at [sptr] of [smem]. *)
Fixpoint xor_words (n i : nat) (smem : list word) (sptr : nat)
         (dmem : list word) (dptr : nat) : list word :=
  match n with
  | O => dmem
  | S n' =>
      xor_words n' (S i) smem sptr
        (upd dmem (dptr + i) (Z.lxor (rd dmem (dptr + i)) (rd smem (sptr + i))))
        dptr
  end.

(** [xor_comb]: the [while (comb)] loop.  [comb] is an [unsigned int], so
    32 iterations always exhaust it; [fuel] counts the iterations left. *)
Fixpoint xor_comb (fuel : nat) (len : nat) (Bmem : list word) (Brow : nat)
         (A : mzd_local_t) (r_offset : nat) (comb : Z) : list word :=
  match fuel with
  | O => Bmem
  | S fuel' =>
      if comb =? 0 then Bmem
      else
        let Arow := ROW A r_offset in
        let Bmem' := if Z.land comb 1 =? 0 then Bmem
                     else xor_words len 0 (mem A) Arow Bmem Brow in
        xor_comb fuel' len Bmem' Brow A (S r_offset) (Z.shiftr comb 1)
  end.

(** [for (r = 0; r < B->nrows; ++r)] of [mzd_precompute_matrix_lookup];
    [n] rows are left, [r] is the current one. *)
Fixpoint precompute_rows (n r : nat) (len : nat) (A B : mzd_local_t)
  : mzd_local_t :=
  match n with
  | O => B
  | S n' =>
      let comb := Z.land (Z.of_nat r) 255 in
      let r_offset := Z.to_nat (Z.shiftl (Z.shiftr (Z.of_nat r) 8) 3) in
      let B' := if comb =? 0 then B
                else set_mem B (xor_comb 32 len (mem B) (ROW B r) A r_offset comb) in
      precompute_rows n' (S r) len A B'
  end.

Definition mzd_precompute_matrix_lookup (A : mzd_local_t) : mzd_local_t :=
  let B := mzd_local_init_ex [] (32 * nrows A) (ncols A) true in
  let len := width A in
  precompute_rows (nrows B) 0 len A B.

(** The [while (idx)] loop of [mzd_addmul_vl_uint64].  [idx] is a 64-bit
    word shifted right by 8 each turn: 8 iterations always exhaust it. *)
Fixpoint addmul_vl_bytes (fuel : nat) (len : nat) (A : mzd_local_t) (w : nat)
         (idx : word) (add : nat) (c : list word) : list word :=
  match fuel with
  | O => c
  | S fuel' =>
      if idx =? 0 then c
      else
        let comb := Z.land idx 255 in
        let Aptr := ROW A (w * sizeof_word * 8 * 32 + add + Z.to_nat comb) in
        let c' := xor_words len 0 (mem A) Aptr c 0 in
        addmul_vl_bytes fuel' len A w (shr idx 8) (add + 256) c'
  end.

(** [for (w = 0; w < width; ++w, ++vptr)] of [mzd_addmul_vl_uint64]. *)
Fixpoint addmul_vl_words (n w : nat) (len : nat) (A : mzd_local_t)
         (vmem : list word) (vptr : nat) (c : list word) : list word :=
  match n with
  | O => c
  | S n' =>
      let idx := rd vmem vptr in
      let c' := addmul_vl_bytes 8 len A w idx 0 c in
      addmul_vl_words n' (S w) len A vmem (S vptr) c'
  end.

Definition mzd_addmul_vl_uint64 (c v A : mzd_local_t) : mzd_local_t :=
  let len := width A in
  set_mem c (addmul_vl_words (width v) 0 len A (mem v) (FIRST_ROW v) (mem c)).

Definition mzd_mul_vl_uint64 (c v A : mzd_local_t) : mzd_local_t :=
  mzd_addmul_vl_uint64 (mzd_local_clear c) v A.

(** ** Parity-dot specializations *)

(** The parity of the 64 bits of a word, as a bit. *)
Definition pbit (x : word) : bool :=
  gf2_sum 64 (fun t => Z.testbit x (Z.of_nat t)).

(** [parity64_uint64(x)]: XOR of the 64 bits of [x], as a word.

    Modelled from the spec: the helper lives in a header that is not part
    of the sources; the specification calls it [parity64], the parity of a
    64-bit word. *)
Definition parity64_uint64 (x : word) : word := Z.b2z (pbit x).

(** [(vptr[0] & A[0]) ^ (vptr[1] & A[1])] *)
Definition dot_128 (vmem Amem : list word) (A : nat) : word :=
  Z.lxor (Z.land (rd vmem 0) (rd Amem (A + 0)))
         (Z.land (rd vmem 1) (rd Amem (A + 1))).

(** [(vptr[0] & A[0]) ^ (vptr[1] & A[1]) ^ (vptr[2] & A[2])] *)
Definition dot_192 (vmem Amem : list word) (A : nat) : word :=
  Z.lxor (Z.lxor (Z.land (rd vmem 0) (rd Amem (A + 0)))
                 (Z.land (rd vmem 1) (rd Amem (A + 1))))
         (Z.land (rd vmem 2) (rd Amem (A + 2))).

(** [(vptr[0] & A[0]) ^ (vptr[1] & A[1]) ^ (vptr[2] & A[2]) ^ (vptr[3] & A[3])] *)
Definition dot_256 (vmem Amem : list word) (A : nat) : word :=
  Z.lxor (Z.lxor (Z.lxor (Z.land (rd vmem 0) (rd Amem (A + 0)))
                         (Z.land (rd vmem 1) (rd Amem (A + 1))))
                 (Z.land (rd vmem 2) (rd Amem (A + 2))))
         (Z.land (rd vmem 3) (rd Amem (A + 3))).

(** [for (unsigned i = k; i; --i) { A = CONST_ROW(At, k - i);
      popcnt = parity(dot); res |= popcnt << (64 - i); }]
    with [parity] the parity helper of the backend. *)
Fixpoint parity_loop (parity : word -> word)
         (dot : list word -> list word -> nat -> word)
         (k : nat) (v At : mzd_local_t) (i : nat) (res : word) : word :=
  match i with
  | O => res
  | S i' =>
      let A := ROW At (k - i) in
      let popcnt := parity (dot (mem v) (mem At) A) in
      parity_loop parity dot k v At i'
        (Z.lor res (shl popcnt (64 - Z.of_nat i)))
  end.

(** [for (unsigned int j = 0; j < n; j++) cptr[j] = 0;] *)
Fixpoint zero_words (n j : nat) (c : list word) : list word :=
  match n with
  | O => c
  | S n' => zero_words n' (S j) (upd c j 0)
  end.

Definition mzd_mul_v_parity_uint64_128_30 (c v At : mzd_local_t) : mzd_local_t :=
  let cm := upd (mem c) 0 0 in
  let res := parity_loop parity64_uint64 dot_128 30 v At 30 0 in
  set_mem c (upd cm 1 res).

Definition mzd_mul_v_parity_uint64_192_30 (c v At : mzd_local_t) : mzd_local_t :=
  let cm := zero_words 2 0 (mem c) in
  let res := parity_loop parity64_uint64 dot_192 30 v At 30 0 in
  set_mem c (upd cm 2 res).

Definition mzd_mul_v_parity_uint64_256_30 (c v At : mzd_local_t) : mzd_local_t :=
  let cm := zero_words 3 0 (mem c) in
  let res := parity_loop parity64_uint64 dot_256 30 v At 30 0 in
  set_mem c (upd cm 3 res).

Definition mzd_mul_v_parity_uint64_128_3 (c v At : mzd_local_t) : mzd_local_t :=
  let cm := upd (mem c) 0 0 in
  let res := parity_loop parity64_uint64 dot_128 3 v At 3 0 in
  set_mem c (upd cm 1 res).

Definition mzd_mul_v_parity_uint64_192_3 (c v At : mzd_local_t) : mzd_local_t :=
  let cm := zero_words 2 0 (mem c) in
  let res := parity_loop parity64_uint64 dot_192 3 v At 3 0 in
  set_mem c (upd cm 2 res).

Definition mzd_mul_v_parity_uint64_256_3 (c v At : mzd_local_t) : mzd_local_t :=
  let cm := zero_words 3 0 (mem c) in
  let res := parity_loop parity64_uint64 dot_256 3 v At 3 0 in
  set_mem c (upd cm 3 res).

(** The scalar parity-dot entry points with the number of words [w] of
    their operands and the number [k] of result bits. *)
Definition parity_uint64_table
  : list ((mzd_local_t -> mzd_local_t -> mzd_local_t -> mzd_local_t) * nat * nat) :=
  [ (mzd_mul_v_parity_uint64_128_30, 2%nat, 30%nat);
    (mzd_mul_v_parity_uint64_192_30, 3%nat, 30%nat);
    (mzd_mul_v_parity_uint64_256_30, 4%nat, 30%nat);
    (mzd_mul_v_parity_uint64_128_3, 2%nat, 3%nat);
    (mzd_mul_v_parity_uint64_192_3, 3%nat, 3%nat);
    (mzd_mul_v_parity_uint64_256_3, 4%nat, 3%nat) ].

(** ** Reading a matrix as a GF(2) object *)

(** Bit [i] of the vector [v]: LSB-first across words, LSB-first within. *)
Definition vbit (v : mzd_local_t) (i : nat) : bool :=
  Z.testbit (rd (mem v) (i / 64)) (Z.of_nat (i mod 64)).

(** Entry [(i, k)] of [M]. *)
Definition mbit (M : mzd_local_t) (i k : nat) : bool :=
  Z.testbit (row_word M i (k / 64)) (Z.of_nat (k mod 64)).

(** A row word taken when its selecting bit is set, zero otherwise. *)
Definition sel (b : bool) (x : word) : word := if b then x else 0.

(** Word [j] of the product [v * A]: XOR of the rows selected by [v]. *)
Definition vecmat_word (v A : mzd_local_t) (j : nat) : word :=
  bigxor (width v * 64) (fun i => sel (vbit v i) (row_word A i j)).

(** Column [k] of [v * A] over GF(2): [sum_i v_i * A_(i,k)]. *)
Definition vecmat_bit (v A : mzd_local_t) (k : nat) : bool :=
  gf2_sum (width v * 64) (fun i => vbit v i && mbit A i k).

(** GF(2) inner product of the [w]-word vector [v] with row [i] of [At]. *)
Definition dot_bit (w : nat) (v At : mzd_local_t) (i : nat) : bool :=
  gf2_sum (w * 64) (fun t => vbit v t && mbit At i t).

(** What a parity-dot entry point with [w]-word operands and [k] result
    bits leaves in [c']: the words below the last one are zero; bit
    [64 - k + i] of the last word is the inner product of [v] with row [i]
    of [At]; the bits of the last word below those are zero; nothing else
    of [c] changes. *)
Definition parity_dot_result (w k : nat) (c v At c' : mzd_local_t) : Prop :=
  (forall j, (j < w - 1)%nat -> rd (mem c') j = 0) /\
  (forall i, (i < k)%nat ->
     Z.testbit (rd (mem c') (w - 1)) (64 - Z.of_nat k + Z.of_nat i)
     = dot_bit w v At i) /\
  (forall b, 0 <= b <= 63 - Z.of_nat k ->
     Z.testbit (rd (mem c') (w - 1)) b = false) /\
  in_range (rd (mem c') (w - 1)) /\
  (forall j, (w <= j)%nat -> rd (mem c') j = rd (mem c) j) /\
  length (mem c') = length (mem c).

(** Shape of a matrix as the allocator lays it out: storage of exactly
    [nrows * rowstride] in-range words, rows at least [width] long. *)
Record shaped (M : mzd_local_t) : Prop := {
  shaped_len : length (mem M) = (nrows M * rowstride M)%nat;
  shaped_width : (width M <= rowstride M)%nat;
  shaped_words : words_ok (mem M)
}.

(** A matrix laid out by [mzd_local_init_ex]: [width] and [rowstride] are
    the ones the allocator derives from [ncols]. *)
Record allocated (M : mzd_local_t) : Prop := {
  alloc_shaped : shaped M;
  alloc_width : width M = calculate_width (ncols M);
  alloc_rowstride : rowstride M = calculate_rowstride (width M)
}.

Definition allocatedb (M : mzd_local_t) : bool :=
  (length (mem M) =? nrows M * rowstride M)%nat
  && (width M <=? rowstride M)%nat && words_okb (mem M)
  && (width M =? calculate_width (ncols M))%nat
  && (rowstride M =? calculate_rowstride (width M))%nat.

(** Row [256 * k + combo] of a lookup table [B] for [A]: the XOR of the
    rows [8 * k + bit] of [A] over the set bits of [combo]. *)
Definition lookup_row_word (A : mzd_local_t) (k : nat) (combo : Z) (j : nat)
  : word :=
  bigxor 8 (fun bit => sel (Z.testbit combo (Z.of_nat bit))
                           (row_word A (8 * k + bit) j)).

Definition shapedb (M : mzd_local_t) : bool :=
  (length (mem M) =? nrows M * rowstride M)%nat
  && (width M <=? rowstride M)%nat && words_okb (mem M).

(** ** Copy and comparison *)

(** [mzd_local_copy(dst, src)]: a [memcpy] of
    [src->nrows * src->rowstride] words from the first row of [src] to
    the first row of [dst]. *)
Definition mzd_local_copy (dst src : mzd_local_t) : mzd_local_t :=
  let n := (nrows src * rowstride src)%nat in
  set_mem dst (firstn n (mem src) ++ skipn n (mem dst)).

(** [memcmp(a + pa, b + pb, sizeof(word) * n) != 0]: two regions of [n]
    words differ as byte strings exactly when some word differs. *)
Fixpoint words_differ (n : nat) (a b : list word) (pa pb : nat) : bool :=
  match n with
  | O => false
  | S n' => if rd a pa =? rd b pb then words_differ n' a b (S pa) (S pb)
            else true
  end.

(** [for (r = 0; r < rows; ++r) if (memcmp(...) != 0) return false;],
    [n] rows left. *)
Fixpoint equal_rows (n r : nat) (first second : mzd_local_t) : bool :=
  match n with
  | O => true
  | S n' =>
      if words_differ (width first) (mem first) (mem second)
           (ROW first r) (ROW second r)
      then false
      else equal_rows n' (S r) first second
  end.

(** [mzd_local_equal(first, second)]; [same_object] is the outcome of
    the pointer comparison [first == second]. *)
Definition mzd_local_equal (same_object : bool) (first second : mzd_local_t)
  : bool :=
  if same_object then true
  else if negb (ncols first =? ncols second)%nat
          || negb (nrows first =? nrows second)%nat
  then false
  else equal_rows (nrows first) 0 first second.

(** ** Multiplies by the top bits of the last word of [v] *)

(** [mzd_addmul_v_uint64_30(c, v, A)]: the 30 rows of [A] are selected by
    bits 34 to 63 of the last word of [v]; the rows are [v->width] words
    long. *)
Definition mzd_addmul_v_uint64_30 (c v A : mzd_local_t) : mzd_local_t :=
  let rowstride := rowstride A in
  let width := width v in
  let idx := shr (rd (mem v) (FIRST_ROW v + (width - 1))) 34 in
  set_mem c
    (snd (addmul_v_bits 30 width rowstride (mem A) idx (FIRST_ROW A) (mem c))).

(** [mzd_addmul_v_uint64_3(c, v, A)]: three rows, selected by bits 61 to
    63. *)
Definition mzd_addmul_v_uint64_3 (c v A : mzd_local_t) : mzd_local_t :=
  let rowstride := rowstride A in
  let width := width v in
  let idx := shr (rd (mem v) (FIRST_ROW v + (width - 1))) 61 in
  set_mem c
    (snd (addmul_v_bits 3 width rowstride (mem A) idx (FIRST_ROW A) (mem c))).

(** ** Bit extraction and shuffles *)

(** The loop of [extract_bits]:
    [for (bb = 1; mask != 0; bb <<= 1, mask &= (mask - 1))
       res |= bb & (-((word) !!(in & mask & -mask)));]
    Every turn clears the lowest set bit of [mask]; [fuel] turns are
    left.  The mask is returned with the result, so that one can tell
    that the loop has ended. *)
Fixpoint extract_bits_loop (fuel : nat) (in_ mask bb res : word)
  : word * word :=
  match fuel with
  | O => (mask, res)
  | S fuel' =>
      if mask =? 0 then (mask, res)
      else
        let hit := negb (Z.land (Z.land in_ mask) (neg mask) =? 0) in
        let res' := Z.lor res (Z.land bb (neg (Z.b2z hit))) in
        extract_bits_loop fuel' in_ (Z.land mask (wrap (mask - 1)))
          (shl bb 1) res'
  end.

(** [extract_bits(in, mask)]; a 64-bit mask is used up within 64 turns. *)
Definition extract_bits (in_ mask : word) : word :=
  snd (extract_bits_loop 64 in_ mask 1 0).

(** [mzd_shuffle_30(x, mask)]: the last word of the first row,
    [x->width - 1] for a row of at least one word. *)
Definition mzd_shuffle_30 (x : mzd_local_t) (mask : word) : mzd_local_t :=
  let last := (FIRST_ROW x + (width x - 1))%nat in
  let a := shl (extract_bits (rd (mem x) last) mask) 34 in
  set_mem x
    (upd (mem x) last
       (Z.lor a (extract_bits (rd (mem x) last) (lnot64 mask)))).

(** [mzd_shuffle_3(x, mask)] *)
Definition mzd_shuffle_3 (x : mzd_local_t) (mask : word) : mzd_local_t :=
  let last := (FIRST_ROW x + (width x - 1))%nat in
  let a := shl (extract_bits (rd (mem x) last) mask) 61 in
  set_mem x
    (upd (mem x) last
       (Z.lor a (extract_bits (rd (mem x) last) (lnot64 mask)))).

(** The bits of [x] at the set positions of [mask], packed upward from
    bit [k], scanning the [n] positions from [pos] on: a parallel bit
    extract. *)
Fixpoint pext_from (n pos k : nat) (x mask : word) : word :=
  match n with
  | O => 0
  | S n' =>
      if Z.testbit mask (Z.of_nat pos)
      then Z.lor (Z.shiftl (Z.b2z (Z.testbit x (Z.of_nat pos))) (Z.of_nat k))
                 (pext_from n' (S pos) (S k) x mask)
      else pext_from n' (S pos) k x mask
  end.

Definition pext (x mask : word) : word := pext_from 64 0 0 x mask.

(** The number of set bits of [mask] among the [n] positions from [pos]
    on, and below position [p]. *)
Fixpoint count_bits (n pos : nat) (mask : word) : nat :=
  match n with
  | O => O
  | S n' => ((if Z.testbit mask (Z.of_nat pos) then 1 else 0)
             + count_bits n' (S pos) mask)%nat
  end.

Definition rank (mask : word) (p : nat) : nat := count_bits p 0 mask.

Definition popcount (mask : word) : nat := rank mask 64.

(** The position to which a shuffle with [t] mask bits moves bit [p]:
    masked bits go, in order, to the top [t] positions and the others,
    in order, to the positions below. *)
Definition shuffle_target (t : nat) (mask : word) (p : nat) : nat :=
  if Z.testbit mask (Z.of_nat p)
  then ((64 - t) + rank mask p)%nat
  else rank (lnot64 mask) p.

End BinMat.

(* ================================================================== *)
(** * BinMat: the vector backends at 128 bits ([mzd_additional.c]) *)
(* ================================================================== *)

Module Simd.

Import BinMat.

(** A 128-bit vector: two 64-bit lanes, lane 0 at the lower address.
    [__m128i] under SSE2 and AVX2, [uint64x2_t] under NEON. *)
Record m128 : Type := M128 { lane0 : word; lane1 : word }.

(** A 256-bit vector ([__m256i]): two 128-bit halves, the low half at
    the lower address. *)
Record m256 : Type := M256 { low128 : m128; high128 : m128 }.

(** [p[k]] and [p[k] = x] through a vector pointer [p] that points at
    word [base] of the storage. *)
Definition load128 (mem : list word) (base k : nat) : m128 :=
  {| lane0 := rd mem (base + 2 * k); lane1 := rd mem (base + 2 * k + 1) |}.

Definition store128 (mem : list word) (base k : nat) (x : m128) : list word :=
  upd (upd mem (base + 2 * k) (lane0 x)) (base + 2 * k + 1) (lane1 x).

Definition load256 (mem : list word) (base k : nat) : m256 :=
  {| low128 := load128 mem base (2 * k);
     high128 := load128 mem base (2 * k + 1) |}.

(** ** Compiler intrinsics, lane by lane *)

Definition lanewise (f : word -> word -> word) (a b : m128) : m128 :=
  {| lane0 := f (lane0 a) (lane0 b); lane1 := f (lane1 a) (lane1 b) |}.

(** SSE2 *)
Definition _mm_xor_si128 : m128 -> m128 -> m128 := lanewise Z.lxor.
Definition _mm_and_si128 : m128 -> m128 -> m128 := lanewise Z.land.
Definition _mm_setzero_si128 : m128 := {| lane0 := 0; lane1 := 0 |}.
Definition _mm_set1_epi64x (a : word) : m128 := {| lane0 := a; lane1 := a |}.

(** NEON *)
Definition veorq_u64 : m128 -> m128 -> m128 := lanewise Z.lxor.
Definition vandq_u64 : m128 -> m128 -> m128 := lanewise Z.land.
Definition vdupq_n_u64 (a : word) : m128 := {| lane0 := a; lane1 := a |}.
Definition vmovq_n_u64 (a : word) : m128 := {| lane0 := a; lane1 := a |}.

(** AVX2 *)
Definition _mm256_xor_si256 (a b : m256) : m256 :=
  {| low128 := lanewise Z.lxor (low128 a) (low128 b);
     high128 := lanewise Z.lxor (high128 a) (high128 b) |}.
Definition _mm256_and_si256 (a b : m256) : m256 :=
  {| low128 := lanewise Z.land (low128 a) (low128 b);
     high128 := lanewise Z.land (high128 a) (high128 b) |}.
Definition _mm256_setzero_si256 : m256 :=
  {| low128 := _mm_setzero_si128; high128 := _mm_setzero_si128 |}.

(** [_mm256_set_epi64x(e3, e2, e1, e0)]: [e0] is the lowest lane. *)
Definition _mm256_set_epi64x (e3 e2 e1 e0 : word) : m256 :=
  {| low128 := {| lane0 := e0; lane1 := e1 |};
     high128 := {| lane0 := e2; lane1 := e3 |} |}.

(** [_mm256_extractf128_si256(a, imm)] *)
Definition _mm256_extractf128_si256 (a : m256) (imm : nat) : m128 :=
  match imm with
  | O => low128 a
  | _ => high128 a
  end.

(** [_mm256_castsi128_si256(a)]: the low half is [a]; the intrinsic
    leaves the upper 128 bits undefined, here [undefined]. *)
Definition _mm256_castsi128_si256 (undefined a : m128) : m256 :=
  {| low128 := a; high128 := undefined |}.

(** ** The 128-bit operations of [simd.h]

    Modelled from the spec: the header is not part of the sources.  It
    maps [mm128_xor] and [mm128_and] to the XOR and AND of the backend
    and builds [mm128_xor_mask(lhs, rhs, mask)] as
    [lhs ^ (rhs & mask)], the masked XOR of the multiply loops. *)
Class Simd128 : Type := {
  vzero : m128;
  vdup : word -> m128;
  vxor : m128 -> m128 -> m128;
  vand : m128 -> m128 -> m128;
  vzero_lanes : vzero = {| lane0 := 0; lane1 := 0 |};
  vdup_lanes : forall a, vdup a = {| lane0 := a; lane1 := a |};
  vxor_lanes : forall a b, vxor a b = lanewise Z.lxor a b;
  vand_lanes : forall a b, vand a b = lanewise Z.land a b
}.

#[export] Instance sse2 : Simd128 := {|
  vzero := _mm_setzero_si128;
  vdup := _mm_set1_epi64x;
  vxor := _mm_xor_si128;
  vand := _mm_and_si128;
  vzero_lanes := eq_refl;
  vdup_lanes := fun _ => eq_refl;
  vxor_lanes := fun _ _ => eq_refl;
  vand_lanes := fun _ _ => eq_refl
|}.

#[export] Instance neon : Simd128 := {|
  vzero := vmovq_n_u64 0;
  vdup := vdupq_n_u64;
  vxor := veorq_u64;
  vand := vandq_u64;
  vzero_lanes := eq_refl;
  vdup_lanes := fun _ => eq_refl;
  vxor_lanes := fun _ _ => eq_refl;
  vand_lanes := fun _ _ => eq_refl
|}.

Section Backend128.

Context {backend : Simd128}.

(** [mm128_compute_mask(idx, bit)]: [-((idx >> bit) & 1)] in both lanes. *)
Definition mm128_compute_mask (idx : word) (bit : Z) : m128 :=
  vdup (neg (Z.land (shr idx bit) 1)).

Definition mm128_xor_mask (lhs rhs mask : m128) : m128 :=
  vxor lhs (vand rhs mask).

(** [for (i = 64; i; i -= 4, idx >>= 4, mAptr += 4)] of the [_128]
    multiplies, [n] turns left; [mAptr] counts vectors from the first row
    of [A]. *)
Fixpoint mul_v_128_loop (n : nat) (Amem : list word) (Abase : nat) (idx : word)
         (mAptr : nat) (cval : m128 * m128) : nat * (m128 * m128) :=
  match n with
  | O => (mAptr, cval)
  | S n' =>
      let '(c0, c1) := cval in
      let c0 := mm128_xor_mask c0 (load128 Amem Abase (mAptr + 0))
                  (mm128_compute_mask idx 0) in
      let c1 := mm128_xor_mask c1 (load128 Amem Abase (mAptr + 1))
                  (mm128_compute_mask idx 1) in
      let c0 := mm128_xor_mask c0 (load128 Amem Abase (mAptr + 2))
                  (mm128_compute_mask idx 2) in
      let c1 := mm128_xor_mask c1 (load128 Amem Abase (mAptr + 3))
                  (mm128_compute_mask idx 3) in
      mul_v_128_loop n' Amem Abase (shr idx 4) (mAptr + 4) (c0, c1)
  end.

(** [for (w = 2; w; --w, ++vptr)] *)
Fixpoint mul_v_128_words (w : nat) (Amem vmem : list word) (Abase vptr : nat)
         (mAptr : nat) (cval : m128 * m128) : m128 * m128 :=
  match w with
  | O => cval
  | S w' =>
      let idx := rd vmem vptr in
      let '(mAptr', cval') := mul_v_128_loop 16 Amem Abase idx mAptr cval in
      mul_v_128_words w' Amem vmem Abase (S vptr) mAptr' cval'
  end.

(** [mzd_mul_v_sse_128] and [mzd_mul_v_neon_128] *)
Definition mzd_mul_v_128 (c v A : mzd_local_t) : mzd_local_t :=
  let cval := (vzero, vzero) in
  let '(c0, c1) :=
    mul_v_128_words 2 (mem A) (mem v) (FIRST_ROW A) (FIRST_ROW v) 0 cval in
  set_mem c (store128 (mem c) (FIRST_ROW c) 0 (vxor c0 c1)).

(** [mzd_addmul_v_sse_128] and [mzd_addmul_v_neon_128] *)
Definition mzd_addmul_v_128 (c v A : mzd_local_t) : mzd_local_t :=
  let cval := (load128 (mem c) (FIRST_ROW c) 0, vzero) in
  let '(c0, c1) :=
    mul_v_128_words 2 (mem A) (mem v) (FIRST_ROW A) (FIRST_ROW v) 0 cval in
  set_mem c (store128 (mem c) (FIRST_ROW c) 0 (vxor c0 c1)).

(** [mzd_xor_sse_128] and [mzd_xor_neon_128] *)
Definition mzd_xor_128 (res first second : mzd_local_t) : mzd_local_t :=
  set_mem res
    (store128 (mem res) (FIRST_ROW res) 0
       (vxor (load128 (mem first) (FIRST_ROW first) 0)
             (load128 (mem second) (FIRST_ROW second) 0))).

End Backend128.

Definition mzd_mul_v_sse_128 := @mzd_mul_v_128 sse2.
Definition mzd_addmul_v_sse_128 := @mzd_addmul_v_128 sse2.
Definition mzd_xor_sse_128 := @mzd_xor_128 sse2.
Definition mzd_mul_v_neon_128 := @mzd_mul_v_128 neon.
Definition mzd_addmul_v_neon_128 := @mzd_addmul_v_128 neon.
Definition mzd_xor_neon_128 := @mzd_xor_128 neon.

(** [mzd_xor_avx_128] works on [__m128i] with [_mm_xor_si128]. *)
Definition mzd_xor_avx_128 (res first second : mzd_local_t) : mzd_local_t :=
  set_mem res
    (store128 (mem res) (FIRST_ROW res) 0
       (_mm_xor_si128 (load128 (mem first) (FIRST_ROW first) 0)
                      (load128 (mem second) (FIRST_ROW second) 0))).

(** [while (width--) *resptr++ = *firstptr++ ^ *secondptr++;] *)
Fixpoint xor_uint64_loop (n i : nat) (res first second : list word)
  : list word :=
  match n with
  | O => res
  | S n' =>
      xor_uint64_loop n' (S i) (upd res i (Z.lxor (rd first i) (rd second i)))
        first second
  end.

Definition mzd_xor_uint64 (res first second : mzd_local_t) : mzd_local_t :=
  set_mem res (xor_uint64_loop (width first) 0 (mem res) (mem first) (mem second)).

(** ** AVX2 at 128 bits: two rows per 256-bit vector *)

(** [mm256_compute_mask_2(idx, bit)] *)
Definition mm256_compute_mask_2 (idx : word) (bit : Z) : m256 :=
  let m1 := neg (Z.land (shr idx bit) 1) in
  let m2 := neg (Z.land (shr idx (bit + 1)) 1) in
  _mm256_set_epi64x m2 m2 m1 m1.

(** [mm256_xor_mask(lhs, rhs, mask)], as [mm128_xor_mask]. *)
Definition mm256_xor_mask (lhs rhs mask : m256) : m256 :=
  _mm256_xor_si256 lhs (_mm256_and_si256 rhs mask).

(** [for (i = 64; i; i -= 8, idx >>= 8, mAptr += 4)], [n] turns left;
    [mAptr] counts 256-bit vectors. *)
Fixpoint mul_v_avx_128_loop (n : nat) (Amem : list word) (Abase : nat)
         (idx : word) (mAptr : nat) (cval : m256 * m256) : nat * (m256 * m256) :=
  match n with
  | O => (mAptr, cval)
  | S n' =>
      let '(c0, c1) := cval in
      let c0 := mm256_xor_mask c0 (load256 Amem Abase (mAptr + 0))
                  (mm256_compute_mask_2 idx 0) in
      let c1 := mm256_xor_mask c1 (load256 Amem Abase (mAptr + 1))
                  (mm256_compute_mask_2 idx 2) in
      let c0 := mm256_xor_mask c0 (load256 Amem Abase (mAptr + 2))
                  (mm256_compute_mask_2 idx 4) in
      let c1 := mm256_xor_mask c1 (load256 Amem Abase (mAptr + 3))
                  (mm256_compute_mask_2 idx 6) in
      mul_v_avx_128_loop n' Amem Abase (shr idx 8) (mAptr + 4) (c0, c1)
  end.

Fixpoint mul_v_avx_128_words (w : nat) (Amem vmem : list word)
         (Abase vptr : nat) (mAptr : nat) (cval : m256 * m256) : m256 * m256 :=
  match w with
  | O => cval
  | S w' =>
      let idx := rd vmem vptr in
      let '(mAptr', cval') := mul_v_avx_128_loop 8 Amem Abase idx mAptr cval in
      mul_v_avx_128_words w' Amem vmem Abase (S vptr) mAptr' cval'
  end.

(** The end of both AVX2 functions: fold the two accumulators and the
    two halves into [*mcptr]. *)
Definition fold_avx_128 (c : mzd_local_t) (cval : m256 * m256) : mzd_local_t :=
  let '(c0, c1) := cval in
  let c0 := _mm256_xor_si256 c0 c1 in
  set_mem c
    (store128 (mem c) (FIRST_ROW c) 0
       (_mm_xor_si128 (_mm256_extractf128_si256 c0 0)
                      (_mm256_extractf128_si256 c0 1))).

Definition mzd_mul_v_avx_128 (c v A : mzd_local_t) : mzd_local_t :=
  let cval := (_mm256_setzero_si256, _mm256_setzero_si256) in
  fold_avx_128 c
    (mul_v_avx_128_words 2 (mem A) (mem v) (FIRST_ROW A) (FIRST_ROW v) 0 cval).

(** [mzd_addmul_v_avx_128]; [undefined] is what the cast leaves in the
    upper half of [cval[0]]. *)
Definition mzd_addmul_v_avx_128 (undefined : m128) (c v A : mzd_local_t)
  : mzd_local_t :=
  let cval := (_mm256_castsi128_si256 undefined (load128 (mem c) (FIRST_ROW c) 0),
               _mm256_setzero_si256) in
  fold_avx_128 c
    (mul_v_avx_128_words 2 (mem A) (mem v) (FIRST_ROW A) (FIRST_ROW v) 0 cval).

(** ** What the accumulators hold *)

Definition lane (j : nat) (x : m128) : word :=
  match j with
  | O => lane0 x
  | _ => lane1 x
  end.

(** Lane [j] of the XOR of the two 128-bit accumulators. *)
Definition fold128 (cval : m128 * m128) (j : nat) : word :=
  Z.lxor (lane j (fst cval)) (lane j (snd cval)).

(** Lane [j] of the XOR of the two halves of a 256-bit vector. *)
Definition half_sum (x : m256) (j : nat) : word :=
  Z.lxor (lane j (low128 x)) (lane j (high128 x)).

(** Lane [j] of the XOR of the four halves of the two 256-bit
    accumulators. *)
Definition fold256 (cval : m256 * m256) (j : nat) : word :=
  Z.lxor (half_sum (fst cval) j) (half_sum (snd cval) j).

(** ** Operands of the 128-bit specializations *)

(** A 128-bit vector: one row of two words. *)
Record vector_128 (x : mzd_local_t) : Prop := {
  v128_nrows : nrows x = 1%nat;
  v128_width : width x = 2%nat;
  v128_rowstride : rowstride x = 2%nat;
  v128_mem : length (mem x) = 2%nat;
  v128_words : words_ok (mem x)
}.

(** A matrix of 128 rows of 128 bits. *)
Record matrix_128 (A : mzd_local_t) : Prop := {
  m128_nrows : nrows A = 128%nat;
  m128_width : width A = 2%nat;
  m128_rowstride : rowstride A = 2%nat;
  m128_mem : length (mem A) = 256%nat;
  m128_words : words_ok (mem A)
}.

(** ** Whole-row XOR, one vector per step *)

Definition store256 (mem : list word) (base k : nat) (x : m256) : list word :=
  store128 (store128 mem base (2 * k) (low128 x)) base (2 * k + 1) (high128 x).

Section Backend128Xor.

Context {backend : Simd128}.

(** [do { *mresptr++ = xor( *mfirstptr++, *msecondptr++ );
         width -= sizeof(__m128i) / sizeof(word); } while (width);]
    with [unsigned int width]; [k] vectors are done. *)
Fixpoint xor_128_loop (fuel : nat) (width : Z) (k : nat)
         (res first second : list word) (rbase fbase sbase : nat)
  : option (list word) :=
  match fuel with
  | O => None
  | S fuel' =>
      let res' := store128 res rbase k
                    (vxor (load128 first fbase k) (load128 second sbase k)) in
      let width' := (width - 2) mod 2 ^ 32 in
      if width' =? 0 then Some res'
      else xor_128_loop fuel' width' (S k) res' first second rbase fbase sbase
  end.

(** [mzd_xor_sse] and [mzd_xor_neon] *)
Definition mzd_xor_by_128 (fuel : nat) (res first second : mzd_local_t)
  : option mzd_local_t :=
  let width := Z.of_nat (rowstride first) in
  match xor_128_loop fuel width 0 (mem res) (mem first) (mem second)
          (FIRST_ROW res) (FIRST_ROW first) (FIRST_ROW second) with
  | Some m => Some (set_mem res m)
  | None => None
  end.

End Backend128Xor.

Definition mzd_xor_sse := @mzd_xor_by_128 sse2.
Definition mzd_xor_neon := @mzd_xor_by_128 neon.

(** The loop of [mzd_xor_avx]: four words per step. *)
Fixpoint xor_256_loop (fuel : nat) (width : Z) (k : nat)
         (res first second : list word) (rbase fbase sbase : nat)
  : option (list word) :=
  match fuel with
  | O => None
  | S fuel' =>
      let res' := store256 res rbase k
                    (_mm256_xor_si256 (load256 first fbase k)
                                      (load256 second sbase k)) in
      let width' := (width - 4) mod 2 ^ 32 in
      if width' =? 0 then Some res'
      else xor_256_loop fuel' width' (S k) res' first second rbase fbase sbase
  end.

Definition mzd_xor_avx (fuel : nat) (res first second : mzd_local_t)
  : option mzd_local_t :=
  let width := Z.of_nat (rowstride first) in
  match xor_256_loop fuel width 0 (mem res) (mem first) (mem second)
          (FIRST_ROW res) (FIRST_ROW first) (FIRST_ROW second) with
  | Some m => Some (set_mem res m)
  | None => None
  end.

(** ** Multiplies by the top bits at 128 bits *)

Section Backend128Top.

Context {backend : Simd128}.

(** [for (i = 28; i; i -= 4, idx >>= 4, mAptr += 4)] of the [_30_128]
    multiplies, [n] turns left; [idx] is returned for the two rows that
    follow the loop. *)
Fixpoint top_128_loop (n : nat) (Amem : list word) (Abase : nat) (idx : word)
         (mAptr : nat) (cval : m128 * m128) : word * nat * (m128 * m128) :=
  match n with
  | O => (idx, mAptr, cval)
  | S n' =>
      let '(c0, c1) := cval in
      let c0 := mm128_xor_mask c0 (load128 Amem Abase (mAptr + 0))
                  (mm128_compute_mask idx 0) in
      let c1 := mm128_xor_mask c1 (load128 Amem Abase (mAptr + 1))
                  (mm128_compute_mask idx 1) in
      let c0 := mm128_xor_mask c0 (load128 Amem Abase (mAptr + 2))
                  (mm128_compute_mask idx 2) in
      let c1 := mm128_xor_mask c1 (load128 Amem Abase (mAptr + 3))
                  (mm128_compute_mask idx 3) in
      top_128_loop n' Amem Abase (shr idx 4) (mAptr + 4) (c0, c1)
  end.

(** [mzd_addmul_v_sse_30_128] and [mzd_addmul_v_neon_30_128] *)
Definition mzd_addmul_v_30_128 (c v A : mzd_local_t) : mzd_local_t :=
  let cval := (load128 (mem c) (FIRST_ROW c) 0, vzero) in
  let idx := shr (rd (mem v) (FIRST_ROW v + 1)) 34 in
  let '(idx, mAptr, (c0, c1)) :=
    top_128_loop 7 (mem A) (FIRST_ROW A) idx 0 cval in
  let c0 := mm128_xor_mask c0 (load128 (mem A) (FIRST_ROW A) (mAptr + 0))
              (mm128_compute_mask idx 0) in
  let c1 := mm128_xor_mask c1 (load128 (mem A) (FIRST_ROW A) (mAptr + 1))
              (mm128_compute_mask idx 1) in
  set_mem c (store128 (mem c) (FIRST_ROW c) 0 (vxor c0 c1)).

(** [mzd_addmul_v_sse_3_128] and [mzd_addmul_v_neon_3_128] *)
Definition mzd_addmul_v_3_128 (c v A : mzd_local_t) : mzd_local_t :=
  let c0 := load128 (mem c) (FIRST_ROW c) 0 in
  let c1 := vzero in
  let idx := shr (rd (mem v) (FIRST_ROW v + 1)) 61 in
  let c0 := mm128_xor_mask c0 (load128 (mem A) (FIRST_ROW A) 0)
              (mm128_compute_mask idx 0) in
  let c1 := mm128_xor_mask c1 (load128 (mem A) (FIRST_ROW A) 1)
              (mm128_compute_mask idx 1) in
  let c0 := mm128_xor_mask c0 (load128 (mem A) (FIRST_ROW A) 2)
              (mm128_compute_mask idx 2) in
  set_mem c (store128 (mem c) (FIRST_ROW c) 0 (vxor c0 c1)).

End Backend128Top.

Definition mzd_addmul_v_sse_30_128 := @mzd_addmul_v_30_128 sse2.
Definition mzd_addmul_v_neon_30_128 := @mzd_addmul_v_30_128 neon.
Definition mzd_addmul_v_sse_3_128 := @mzd_addmul_v_3_128 sse2.
Definition mzd_addmul_v_neon_3_128 := @mzd_addmul_v_3_128 neon.

(** [for (i = 24; i; i -= 8, idx >>= 8, mAptr += 4)] of
    [mzd_addmul_v_avx_30_128]. *)
Fixpoint top_avx_128_loop (n : nat) (Amem : list word) (Abase : nat)
         (idx : word) (mAptr : nat) (cval : m256 * m256)
  : word * nat * (m256 * m256) :=
  match n with
  | O => (idx, mAptr, cval)
  | S n' =>
      let '(c0, c1) := cval in
      let c0 := mm256_xor_mask c0 (load256 Amem Abase (mAptr + 0))
                  (mm256_compute_mask_2 idx 0) in
      let c1 := mm256_xor_mask c1 (load256 Amem Abase (mAptr + 1))
                  (mm256_compute_mask_2 idx 2) in
      let c0 := mm256_xor_mask c0 (load256 Amem Abase (mAptr + 2))
                  (mm256_compute_mask_2 idx 4) in
      let c1 := mm256_xor_mask c1 (load256 Amem Abase (mAptr + 3))
                  (mm256_compute_mask_2 idx 6) in
      top_avx_128_loop n' Amem Abase (shr idx 8) (mAptr + 4) (c0, c1)
  end.

(** [mzd_addmul_v_avx_30_128]; [undefined] as in [mzd_addmul_v_avx_128]. *)
Definition mzd_addmul_v_avx_30_128 (undefined : m128) (c v A : mzd_local_t)
  : mzd_local_t :=
  let cval := (_mm256_castsi128_si256 undefined (load128 (mem c) (FIRST_ROW c) 0),
               _mm256_setzero_si256) in
  let idx := shr (rd (mem v) (FIRST_ROW v + 1)) 34 in
  let '(idx, mAptr, (c0, c1)) :=
    top_avx_128_loop 3 (mem A) (FIRST_ROW A) idx 0 cval in
  let c0 := mm256_xor_mask c0 (load256 (mem A) (FIRST_ROW A) (mAptr + 0))
              (mm256_compute_mask_2 idx 0) in
  let c1 := mm256_xor_mask c1 (load256 (mem A) (FIRST_ROW A) (mAptr + 1))
              (mm256_compute_mask_2 idx 2) in
  let c0 := mm256_xor_mask c0 (load256 (mem A) (FIRST_ROW A) (mAptr + 2))
              (mm256_compute_mask_2 idx 4) in
  fold_avx_128 c (c0, c1).

(** ** AVX2 at 192 and 256 bits: one row per 256-bit vector *)

Definition _mm256_set1_epi64x (a : word) : m256 :=
  {| low128 := {| lane0 := a; lane1 := a |};
     high128 := {| lane0 := a; lane1 := a |} |}.

(** [mm256_compute_mask(idx, bit)] *)
Definition mm256_compute_mask (idx : word) (bit : Z) : m256 :=
  _mm256_set1_epi64x (neg (Z.land (shr idx bit) 1)).

(** [for (i = 64; i; i -= 4, idx >>= 4, mAptr += 4)], [n] turns left. *)
Fixpoint mul_v_avx_256_loop (n : nat) (Amem : list word) (Abase : nat)
         (idx : word) (mAptr : nat) (cval : m256 * m256) : nat * (m256 * m256) :=
  match n with
  | O => (mAptr, cval)
  | S n' =>
      let '(c0, c1) := cval in
      let c0 := mm256_xor_mask c0 (load256 Amem Abase (mAptr + 0))
                  (mm256_compute_mask idx 0) in
      let c1 := mm256_xor_mask c1 (load256 Amem Abase (mAptr + 1))
                  (mm256_compute_mask idx 1) in
      let c0 := mm256_xor_mask c0 (load256 Amem Abase (mAptr + 2))
                  (mm256_compute_mask idx 2) in
      let c1 := mm256_xor_mask c1 (load256 Amem Abase (mAptr + 3))
                  (mm256_compute_mask idx 3) in
      mul_v_avx_256_loop n' Amem Abase (shr idx 4) (mAptr + 4) (c0, c1)
  end.

(** [for (w = 3 or 4; w; --w, ++vptr)] *)
Fixpoint mul_v_avx_256_words (w : nat) (Amem vmem : list word)
         (Abase vptr : nat) (mAptr : nat) (cval : m256 * m256) : m256 * m256 :=
  match w with
  | O => cval
  | S w' =>
      let idx := rd vmem vptr in
      let '(mAptr', cval') := mul_v_avx_256_loop 16 Amem Abase idx mAptr cval in
      mul_v_avx_256_words w' Amem vmem Abase (S vptr) mAptr' cval'
  end.

(** [*mcptr = _mm256_xor_si256(cval[0], cval[1])] *)
Definition store_avx_256 (c : mzd_local_t) (cval : m256 * m256) : mzd_local_t :=
  set_mem c (store256 (mem c) (FIRST_ROW c) 0
               (_mm256_xor_si256 (fst cval) (snd cval))).

Definition mzd_mul_v_avx_192 (c v A : mzd_local_t) : mzd_local_t :=
  let cval := (_mm256_setzero_si256, _mm256_setzero_si256) in
  store_avx_256 c
    (mul_v_avx_256_words 3 (mem A) (mem v) (FIRST_ROW A) (FIRST_ROW v) 0 cval).

Definition mzd_addmul_v_avx_192 (c v A : mzd_local_t) : mzd_local_t :=
  let cval := (load256 (mem c) (FIRST_ROW c) 0, _mm256_setzero_si256) in
  store_avx_256 c
    (mul_v_avx_256_words 3 (mem A) (mem v) (FIRST_ROW A) (FIRST_ROW v) 0 cval).

Definition mzd_mul_v_avx_256 (c v A : mzd_local_t) : mzd_local_t :=
  let cval := (_mm256_setzero_si256, _mm256_setzero_si256) in
  store_avx_256 c
    (mul_v_avx_256_words 4 (mem A) (mem v) (FIRST_ROW A) (FIRST_ROW v) 0 cval).

Definition mzd_addmul_v_avx_256 (c v A : mzd_local_t) : mzd_local_t :=
  let cval := (load256 (mem c) (FIRST_ROW c) 0, _mm256_setzero_si256) in
  store_avx_256 c
    (mul_v_avx_256_words 4 (mem A) (mem v) (FIRST_ROW A) (FIRST_ROW v) 0 cval).

(** Lane [j] of a 256-bit vector, lane 0 at the lowest address. *)
Definition lane256 (j : nat) (x : m256) : word :=
  match j with
  | O => lane0 (low128 x)
  | S O => lane1 (low128 x)
  | S (S O) => lane0 (high128 x)
  | _ => lane1 (high128 x)
  end.

(** A one-row operand of [w] words in a row of four, and a matrix of
    [64 w] such rows. *)
Record vector_in_256 (w : nat) (x : mzd_local_t) : Prop := {
  v256_nrows : nrows x = 1%nat;
  v256_width : width x = w;
  v256_rowstride : rowstride x = 4%nat;
  v256_mem : length (mem x) = 4%nat;
  v256_words : words_ok (mem x)
}.

Record matrix_in_256 (w : nat) (A : mzd_local_t) : Prop := {
  m256_nrows : nrows A = (w * 64)%nat;
  m256_width : width A = w;
  m256_rowstride : rowstride A = 4%nat;
  m256_mem : length (mem A) = (w * 64 * 4)%nat;
  m256_words : words_ok (mem A)
}.

(** ** Shuffles by [pext] *)

(** [_pext_u32(a, mask)] (BMI2): the bits of the 32-bit [a] at the set
    positions of the 32-bit [mask], packed from bit 0 upward. *)
Definition _pext_u32 (a mask : Z) : Z := pext_from 32 0 0 a mask.

(** [popcount_32(value)]: three chunks of 12, 12 and 8 bits
    ([value & 0xfff], [(value & 0xfff000) >> 12], [value >> 24]), each
    multiplied in 64 bits by [0x1001001001001], masked by
    [0x84210842108421] and reduced modulo [0x1f]; the sum is returned as
    [uint8_t]. *)
Definition popcount_32 (value : Z) : Z :=
  let result :=
    Z.land (wrap (Z.land value 4095 * 281543712968705)) 37191016277640225
    mod 31 in
  let result :=
    wrap (result
          + Z.land (wrap (shr (Z.land value 16773120) 12 * 281543712968705))
                   37191016277640225 mod 31) in
  let result :=
    wrap (result
          + Z.land (wrap (shr value 24 * 281543712968705))
                   37191016277640225 mod 31) in
  result mod 256.

(** [_pext_u64(a, mask)] where it is not an intrinsic: both halves are
    extracted by [_pext_u32], whose arguments are converted to 32 bits,
    and the upper result is shifted past the bits of the lower one. *)
Definition _pext_u64 (a mask : word) : word :=
  let low := _pext_u32 (a mod 2 ^ 32) (mask mod 2 ^ 32) in
  let high := _pext_u32 (shr a 32 mod 2 ^ 32) (shr mask 32 mod 2 ^ 32) in
  Z.lor (shl high (popcount_32 (mask mod 2 ^ 32))) low.

(** [mzd_shuffle_pext_30(x, mask)] *)
Definition mzd_shuffle_pext_30 (x : mzd_local_t) (mask : word)
  : mzd_local_t :=
  let last := (FIRST_ROW x + (width x - 1))%nat in
  let a := shl (_pext_u64 (rd (mem x) last) mask) 34 in
  set_mem x
    (upd (mem x) last (Z.lor a (_pext_u64 (rd (mem x) last) (lnot64 mask)))).

(** [mzd_shuffle_pext_3(x, mask)] *)
Definition mzd_shuffle_pext_3 (x : mzd_local_t) (mask : word)
  : mzd_local_t :=
  let last := (FIRST_ROW x + (width x - 1))%nat in
  let a := shl (_pext_u64 (rd (mem x) last) mask) 61 in
  set_mem x
    (upd (mem x) last (Z.lor a (_pext_u64 (rd (mem x) last) (lnot64 mask)))).

End Simd.
(* ================================================================== *)
(** * Picnic2: bits, tapes and the auxiliary-tape engine
      ([picnic2_impl.c]) *)
(* ================================================================== *)

Module Tape.

Import BinMat.

(** A [uint8_t] is a [Z] in [[0, 256)]. *)
Definition byte_ok (b : Z) : Prop := 0 <= b < 256.

Definition bytes_ok (l : list Z) : Prop := Forall byte_ok l.

Definition bytes_okb (l : list Z) : bool :=
  forallb (fun b => (0 <=? b) && (b <? 256)) l.

(** [array[i]] for a byte array. *)
Definition rdb (l : list Z) (i : nat) : Z := rd_gen 0 l i.

(** [getBit(array, bitNumber)]:
    [(array[bitNumber / 8] >> (7 - (bitNumber % 8))) & 0x01].

    Modelled from the spec: the helper is defined outside the two source
    files; bit 0 of a byte string is the most significant bit of its first
    byte (the big-endian bit order of the design notes). *)
Definition getBit (array : list Z) (bitNumber : nat) : Z :=
  Z.land (Z.shiftr (rdb array (bitNumber / 8)) (7 - Z.of_nat (bitNumber mod 8))) 1.

(** [setBit(bytes, bitNumber, val)]:
    [bytes[bitNumber / 8] = (bytes[bitNumber >> 3]
        & ~(1 << (7 - (bitNumber % 8)))) | (val << (7 - (bitNumber % 8)))],
    stored back as a [uint8_t].

    Modelled from the spec: same provenance as [getBit]. *)
Definition setBit (bytes : list Z) (bitNumber : nat) (val : Z) : list Z :=
  let s := 7 - Z.of_nat (bitNumber mod 8) in
  upd bytes (bitNumber / 8)
    ((Z.lor (Z.land (rdb bytes (bitNumber / 8)) (Z.lnot (Z.shiftl 1 s)))
            (Z.shiftl val s)) mod 256).

(** The object representation of a [uint64_t] on a little-endian host,
    which is what a cast of [&w] to a byte pointer gives. *)
Definition bytes_of_word (w : word) : list Z :=
  map (fun k => Z.land (Z.shiftr w (8 * Z.of_nat k)) 255) (seq 0 8).

(** The [uint64_t] whose object representation is [bs]. *)
Fixpoint word_of_bytes (bs : list Z) : word :=
  match bs with
  | [] => 0
  | b :: t => Z.lor b (Z.shiftl (word_of_bytes t) 8)
  end.

(** [randomTape_t]: one byte string per party and a bit cursor. *)
Record randomTape_t : Type := RandomTape {
  tape : list (list Z);
  pos : nat;
  nTapes : nat
}.

Definition party_tape (tapes : randomTape_t) (i : nat) : list Z :=
  nth i (tape tapes) [].

Definition set_pos (tapes : randomTape_t) (p : nat) : randomTape_t :=
  {| tape := tape tapes; pos := p; nTapes := nTapes tapes |}.

Definition set_party_tape (tapes : randomTape_t) (i : nat) (t : list Z)
  : randomTape_t :=
  {| tape := upd (tape tapes) i t; pos := pos tapes; nTapes := nTapes tapes |}.

(** [for (i = 0; i < 64; i++) setBit(bytes of shares, i, getBit(tape[i], pos));] *)
Fixpoint gather_bits (n i : nat) (tapes : randomTape_t) (shares : list Z)
  : list Z :=
  match n with
  | O => shares
  | S n' =>
      let bit := getBit (party_tape tapes i) (pos tapes) in
      gather_bits n' (S i) tapes (setBit shares i bit)
  end.

(** [tapesToWord(tapes)]: the bit at the cursor of each of the 64 tapes,
    party [i] at bit [i] of the word's bytes; the cursor advances by one.

    Modelled from the spec: section 4.2 describes the function, which is
    defined outside the two source files. *)
Definition tapesToWord (tapes : randomTape_t) : word * randomTape_t :=
  let shares := gather_bits 64 0 tapes (repeat 0 8) in
  (word_of_bytes shares, set_pos tapes (S (pos tapes))).

(** [aux_mpc_AND(mask_a, mask_b, tapes)] *)
Definition aux_mpc_AND (mask_a mask_b : word) (tapes : randomTape_t)
  : word * randomTape_t :=
  let '(fresh_output_mask, tapes1) := tapesToWord tapes in
  let '(and_helper, tapes2) := tapesToWord tapes1 in
  let and_helper' := word_of_bytes (setBit (bytes_of_word and_helper) 63 0) in
  let aux_bit := Z.lxor (Z.land mask_a mask_b) (parity64_uint64 and_helper') in
  let lastParty := (nTapes tapes2 - 1)%nat in
  let tapes3 :=
    set_party_tape tapes2 lastParty
      (setBit (party_tape tapes2 lastParty) (pos tapes2 - 1) (aux_bit mod 256)) in
  (fresh_output_mask, tapes3).

(** One turn of the S-box loop of [sbox_layer_10_uint64_aux], on the
    eight state bytes. *)
Definition sbox_aux_step (i : nat) (st : list Z * randomTape_t)
  : list Z * randomTape_t :=
  let '(state, tapes) := st in
  let a := getBit state (i + 2) in
  let b := getBit state (i + 1) in
  let c := getBit state (i + 0) in
  let '(m_ab, tapes1) := aux_mpc_AND a b tapes in
  let ab := parity64_uint64 m_ab in
  let '(m_bc, tapes2) := aux_mpc_AND b c tapes1 in
  let bc := parity64_uint64 m_bc in
  let '(m_ca, tapes3) := aux_mpc_AND c a tapes2 in
  let ca := parity64_uint64 m_ca in
  let state1 := setBit state (i + 2) (Z.lxor a bc) in
  let state2 := setBit state1 (i + 1) (Z.lxor (Z.lxor a b) ca) in
  let state3 := setBit state2 (i + 0) (Z.lxor (Z.lxor (Z.lxor a b) c) ab) in
  (state3, tapes3).

(** [for (uint32_t i = 0; i < 30; i += 3)], [n] turns left. *)
Fixpoint sbox_aux_loop (n i : nat) (st : list Z * randomTape_t)
  : list Z * randomTape_t :=
  match n with
  | O => st
  | S n' => sbox_aux_loop n' (i + 3) (sbox_aux_step i st)
  end.

(** [htobe64] / [be64toh] on a little-endian host followed by the
    [memcpy] to or from a byte array: the bytes of [d], most significant
    first. *)
Definition be_bytes_of_word (d : word) : list Z := rev (bytes_of_word d).

Definition word_of_be_bytes (bs : list Z) : word := word_of_bytes (rev bs).

(** [sbox_layer_10_uint64_aux(d, tapes)] *)
Definition sbox_layer_10_uint64_aux (d : word) (tapes : randomTape_t)
  : word * randomTape_t :=
  let state := be_bytes_of_word d in
  let '(state', tapes') := sbox_aux_loop 10 0 (state, tapes) in
  (word_of_be_bytes state', tapes').

(** [tapesToWords(shares, tapes)]: [numWords] successive [tapesToWord]s. *)
Fixpoint tapesToWords (numWords : nat) (tapes : randomTape_t)
  : list word * randomTape_t :=
  match numWords with
  | O => ([], tapes)
  | S n' =>
      let '(w, tapes1) := tapesToWord tapes in
      let '(ws, tapes2) := tapesToWords n' tapes1 in
      (w :: ws, tapes2)
  end.

(** [for (i = 0; i < n; i++) setBit(temp, i, parity64_uint64(key->shares[i]));] *)
Fixpoint key_bits (shares : list word) (i : nat) (temp : list Z) : list Z :=
  match shares with
  | [] => temp
  | s :: rest => key_bits rest (S i) (setBit temp i (parity64_uint64 s))
  end.

Section AuxEngine.

(** [mzd_from_char_array] and the cipher's aux evaluation behind
    [params->impls.lowmc_aux] are defined outside the two source files and
    are taken as parameters. *)
Variable mzd_from_char_array : mzd_local_t -> list Z -> nat -> mzd_local_t.
Variable lowmc_aux_impl : mzd_local_t -> randomTape_t -> randomTape_t.

(** [computeAuxTape(tapes, params)] with [n = params->lowmc->n]. *)
Definition computeAuxTape (n : nat) (tapes : randomTape_t) : randomTape_t :=
  let lowmc_key := mzd_local_init_ex [] n 1 true in
  let '(key, tapes1) := tapesToWords n tapes in
  let temp := key_bits key 0 (repeat 0 32) in
  let lowmc_key' := mzd_from_char_array lowmc_key temp (n / 8) in
  let tapes2 := lowmc_aux_impl lowmc_key' tapes1 in
  set_pos tapes2 0.

End AuxEngine.

(** ** What the engine is meant to establish *)

(** The and-helper shares of the gate whose helper word sits at tape
    position [p]: bit [i] is party [i]'s share. *)
Definition helper_shares (tapes : randomTape_t) (p : nat) : word :=
  fst (tapesToWord (set_pos tapes p)).

(** The AND-gate invariant at position [p] for input masks [a], [b]. *)
Definition gate_ok (tapes : randomTape_t) (p : nat) (a b : word) : Prop :=
  parity64_uint64 (helper_shares tapes p) = Z.land a b.

(** A run of AND gates, masks given gate by gate. *)
Fixpoint run_gates (gates : list (word * word)) (tapes : randomTape_t)
  : randomTape_t :=
  match gates with
  | [] => tapes
  | (a, b) :: rest => run_gates rest (snd (aux_mpc_AND a b tapes))
  end.

(** The input masks of the three [aux_mpc_AND] calls of one turn of the
    S-box loop, and of the calls of the whole loop, in the order of the
    calls. *)
Definition sbox_aux_step_gates (i : nat) (state : list Z) : list (word * word) :=
  let a := getBit state (i + 2) in
  let b := getBit state (i + 1) in
  let c := getBit state (i + 0) in
  [(a, b); (b, c); (c, a)].

Fixpoint sbox_aux_loop_gates (n i : nat) (st : list Z * randomTape_t)
  : list (word * word) :=
  match n with
  | O => []
  | S n' =>
      sbox_aux_step_gates i (fst st)
      ++ sbox_aux_loop_gates n' (i + 3) (sbox_aux_step i st)
  end.

(** The AND gates [sbox_layer_10_uint64_aux(d, tapes)] processes. *)
Definition sbox_layer_10_gates (d : word) (tapes : randomTape_t)
  : list (word * word) :=
  sbox_aux_loop_gates 10 0 (be_bytes_of_word d, tapes).

Definition is_bit (x : Z) : Prop := x = 0 \/ x = 1.

Definition masks_are_bits (g : word * word) : Prop :=
  is_bit (fst g) /\ is_bit (snd g).

(** The XOR over the 64 parties of the bit each tape holds at [p]. *)
Definition party_parity (tapes : randomTape_t) (p : nat) : Z :=
  Z.b2z (gf2_sum 64 (fun i => getBit (party_tape tapes i) p =? 1)).

(** 64 tapes, each long enough to hold [bits] bits, all bytes in range. *)
Record tapes_ok (tapes : randomTape_t) (bits : nat) : Prop := {
  tapes_n : nTapes tapes = 64%nat;
  tapes_len : length (tape tapes) = 64%nat;
  tapes_bytes : forall i, (i < 64)%nat -> bytes_ok (party_tape tapes i);
  tapes_bits : forall i, (i < 64)%nat ->
                 (bits <= 8 * length (party_tape tapes i))%nat
}.

Definition tapes_okb (tapes : randomTape_t) (bits : nat) : bool :=
  (nTapes tapes =? 64)%nat && (length (tape tapes) =? 64)%nat
  && forallb (fun t => bytes_okb t && (bits <=? 8 * length t)%nat) (tape tapes).

End Tape.
(* ================================================================== *)
(** * Picnic2: signature (de)serialization ([picnic2_impl.c]) *)
(* ================================================================== *)

Module Sig.

Import Tape.

(** [picnic_instance_t], the fields the two source files read.
    [lowmc_n], [lowmc_r], [lowmc_m] stand for [params->lowmc->n], [->r],
    [->m].  The values are far below every integer width involved and are
    kept as natural numbers. *)
Record picnic_instance_t : Type := Params {
  lowmc_n : nat;
  lowmc_r : nat;
  lowmc_m : nat;
  num_rounds : nat;
  num_opened_rounds : nat;
  num_MPC_parties : nat;
  seed_size : nat;
  input_size : nat;
  view_size : nat;
  digest_size : nat
}.

(** [SALT_SIZE]; the specification fixes it at 32 bytes. *)
Definition SALT_SIZE : nat := 32.

Definition EXIT_SUCCESS : Z := 0.
Definition EXIT_FAILURE : Z := 1.

(** [proof2_t] *)
Record proof2_t : Type := Proof2 {
  seedInfo : list Z;
  seedInfoLen : nat;
  aux : list Z;
  C : list Z;
  input : list Z;
  msgs : list Z;
  unOpenedIndex : Z
}.

(** [signature2_t]; [challengeC] and [challengeP] are [uint16_t] arrays,
    [proofs] has one slot per round. *)
Record signature2_t : Type := Signature2 {
  salt : list Z;
  iSeedInfo : list Z;
  iSeedInfoLen : nat;
  cvInfo : list Z;
  cvInfoLen : nat;
  challengeC : list Z;
  challengeP : list Z;
  proofs : list proof2_t
}.

(** [list[i]] for a [uint16_t] array. *)
Definition rd16 (l : list Z) (i : nat) : Z := rd_gen 0 l i.

(** [numBytes(numBits)]: [(numBits + 7) >> 3] on [uint32_t]; the
    argument is converted to 32 bits and the sum wraps. *)
Definition numBytes (numBits : nat) : nat :=
  Z.to_nat (Z.shiftr ((Z.of_nat numBits + 7) mod 2 ^ 32) 3).

(** The value a [size_t] takes when passed as a [uint16_t] argument. *)
Definition to_u16 (t : nat) : Z := Z.of_nat t mod 65536.

(** [contains(list, len, value)]; [n] entries left, [i] the current one. *)
Fixpoint contains_loop (n i : nat) (list : list Z) (value : Z) : Z :=
  match n with
  | O => 0
  | S n' => if rd16 list i =? value then 1 else contains_loop n' (S i) list value
  end.

Definition contains (list : list Z) (len : nat) (value : Z) : Z :=
  contains_loop len 0 list value.

(** [indexOf(list, len, value)]: the index of the first occurrence.
    When the loop finds none, the function reaches
    [assert(!"indexOf called on list where value is not found. (caller bug)")],
    which fails: the program aborts and the call does not return, [None]
    here.  (Only a build with [NDEBUG] would go on to [return -1].) *)
Fixpoint indexOf_loop (n i : nat) (list : list Z) (value : Z) : option Z :=
  match n with
  | O => None
  | S n' => if rd16 list i =? value then Some (Z.of_nat i)
            else indexOf_loop n' (S i) list value
  end.

Definition indexOf (list : list Z) (len : nat) (value : Z) : option Z :=
  indexOf_loop len 0 list value.

(** [inRange(list, len, low, high)] *)
Fixpoint inRange_loop (n i : nat) (list : list Z) (low high : Z) : Z :=
  match n with
  | O => 1
  | S n' => if (rd16 list i >? high) || (rd16 list i <? low) then 0
            else inRange_loop n' (S i) list low high
  end.

Definition inRange (list : list Z) (len : nat) (low high : Z) : Z :=
  inRange_loop len 0 list low high.

(** The inner loop of [unique]: [for (j = 0; j < len; j++)]. *)
Fixpoint unique_inner (n j : nat) (list : list Z) (i : nat) : bool :=
  match n with
  | O => true
  | S n' => if negb (j =? i)%nat && (rd16 list i =? rd16 list j) then false
            else unique_inner n' (S j) list i
  end.

(** The outer loop of [unique]: [for (i = 0; i < len; i++)]. *)
Fixpoint unique_outer (n i : nat) (list : list Z) (len : nat) : Z :=
  match n with
  | O => 1
  | S n' => if unique_inner len 0 list i then unique_outer n' (S i) list len
            else 0
  end.

Definition unique (list : list Z) (len : nat) : Z :=
  unique_outer len 0 list len.

(** [arePaddingBitsZero(data, byteLength, bitLength)]; [n] bits left to
    look at, [i] the current one. *)
Fixpoint padding_loop (n i : nat) (data : list Z) : Z :=
  match n with
  | O => 1
  | S n' => if getBit data i =? 0 then padding_loop n' (S i) data else 0
  end.

Definition arePaddingBitsZero (data : list Z) (byteLength bitLength : nat) : Z :=
  padding_loop (byteLength * 8 - bitLength) bitLength data.

(** [deserialize_u16(dst, src, size)]: [size] little-endian 16-bit values. *)
Fixpoint deserialize_u16 (src : list Z) (size : nat) : list Z :=
  match size with
  | O => []
  | S n' => (rdb src 0 + 256 * rdb src 1) :: deserialize_u16 (skipn 2 src) n'
  end.

(** [serialize_u16(dst, src, size)] *)
Fixpoint serialize_u16 (src : list Z) (size : nat) : list Z :=
  match size with
  | O => []
  | S n' => (rd16 src 0 mod 256) :: (rd16 src 0 / 256 mod 256)
            :: serialize_u16 (skipn 1 src) n'
  end.

(** [memcpy(dst, src, n)] into an existing buffer. *)
Definition memcpy (dst src : list Z) (n : nat) : list Z :=
  firstn n src ++ skipn n dst.

(** [getMissingLeavesList]: the loop over the rounds, writing at [pos]. *)
Fixpoint missing_loop (n i : nat) (challengeC : list Z) (tau : nat)
         (missingLeaves : list Z) (pos : nat) : list Z :=
  match n with
  | O => missingLeaves
  | S n' =>
      if contains challengeC tau (to_u16 i) =? 0
      then missing_loop n' (S i) challengeC tau
             (upd missingLeaves pos (to_u16 i)) (S pos)
      else missing_loop n' (S i) challengeC tau missingLeaves pos
  end.

Definition getMissingLeavesList (challengeC : list Z) (params : picnic_instance_t)
  : list Z :=
  let missingLeavesSize := (num_rounds params - num_opened_rounds params)%nat in
  missing_loop (num_rounds params) 0 challengeC (num_opened_rounds params)
    (repeat 0 missingLeavesSize) 0.

Definition set_proof (sig : signature2_t) (t : nat) (p : proof2_t) : signature2_t :=
  {| salt := salt sig; iSeedInfo := iSeedInfo sig; iSeedInfoLen := iSeedInfoLen sig;
     cvInfo := cvInfo sig; cvInfoLen := cvInfoLen sig;
     challengeC := challengeC sig; challengeP := challengeP sig;
     proofs := upd (proofs sig) t p |}.

Definition empty_proof : proof2_t :=
  {| seedInfo := []; seedInfoLen := 0; aux := []; C := []; input := [];
     msgs := []; unOpenedIndex := 0 |}.

(** [sig->proofs[t]] *)
Definition proof_at (sig : signature2_t) (t : nat) : proof2_t :=
  nth t (proofs sig) empty_proof.

(** The hidden party of an opened round:
    [sig->challengeP[indexOf(sig->challengeC, num_opened_rounds, t)]].
    Every caller evaluates this under
    [if (contains(sig->challengeC, num_opened_rounds, t))], where the
    value is found and the assertion of [indexOf] is not reached (lemma
    [contains_indexOf]); the branch for a failed assertion is never taken
    there. *)
Definition P_of (challengeC challengeP : list Z) (tau t : nat) : Z :=
  match indexOf challengeC tau (to_u16 t) with
  | Some P_index => rd16 challengeP (Z.to_nat P_index)
  | None => 0
  end.

Section External.

(** The tree helpers' size functions and the proof allocator are defined
    outside the two source files and are taken as parameters. *)
Variable revealSeedsSize : nat -> list Z -> nat -> picnic_instance_t -> nat.
Variable openMerkleTreeSize : nat -> list Z -> nat -> picnic_instance_t -> nat.
Variable allocateProof2 : picnic_instance_t -> proof2_t.

(** The loop of [deserializeSignature2] that adds up the proof sizes. *)
Fixpoint required_loop (n t : nat) (challengeC challengeP : list Z)
         (seedInfoLen : nat) (params : picnic_instance_t) (bytesRequired : nat)
  : nat :=
  match n with
  | O => bytesRequired
  | S n' =>
      let tau := num_opened_rounds params in
      if contains challengeC tau (to_u16 t) =? 0
      then required_loop n' (S t) challengeC challengeP seedInfoLen params
             bytesRequired
      else
        let P_t := P_of challengeC challengeP tau t in
        let b1 := if P_t =? Z.of_nat (num_MPC_parties params - 1)
                  then bytesRequired
                  else (bytesRequired + view_size params)%nat in
        let b2 := (b1 + digest_size params)%nat in
        let b3 := (b2 + input_size params)%nat in
        let b4 := (b3 + (input_size params + view_size params))%nat in
        let b5 := (b4 + seedInfoLen)%nat in
        required_loop n' (S t) challengeC challengeP seedInfoLen params b5
  end.

(** The loop of [deserializeSignature2] that reads the proofs.  The
    result is the return code ([0] to go on to [return EXIT_SUCCESS]) and
    the signature and cursor reached. *)
Fixpoint read_proofs (n t : nat) (seedInfoLen : nat) (params : picnic_instance_t)
         (sig : signature2_t) (sigBytes : list Z)
  : Z * signature2_t * list Z :=
  match n with
  | O => (EXIT_SUCCESS, sig, sigBytes)
  | S n' =>
      let tau := num_opened_rounds params in
      if contains (challengeC sig) tau (to_u16 t) =? 0
      then read_proofs n' (S t) seedInfoLen params sig sigBytes
      else
        let p0 := allocateProof2 params in
        let seedInfo1 := firstn seedInfoLen sigBytes in
        let sigBytes1 := skipn seedInfoLen sigBytes in
        let P_t := P_of (challengeC sig) (challengeP sig) tau t in
        let has_aux := negb (P_t =? Z.of_nat (num_MPC_parties params - 1)) in
        let aux1 := if has_aux then memcpy (aux p0) sigBytes1 (view_size params)
                    else aux p0 in
        let sigBytes2 := if has_aux then skipn (view_size params) sigBytes1
                         else sigBytes1 in
        let p1 := {| seedInfo := seedInfo1; seedInfoLen := seedInfoLen;
                     aux := aux1; C := C p0; input := input p0; msgs := msgs p0;
                     unOpenedIndex := unOpenedIndex p0 |} in
        if has_aux
           && (arePaddingBitsZero aux1 (view_size params)
                 (3 * lowmc_r params * lowmc_m params) =? 0)
        then (-1, set_proof sig t p1, sigBytes2)
        else
          let input1 := memcpy (input p0) sigBytes2 (seed_size params) in
          let sigBytes3 := skipn (input_size params) sigBytes2 in
          let msgsByteLength := (input_size params + view_size params)%nat in
          let msgs1 := memcpy (msgs p0) sigBytes3 msgsByteLength in
          let sigBytes4 := skipn msgsByteLength sigBytes3 in
          let msgsBitLength :=
            (lowmc_n params + 3 * lowmc_r params * lowmc_m params)%nat in
          let p2 := {| seedInfo := seedInfo1; seedInfoLen := seedInfoLen;
                       aux := aux1; C := C p0; input := input1; msgs := msgs1;
                       unOpenedIndex := unOpenedIndex p0 |} in
          if arePaddingBitsZero msgs1 msgsByteLength msgsBitLength =? 0
          then (-1, set_proof sig t p2, sigBytes4)
          else
            let C1 := memcpy (C p0) sigBytes4 (digest_size params) in
            let sigBytes5 := skipn (digest_size params) sigBytes4 in
            let p3 := {| seedInfo := seedInfo1; seedInfoLen := seedInfoLen;
                         aux := aux1; C := C1; input := input1; msgs := msgs1;
                         unOpenedIndex := unOpenedIndex p0 |} in
            read_proofs n' (S t) seedInfoLen params (set_proof sig t p3) sigBytes5
  end.

(** [deserializeSignature2(sig, sigBytes, sigBytesLen, params)] *)
Definition deserializeSignature2 (sig : signature2_t) (sigBytes : list Z)
           (sigBytesLen : nat) (params : picnic_instance_t)
  : Z * signature2_t :=
  let tau := num_opened_rounds params in
  let bytesRequired := (4 * tau + SALT_SIZE)%nat in
  if (sigBytesLen <? bytesRequired)%nat then (EXIT_FAILURE, sig)
  else
    let challengeC1 := deserialize_u16 sigBytes tau in
    let sigBytes1 := skipn (2 * tau) sigBytes in
    let challengeP1 := deserialize_u16 sigBytes1 tau in
    let sigBytes2 := skipn (2 * tau) sigBytes1 in
    let salt1 := memcpy (salt sig) sigBytes2 SALT_SIZE in
    let sigBytes3 := skipn SALT_SIZE sigBytes2 in
    let sig1 := {| salt := salt1; iSeedInfo := iSeedInfo sig;
                   iSeedInfoLen := iSeedInfoLen sig; cvInfo := cvInfo sig;
                   cvInfoLen := cvInfoLen sig; challengeC := challengeC1;
                   challengeP := challengeP1; proofs := proofs sig |} in
    if inRange challengeC1 tau 0 (Z.of_nat (num_rounds params) - 1) =? 0
    then (EXIT_FAILURE, sig1)
    else if unique challengeC1 tau =? 0 then (EXIT_FAILURE, sig1)
    else if inRange challengeP1 tau 0 (Z.of_nat (num_MPC_parties params) - 1) =? 0
    then (EXIT_FAILURE, sig1)
    else
      let iSeedInfoLen1 := revealSeedsSize (num_rounds params) challengeC1 tau params in
      let bytesRequired1 := (bytesRequired + iSeedInfoLen1)%nat in
      let missingLeavesSize := (num_rounds params - tau)%nat in
      let missingLeaves := getMissingLeavesList challengeC1 params in
      let cvInfoLen1 :=
        openMerkleTreeSize (num_rounds params) missingLeaves missingLeavesSize params in
      let bytesRequired2 := (bytesRequired1 + cvInfoLen1)%nat in
      let hideList := [0] in
      let seedInfoLen := revealSeedsSize (num_MPC_parties params) hideList 1 params in
      let bytesRequired3 :=
        required_loop (num_rounds params) 0 challengeC1 challengeP1 seedInfoLen
          params bytesRequired2 in
      let sig2 := {| salt := salt1; iSeedInfo := iSeedInfo sig;
                     iSeedInfoLen := iSeedInfoLen1; cvInfo := cvInfo sig;
                     cvInfoLen := cvInfoLen1; challengeC := challengeC1;
                     challengeP := challengeP1; proofs := proofs sig |} in
      if negb (sigBytesLen =? bytesRequired3)%nat then (EXIT_FAILURE, sig2)
      else
        let iSeedInfo1 := firstn iSeedInfoLen1 sigBytes3 in
        let sigBytes4 := skipn iSeedInfoLen1 sigBytes3 in
        let cvInfo1 := firstn cvInfoLen1 sigBytes4 in
        let sigBytes5 := skipn cvInfoLen1 sigBytes4 in
        let sig3 := {| salt := salt1; iSeedInfo := iSeedInfo1;
                       iSeedInfoLen := iSeedInfoLen1; cvInfo := cvInfo1;
                       cvInfoLen := cvInfoLen1; challengeC := challengeC1;
                       challengeP := challengeP1; proofs := proofs sig |} in
        let '(ret, sig4, _) :=
          read_proofs (num_rounds params) 0 seedInfoLen params sig3 sigBytes5 in
        (ret, sig4).

End External.

(** The loop of [serializeSignature2] that adds up the proof sizes. *)
Fixpoint ser_required_loop (n t : nat) (sig : signature2_t)
         (params : picnic_instance_t) (bytesRequired : nat) : nat :=
  match n with
  | O => bytesRequired
  | S n' =>
      let tau := num_opened_rounds params in
      if contains (challengeC sig) tau (to_u16 t) =? 0
      then ser_required_loop n' (S t) sig params bytesRequired
      else
        let P_t := P_of (challengeC sig) (challengeP sig) tau t in
        let b1 := (bytesRequired + seedInfoLen (proof_at sig t))%nat in
        let b2 := if P_t =? Z.of_nat (num_MPC_parties params - 1) then b1
                  else (b1 + view_size params)%nat in
        let b3 := (b2 + digest_size params)%nat in
        let b4 := (b3 + input_size params)%nat in
        let b5 := (b4 + (input_size params + view_size params))%nat in
        ser_required_loop n' (S t) sig params b5
  end.

(** The loop of [serializeSignature2] that writes the proofs; [out] is
    what has been written so far. *)
Fixpoint write_proofs (n t : nat) (sig : signature2_t)
         (params : picnic_instance_t) (out : list Z) : list Z :=
  match n with
  | O => out
  | S n' =>
      let tau := num_opened_rounds params in
      if contains (challengeC sig) tau (to_u16 t) =? 0
      then write_proofs n' (S t) sig params out
      else
        let p := proof_at sig t in
        let out1 := out ++ firstn (seedInfoLen p) (seedInfo p) in
        let P_t := P_of (challengeC sig) (challengeP sig) tau t in
        let out2 := if P_t =? Z.of_nat (num_MPC_parties params - 1) then out1
                    else out1 ++ firstn (view_size params) (aux p) in
        let out3 := out2 ++ firstn (input_size params) (input p) in
        let out4 := out3 ++ firstn (input_size params + view_size params) (msgs p) in
        let out5 := out4 ++ firstn (digest_size params) (C p) in
        write_proofs n' (S t) sig params out5
  end.

(** [serializeSignature2(sig, sigBytes, sigBytesLen, params)]: the return
    value and the buffer after the call. *)
Definition serializeSignature2 (sig : signature2_t) (sigBytes : list Z)
           (sigBytesLen : nat) (params : picnic_instance_t) : Z * list Z :=
  let tau := num_opened_rounds params in
  let bytesRequired := (4 * tau + SALT_SIZE)%nat in
  let bytesRequired1 := (bytesRequired + iSeedInfoLen sig)%nat in
  let bytesRequired2 := (bytesRequired1 + cvInfoLen sig)%nat in
  let bytesRequired3 :=
    ser_required_loop (num_rounds params) 0 sig params bytesRequired2 in
  if (sigBytesLen <? bytesRequired3)%nat then (-1, sigBytes)
  else
    let out1 := serialize_u16 (challengeC sig) tau in
    let out2 := out1 ++ serialize_u16 (challengeP sig) tau in
    let out3 := out2 ++ firstn SALT_SIZE (salt sig) in
    let out4 := out3 ++ firstn (iSeedInfoLen sig) (iSeedInfo sig) in
    let out5 := out4 ++ firstn (cvInfoLen sig) (cvInfo sig) in
    let out6 := write_proofs (num_rounds params) 0 sig params out5 in
    (Z.of_nat (length out6), out6 ++ skipn (length out6) sigBytes).

End Sig.
(* ================================================================== *)
(** * The signature byte layout, as the specification words it *)
(* ================================================================== *)

Module SigSpec.

Import Tape Sig.

(** The [k]-th little-endian 16-bit value of a byte string that starts
    at [off]. *)
Definition le16_at (bytes : list Z) (off k : nat) : Z :=
  rdb bytes (off + 2 * k) + 256 * rdb bytes (off + 2 * k + 1).

Definition le16_list (bytes : list Z) (off n : nat) : list Z :=
  map (le16_at bytes off) (seq 0 n).

(** [bytes[off .. off + n)] *)
Definition sub (bytes : list Z) (off n : nat) : list Z :=
  firstn n (skipn off bytes).

(** Round [t] is one of the opened rounds [Cs]. *)
Definition opened (Cs : list Z) (t : nat) : bool :=
  existsb (fun c => c =? Z.of_nat t) Cs.

(** The hidden party of round [t]: the entry of [Ps] at the place where
    [t] first occurs in [Cs]. *)
Fixpoint hidden (Cs Ps : list Z) (t : nat) : Z :=
  match Cs, Ps with
  | c :: Cs', p :: Ps' => if c =? Z.of_nat t then p else hidden Cs' Ps' t
  | _, _ => 0
  end.

(** All bits of [data] from [bitLength] up to the end of its
    [byteLength] bytes are zero. *)
Definition padding_zero (data : list Z) (byteLength bitLength : nat) : Prop :=
  forall i, (bitLength <= i < byteLength * 8)%nat -> getBit data i = 0.

Section Layout.

Variable revealSeedsSize : nat -> list Z -> nat -> picnic_instance_t -> nat.
Variable openMerkleTreeSize : nat -> list Z -> nat -> picnic_instance_t -> nat.
Variable params : picnic_instance_t.

Let tau := num_opened_rounds params.
Let N := num_MPC_parties params.

(** Length of [seedInfo]: the reveal size with one hidden leaf. *)
Definition seedInfo_size : nat := revealSeedsSize N [0] 1 params.

Definition has_aux (Cs Ps : list Z) (t : nat) : bool :=
  negb (hidden Cs Ps t =? Z.of_nat (N - 1)).

(** Bytes taken by the proof of an opened round: [seedInfo], [aux] when
    the hidden party is not the last one, [input], [msgs], [C]. *)
Definition proof_size (Cs Ps : list Z) (t : nat) : nat :=
  (seedInfo_size
   + (if has_aux Cs Ps t then view_size params else 0)
   + input_size params
   + (input_size params + view_size params)
   + digest_size params)%nat.

(** Bytes taken by the proofs of the opened rounds below [t]. *)
Fixpoint proofs_offset (Cs Ps : list Z) (t : nat) : nat :=
  match t with
  | O => O
  | S t' => (proofs_offset Cs Ps t'
             + if opened Cs t' then proof_size Cs Ps t' else 0)%nat
  end.

Definition iSeedInfo_size (Cs : list Z) : nat :=
  revealSeedsSize (num_rounds params) Cs tau params.

Definition cvInfo_size (Cs : list Z) : nat :=
  openMerkleTreeSize (num_rounds params) (getMissingLeavesList Cs params)
    (num_rounds params - tau) params.

(** Where the proofs start: after [challengeC], [challengeP], [salt],
    [iSeedInfo] and [cvInfo]. *)
Definition proofs_start (Cs : list Z) : nat :=
  (4 * tau + SALT_SIZE + iSeedInfo_size Cs + cvInfo_size Cs)%nat.

(** The exact length of a signature with challenges [Cs], [Ps]. *)
Definition required_size (Cs Ps : list Z) : nat :=
  (proofs_start Cs + proofs_offset Cs Ps (num_rounds params))%nat.

Definition aux_field (bytes Cs Ps : list Z) (t : nat) : list Z :=
  sub bytes (proofs_start Cs + proofs_offset Cs Ps t + seedInfo_size)
      (view_size params).

Definition msgs_field (bytes Cs Ps : list Z) (t : nat) : list Z :=
  sub bytes (proofs_start Cs + proofs_offset Cs Ps t + seedInfo_size
             + (if has_aux Cs Ps t then view_size params else 0)
             + input_size params)
      (input_size params + view_size params).

(** The conditions under which the specification lets a byte string
    through: exact length, challenges in range, opened rounds pairwise
    distinct, and zero padding in every [aux] and [msgs]. *)
Definition accepts (bytes : list Z) : Prop :=
  let Cs := le16_list bytes 0 tau in
  let Ps := le16_list bytes (2 * tau) tau in
  length bytes = required_size Cs Ps /\
  Forall (fun c => c < Z.of_nat (num_rounds params)) Cs /\
  NoDup Cs /\
  Forall (fun p => p < Z.of_nat N) Ps /\
  forall t, (t < num_rounds params)%nat -> opened Cs t = true ->
    (has_aux Cs Ps t = true ->
     padding_zero (aux_field bytes Cs Ps t) (view_size params)
       (3 * lowmc_r params * lowmc_m params)) /\
    padding_zero (msgs_field bytes Cs Ps t)
      (input_size params + view_size params)
      (lowmc_n params + 3 * lowmc_r params * lowmc_m params).

End Layout.

(** Parameter sets as the tables have them: at least one round and one
    party, and round and party numbers within 16 bits. *)
Record params_ok (params : picnic_instance_t) : Prop := {
  po_rounds : 1 <= Z.of_nat (num_rounds params) <= 65536;
  po_parties : 1 <= Z.of_nat (num_MPC_parties params) <= 65536;
  po_opened : (num_opened_rounds params <= num_rounds params)%nat
}.

(** The proof of an opened round as the signer leaves it: every field
    has the length the layout allots, and the bits of [aux] and [msgs]
    past their bit lengths are zero.  [s] is the length of [seedInfo]. *)
Record proof_valid (params : picnic_instance_t) (s : nat) (aux_present : bool)
       (p : proof2_t) : Prop := {
  pv_seedInfoLen : seedInfoLen p = s;
  pv_seedInfo : length (seedInfo p) = s;
  pv_aux : aux_present = true ->
           length (aux p) = view_size params /\
           padding_zero (aux p) (view_size params)
             (3 * lowmc_r params * lowmc_m params);
  pv_input : length (input p) = input_size params;
  pv_msgs : length (msgs p) = (input_size params + view_size params)%nat;
  pv_msgs_padding :
    padding_zero (msgs p) (input_size params + view_size params)
      (lowmc_n params + 3 * lowmc_r params * lowmc_m params);
  pv_C : length (C p) = digest_size params
}.

(** A valid signature structure. *)
Record valid_signature
       (revealSeedsSize openMerkleTreeSize :
          nat -> list Z -> nat -> picnic_instance_t -> nat)
       (params : picnic_instance_t) (sig : signature2_t) : Prop := {
  vs_C_length : length (challengeC sig) = num_opened_rounds params;
  vs_P_length : length (challengeP sig) = num_opened_rounds params;
  vs_C_range :
    Forall (fun c => 0 <= c < Z.of_nat (num_rounds params)) (challengeC sig);
  vs_C_distinct : NoDup (challengeC sig);
  vs_P_range :
    Forall (fun p => 0 <= p < Z.of_nat (num_MPC_parties params)) (challengeP sig);
  vs_salt : length (salt sig) = SALT_SIZE;
  vs_iSeedInfoLen :
    iSeedInfoLen sig = iSeedInfo_size revealSeedsSize params (challengeC sig);
  vs_iSeedInfo : length (iSeedInfo sig) = iSeedInfoLen sig;
  vs_cvInfoLen :
    cvInfoLen sig = cvInfo_size openMerkleTreeSize params (challengeC sig);
  vs_cvInfo : length (cvInfo sig) = cvInfoLen sig;
  vs_proofs :
    forall t, (t < num_rounds params)%nat -> opened (challengeC sig) t = true ->
      proof_valid params (seedInfo_size revealSeedsSize params)
        (has_aux params (challengeC sig) (challengeP sig) t) (proof_at sig t)
}.

(** The buffers [allocateProof2] hands out. *)
Record proof_allocated (params : picnic_instance_t) (p : proof2_t) : Prop := {
  pa_aux : length (aux p) = view_size params;
  pa_input : length (input p) = input_size params;
  pa_msgs : length (msgs p) = (input_size params + view_size params)%nat;
  pa_C : length (C p) = digest_size params
}.

(** The destination of a deserialization: a salt buffer and one proof
    slot per round. *)
Record signature_allocated (params : picnic_instance_t) (sig : signature2_t)
  : Prop := {
  sa_salt : length (salt sig) = SALT_SIZE;
  sa_proofs : length (proofs sig) = num_rounds params
}.

(** The proof fields that are serialized agree. *)
Definition same_proof (aux_present : bool) (p q : proof2_t) : Prop :=
  seedInfo q = seedInfo p /\ seedInfoLen q = seedInfoLen p /\
  (aux_present = true -> aux q = aux p) /\
  input q = input p /\ msgs q = msgs p /\ C q = C p.

(** [sig'] carries the same challenges, salt, seed and commitment
    information, and the same proof for every opened round as [sig]. *)
Definition same_signature (params : picnic_instance_t)
           (sig sig' : signature2_t) : Prop :=
  challengeC sig' = challengeC sig /\ challengeP sig' = challengeP sig /\
  salt sig' = salt sig /\
  iSeedInfo sig' = iSeedInfo sig /\ iSeedInfoLen sig' = iSeedInfoLen sig /\
  cvInfo sig' = cvInfo sig /\ cvInfoLen sig' = cvInfoLen sig /\
  forall t, (t < num_rounds params)%nat -> opened (challengeC sig) t = true ->
    same_proof (has_aux params (challengeC sig) (challengeP sig) t)
      (proof_at sig t) (proof_at sig' t).

(** The rounds below [n] that are not opened, in increasing order. *)
Definition missing_rounds (Cs : list Z) (n : nat) : list Z :=
  map Z.of_nat (filter (fun t => negb (opened Cs t)) (seq 0 n)).

End SigSpec.

(* ================================================================== *)
(** * Picnic2: challenge derivation ([HCP] in [picnic2_impl.c]) *)
(* ================================================================== *)

Module Challenge.

Import Tape Sig.

(** [MAX_DIGEST_SIZE] *)
Definition MAX_DIGEST_SIZE : nat := 64.

(** [HASH_PREFIX_1] *)
Definition HASH_PREFIX_1 : Z := 1.

(** [ceil_log2(x)]: the least [k] with [x <= 2^k].

    Modelled from the spec: the helper is defined outside the two source
    files; the specification writes [ceil(log2(x))]. *)
Definition ceil_log2 (x : nat) : nat := Z.to_nat (Z.log2_up (Z.of_nat x)).

(** A call that does not return is [None] in this module: an
    [assert] fails and aborts the program, a division by zero leaves the
    behaviour undefined, or a [while] loop has not ended within the
    number of turns looked at. *)

(** The inner loop of [bitsToChunks]:
    [chunks[i] += getBit(input, i * chunkLenBits + j) << j;
     assert(chunks[i] < (1 << chunkLenBits));]
    for the [n] values of [j] left; the sum is stored back as a
    [uint16_t]. *)
Fixpoint chunk_loop (n j chunkLenBits : nat) (input : list Z) (base : nat)
         (acc : Z) : option Z :=
  match n with
  | O => Some acc
  | S n' =>
      let acc1 :=
        (acc + Z.shiftl (getBit input (base + j)) (Z.of_nat j)) mod 65536 in
      if acc1 <? Z.shiftl 1 (Z.of_nat chunkLenBits)
      then chunk_loop n' (S j) chunkLenBits input base acc1
      else None
  end.

(** The outer loop of [bitsToChunks], [n] chunks left, writing
    [chunks[i]]; [le16toh] is the identity on the little-endian hosts the
    serialization code is built for. *)
Fixpoint chunks_loop (n i chunkLenBits : nat) (input chunks : list Z)
  : option (list Z) :=
  match n with
  | O => Some chunks
  | S n' =>
      match chunk_loop chunkLenBits 0 chunkLenBits input (i * chunkLenBits) 0
      with
      | None => None
      | Some chunk =>
          chunks_loop n' (S i) chunkLenBits input (upd chunks i chunk)
      end
  end.

(** [bitsToChunks(chunkLenBits, input, inputLen, chunks)]: the count
    returned and the chunk buffer after the call.  With fewer input bits
    than one chunk the function reaches
    [assert(!"Invalid input to bitsToChunks: not enough input")], which
    fails (only a build with [NDEBUG] would go on to [return 0]); with
    [chunkLenBits = 0] the chunk count is a division by zero. *)
Definition bitsToChunks (chunkLenBits : nat) (input : list Z) (inputLen : nat)
           (chunks : list Z) : option (nat * list Z) :=
  if (inputLen * 8 <? chunkLenBits)%nat then None
  else if (chunkLenBits =? 0)%nat then None
  else
    let chunkCount := (inputLen * 8 / chunkLenBits)%nat in
    match chunks_loop chunkCount 0 chunkLenBits input chunks with
    | None => None
    | Some chunks1 => Some (chunkCount, chunks1)
    end.

(** The search loop of [appendUnique]: is [value] among
    [list[i .. i + n)]? *)
Fixpoint appendUnique_loop (n i : nat) (list : list Z) (value : Z) : bool :=
  match n with
  | O => false
  | S n' => if rd16 list i =? value then true
            else appendUnique_loop n' (S i) list value
  end.

(** [appendUnique(list, value, position)]: the new position and the list. *)
Definition appendUnique (list : list Z) (value : Z) (position : nat)
  : nat * Datatypes.list Z :=
  if (position =? 0)%nat then (S position, upd list position value)
  else if appendUnique_loop position 0 list value then (position, list)
  else (S position, upd list position value).

(** The [for] loop that picks rounds out of the chunks of one digest; it
    is left as soon as [countC] reaches [num_opened_rounds]. *)
Fixpoint pick_rounds (n i : nat) (chunks : list Z) (params : picnic_instance_t)
         (challengeC : list Z) (countC : nat) : list Z * nat :=
  match n with
  | O => (challengeC, countC)
  | S n' =>
      let '(countC1, challengeC1) :=
        if rd16 chunks i <? Z.of_nat (num_rounds params)
        then appendUnique challengeC (rd16 chunks i) countC
        else (countC, challengeC) in
      if (countC1 =? num_opened_rounds params)%nat then (challengeC1, countC1)
      else pick_rounds n' (S i) chunks params challengeC1 countC1
  end.

(** The [for] loop that picks parties out of the chunks of one digest. *)
Fixpoint pick_parties (n i : nat) (chunks : list Z) (params : picnic_instance_t)
         (challengeP : list Z) (countP : nat) : list Z * nat :=
  match n with
  | O => (challengeP, countP)
  | S n' =>
      let '(countP1, challengeP1) :=
        if rd16 chunks i <? Z.of_nat (num_MPC_parties params)
        then (S countP, upd challengeP countP (rd16 chunks i))
        else (countP, challengeP) in
      if (countP1 =? num_opened_rounds params)%nat then (challengeP1, countP1)
      else pick_parties n' (S i) chunks params challengeP1 countP1
  end.

Section Hash.

(** The hash functions are defined outside the two source files.

    Modelled from the spec: a context is the byte string absorbed so far,
    [hash_init_prefix] absorbs the prefix byte first, and squeezing [n]
    bytes is a function [shake] of the parameter set and of what was
    absorbed. *)
Variable shake : picnic_instance_t -> list Z -> nat -> list Z.

Definition hash_init (params : picnic_instance_t) : list Z := [].

Definition hash_init_prefix (params : picnic_instance_t) (prefix : Z) : list Z :=
  [prefix].

Definition hash_update (ctx data : list Z) (len : nat) : list Z :=
  ctx ++ firstn len data.

Definition hash_final (ctx : list Z) : list Z := ctx.

Definition hash_squeeze (params : picnic_instance_t) (ctx buffer : list Z)
           (len : nat) : list Z :=
  memcpy buffer (shake params ctx len) len.

(** [hash_init_prefix; hash_update(h); hash_final; hash_squeeze(h)] *)
Definition rehash (params : picnic_instance_t) (h : list Z) : list Z :=
  let ctx := hash_init_prefix params HASH_PREFIX_1 in
  let ctx := hash_update ctx h (digest_size params) in
  let ctx := hash_final ctx in
  hash_squeeze params ctx h (digest_size params).

(** The loop absorbing [Ch->hashes[t]]. *)
Fixpoint absorb_hashes (n t : nat) (ctx : list Z) (hashes : list (list Z))
         (params : picnic_instance_t) : list Z :=
  match n with
  | O => ctx
  | S n' =>
      absorb_hashes n' (S t)
        (hash_update ctx (nth t hashes []) (digest_size params)) hashes params
  end.

(** The first [while] loop of [HCP]; [fuel] bounds the number of
    digests looked at.  The result is [challengeC], [h] and the chunk
    buffer; there is none when [bitsToChunks] does not return or the
    fuel runs out. *)
Fixpoint populate_C (fuel : nat) (params : picnic_instance_t)
         (bitsPerChunkC : nat) (h chunks challengeC : list Z) (countC : nat)
  : option (list Z * list Z * list Z) :=
  if (countC <? num_opened_rounds params)%nat then
    match fuel with
    | O => None
    | S fuel' =>
        match bitsToChunks bitsPerChunkC h (digest_size params) chunks with
        | None => None
        | Some (numChunks, chunks1) =>
            let '(challengeC1, countC1) :=
              pick_rounds numChunks 0 chunks1 params challengeC countC in
            populate_C fuel' params bitsPerChunkC (rehash params h) chunks1
              challengeC1 countC1
        end
    end
  else Some (challengeC, h, chunks).

(** The second [while] loop of [HCP]. *)
Fixpoint populate_P (fuel : nat) (params : picnic_instance_t)
         (bitsPerChunkP : nat) (h chunks challengeP : list Z) (countP : nat)
  : option (list Z) :=
  if (countP <? num_opened_rounds params)%nat then
    match fuel with
    | O => None
    | S fuel' =>
        match bitsToChunks bitsPerChunkP h (digest_size params) chunks with
        | None => None
        | Some (numChunks, chunks1) =>
            let '(challengeP1, countP1) :=
              pick_parties numChunks 0 chunks1 params challengeP countP in
            populate_P fuel' params bitsPerChunkP (rehash params h) chunks1
              challengeP1 countP1
        end
    end
  else Some challengeP.

(** The digest [HCP] starts from. *)
Definition first_digest (hashes : list (list Z))
           (hCv salt pubKey plaintext message : list Z)
           (messageByteLength : nat) (params : picnic_instance_t) : list Z :=
  let h := repeat 0 MAX_DIGEST_SIZE in
  let ctx := hash_init params in
  let ctx := absorb_hashes (num_rounds params) 0 ctx hashes params in
  let ctx := hash_update ctx hCv (digest_size params) in
  let ctx := hash_update ctx salt SALT_SIZE in
  let ctx := hash_update ctx pubKey (input_size params) in
  let ctx := hash_update ctx plaintext (input_size params) in
  let ctx := hash_update ctx message messageByteLength in
  let ctx := hash_final ctx in
  hash_squeeze params ctx h (digest_size params).

(** [HCP(challengeC, challengeP, Ch, hCv, salt, pubKey, plaintext,
    message, messageByteLength, params)]: the two challenge arrays on
    return.  It does not return when
    [assert(params->num_opened_rounds < params->num_rounds)] fails, when
    the size of the chunk buffer is a division by zero
    ([bitsPerChunkP = 0]), when [bitsToChunks] does not return, or when
    [fuel] digests did not suffice. *)
Definition HCP (fuel : nat) (challengeC challengeP : list Z)
           (hashes : list (list Z)) (hCv salt pubKey plaintext message : list Z)
           (messageByteLength : nat) (params : picnic_instance_t)
  : option (list Z * list Z) :=
  if negb (num_opened_rounds params <? num_rounds params)%nat then None
  else
  let h := first_digest hashes hCv salt pubKey plaintext message
             messageByteLength params in
  let bitsPerChunkC := ceil_log2 (num_rounds params) in
  let bitsPerChunkP := ceil_log2 (num_MPC_parties params) in
  if (bitsPerChunkP =? 0)%nat then None
  else
  let chunks := repeat 0 (digest_size params * 8 / bitsPerChunkP) in
  match populate_C fuel params bitsPerChunkC h chunks challengeC 0 with
  | None => None
  | Some (challengeC1, h1, chunks1) =>
      match populate_P fuel params bitsPerChunkP h1 chunks1 challengeP 0 with
      | None => None
      | Some challengeP1 => Some (challengeC1, challengeP1)
      end
  end.

End Hash.

(** ** The challenge lists as the specification words them *)

(** The [i]-th chunk of [len] bits of [h], first bit least significant. *)
Fixpoint chunk_bits (len : nat) (h : list Z) (base : nat) : Z :=
  match len with
  | O => 0
  | S len' => chunk_bits len' h base
              + getBit h (base + len') * 2 ^ Z.of_nat len'
  end.

Definition digest_chunks (len : nat) (h : list Z) (digest_bytes : nat) : list Z :=
  map (fun i => chunk_bits len h (i * len)) (seq 0 (digest_bytes * 8 / len)).

(** The chunks of [k] successive digests, starting at [h] and going on
    with [next]. *)
Fixpoint chunk_stream (next : list Z -> list Z) (len digest_bytes k : nat)
         (h : list Z) : list Z :=
  match k with
  | O => []
  | S k' => digest_chunks len h digest_bytes
            ++ chunk_stream next len digest_bytes k' (next h)
  end.

(** The entries of [l] in the order of their first occurrence; [seen]
    holds the values met before. *)
Fixpoint first_occurrences (seen l : list Z) : list Z :=
  match l with
  | [] => []
  | x :: l' =>
      if existsb (fun y => y =? x) seen then first_occurrences seen l'
      else x :: first_occurrences (seen ++ [x]) l'
  end.

(** [acc] followed by the entries of [l] that are new, each once, in the
    order of their first occurrence. *)
Definition append_new (acc l : list Z) : list Z :=
  acc ++ first_occurrences acc l.

(** The digest reached after [k] steps of [next]. *)
Fixpoint nth_digest (next : list Z -> list Z) (k : nat) (h : list Z) : list Z :=
  match k with
  | O => h
  | S k' => nth_digest next k' (next h)
  end.

Definition below (bound : nat) (c : Z) : bool := c <? Z.of_nat bound.

(** Parameter sets [HCP] is meant for: at least two rounds and two
    parties, both within 16 bits, no more parties than rounds, fewer
    opened rounds than rounds. *)
Record hcp_params_ok (params : picnic_instance_t) : Prop := {
  hp_parties : (2 <= num_MPC_parties params)%nat;
  hp_rounds : (num_MPC_parties params <= num_rounds params)%nat;
  hp_rounds_u16 : Z.of_nat (num_rounds params) <= 65536;
  hp_opened : (num_opened_rounds params < num_rounds params)%nat
}.

End Challenge.

(* ================================================================== *)
(** * Picnic2: signing ([sign_picnic2] in [picnic2_impl.c]) *)
(* ================================================================== *)

Module Signing.

Import Tape Sig Challenge.

(** [msgs_t], the two fields the source reads: [msgs] (one buffer per
    party) and [pos]. *)
Record msgs_t : Type := Msgs {
  party_msgs : list (list Z);
  msgs_pos : nat
}.

(** [commitments_t]: [hashes], one digest buffer per entry. *)
Record commitments_t : Type := Commitments {
  hashes : list (list Z)
}.

(** The two bytes of [htole16((uint16_t)t)]. *)
Definition le16_bytes (t : nat) : list Z :=
  [to_u16 t mod 256; to_u16 t / 256].

(** [memset(dst, 0, n)] *)
Definition memset0 (dst : list Z) (n : nat) : list Z :=
  repeat 0 n ++ skipn n dst.

(** Memory the signer obtains without initializing it: the [malloc]ed
    [saltAndRoot] and [iSeedInfo] buffers, one [seedInfo] buffer per
    round, and the [auxBits] array on the stack. *)
Record uninitialized : Type := Uninitialized {
  raw_saltAndRoot : list Z;
  raw_auxBits : list Z;
  raw_iSeedInfo : list Z;
  raw_seedInfo : nat -> list Z
}.

Section Sign.

(** Everything below is defined outside the two source files and taken
    as a parameter: the hash ([shake], as for [HCP]), the seed trees, the
    Merkle tree, the allocators, the share helpers and the online
    simulation behind [params->impls.lowmc_simulate_online].  A function
    that fills a buffer and returns a length is taken as the bytes it
    writes.  The four lanes of the [_x4] hash calls are four independent
    hash computations. *)
Variable shake : picnic_instance_t -> list Z -> nat -> list Z.
Variable tree_t : Type.
Variable nodes : tree_t -> list (list Z).
Variable generateSeeds : nat -> list Z -> list Z -> nat -> picnic_instance_t -> tree_t.
Variable getLeaves : tree_t -> list (list Z).
Variable getLeaf : tree_t -> nat -> list Z.
Variable allocateRandomTape : picnic_instance_t -> randomTape_t.
Variable mzd_from_char_array :
  BinMat.mzd_local_t -> list Z -> nat -> BinMat.mzd_local_t.
Variable lowmc_aux_impl : BinMat.mzd_local_t -> randomTape_t -> randomTape_t.
Variable allocateCommitments : picnic_instance_t -> nat -> list commitments_t.
Variable allocateCommitments2 : picnic_instance_t -> nat -> commitments_t.
Variable allocateInputs : picnic_instance_t -> list (list Z).
Variable allocateMsgs : picnic_instance_t -> list msgs_t.
Variable allocateShares : nat -> list word.
Variable reconstructShares : list Z -> list word -> list Z.
Variable xor_word_array : list Z -> list Z -> list Z -> nat -> list Z.
Variable lowmc_simulate_online :
  list Z -> list word -> randomTape_t -> msgs_t -> list Z -> list Z ->
  picnic_instance_t -> Z * (list Z * list word * randomTape_t * msgs_t).
Variable createTree : nat -> nat -> tree_t.
Variable buildMerkleTree :
  tree_t -> list (list Z) -> list Z -> picnic_instance_t -> tree_t.
Variable openMerkleTree : tree_t -> list Z -> nat -> list Z.
Variable revealSeeds :
  tree_t -> list Z -> nat -> nat -> picnic_instance_t -> list Z.
Variable allocateProof2 : picnic_instance_t -> proof2_t.

(** [computeSaltAndRootSeed(saltAndRoot, saltAndRootLength, privateKey,
    pubKey, plaintext, message, messageByteLength, params)] *)
Definition computeSaltAndRootSeed (saltAndRoot : list Z) (saltAndRootLength : nat)
           (privateKey pubKey plaintext message : list Z)
           (messageByteLength : nat) (params : picnic_instance_t) : list Z :=
  let ctx := hash_init params in
  let ctx := hash_update ctx privateKey (input_size params) in
  let ctx := hash_update ctx message messageByteLength in
  let ctx := hash_update ctx pubKey (input_size params) in
  let ctx := hash_update ctx plaintext (input_size params) in
  let stateSizeLE := le16_bytes (lowmc_n params) in
  let ctx := hash_update ctx stateSizeLE 2 in
  let ctx := hash_final ctx in
  hash_squeeze shake params ctx saltAndRoot saltAndRootLength.

(** One lane of the loop body of [createRandomTapes]: party [i]. *)
Definition random_tape_lane (tapes : randomTape_t) (seeds : list (list Z))
           (salt : list Z) (t i : nat) (params : picnic_instance_t)
  : randomTape_t :=
  let tapeSizeBytes := (2 * view_size params + input_size params)%nat in
  let ctx := hash_init params in
  let ctx := hash_update ctx (nth i seeds []) (seed_size params) in
  let ctx := hash_update ctx salt SALT_SIZE in
  let ctx := hash_update ctx (le16_bytes t) 2 in
  let ctx := hash_update ctx (le16_bytes i) 2 in
  let ctx := hash_final ctx in
  set_party_tape tapes i
    (hash_squeeze shake params ctx (party_tape tapes i) tapeSizeBytes).

(** [for (i = 0; i < num_MPC_parties; i += 4)], [n] turns left. *)
Fixpoint random_tapes_loop (n i : nat) (tapes : randomTape_t)
         (seeds : list (list Z)) (salt : list Z) (t : nat)
         (params : picnic_instance_t) : randomTape_t :=
  match n with
  | O => tapes
  | S n' =>
      let tapes := random_tape_lane tapes seeds salt t (i + 0) params in
      let tapes := random_tape_lane tapes seeds salt t (i + 1) params in
      let tapes := random_tape_lane tapes seeds salt t (i + 2) params in
      let tapes := random_tape_lane tapes seeds salt t (i + 3) params in
      random_tapes_loop n' (i + 4) tapes seeds salt t params
  end.

(** [createRandomTapes(tapes, seeds, salt, t, params)].  The call does
    not return ([None]) when [assert(params->num_MPC_parties % 4 == 0)]
    fails; otherwise the loop takes [num_MPC_parties / 4] turns. *)
Definition createRandomTapes (seeds : list (list Z)) (salt : list Z) (t : nat)
           (params : picnic_instance_t) : option randomTape_t :=
  let tapes := allocateRandomTape params in
  if negb (num_MPC_parties params mod 4 =? 0)%nat then None
  else
    Some (random_tapes_loop (num_MPC_parties params / 4) 0 tapes seeds salt t
            params).

(** [commit(digest, seed, aux, salt, t, j, params)]; [aux] may be [NULL]. *)
Definition commit (digest seed : list Z) (aux : option (list Z)) (salt : list Z)
           (t j : nat) (params : picnic_instance_t) : list Z :=
  let ctx := hash_init params in
  let ctx := hash_update ctx seed (seed_size params) in
  let ctx := match aux with
             | Some a => hash_update ctx a (view_size params)
             | None => ctx
             end in
  let ctx := hash_update ctx salt SALT_SIZE in
  let ctx := hash_update ctx (le16_bytes t) 2 in
  let ctx := hash_update ctx (le16_bytes j) 2 in
  let ctx := hash_final ctx in
  hash_squeeze shake params ctx digest (digest_size params).

(** One lane of [commit_x4]: [digest[k]] from [seed[k]] with party
    index [j + k], written to [hashes[j + k]]. *)
Definition commit_lane (hashes seed : list (list Z)) (salt : list Z)
           (t j k : nat) (params : picnic_instance_t) : list (list Z) :=
  upd hashes (j + k)
    (commit (nth (j + k) hashes []) (nth k seed []) None salt t (j + k) params).

(** [commit_x4(hashes + j, seed, salt, t, j, params)] *)
Definition commit_x4 (hashes seed : list (list Z)) (salt : list Z) (t j : nat)
           (params : picnic_instance_t) : list (list Z) :=
  let hashes := commit_lane hashes seed salt t j 0 params in
  let hashes := commit_lane hashes seed salt t j 1 params in
  let hashes := commit_lane hashes seed salt t j 2 params in
  commit_lane hashes seed salt t j 3 params.

(** [for (i = 0; i < num_MPC_parties; i++) hash_update(C->hashes[i])] *)
Fixpoint absorb_commitments (n i : nat) (ctx : list Z) (C : commitments_t)
         (params : picnic_instance_t) : list Z :=
  match n with
  | O => ctx
  | S n' =>
      absorb_commitments n' (S i)
        (hash_update ctx (nth i (hashes C) []) (digest_size params)) C params
  end.

(** [commit_h(digest, C, params)] *)
Definition commit_h (digest : list Z) (C : commitments_t)
           (params : picnic_instance_t) : list Z :=
  let ctx := hash_init params in
  let ctx := absorb_commitments (num_MPC_parties params) 0 ctx C params in
  let ctx := hash_final ctx in
  hash_squeeze shake params ctx digest (digest_size params).

(** [for (i = 0; i < num_MPC_parties; i++) hash_update(msgs->msgs[i])] *)
Fixpoint absorb_msgs (n i : nat) (ctx : list Z) (msgs : msgs_t) : list Z :=
  match n with
  | O => ctx
  | S n' =>
      absorb_msgs n' (S i)
        (hash_update ctx (nth i (party_msgs msgs) []) (numBytes (msgs_pos msgs)))
        msgs
  end.

(** [commit_v(digest, input, msgs, params)] *)
Definition commit_v (digest input : list Z) (msgs : msgs_t)
           (params : picnic_instance_t) : list Z :=
  let ctx := hash_init params in
  let ctx := hash_update ctx input (input_size params) in
  let ctx := absorb_msgs (num_MPC_parties params) 0 ctx msgs in
  let ctx := hash_final ctx in
  hash_squeeze shake params ctx digest (digest_size params).

(** The loop of [getAuxBits]: [n] bits left, [i] the tape offset and
    [pos] the output position. *)
Fixpoint aux_bits_loop (n i pos : nat) (output tape : list Z)
         (firstAuxIndex : nat) : list Z :=
  match n with
  | O => output
  | S n' =>
      let auxBit := getBit tape (firstAuxIndex + i) in
      aux_bits_loop n' (i + 2) (S pos) (setBit output pos auxBit) tape
        firstAuxIndex
  end.

(** [getAuxBits(output, tapes, params)] *)
Definition getAuxBits (output : list Z) (tapes : randomTape_t)
           (params : picnic_instance_t) : list Z :=
  let firstAuxIndex := (lowmc_n params + 1)%nat in
  let last := (num_MPC_parties params - 1)%nat in
  let output := memset0 output (view_size params) in
  let andSizeBits := (3 * lowmc_r params * lowmc_m params)%nat in
  aux_bits_loop andSizeBits 0 0 output (party_tape tapes last) firstAuxIndex.

(** The loop of [setAuxBits]: [n] bits left, [i] the tape offset and
    [pos] the input position. *)
Fixpoint set_aux_bits_loop (n i pos : nat) (tape input : list Z)
         (firstAuxIndex : nat) : list Z :=
  match n with
  | O => tape
  | S n' =>
      let auxBit := getBit input pos in
      set_aux_bits_loop n' (i + 2) (S pos)
        (setBit tape (firstAuxIndex + i) auxBit) input firstAuxIndex
  end.

(** [setAuxBits(tapes, input, params)] *)
Definition setAuxBits (tapes : randomTape_t) (input : list Z)
           (params : picnic_instance_t) : randomTape_t :=
  let firstAuxIndex := (lowmc_n params + 1)%nat in
  let last := (num_MPC_parties params - 1)%nat in
  set_party_tape tapes last
    (set_aux_bits_loop (view_size params * 8) 0 0 (party_tape tapes last)
       input firstAuxIndex).

(** A tape array slot and a message slot that do not exist. *)
Definition no_tape : randomTape_t := {| tape := []; pos := 0; nTapes := 0 |}.
Definition no_msgs : msgs_t := {| party_msgs := []; msgs_pos := 0 |}.
Definition no_commitments : commitments_t := {| hashes := [] |}.

(** [for (j = 0; j < num_MPC_parties; j += 4) commit_x4(C[t].hashes + j,
    seed_ptr, sig->salt, t, j, params)], [n] turns left. *)
Fixpoint commit_parties (n j : nat) (hashes : list (list Z)) (seeds_t : tree_t)
         (salt : list Z) (t : nat) (params : picnic_instance_t)
  : list (list Z) :=
  match n with
  | O => hashes
  | S n' =>
      let seed_ptr := [getLeaf seeds_t (j + 0); getLeaf seeds_t (j + 1);
                       getLeaf seeds_t (j + 2); getLeaf seeds_t (j + 3)] in
      commit_parties n' (j + 4) (commit_x4 hashes seed_ptr salt t j params)
        seeds_t salt t params
  end.

(** The loop "Commit to seeds and aux bits"; [auxBits] is the one array
    used for every round.  Every turn starts with
    [assert(params->num_MPC_parties % 4 == 0)]; when it fails the loop
    does not return ([None]). *)
Fixpoint commit_rounds (n t : nat) (C : list commitments_t) (auxBits : list Z)
         (seeds : nat -> tree_t) (tapes : list randomTape_t) (salt : list Z)
         (params : picnic_instance_t)
  : option (list commitments_t * list Z) :=
  match n with
  | O => Some (C, auxBits)
  | S n' =>
      if negb (num_MPC_parties params mod 4 =? 0)%nat then None
      else
      let hs := commit_parties (num_MPC_parties params / 4) 0
                  (hashes (nth t C no_commitments)) (seeds t) salt t params in
      let last := (num_MPC_parties params - 1)%nat in
      let auxBits := getAuxBits auxBits (nth t tapes no_tape) params in
      let hs := upd hs last
                  (commit (nth last hs []) (getLeaf (seeds t) last) (Some auxBits)
                     salt t last params) in
      commit_rounds n' (S t) (upd C t {| hashes := hs |}) auxBits seeds tapes
        salt params
  end.

(** The loop that derives the seeds and the random tapes of every round:
    [seeds[t] = generateSeeds(...); createRandomTapes(&tapes[t], ...)],
    [n] rounds left. *)
Fixpoint create_tapes (n t : nat) (seeds : nat -> tree_t) (salt : list Z)
         (params : picnic_instance_t) : option (list randomTape_t) :=
  match n with
  | O => Some []
  | S n' =>
      match createRandomTapes (getLeaves (seeds t)) salt t params with
      | None => None
      | Some tapes_t =>
          match create_tapes n' (S t) seeds salt params with
          | None => None
          | Some rest => Some (tapes_t :: rest)
          end
      end
  end.

(** The loop "Simulate the online phase of the MPC".  [maskedKey]
    aliases [inputs[t]]; [mask_shares] is shared by all rounds. *)
Fixpoint simulate_rounds (n t : nat)
         (st : Z * list (list Z) * list msgs_t * list word * list randomTape_t)
         (privateKey plaintext pubKey : list Z) (params : picnic_instance_t)
  : Z * list (list Z) * list msgs_t * list word * list randomTape_t :=
  match n with
  | O => st
  | S n' =>
      let '(ret, inputs, msgs, mask_shares, tapes) := st in
      let maskedKey := nth t inputs [] in
      let '(mask_shares1, tapes_t1) :=
        tapesToWords (length mask_shares) (nth t tapes no_tape) in
      let maskedKey1 := reconstructShares maskedKey mask_shares1 in
      let maskedKey2 :=
        xor_word_array maskedKey1 maskedKey1 privateKey (input_size params / 4) in
      let '(rv, (maskedKey3, mask_shares2, tapes_t2, msgs_t1)) :=
        lowmc_simulate_online maskedKey2 mask_shares1 tapes_t1
          (nth t msgs no_msgs) plaintext pubKey params in
      let ret1 := if rv =? 0 then ret else -1 in
      simulate_rounds n' (S t)
        (ret1, upd inputs t maskedKey3, upd msgs t msgs_t1, mask_shares2,
         upd tapes t tapes_t2)
        privateKey plaintext pubKey params
  end.

(** The loop "Commit to the commitments and views". *)
Fixpoint commit_views (n t : nat) (Ch Cv : commitments_t)
         (C : list commitments_t) (inputs : list (list Z)) (msgs : list msgs_t)
         (params : picnic_instance_t) : commitments_t * commitments_t :=
  match n with
  | O => (Ch, Cv)
  | S n' =>
      let Ch1 := {| hashes :=
                      upd (hashes Ch) t
                        (commit_h (nth t (hashes Ch) []) (nth t C no_commitments)
                           params) |} in
      let Cv1 := {| hashes :=
                      upd (hashes Cv) t
                        (commit_v (nth t (hashes Cv) []) (nth t inputs [])
                           (nth t msgs no_msgs) params) |} in
      commit_views n' (S t) Ch1 Cv1 C inputs msgs params
  end.

(** The loop "Assemble the proof". *)
Fixpoint assemble_proofs (n t : nat) (proofs : list proof2_t)
         (raw : uninitialized) (challengeC challengeP : list Z)
         (seeds : nat -> tree_t) (tapes : list randomTape_t)
         (inputs : list (list Z)) (msgs : list msgs_t) (C : list commitments_t)
         (params : picnic_instance_t) : list proof2_t :=
  match n with
  | O => proofs
  | S n' =>
      let tau := num_opened_rounds params in
      if contains challengeC tau (to_u16 t) =? 0
      then assemble_proofs n' (S t) proofs raw challengeC challengeP seeds tapes
             inputs msgs C params
      else
        let p0 := allocateProof2 params in
        let unOpened := P_of challengeC challengeP tau t in
        let hideList := [unOpened] in
        let written :=
          revealSeeds (seeds t) hideList 1
            (num_MPC_parties params * seed_size params) params in
        let seedInfoLen1 := length written in
        let seedInfo1 :=
          firstn seedInfoLen1 (memcpy (raw_seedInfo raw t) written seedInfoLen1) in
        let last := (num_MPC_parties params - 1)%nat in
        let aux1 := if unOpened =? Z.of_nat last then aux p0
                    else getAuxBits (aux p0) (nth t tapes no_tape) params in
        let input1 := memcpy (input p0) (nth t inputs []) (input_size params) in
        let msgs1 :=
          memcpy (Sig.msgs p0)
            (nth (Z.to_nat unOpened) (party_msgs (nth t msgs no_msgs)) [])
            (view_size params + input_size params) in
        let C1 :=
          memcpy (Sig.C p0)
            (nth (Z.to_nat unOpened) (hashes (nth t C no_commitments)) [])
            (digest_size params) in
        assemble_proofs n' (S t)
          (upd proofs t
             {| seedInfo := seedInfo1; seedInfoLen := seedInfoLen1; aux := aux1;
                Sig.C := C1; input := input1; Sig.msgs := msgs1;
                unOpenedIndex := unOpened |})
          raw challengeC challengeP seeds tapes inputs msgs C params
  end.

(** What [sign_picnic2] holds when it calls [HCP]: the return value so
    far, the salt, the seed trees, the tapes, the commitments [C], the
    inputs and messages of the simulation, the commitments [Ch] and the
    Merkle tree over [Cv]. *)
Record commit_state : Type := CommitState {
  cs_ret : Z;
  cs_salt : list Z;
  cs_iSeedsTree : tree_t;
  cs_seeds : nat -> tree_t;
  cs_tapes : list randomTape_t;
  cs_C : list commitments_t;
  cs_inputs : list (list Z);
  cs_msgs : list msgs_t;
  cs_Ch : commitments_t;
  cs_treeCv : tree_t
}.

(** [sign_picnic2] from its start to the Merkle tree over [Cv]; [None]
    when one of the assertions on the number of parties fails.  [raw] is
    the content of the memory obtained uninitialized. *)
Definition sign_commit (raw : uninitialized)
           (privateKey pubKey plaintext message : list Z)
           (messageByteLength : nat) (sig : signature2_t)
           (params : picnic_instance_t) : option commit_state :=
  let ret := 0 in
  let saltAndRoot := raw_saltAndRoot raw in
  let saltAndRoot :=
    computeSaltAndRootSeed saltAndRoot (seed_size params + SALT_SIZE)
      privateKey pubKey plaintext message messageByteLength params in
  let salt1 := memcpy (salt sig) saltAndRoot SALT_SIZE in
  let iSeedsTree :=
    generateSeeds (num_rounds params) (skipn SALT_SIZE saltAndRoot) salt1 0
      params in
  let iSeeds := getLeaves iSeedsTree in
  let seeds := fun t =>
    generateSeeds (num_MPC_parties params) (nth t iSeeds []) salt1 t params in
  match create_tapes (num_rounds params) 0 seeds salt1 params with
  | None => None
  | Some tapes =>
  let tapes :=
    map (computeAuxTape mzd_from_char_array lowmc_aux_impl (lowmc_n params))
        tapes in
  let C := allocateCommitments params 0 in
  match commit_rounds (num_rounds params) 0 C (raw_auxBits raw) seeds tapes
          salt1 params with
  | None => None
  | Some (C, auxBits) =>
  let inputs := allocateInputs params in
  let msgs := allocateMsgs params in
  let mask_shares := allocateShares (lowmc_n params) in
  let '(ret, inputs, msgs, mask_shares, tapes) :=
    simulate_rounds (num_rounds params) 0
      (ret, inputs, msgs, mask_shares, tapes) privateKey plaintext pubKey
      params in
  let Ch := allocateCommitments2 params (num_rounds params) in
  let Cv := allocateCommitments2 params (num_rounds params) in
  let '(Ch, Cv) :=
    commit_views (num_rounds params) 0 Ch Cv C inputs msgs params in
  let treeCv := createTree (num_rounds params) (digest_size params) in
  let treeCv := buildMerkleTree treeCv (hashes Cv) salt1 params in
  Some {| cs_ret := ret; cs_salt := salt1; cs_iSeedsTree := iSeedsTree;
          cs_seeds := seeds; cs_tapes := tapes; cs_C := C;
          cs_inputs := inputs; cs_msgs := msgs; cs_Ch := Ch;
          cs_treeCv := treeCv |}
  end
  end.

(** The digest [HCP] starts from when [sign_picnic2] calls it. *)
Definition sign_digest (cs : commit_state)
           (pubKey plaintext message : list Z) (messageByteLength : nat)
           (params : picnic_instance_t) : list Z :=
  first_digest shake (hashes (cs_Ch cs)) (nth 0 (nodes (cs_treeCv cs)) [])
    (cs_salt cs) pubKey plaintext message messageByteLength params.

(** The digest from which [sign_picnic2] derives the challenge; there is
    none when the commitments are not reached. *)
Definition sign_challenge_digest (raw : uninitialized)
           (privateKey pubKey plaintext message : list Z)
           (messageByteLength : nat) (sig : signature2_t)
           (params : picnic_instance_t) : list Z :=
  match sign_commit raw privateKey pubKey plaintext message messageByteLength
          sig params with
  | Some cs => sign_digest cs pubKey plaintext message messageByteLength params
  | None => []
  end.

(** [sign_picnic2(privateKey, pubKey, plaintext, message,
    messageByteLength, sig, params)]: the return value and the signature,
    or [None] when the call does not return: an assertion fails, or [HCP]
    does not come back within [fuel] digests.  [raw] is the content of
    the memory obtained uninitialized. *)
Definition sign_picnic2 (fuel : nat) (raw : uninitialized)
           (privateKey pubKey plaintext message : list Z)
           (messageByteLength : nat) (sig : signature2_t)
           (params : picnic_instance_t) : option (Z * signature2_t) :=
  match sign_commit raw privateKey pubKey plaintext message messageByteLength
          sig params with
  | None => None
  | Some cs =>
  match HCP shake fuel (challengeC sig) (challengeP sig) (hashes (cs_Ch cs))
          (nth 0 (nodes (cs_treeCv cs)) []) (cs_salt cs) pubKey plaintext
          message messageByteLength params with
  | None => None
  | Some (challengeC1, challengeP1) =>
      let missingLeavesSize :=
        (num_rounds params - num_opened_rounds params)%nat in
      let missingLeaves := getMissingLeavesList challengeC1 params in
      let cvInfo1 :=
        openMerkleTree (cs_treeCv cs) missingLeaves missingLeavesSize in
      let cvInfoLen1 := length cvInfo1 in
      let written :=
        revealSeeds (cs_iSeedsTree cs) challengeC1 (num_opened_rounds params)
          (num_rounds params * seed_size params) params in
      let iSeedInfoLen1 := length written in
      let iSeedInfo1 :=
        firstn iSeedInfoLen1 (memcpy (raw_iSeedInfo raw) written iSeedInfoLen1) in
      let proofs1 :=
        assemble_proofs (num_rounds params) 0 (proofs sig) raw challengeC1
          challengeP1 (cs_seeds cs) (cs_tapes cs) (cs_inputs cs) (cs_msgs cs)
          (cs_C cs) params in
      Some (cs_ret cs,
            {| salt := cs_salt cs; iSeedInfo := iSeedInfo1;
               iSeedInfoLen := iSeedInfoLen1; cvInfo := cvInfo1;
               cvInfoLen := cvInfoLen1; challengeC := challengeC1;
               challengeP := challengeP1; proofs := proofs1 |})
  end
  end.

End Sign.

(** What [computeSaltAndRootSeed] is meant to hash: the private key,
    the message, the public key, the plaintext and the state size as two
    little-endian bytes. *)
Definition salt_and_root_transcript
           (privateKey pubKey plaintext message : list Z)
           (messageByteLength : nat) (params : picnic_instance_t) : list Z :=
  firstn (input_size params) privateKey
  ++ firstn messageByteLength message
  ++ firstn (input_size params) pubKey
  ++ firstn (input_size params) plaintext
  ++ [Z.of_nat (lowmc_n params) mod 256; Z.of_nat (lowmc_n params) / 256 mod 256].


End Signing.
(* ================================================================== *)
(** * Concrete operands used to exercise the theorems *)
(* ================================================================== *)

Module Examples.

Import BinMat.

(** A 64-bit vector with bits 0 and 2 set. *)
Definition v64 : mzd_local_t :=
  {| nrows := 1; ncols := 64; width := 1; rowstride := 2; mem := [5; 0] |}.

(** A 64 x 64 matrix whose row [i] holds the word [i + 1]. *)
Definition A64 : mzd_local_t :=
  {| nrows := 64; ncols := 64; width := 1; rowstride := 2;
     mem := flat_map (fun i => [Z.of_nat (i + 1); 0]) (seq 0 64) |}.

(** A 64-bit accumulator. *)
Definition c64 : mzd_local_t :=
  {| nrows := 1; ncols := 64; width := 1; rowstride := 2; mem := [7; 0] |}.

(** A 128-bit vector with only bit 0 set. *)
Definition v128_e0 : mzd_local_t :=
  {| nrows := 1; ncols := 128; width := 2; rowstride := 2; mem := [1; 0] |}.

(** A 3 x 128 matrix whose row 0 has bit 0 set and whose other rows are zero. *)
Definition At3_128 : mzd_local_t :=
  {| nrows := 3; ncols := 128; width := 2; rowstride := 2;
     mem := [1; 0; 0; 0; 0; 0] |}.

(** A 128-bit output vector with stale content. *)
Definition c128 : mzd_local_t :=
  {| nrows := 1; ncols := 128; width := 2; rowstride := 2; mem := [9; 9] |}.

(** 64 tapes of 12 bytes each, filled with a fixed pattern. *)
Definition demo_tapes : Tape.randomTape_t :=
  {| Tape.tape :=
       map (fun i =>
              map (fun k =>
                     Z.of_nat ((i * i * 37 + i * k * 5 + k * 11 + 5
                                + (i / 3) * 64 + i / 7) mod 256))
                  (seq 0 12))
           (seq 0 64);
     Tape.pos := 0;
     Tape.nTapes := 64 |}.

(** A stand-in for [mzd_from_char_array]: the first eight bytes become
    the first word. *)
Definition demo_from_char_array (M : mzd_local_t) (bytes : list Z) (len : nat)
  : mzd_local_t :=
  set_mem M [Tape.word_of_bytes (firstn 8 bytes)].

(** The state a stand-in cipher starts from: the first key byte in the
    top byte of the word, where the S-box layer works. *)
Definition demo_state (key : mzd_local_t) : word :=
  W64.shl (rd (mem key) 0) 56.

(** A stand-in for the cipher's aux evaluation: one S-box layer on that
    state. *)
Definition demo_lowmc_aux (key : mzd_local_t) (t : Tape.randomTape_t)
  : Tape.randomTape_t :=
  snd (Tape.sbox_layer_10_uint64_aux (demo_state key) t).

(** The 30 AND gates [demo_lowmc_aux] processes when [computeAuxTape]
    runs on [demo_tapes] with an 8-bit key. *)
Definition demo_gates : list (word * word) :=
  Tape.sbox_layer_10_gates
    (demo_state
       (demo_from_char_array (mzd_local_init_ex [] 8 1 true)
          (Tape.key_bits (fst (Tape.tapesToWords 8 demo_tapes)) 0
             (repeat 0 32)) (8 / 8)))
    (snd (Tape.tapesToWords 8 demo_tapes)).

(** A toy parameter set: two rounds, one of them opened, two parties,
    an 8-bit state, one S-box, one cipher round, one-byte fields. *)
Definition demo_params : Sig.picnic_instance_t :=
  {| Sig.lowmc_n := 8; Sig.lowmc_r := 1; Sig.lowmc_m := 1;
     Sig.num_rounds := 2; Sig.num_opened_rounds := 1;
     Sig.num_MPC_parties := 2;
     Sig.seed_size := 1; Sig.input_size := 1; Sig.view_size := 1;
     Sig.digest_size := 1 |}.

(** Stand-ins for the tree helpers' size functions: one byte each. *)
Definition demo_revealSeedsSize (numNodes : nat) (hideList : list Z)
  (hideListSize : nat) (params : Sig.picnic_instance_t) : nat := 1.

Definition demo_openMerkleTreeSize (numNodes : nat) (missingLeaves : list Z)
  (missingLeavesSize : nat) (params : Sig.picnic_instance_t) : nat := 1.

(** A stand-in for [allocateProof2]: zeroed buffers of the sizes the
    parameter set gives. *)
Definition demo_allocateProof2 (params : Sig.picnic_instance_t) : Sig.proof2_t :=
  {| Sig.seedInfo := []; Sig.seedInfoLen := 0;
     Sig.aux := repeat 0 (Sig.view_size params);
     Sig.C := repeat 0 (Sig.digest_size params);
     Sig.input := repeat 0 (Sig.input_size params);
     Sig.msgs := repeat 0 (Sig.input_size params + Sig.view_size params);
     Sig.unOpenedIndex := 0 |}.

(** A freshly allocated signature for [params]. *)
Definition blank_signature (params : Sig.picnic_instance_t) : Sig.signature2_t :=
  {| Sig.salt := repeat 0 Sig.SALT_SIZE;
     Sig.iSeedInfo := []; Sig.iSeedInfoLen := 0;
     Sig.cvInfo := []; Sig.cvInfoLen := 0;
     Sig.challengeC := repeat 0 (Sig.num_opened_rounds params);
     Sig.challengeP := repeat 0 (Sig.num_opened_rounds params);
     Sig.proofs := repeat Sig.empty_proof (Sig.num_rounds params) |}.

(** A 44-byte signature for [demo_params]: round 1 opened with hidden
    party 0, salt bytes 7, then [iSeedInfo], [cvInfo] and the one proof
    ([seedInfo], [aux], [input], two bytes of [msgs], [C]). *)
Definition demo_sigBytes : list Z :=
  [1; 0] ++ [0; 0] ++ repeat 7 32 ++ [9] ++ [8]
  ++ [5; 224; 77; 255; 224; 3].

(** The same bytes with one padding bit of [aux] set. *)
Definition demo_sigBytes_bad_padding : list Z :=
  [1; 0] ++ [0; 0] ++ repeat 7 32 ++ [9] ++ [8]
  ++ [5; 225; 77; 255; 224; 3].

(** The signature structure whose serialization is [demo_sigBytes]. *)
Definition demo_signature : Sig.signature2_t :=
  {| Sig.salt := repeat 7 32;
     Sig.iSeedInfo := [9]; Sig.iSeedInfoLen := 1;
     Sig.cvInfo := [8]; Sig.cvInfoLen := 1;
     Sig.challengeC := [1]; Sig.challengeP := [0];
     Sig.proofs :=
       [Sig.empty_proof;
        {| Sig.seedInfo := [5]; Sig.seedInfoLen := 1; Sig.aux := [224];
           Sig.C := [3]; Sig.input := [77]; Sig.msgs := [255; 224];
           Sig.unOpenedIndex := 0 |}] |}.

(** [demo_params] with two-byte inputs and one-byte seeds. *)
Definition skewed_params : Sig.picnic_instance_t :=
  {| Sig.lowmc_n := 8; Sig.lowmc_r := 1; Sig.lowmc_m := 1;
     Sig.num_rounds := 2; Sig.num_opened_rounds := 1;
     Sig.num_MPC_parties := 2;
     Sig.seed_size := 1; Sig.input_size := 2; Sig.view_size := 1;
     Sig.digest_size := 1 |}.

(** A signature structure for [skewed_params]; the input of the opened
    round is [77; 78]. *)
Definition skewed_signature : Sig.signature2_t :=
  {| Sig.salt := repeat 7 32;
     Sig.iSeedInfo := [9]; Sig.iSeedInfoLen := 1;
     Sig.cvInfo := [8]; Sig.cvInfoLen := 1;
     Sig.challengeC := [1]; Sig.challengeP := [0];
     Sig.proofs :=
       [Sig.empty_proof;
        {| Sig.seedInfo := [5]; Sig.seedInfoLen := 1; Sig.aux := [224];
           Sig.C := [3]; Sig.input := [77; 78]; Sig.msgs := [255; 224; 0];
           Sig.unOpenedIndex := 0 |}] |}.

(** A toy parameter set for the challenge derivation: five rounds, three
    of them opened, three parties, two-byte digests. *)
Definition hcp_params : Sig.picnic_instance_t :=
  {| Sig.lowmc_n := 8; Sig.lowmc_r := 1; Sig.lowmc_m := 1;
     Sig.num_rounds := 5; Sig.num_opened_rounds := 3;
     Sig.num_MPC_parties := 3;
     Sig.seed_size := 1; Sig.input_size := 1; Sig.view_size := 1;
     Sig.digest_size := 2 |}.

(** A stand-in for the hash: output byte [i] mixes the sum of the
    absorbed bytes with [i]. *)
Definition toy_shake (params : Sig.picnic_instance_t) (absorbed : list Z)
  (n : nat) : list Z :=
  map (fun i => (7 * fold_right Z.add 0 absorbed + 91 * Z.of_nat i + 3) mod 256)
      (seq 0 n).

(** The digest the toy challenge derivation starts from: five round
    commitments, a Merkle root, a salt, one-byte key and plaintext, and a
    three-byte message. *)
Definition hcp_first_digest : list Z :=
  Challenge.first_digest toy_shake [[1; 2]; [3; 4]; [5; 6]; [7; 8]; [9; 10]]
    [11; 12] (repeat 1 32) [2] [3] [4; 5; 6] 3 hcp_params.

(** ** A toy instance of the signer *)

(** Five rounds, three of them opened, four parties. *)
Definition sign_params : Sig.picnic_instance_t :=
  {| Sig.lowmc_n := 8; Sig.lowmc_r := 1; Sig.lowmc_m := 1;
     Sig.num_rounds := 5; Sig.num_opened_rounds := 3;
     Sig.num_MPC_parties := 4;
     Sig.seed_size := 1; Sig.input_size := 1; Sig.view_size := 1;
     Sig.digest_size := 2 |}.

(** Stand-ins for the helpers defined elsewhere; a tree is the list of
    its leaves. *)
Definition toy_generateSeeds (n : nat) (root salt : list Z) (rep : nat)
  (params : Sig.picnic_instance_t) : list (list Z) :=
  map (fun i => toy_shake params (root ++ salt ++ [Z.of_nat rep; Z.of_nat i])
                  (Sig.seed_size params))
      (seq 0 n).

Definition toy_getLeaf (tree : list (list Z)) (i : nat) : list Z := nth i tree [].

Definition toy_allocateRandomTape (params : Sig.picnic_instance_t)
  : Tape.randomTape_t :=
  {| Tape.tape :=
       repeat (repeat 0 (2 * Sig.view_size params + Sig.input_size params))
              (Sig.num_MPC_parties params);
     Tape.pos := 0;
     Tape.nTapes := Sig.num_MPC_parties params |}.

Definition toy_lowmc_aux (key : mzd_local_t) (t : Tape.randomTape_t)
  : Tape.randomTape_t := t.

Definition toy_allocateCommitments (params : Sig.picnic_instance_t) (n : nat)
  : list Signing.commitments_t :=
  repeat {| Signing.hashes :=
              repeat (repeat 0 (Sig.digest_size params))
                     (Sig.num_MPC_parties params) |}
         (Sig.num_rounds params).

Definition toy_allocateCommitments2 (params : Sig.picnic_instance_t) (n : nat)
  : Signing.commitments_t :=
  {| Signing.hashes := repeat (repeat 0 (Sig.digest_size params)) n |}.

Definition toy_allocateInputs (params : Sig.picnic_instance_t) : list (list Z) :=
  repeat (repeat 0 (Sig.input_size params)) (Sig.num_rounds params).

Definition toy_allocateMsgs (params : Sig.picnic_instance_t)
  : list Signing.msgs_t :=
  repeat {| Signing.party_msgs :=
              repeat (repeat 0 (Sig.view_size params + Sig.input_size params))
                     (Sig.num_MPC_parties params);
            Signing.msgs_pos := 0 |}
         (Sig.num_rounds params).

Definition toy_allocateShares (n : nat) : list Z := repeat 0 n.

Definition toy_reconstructShares (out shares : list Z) : list Z :=
  map (fun i => nth i shares 0 mod 256) (seq 0 (length out)).

Definition toy_xor_word_array (out a b : list Z) (len : nat) : list Z :=
  map (fun i => Z.lxor (nth i a 0) (nth i b 0)) (seq 0 (length out)).

Definition toy_simulate_online (maskedKey shares : list Z)
  (tapes : Tape.randomTape_t) (msgs : Signing.msgs_t)
  (plaintext pubKey : list Z) (params : Sig.picnic_instance_t)
  : Z * (list Z * list Z * Tape.randomTape_t * Signing.msgs_t) :=
  (0, (maskedKey, shares, tapes,
       {| Signing.party_msgs :=
            map (map (fun b => Z.lxor b (nth 0 maskedKey 0)))
                (Signing.party_msgs msgs);
          Signing.msgs_pos := 8 |})).

Definition toy_createTree (n digest_bytes : nat) : list (list Z) :=
  repeat (repeat 0 digest_bytes) n.

Definition toy_buildMerkleTree (tree leaves : list (list Z)) (salt : list Z)
  (params : Sig.picnic_instance_t) : list (list Z) :=
  toy_shake params (concat leaves ++ salt) (Sig.digest_size params) :: leaves.

Definition toy_openMerkleTree (tree : list (list Z)) (missing : list Z)
  (n : nat) : list Z :=
  concat (map (fun m => nth (S (Z.to_nat m)) tree []) (firstn n missing)).

Definition toy_revealSeeds (tree : list (list Z)) (hide : list Z)
  (hideSize outputSize : nat) (params : Sig.picnic_instance_t) : list Z :=
  firstn outputSize
    (concat (map (fun i =>
                    if existsb (fun h => h =? Z.of_nat i) (firstn hideSize hide)
                    then [] else nth i tree [])
                 (seq 0 (length tree)))).

(** The signer on the toy helpers. *)
Definition toy_sign (fuel : nat) (raw : Signing.uninitialized)
  (sig : Sig.signature2_t) : option (Z * Sig.signature2_t) :=
  Signing.sign_picnic2 toy_shake (list (list Z)) (fun tree => tree)
    toy_generateSeeds (fun tree => tree) toy_getLeaf toy_allocateRandomTape
    demo_from_char_array toy_lowmc_aux toy_allocateCommitments
    toy_allocateCommitments2 toy_allocateInputs toy_allocateMsgs
    toy_allocateShares toy_reconstructShares toy_xor_word_array
    toy_simulate_online toy_createTree toy_buildMerkleTree toy_openMerkleTree
    toy_revealSeeds demo_allocateProof2
    fuel raw [201] [17] [66] [4; 5; 6] 3 sig sign_params.

(** The digest the toy signer derives its challenge from. *)
Definition toy_sign_digest (raw : Signing.uninitialized)
  (sig : Sig.signature2_t) : list Z :=
  Signing.sign_challenge_digest toy_shake (list (list Z)) (fun tree => tree)
    toy_generateSeeds (fun tree => tree) toy_getLeaf toy_allocateRandomTape
    demo_from_char_array toy_lowmc_aux toy_allocateCommitments
    toy_allocateCommitments2 toy_allocateInputs toy_allocateMsgs
    toy_allocateShares toy_reconstructShares toy_xor_word_array
    toy_simulate_online toy_createTree toy_buildMerkleTree
    raw [201] [17] [66] [4; 5; 6] 3 sig sign_params.

(** Two states of the memory the signer does not initialize, and two
    signature structures with different previous content. *)
Definition raw_a : Signing.uninitialized :=
  {| Signing.raw_saltAndRoot := repeat 170 33;
     Signing.raw_auxBits := repeat 255 4;
     Signing.raw_iSeedInfo := repeat 1 5;
     Signing.raw_seedInfo := fun _ => repeat 2 4 |}.

Definition raw_b : Signing.uninitialized :=
  {| Signing.raw_saltAndRoot := repeat 0 33;
     Signing.raw_auxBits := [85];
     Signing.raw_iSeedInfo := [];
     Signing.raw_seedInfo := fun t => repeat 9 t |}.

Definition used_signature : Sig.signature2_t :=
  {| Sig.salt := repeat 5 32;
     Sig.iSeedInfo := [1; 2; 3]; Sig.iSeedInfoLen := 3;
     Sig.cvInfo := [4]; Sig.cvInfoLen := 1;
     Sig.challengeC := [9; 9; 9]; Sig.challengeP := [8; 8; 8];
     Sig.proofs := repeat (demo_allocateProof2 skewed_params) 5 |}.

(** ** 128-bit operands for the vector backends *)

(** A 128-bit vector with bits 0, 2, 64 and 127 set. *)
Definition vec128 : mzd_local_t :=
  {| nrows := 1; ncols := 128; width := 2; rowstride := 2;
     mem := [5; 9223372036854775809] |}.

(** A 128 x 128 matrix whose row [i] holds the words [i + 1] and [3 i]. *)
Definition mat128 : mzd_local_t :=
  {| nrows := 128; ncols := 128; width := 2; rowstride := 2;
     mem := flat_map (fun i => [Z.of_nat (i + 1); 3 * Z.of_nat i]) (seq 0 128) |}.

(** A 128-bit accumulator and a second 128-bit operand. *)
Definition acc128 : mzd_local_t :=
  {| nrows := 1; ncols := 128; width := 2; rowstride := 2; mem := [7; 1] |}.

Definition arg128 : mzd_local_t :=
  {| nrows := 1; ncols := 128; width := 2; rowstride := 2; mem := [12; 10] |}.

(** An upper half of the accumulator register with one bit set. *)
Definition stale_upper_half : Simd.m128 :=
  {| Simd.lane0 := 1; Simd.lane1 := 0 |}.

(** ** A 2 x 192 matrix with padding, and a copy target *)

Definition pad192 : mzd_local_t :=
  {| nrows := 2; ncols := 192; width := 3; rowstride := 4;
     mem := [1; 2; 3; 77; 4; 5; 6; 88] |}.

Definition blank192 : mzd_local_t :=
  {| nrows := 2; ncols := 192; width := 3; rowstride := 4;
     mem := [9; 9; 9; 9; 9; 9; 9; 9; 9] |}.

(** A 192-bit vector whose last word has bits 34, 36 and 63 set, and a
    30 x 192 matrix whose row [i] holds [i + 1], [2 i] and [7]. *)
Definition v192_top : mzd_local_t :=
  {| nrows := 1; ncols := 192; width := 3; rowstride := 4;
     mem := [5; 6; 9223372122754121728; 0] |}.

Definition A30_192 : mzd_local_t :=
  {| nrows := 30; ncols := 192; width := 3; rowstride := 4;
     mem := flat_map (fun i => [Z.of_nat (i + 1); 2 * Z.of_nat i; 7; 0])
              (seq 0 30) |}.

Definition c192 : mzd_local_t :=
  {| nrows := 1; ncols := 192; width := 3; rowstride := 4;
     mem := [1; 1; 1; 1] |}.

(** A 128-bit vector whose last word has bits 34, 36 and 63 set, and a
    30 x 128 matrix whose row [i] holds [i + 1] and [2 i]. *)
Definition v128_top : mzd_local_t :=
  {| nrows := 1; ncols := 128; width := 2; rowstride := 2;
     mem := [5; 9223372122754121728] |}.

Definition A30_128 : mzd_local_t :=
  {| nrows := 30; ncols := 128; width := 2; rowstride := 2;
     mem := flat_map (fun i => [Z.of_nat (i + 1); 2 * Z.of_nat i]) (seq 0 30) |}.

(** 192-bit operands in rows of four words: a vector with bits 0, 2, 64
    and 191 set, a matrix whose row [i] holds [i + 1], [3 i], [5] and the
    padding word [pad i], and an accumulator. *)
Definition vec192 : mzd_local_t :=
  {| nrows := 1; ncols := 192; width := 3; rowstride := 4;
     mem := [5; 1; 9223372036854775808; 0] |}.

Definition mat192 (pad : nat -> Z) : mzd_local_t :=
  {| nrows := 192; ncols := 192; width := 3; rowstride := 4;
     mem := flat_map (fun i => [Z.of_nat (i + 1); 3 * Z.of_nat i; 5; pad i])
              (seq 0 192) |}.

Definition acc192 : mzd_local_t :=
  {| nrows := 1; ncols := 192; width := 3; rowstride := 4;
     mem := [7; 1; 2; 0] |}.

(** 256-bit operands: a vector with bits 0, 2, 64 and 255 set and a
    matrix whose row [i] holds [i + 1], [3 i], [5] and [7 i]. *)
Definition vec256 : mzd_local_t :=
  {| nrows := 1; ncols := 256; width := 4; rowstride := 4;
     mem := [5; 1; 0; 9223372036854775808] |}.

Definition mat256 : mzd_local_t :=
  {| nrows := 256; ncols := 256; width := 4; rowstride := 4;
     mem := flat_map (fun i => [Z.of_nat (i + 1); 3 * Z.of_nat i; 5;
                                7 * Z.of_nat i])
              (seq 0 256) |}.

Definition acc256 : mzd_local_t :=
  {| nrows := 1; ncols := 256; width := 4; rowstride := 4;
     mem := [7; 1; 2; 4] |}.

(** ** Aux bits: two parties, three AND gates, one byte of view *)

Definition aux_params : Sig.picnic_instance_t :=
  {| Sig.lowmc_n := 2; Sig.lowmc_r := 1; Sig.lowmc_m := 1;
     Sig.num_rounds := 1; Sig.num_opened_rounds := 1;
     Sig.num_MPC_parties := 2; Sig.seed_size := 1; Sig.input_size := 1;
     Sig.view_size := 1; Sig.digest_size := 1 |}.

Definition signer_tapes : Tape.randomTape_t :=
  {| Tape.tape := [[1; 2; 3]; [21; 64; 0]]; Tape.pos := 0; Tape.nTapes := 2 |}.

Definition verifier_tapes : Tape.randomTape_t :=
  {| Tape.tape := [[1; 2; 3]; [255; 255; 255]]; Tape.pos := 5;
     Tape.nTapes := 2 |}.

(** ** Shuffle masks *)

(** The even positions from 4 to 62: 30 set bits. *)
Definition mask30 : word := 6148914691236517200.

(** Positions 5, 20 and 63. *)
Definition mask3 : word := 9223372036855824416.

End Examples.
(* ================================================================== *)
(** * Part II: properties *)
(* ================================================================== *)

Section StorageFacts.

Variable A : Type.
Variable dflt : A.

Lemma upd_length (l : list A) i x : length (upd l i x) = length l.
Proof.
  revert i; induction l as [|h t IH]; intros [|i]; simpl; auto.
Qed.

Lemma rd_upd_eq (l : list A) i x : (i < length l)%nat -> rd_gen dflt (upd l i x) i = x.
Proof.
  unfold rd_gen. revert i; induction l as [|h t IH]; intros [|i] Hi;
    simpl in *; try lia; auto.
  apply IH; lia.
Qed.

Lemma rd_upd_neq (l : list A) i j x : i <> j -> rd_gen dflt (upd l i x) j = rd_gen dflt l j.
Proof.
  unfold rd_gen. revert i j; induction l as [|h t IH]; intros [|i] [|j] Hij;
    simpl in *; try congruence; auto.
Qed.

Lemma rd_ext (l1 l2 : list A) :
  length l1 = length l2 ->
  (forall i, (i < length l1)%nat -> rd_gen dflt l1 i = rd_gen dflt l2 i) ->
  l1 = l2.
Proof.
  unfold rd_gen. revert l2; induction l1 as [|h t IH]; intros [|h2 t2] Hl Hr;
    simpl in *; try discriminate; auto.
  f_equal.
  - apply (Hr O); lia.
  - apply IH; [lia|]. intros i Hi. apply (Hr (S i)); lia.
Qed.


End StorageFacts.

Lemma in_rangeb_spec x : in_rangeb x = true <-> in_range x.
Proof.
unfold in_rangeb, in_range. rewrite andb_true_iff, Z.leb_le, Z.ltb_lt. tauto.
Qed.

Lemma words_okb_spec l : words_okb l = true <-> words_ok l.
Proof.
unfold words_okb, words_ok. rewrite forallb_forall, Forall_forall.
split; intros H x Hx; apply in_rangeb_spec; auto.
Qed.

Lemma wB_pos : 0 < wB.
Proof. reflexivity. Qed.

Lemma in_range_0 : in_range 0.
Proof. split; [lia | apply wB_pos]. Qed.

Lemma rd_in_range l i : words_ok l -> in_range (rd l i).
Proof.
intros H. unfold rd, rd_gen.
destruct (Nat.lt_ge_cases i (length l)) as [Hi|Hi].
- unfold words_ok in H. rewrite Forall_forall in H. apply H. now apply nth_In.
- rewrite nth_overflow by lia. apply in_range_0.
Qed.

Lemma upd_words_ok l i x : words_ok l -> in_range x -> words_ok (upd l i x).
Proof.
unfold words_ok. intros Hl Hx. revert i.
induction Hl as [|h t Hh Ht IH]; intros [|i]; simpl; constructor; auto.
Qed.

(* ================================================================== *)
(** * Word-level bit facts *)
(* ================================================================== *)

Section WordFacts.

Lemma in_range_ones : in_range ones.
Proof. split; [discriminate | reflexivity]. Qed.

Lemma wrap_in_range z : in_range (wrap z).
Proof. unfold in_range, wrap. apply Z.mod_pos_bound, wB_pos. Qed.

Lemma wrap_small z : in_range z -> wrap z = z.
Proof. unfold in_range, wrap. intros. now apply Z.mod_small. Qed.

Lemma in_range_testbit_high x i : in_range x -> 64 <= i -> Z.testbit x i = false.
Proof.
  intros Hx Hi. rewrite <- (wrap_small x Hx). unfold wrap, wB.
  apply Z.mod_pow2_bits_high. lia.
Qed.

Lemma testbit_range x :
  0 <= x -> (forall i, 64 <= i -> Z.testbit x i = false) -> in_range x.
Proof.
  intros Hx H. unfold in_range. split; [assumption|].
  destruct (Z.eq_dec x 0) as [->|Hne]; [apply wB_pos|].
  assert (Hp : 0 < x) by lia.
  assert (Hl : Z.log2 x < 64).
  { destruct (Z_lt_le_dec (Z.log2 x) 64) as [|Hge]; [assumption|].
    specialize (H _ Hge). rewrite Z.bit_log2 in H by assumption. discriminate. }
  unfold wB. apply Z.log2_lt_pow2; lia.
Qed.

Lemma lxor_in_range x y : in_range x -> in_range y -> in_range (Z.lxor x y).
Proof.
  intros Hx Hy. apply testbit_range.
  - apply Z.lxor_nonneg. unfold in_range in *. lia.
  - intros i Hi. rewrite Z.lxor_spec.
    now rewrite !in_range_testbit_high.
Qed.

Lemma land_in_range x y : in_range x -> in_range (Z.land x y).
Proof.
  intros Hx. apply testbit_range.
  - apply Z.land_nonneg. unfold in_range in *. lia.
  - intros i Hi. rewrite Z.land_spec.
    now rewrite in_range_testbit_high.
Qed.

Lemma lor_in_range x y : in_range x -> in_range y -> in_range (Z.lor x y).
Proof.
  intros Hx Hy. apply testbit_range.
  - apply Z.lor_nonneg. unfold in_range in *. lia.
  - intros i Hi. rewrite Z.lor_spec.
    now rewrite !in_range_testbit_high.
Qed.

Lemma shr_in_range x n : in_range x -> 0 <= n -> in_range (shr x n).
Proof.
  intros Hx Hn. unfold shr. apply testbit_range.
  - apply Z.shiftr_nonneg. unfold in_range in *. lia.
  - intros i Hi. rewrite Z.shiftr_spec by lia.
    apply in_range_testbit_high; [assumption|lia].
Qed.

Lemma ones_testbit i : 0 <= i < 64 -> Z.testbit ones i = true.
Proof.
  intros Hi. unfold ones, wB.
  replace (2 ^ 64 - 1) with (Z.ones 64) by reflexivity.
  apply Z.ones_spec_low. lia.
Qed.

Lemma land_ones x : in_range x -> Z.land x ones = x.
Proof.
  intros Hx. unfold ones, wB.
  replace (2 ^ 64 - 1) with (Z.ones 64) by reflexivity.
  rewrite Z.land_ones by lia. now apply Z.mod_small.
Qed.

Lemma land_1_b2z x : Z.land x 1 = Z.b2z (Z.testbit x 0).
Proof.
  replace 1 with (Z.ones 1) by reflexivity.
  rewrite Z.land_ones by lia. rewrite Z.bit0_mod. reflexivity.
Qed.

(** The mask is all-ones exactly when the bit is set, all-zeros otherwise. *)
Lemma mask_of_b2z (b : bool) : mask_of (Z.b2z b) = if b then ones else 0.
Proof. destruct b; reflexivity. Qed.

Lemma land_mask_of x (b : bool) :
  in_range x -> Z.land x (mask_of (Z.b2z b)) = if b then x else 0.
Proof.
  intros Hx. rewrite mask_of_b2z. destruct b.
  - now apply land_ones.
  - apply Z.land_0_r.
Qed.

Lemma shr_testbit x n i : 0 <= n -> 0 <= i -> Z.testbit (shr x n) i = Z.testbit x (i + n).
Proof. intros. unfold shr. now apply Z.shiftr_spec. Qed.

Lemma shr_shr x n m : 0 <= n -> 0 <= m -> shr (shr x n) m = shr x (n + m).
Proof. intros. unfold shr. now apply Z.shiftr_shiftr. Qed.

Lemma shr_0 x : shr x 0 = x.
Proof. apply Z.shiftr_0_r. Qed.

(** [(idx >> bit) & 1] *)
Lemma shr_land_1 x n : 0 <= n -> Z.land (shr x n) 1 = Z.b2z (Z.testbit x n).
Proof.
  intros Hn. rewrite land_1_b2z, shr_testbit by lia. reflexivity.
Qed.

End WordFacts.

Create HintDb w64.

#[local] Hint Resolve in_range_0 in_range_ones wrap_in_range lxor_in_range
land_in_range lor_in_range rd_in_range upd_words_ok : w64.
Section BigXor.

Lemma bigxor_ext n f g :
  (forall i, (i < n)%nat -> f i = g i) -> bigxor n f = bigxor n g.
Proof.
  induction n as [|n IH]; intros H; simpl; [reflexivity|].
  rewrite IH by (intros; apply H; lia). rewrite H by lia. reflexivity.
Qed.

Lemma bigxor_app n m f :
  bigxor (n + m) f = Z.lxor (bigxor n f) (bigxor m (fun t => f (n + t)%nat)).
Proof.
  induction m as [|m IH]; simpl.
  - now rewrite Nat.add_0_r, Z.lxor_0_r.
  - rewrite Nat.add_succ_r. simpl. rewrite IH. now rewrite Z.lxor_assoc.
Qed.

Lemma bigxor_front n f :
  bigxor (S n) f = Z.lxor (f O) (bigxor n (fun t => f (S t))).
Proof.
  change (S n) with (1 + n)%nat. rewrite bigxor_app. reflexivity.
Qed.

Lemma bigxor_zero n f : (forall i, (i < n)%nat -> f i = 0) -> bigxor n f = 0.
Proof.
  induction n as [|n IH]; intros H; simpl; [reflexivity|].
  rewrite IH by (intros; apply H; lia). now rewrite H by lia.
Qed.

Lemma bigxor_lxor n f g :
  bigxor n (fun i => Z.lxor (f i) (g i)) = Z.lxor (bigxor n f) (bigxor n g).
Proof.
  induction n as [|n IH]; simpl; [reflexivity|]. rewrite IH.
  rewrite !Z.lxor_assoc. f_equal.
  rewrite <- !Z.lxor_assoc. f_equal. apply Z.lxor_comm.
Qed.

Lemma bigxor_in_range n f :
  (forall i, (i < n)%nat -> in_range (f i)) -> in_range (bigxor n f).
Proof.
  induction n as [|n IH]; intros H; simpl; auto with w64.
  apply lxor_in_range; [apply IH; intros; apply H; lia | apply H; lia].
Qed.

Lemma gf2_sum_ext n f g :
  (forall i, (i < n)%nat -> f i = g i) -> gf2_sum n f = gf2_sum n g.
Proof.
  induction n as [|n IH]; intros H; simpl; [reflexivity|].
  rewrite IH by (intros; apply H; lia). now rewrite H by lia.
Qed.

Lemma gf2_sum_S n f : gf2_sum (S n) f = xorb (gf2_sum n f) (f n).
Proof. reflexivity. Qed.

Lemma gf2_sum_app n m f :
  gf2_sum (n + m) f = xorb (gf2_sum n f) (gf2_sum m (fun t => f (n + t)%nat)).
Proof.
  induction m as [|m IH]; simpl.
  - now rewrite Nat.add_0_r, xorb_false_r.
  - rewrite Nat.add_succ_r. simpl. rewrite IH. now rewrite xorb_assoc.
Qed.

Lemma gf2_sum_xorb n f g :
  gf2_sum n (fun i => xorb (f i) (g i)) = xorb (gf2_sum n f) (gf2_sum n g).
Proof.
  induction n as [|n IH]; simpl; [reflexivity|]. rewrite IH.
  destruct (gf2_sum n f), (gf2_sum n g), (f n), (g n); reflexivity.
Qed.

Lemma gf2_sum_false n f : (forall i, (i < n)%nat -> f i = false) -> gf2_sum n f = false.
Proof.
  induction n as [|n IH]; intros H; simpl; [reflexivity|].
  rewrite IH by (intros; apply H; lia). now rewrite H by lia.
Qed.

Lemma bigxor_testbit n f b :
  Z.testbit (bigxor n f) b = gf2_sum n (fun i => Z.testbit (f i) b).
Proof.
  induction n as [|n IH]; simpl.
  - apply Z.bits_0.
  - now rewrite Z.lxor_spec, IH.
Qed.

(** Splitting an index range of length [k * n] into [n] blocks of [k]. *)
Lemma bigxor_blocks k n f :
  bigxor (n * k) f =
  bigxor n (fun w => bigxor k (fun t => f (w * k + t)%nat)).
Proof.
  induction n as [|n IH]; simpl; [reflexivity|].
  rewrite Nat.add_comm, bigxor_app, IH. reflexivity.
Qed.

End BigXor.

Module BinMatFacts.

Import BinMat.

Lemma shapedb_spec M : shapedb M = true -> shaped M.
Proof.
  unfold shapedb. rewrite !andb_true_iff, Nat.eqb_eq, Nat.leb_le, words_okb_spec.
  intros [[H1 H2] H3]. now constructor.
Qed.


(** ** The scalar multiply loops *)

Lemma xor_mask_words_spec n : forall j0 Amem Aptr mask c,
  (j0 + n <= length c)%nat ->
  length (xor_mask_words n j0 Amem Aptr mask c) = length c /\
  forall j, rd (xor_mask_words n j0 Amem Aptr mask c) j =
            if ((j0 <=? j) && (j <? j0 + n))%nat
            then Z.lxor (rd c j) (Z.land (rd Amem (Aptr + j)) mask)
            else rd c j.
Proof.
  induction n as [|n IH]; intros j0 Amem Aptr mask c Hlen; simpl.
  - split; [reflexivity|]. intros j.
    destruct (j0 <=? j)%nat eqn:E1; destruct (j <? j0 + 0)%nat eqn:E2; simpl; auto.
    apply Nat.leb_le in E1. apply Nat.ltb_lt in E2. lia.
  - destruct (IH (S j0) Amem Aptr mask
                (upd c j0 (Z.lxor (rd c j0) (Z.land (rd Amem (Aptr + j0)) mask))))
      as [IHl IHr].
    { rewrite upd_length. lia. }
    split; [now rewrite IHl, upd_length|].
    intros j. rewrite IHr. unfold rd.
    destruct (Nat.eq_dec j j0) as [->|Hne].
    + rewrite rd_upd_eq by lia.
      replace (S j0 <=? j0)%nat with false by (symmetry; apply Nat.leb_gt; lia).
      replace (j0 <=? j0)%nat with true by (symmetry; apply Nat.leb_le; lia).
      replace (j0 <? j0 + S n)%nat with true by (symmetry; apply Nat.ltb_lt; lia).
      reflexivity.
    + rewrite rd_upd_neq by congruence.
      destruct (S j0 <=? j)%nat eqn:E1; destruct (j0 <=? j)%nat eqn:E2;
        destruct (j <? S j0 + n)%nat eqn:E3; destruct (j <? j0 + S n)%nat eqn:E4;
        simpl; try reflexivity; exfalso;
        repeat match goal with
               | H : (_ <=? _)%nat = true |- _ => apply Nat.leb_le in H
               | H : (_ <=? _)%nat = false |- _ => apply Nat.leb_gt in H
               | H : (_ <? _)%nat = true |- _ => apply Nat.ltb_lt in H
               | H : (_ <? _)%nat = false |- _ => apply Nat.ltb_ge in H
               end; lia.
Qed.

Lemma xor_mask_words_ok n : forall j0 Amem Aptr mask c,
  words_ok c -> words_ok Amem ->
  words_ok (xor_mask_words n j0 Amem Aptr mask c).
Proof.
  induction n as [|n IH]; intros; simpl; auto.
  apply IH; auto with w64.
Qed.

Lemma sel_testbit b x i : Z.testbit (sel b x) i = b && Z.testbit x i.
Proof. destruct b; simpl; [reflexivity | apply Z.bits_0]. Qed.

Lemma land_neg_bit x idx :
  in_range x -> Z.land x (neg (Z.land idx 1)) = sel (Z.testbit idx 0) x.
Proof.
  intros Hx. rewrite land_1_b2z. apply (land_mask_of x (Z.testbit idx 0) Hx).
Qed.

Lemma addmul_v_bits_spec i : forall len rs Amem idx Aptr c,
  (len <= length c)%nat -> words_ok Amem ->
  fst (addmul_v_bits i len rs Amem idx Aptr c) = (Aptr + i * rs)%nat /\
  length (snd (addmul_v_bits i len rs Amem idx Aptr c)) = length c /\
  forall j, rd (snd (addmul_v_bits i len rs Amem idx Aptr c)) j =
            if (j <? len)%nat
            then Z.lxor (rd c j)
                   (bigxor i (fun t => sel (Z.testbit idx (Z.of_nat t))
                                          (rd Amem (Aptr + t * rs + j))))
            else rd c j.
Proof.
  induction i as [|i IH]; intros len rs Amem idx Aptr c Hlen HA.
  - simpl. repeat split; try lia. intros j. rewrite Z.lxor_0_r.
    now destruct (j <? len)%nat.
  - cbn [addmul_v_bits].
    destruct (xor_mask_words_spec len 0 Amem Aptr (neg (Z.land idx 1)) c Hlen)
      as [Hl Hr].
    destruct (IH len rs Amem (shr idx 1) (Aptr + rs)%nat
                (xor_mask_words len 0 Amem Aptr (neg (Z.land idx 1)) c))
      as (IH1 & IH2 & IH3); [lia | assumption |].
    split; [rewrite IH1; simpl; lia|].
    split; [congruence|].
    intros j. rewrite IH3, Hr. simpl (0 <=? j)%nat. simpl (0 + len)%nat.
    cbn [andb].
    destruct (j <? len)%nat; [|reflexivity].
    rewrite bigxor_front. rewrite land_neg_bit by auto with w64.
    rewrite Z.lxor_assoc. f_equal. f_equal.
    + simpl. now rewrite Nat.add_0_r.
    + apply bigxor_ext. intros t _.
      rewrite shr_testbit by lia.
      replace (Z.of_nat t + 1) with (Z.of_nat (S t)) by lia.
      f_equal. f_equal. simpl. lia.
Qed.

Lemma addmul_v_bits_ok i : forall len rs Amem idx Aptr c,
  words_ok c -> words_ok Amem ->
  words_ok (snd (addmul_v_bits i len rs Amem idx Aptr c)).
Proof.
  induction i as [|i IH]; intros; simpl; auto.
  apply IH; auto. now apply xor_mask_words_ok.
Qed.

Lemma addmul_v_words_spec w : forall len rs Amem vmem vptr Aptr c,
  (len <= length c)%nat -> words_ok Amem ->
  length (addmul_v_words w len rs Amem vmem vptr Aptr c) = length c /\
  forall j, rd (addmul_v_words w len rs Amem vmem vptr Aptr c) j =
            if (j <? len)%nat
            then Z.lxor (rd c j)
                   (bigxor (w * 64)
                      (fun i => sel (Z.testbit (rd vmem (vptr + i / 64))
                                               (Z.of_nat (i mod 64)))
                                    (rd Amem (Aptr + i * rs + j))))
            else rd c j.
Proof.
  induction w as [|w IH]; intros len rs Amem vmem vptr Aptr c Hlen HA.
  - simpl. split; [reflexivity|]. intros j. rewrite Z.lxor_0_r.
    now destruct (j <? len)%nat.
  - cbn [addmul_v_words].
    destruct (addmul_v_bits_spec 64%nat len rs Amem (rd vmem vptr) Aptr c Hlen HA)
      as (B1 & B2 & B3).
    destruct (addmul_v_bits 64%nat len rs Amem (rd vmem vptr) Aptr c) as [Aptr' c'] eqn:E.
    cbn [fst snd] in B1, B2, B3. subst Aptr'.
    destruct (IH len rs Amem vmem (S vptr) (Aptr + 64 * rs)%nat c') as [I1 I2];
      [lia | assumption |].
    split; [congruence|].
    intros j. rewrite I2, B3.
    destruct (j <? len)%nat; [|reflexivity].
    replace (S w * 64)%nat with (64 + w * 64)%nat by lia.
    rewrite bigxor_app, Z.lxor_assoc. f_equal. f_equal.
    + apply bigxor_ext. intros t Ht.
      rewrite Nat.div_small, Nat.mod_small, Nat.add_0_r by lia. reflexivity.
    + apply bigxor_ext. intros t _.
      replace (64 + t)%nat with (t + 1 * 64)%nat by lia.
      rewrite Nat.div_add, Nat.Div0.mod_add by lia.
      f_equal; f_equal; f_equal; lia.
Qed.

Lemma mzd_local_clear_rd c j :
  (j < nrows c * rowstride c)%nat -> rd (mem (mzd_local_clear c)) j = 0.
Proof.
  intros Hj. unfold mzd_local_clear, rd, rd_gen. cbn [mem set_mem].
  rewrite app_nth1 by (rewrite repeat_length; lia).
  apply nth_repeat.
Qed.

Lemma mzd_local_clear_length c :
  (nrows c * rowstride c <= length (mem c))%nat ->
  length (mem (mzd_local_clear c)) = length (mem c).
Proof.
  intros H. unfold mzd_local_clear. cbn [mem set_mem].
  rewrite length_app, repeat_length, length_skipn. lia.
Qed.

(** C1. [mzd_addmul_v_uint64(c, v, A)] XORs into the accumulator exactly
    the rows [i] of [A] whose bit [i] of [v] is set (bits numbered
    LSB-first across the words of [v] and within each word); each row is
    applied under the mask [-(bit)], which is all-ones or all-zeros; the
    words of [c] beyond [A]'s width are left alone.  [mzd_mul_v_uint64] is
    the same accumulation after clearing [c], so a one-row [c] ends up
    holding [v * A] over GF(2), word by word and bit by bit. *)
Theorem mzd_addmul_v_uint64_is_vecmat (c v A : mzd_local_t) :
  shaped A ->
  nrows A = (width v * 64)%nat ->
  (width v <= length (mem v))%nat ->
  (width A <= length (mem c))%nat ->
  let c' := mzd_addmul_v_uint64 c v A in
  let m := mzd_mul_v_uint64 c v A in
  (forall j, (j < width A)%nat ->
     rd (mem c') j =
     Z.lxor (rd (mem c) j)
       (bigxor (width v * 64)
          (fun i => Z.land (row_word A i j) (mask_of (Z.b2z (vbit v i)))))) /\
  (forall i, mask_of (Z.b2z (vbit v i)) = if vbit v i then ones else 0) /\
  (forall j, (j < width A)%nat ->
     rd (mem c') j = Z.lxor (rd (mem c) j) (vecmat_word v A j)) /\
  (forall j, (width A <= j)%nat -> rd (mem c') j = rd (mem c) j) /\
  length (mem c') = length (mem c) /\
  m = mzd_addmul_v_uint64 (mzd_local_clear c) v A /\
  (nrows c = 1%nat -> (width A <= rowstride c)%nat ->
   length (mem c) = rowstride c ->
   (forall j, (j < width A)%nat -> rd (mem m) j = vecmat_word v A j) /\
   (forall k, (k < width A * 64)%nat -> mbit m 0 k = vecmat_bit v A k)).
Proof.
  intros HA Hrows Hv Hc c' m.
  destruct (addmul_v_words_spec (width v) (width A) (rowstride A) (mem A) (mem v)
              (FIRST_ROW v) (FIRST_ROW A) (mem c) Hc (shaped_words A HA))
    as [Hlen Hrd].
  assert (Hmask : forall i j,
             Z.land (row_word A i j) (mask_of (Z.b2z (vbit v i))) =
             sel (vbit v i) (row_word A i j)).
  { intros i j. apply land_mask_of. apply rd_in_range, (shaped_words A HA). }
  assert (Hword : forall j, (j < width A)%nat ->
             rd (mem c') j = Z.lxor (rd (mem c) j) (vecmat_word v A j)).
  { intros j Hj. unfold c', mzd_addmul_v_uint64. cbn [mem set_mem].
    rewrite Hrd. apply Nat.ltb_lt in Hj. rewrite Hj. reflexivity. }
  split; [|split; [|split; [|split; [|split; [|split]]]]].
  - intros j Hj. rewrite (Hword j Hj). f_equal. unfold vecmat_word.
    apply bigxor_ext. intros i _. symmetry. apply Hmask.
  - intros i. apply mask_of_b2z.
  - exact Hword.
  - intros j Hj. unfold c', mzd_addmul_v_uint64. cbn [mem set_mem].
    rewrite Hrd. apply Nat.ltb_ge in Hj. now rewrite Hj.
  - exact Hlen.
  - reflexivity.
  - intros Hn Hrs Hcl.
    assert (Hm : forall j, (j < width A)%nat -> rd (mem m) j = vecmat_word v A j).
    { intros j Hj. unfold m, mzd_mul_v_uint64, mzd_addmul_v_uint64.
      cbn [mem set_mem width rowstride].
      assert (Hc' : (width A <= length (mem (mzd_local_clear c)))%nat).
      { rewrite mzd_local_clear_length; lia. }
      destruct (addmul_v_words_spec (width v) (width A) (rowstride A) (mem A)
                  (mem v) (FIRST_ROW v) (FIRST_ROW A) (mem (mzd_local_clear c))
                  Hc' (shaped_words A HA)) as [_ Hrd'].
      rewrite Hrd'. apply Nat.ltb_lt in Hj. rewrite Hj.
      rewrite mzd_local_clear_rd by (apply Nat.ltb_lt in Hj; lia).
      rewrite Z.lxor_0_l. reflexivity. }
    split; [exact Hm|].
    intros k Hk. unfold mbit, row_word, ROW, vecmat_bit.
    assert (Hrs' : rowstride m = rowstride c) by reflexivity.
    rewrite Hrs'. change (0 * rowstride c + k / 64)%nat with (k / 64)%nat.
    rewrite Hm by (apply Nat.Div0.div_lt_upper_bound; lia).
    unfold vecmat_word. rewrite bigxor_testbit.
    apply gf2_sum_ext. intros i _. apply sel_testbit.
Qed.

(** The theorem applied to [c64 ^= v64 * A64]: rows 0 and 2 are selected. *)
Lemma mzd_addmul_v_uint64_is_vecmat_witness :
  shaped Examples.A64 /\
  nrows Examples.A64 = (width Examples.v64 * 64)%nat /\
  mem (mzd_addmul_v_uint64 Examples.c64 Examples.v64 Examples.A64) = [5; 0] /\
  mem (mzd_mul_v_uint64 Examples.c64 Examples.v64 Examples.A64) = [2; 0] /\
  forall j, (j < width Examples.A64)%nat ->
    rd (mem (mzd_addmul_v_uint64 Examples.c64 Examples.v64 Examples.A64)) j =
    Z.lxor (rd (mem Examples.c64) j) (vecmat_word Examples.v64 Examples.A64 j).
Proof.
  split; [apply shapedb_spec; vm_compute; reflexivity|].
  split; [reflexivity|].
  split; [vm_compute; reflexivity|].
  split; [vm_compute; reflexivity|].
  apply (mzd_addmul_v_uint64_is_vecmat Examples.c64 Examples.v64 Examples.A64).
  - apply shapedb_spec; vm_compute; reflexivity.
  - reflexivity.
  - simpl; lia.
  - simpl; lia.
Defined.

(** ** Parity-dot specializations *)

Lemma parity64_uint64_pbit x : parity64_uint64 x = Z.b2z (pbit x).
Proof. reflexivity. Qed.

Lemma pbit_lxor x y : pbit (Z.lxor x y) = xorb (pbit x) (pbit y).
Proof.
  unfold pbit. rewrite <- gf2_sum_xorb. apply gf2_sum_ext.
  intros t _. apply Z.lxor_spec.
Qed.

Lemma pbit_land x y :
  pbit (Z.land x y) =
  gf2_sum 64 (fun t => Z.testbit x (Z.of_nat t) && Z.testbit y (Z.of_nat t)).
Proof. unfold pbit. apply gf2_sum_ext. intros t _. apply Z.land_spec. Qed.

Lemma dot_bit_0 v At i : dot_bit 0 v At i = false.
Proof. reflexivity. Qed.

Lemma dot_bit_S w v At i :
  dot_bit (S w) v At i =
  xorb (dot_bit w v At i)
       (pbit (Z.land (rd (mem v) w) (rd (mem At) (ROW At i + w)))).
Proof.
  unfold dot_bit. replace (S w * 64)%nat with (w * 64 + 64)%nat by lia.
  rewrite gf2_sum_app. f_equal. rewrite pbit_land.
  apply gf2_sum_ext. intros t Ht. unfold vbit, mbit, row_word.
  replace (w * 64 + t)%nat with (t + w * 64)%nat by lia.
  rewrite Nat.div_add, Nat.Div0.mod_add, Nat.div_small, Nat.mod_small by lia.
  reflexivity.
Qed.

Lemma pbit_dot_128 v At i :
  pbit (dot_128 (mem v) (mem At) (ROW At i)) = dot_bit 2 v At i.
Proof.
  unfold dot_128. rewrite !dot_bit_S, dot_bit_0, !pbit_lxor. reflexivity.
Qed.

Lemma pbit_dot_192 v At i :
  pbit (dot_192 (mem v) (mem At) (ROW At i)) = dot_bit 3 v At i.
Proof.
  unfold dot_192. rewrite !dot_bit_S, dot_bit_0, !pbit_lxor. reflexivity.
Qed.

Lemma pbit_dot_256 v At i :
  pbit (dot_256 (mem v) (mem At) (ROW At i)) = dot_bit 4 v At i.
Proof.
  unfold dot_256. rewrite !dot_bit_S, dot_bit_0, !pbit_lxor. reflexivity.
Qed.

Lemma shl_b2z_testbit (p : bool) n b :
  0 <= n < 64 -> 0 <= b ->
  Z.testbit (shl (Z.b2z p) n) b = p && (b =? n).
Proof.
  intros Hn Hb. unfold shl, wrap, wB.
  destruct p; simpl Z.b2z.
  - rewrite Z.shiftl_1_l. rewrite Z.mod_small.
    + rewrite Z.pow2_bits_eqb by lia. simpl. apply Z.eqb_sym.
    + split; [apply Z.pow_nonneg; lia | apply Z.pow_lt_mono_r; lia].
  - rewrite Z.shiftl_0_l, Z.mod_0_l by lia. apply Z.bits_0.
Qed.

Lemma shl_b2z_in_range (p : bool) n : in_range (shl (Z.b2z p) n).
Proof. apply wrap_in_range. Qed.

(** Bit [b] of the result of the parity loop started with [i] iterations
    left: the bits [64 - i .. 63] receive the parities of rows
    [k - i .. k - 1], every other bit keeps the value it had in [res]. *)
Lemma parity_loop_testbit parity dot k v At :
  (forall x, parity x = Z.b2z (pbit x)) ->
  forall i res b, (i <= k)%nat -> (k <= 64)%nat -> 0 <= b ->
  Z.testbit (parity_loop parity dot k v At i res) b =
  if (64 - Z.of_nat i <=? b) && (b <? 64)
  then Z.testbit res b
       || pbit (dot (mem v) (mem At) (ROW At (k - (64 - Z.to_nat b))))
  else Z.testbit res b.
Proof.
  intros Hpar. induction i as [|i IH]; intros res b Hik Hk Hb.
  - simpl parity_loop.
    destruct (64 - Z.of_nat 0 <=? b) eqn:E1; destruct (b <? 64) eqn:E2;
      simpl; try reflexivity.
    apply Z.leb_le in E1. apply Z.ltb_lt in E2. lia.
  - cbn [parity_loop]. rewrite IH by lia.
    rewrite Z.lor_spec, Hpar, shl_b2z_testbit by lia.
    destruct (Z.eq_dec b (64 - Z.of_nat (S i))) as [->|Hne].
    + rewrite Z.eqb_refl, andb_true_r.
      replace (64 - Z.of_nat i <=? 64 - Z.of_nat (S i)) with false
        by (symmetry; apply Z.leb_gt; lia).
      replace (64 - Z.of_nat (S i) <=? 64 - Z.of_nat (S i)) with true
        by (symmetry; apply Z.leb_le; lia).
      replace (64 - Z.of_nat (S i) <? 64) with true
        by (symmetry; apply Z.ltb_lt; lia).
      cbn [andb]. f_equal. f_equal. f_equal. f_equal. lia.
    + replace (b =? 64 - Z.of_nat (S i)) with false
        by (symmetry; apply Z.eqb_neq; assumption).
      rewrite andb_false_r, orb_false_r.
      destruct (64 - Z.of_nat i <=? b) eqn:E1;
        destruct (64 - Z.of_nat (S i) <=? b) eqn:E2;
        destruct (b <? 64) eqn:E3; cbn [andb]; try reflexivity; exfalso;
        repeat match goal with
               | H : (_ <=? _) = true |- _ => apply Z.leb_le in H
               | H : (_ <=? _) = false |- _ => apply Z.leb_gt in H
               | H : (_ <? _) = true |- _ => apply Z.ltb_lt in H
               | H : (_ <? _) = false |- _ => apply Z.ltb_ge in H
               end; lia.
Qed.

Lemma parity_loop_in_range parity dot k v At :
  forall i res, in_range res -> in_range (parity_loop parity dot k v At i res).
Proof.
  induction i as [|i IH]; intros res Hres; simpl; auto.
  apply IH. apply lor_in_range; [assumption | apply wrap_in_range].
Qed.

Lemma zero_words_spec n : forall j0 c,
  (j0 + n <= length c)%nat ->
  length (zero_words n j0 c) = length c /\
  forall j, rd (zero_words n j0 c) j =
            if ((j0 <=? j) && (j <? j0 + n))%nat then 0 else rd c j.
Proof.
  induction n as [|n IH]; intros j0 c Hlen; simpl.
  - split; [reflexivity|]. intros j.
    destruct (j0 <=? j)%nat eqn:E1; destruct (j <? j0 + 0)%nat eqn:E2; simpl; auto.
    apply Nat.leb_le in E1. apply Nat.ltb_lt in E2. lia.
  - destruct (IH (S j0) (upd c j0 0)) as [IHl IHr]; [rewrite upd_length; lia|].
    split; [now rewrite IHl, upd_length|].
    intros j. rewrite IHr. unfold rd.
    destruct (Nat.eq_dec j j0) as [->|Hne].
    + rewrite rd_upd_eq by lia.
      replace (S j0 <=? j0)%nat with false by (symmetry; apply Nat.leb_gt; lia).
      replace (j0 <=? j0)%nat with true by (symmetry; apply Nat.leb_le; lia).
      replace (j0 <? j0 + S n)%nat with true by (symmetry; apply Nat.ltb_lt; lia).
      reflexivity.
    + rewrite rd_upd_neq by congruence.
      destruct (S j0 <=? j)%nat eqn:E1; destruct (j0 <=? j)%nat eqn:E2;
        destruct (j <? S j0 + n)%nat eqn:E3; destruct (j <? j0 + S n)%nat eqn:E4;
        simpl; try reflexivity; exfalso;
        repeat match goal with
               | H : (_ <=? _)%nat = true |- _ => apply Nat.leb_le in H
               | H : (_ <=? _)%nat = false |- _ => apply Nat.leb_gt in H
               | H : (_ <? _)%nat = true |- _ => apply Nat.ltb_lt in H
               | H : (_ <? _)%nat = false |- _ => apply Nat.ltb_ge in H
               end; lia.
Qed.

Lemma parity_kernel_spec (w k : nat) dot c v At cm :
  (forall i, pbit (dot (mem v) (mem At) (ROW At i)) = dot_bit w v At i) ->
  (1 <= w)%nat -> (w <= length (mem c))%nat -> (1 <= k <= 64)%nat ->
  length cm = length (mem c) ->
  (forall j, rd cm j = if (j <? w - 1)%nat then 0 else rd (mem c) j) ->
  parity_dot_result w k c v At
    (set_mem c (upd cm (w - 1) (parity_loop parity64_uint64 dot k v At k 0))).
Proof.
  intros Hdot Hw Hc Hk Hcm Hrd. unfold parity_dot_result. cbn [mem set_mem].
  set (res := parity_loop parity64_uint64 dot k v At k 0).
  assert (Hlast : rd (upd cm (w - 1) res) (w - 1) = res).
  { unfold rd. apply rd_upd_eq. lia. }
  assert (Hbit : forall b, 0 <= b ->
            Z.testbit res b =
            if (64 - Z.of_nat k <=? b) && (b <? 64)
            then pbit (dot (mem v) (mem At) (ROW At (k - (64 - Z.to_nat b))))
            else false).
  { intros b Hb. unfold res.
    rewrite (parity_loop_testbit parity64_uint64 dot k v At
               parity64_uint64_pbit k 0 b) by lia.
    rewrite Z.bits_0. reflexivity. }
  repeat split.
  - intros j Hj. unfold rd. rewrite rd_upd_neq by lia. fold (rd cm j).
    rewrite Hrd. apply Nat.ltb_lt in Hj. now rewrite Hj.
  - intros i Hi. rewrite Hlast, Hbit by lia.
    replace (64 - Z.of_nat k <=? 64 - Z.of_nat k + Z.of_nat i) with true
      by (symmetry; apply Z.leb_le; lia).
    replace (64 - Z.of_nat k + Z.of_nat i <? 64) with true
      by (symmetry; apply Z.ltb_lt; lia).
    cbn [andb]. rewrite <- Hdot. do 3 f_equal. lia.
  - intros b Hb. rewrite Hlast, Hbit by lia.
    replace (64 - Z.of_nat k <=? b) with false
      by (symmetry; apply Z.leb_gt; lia).
    reflexivity.
  - rewrite Hlast. unfold res. apply parity_loop_in_range, in_range_0.
  - rewrite Hlast. unfold res.
    pose proof (parity_loop_in_range parity64_uint64 dot k v At k 0 in_range_0) as H.
    apply H.
  - intros j Hj. unfold rd. rewrite rd_upd_neq by lia. fold (rd cm j).
    rewrite Hrd. replace (j <? w - 1)%nat with false
      by (symmetry; apply Nat.ltb_ge; lia). reflexivity.
  - now rewrite upd_length.
Qed.

Lemma upd_0_zero c :
  (1 <= length c)%nat ->
  length (upd c 0 0) = length c /\
  forall j, rd (upd c 0 0) j = if (j <? 2 - 1)%nat then 0 else rd c j.
Proof.
  intros Hc. split; [apply upd_length|]. intros j. unfold rd.
  destruct j as [|j].
  - now rewrite rd_upd_eq by lia.
  - now rewrite rd_upd_neq by lia.
Qed.

Lemma zero_words_prefix n c :
  (n <= length c)%nat ->
  length (zero_words n 0 c) = length c /\
  forall j, rd (zero_words n 0 c) j = if (j <? S n - 1)%nat then 0 else rd c j.
Proof.
  intros Hc. destruct (zero_words_spec n 0 c Hc) as [Hl Hr].
  split; [exact Hl|]. intros j. rewrite Hr. simpl (0 <=? j)%nat.
  cbn [andb]. now replace (S n - 1)%nat with (0 + n)%nat by lia.
Qed.

(** C8 (as the code has it).  For [k] in {3, 30} and operands of 2, 3 or
    4 words, [mzd_mul_v_parity_uint64_<width>_<k>(c, v, At)] zeroes the
    words of [c] below the last, and in the last word writes the parity of
    [v AND row i of At] to bit [64 - k + i] for [i = 0 .. k-1] (row 0 lands
    on bit [64 - k], row [k - 1] on bit 63), leaving bits [0 .. 63 - k]
    zero. *)
Theorem mzd_mul_v_parity_uint64_top_bits f (w k : nat) (c v At : mzd_local_t) :
  In (f, w, k) parity_uint64_table ->
  (w <= length (mem c))%nat ->
  (w <= length (mem v))%nat ->
  shaped At -> nrows At = k -> (w <= rowstride At)%nat ->
  parity_dot_result w k c v At (f c v At).
Proof.
  intros Hin Hc Hv HAt Hrows Hrs. simpl in Hin.
  repeat (destruct Hin as [Hin|Hin];
          [injection Hin as <- <- <-|]); try contradiction.
  - destruct (upd_0_zero (mem c)) as [L R]; [lia|].
    apply (parity_kernel_spec 2 30 dot_128 c v At); auto; try lia.
    intros i. apply pbit_dot_128.
  - destruct (zero_words_prefix 2 (mem c)) as [L R]; [lia|].
    apply (parity_kernel_spec 3 30 dot_192 c v At); auto; try lia.
    intros i. apply pbit_dot_192.
  - destruct (zero_words_prefix 3 (mem c)) as [L R]; [lia|].
    apply (parity_kernel_spec 4 30 dot_256 c v At); auto; try lia.
    intros i. apply pbit_dot_256.
  - destruct (upd_0_zero (mem c)) as [L R]; [lia|].
    apply (parity_kernel_spec 2 3 dot_128 c v At); auto; try lia.
    intros i. apply pbit_dot_128.
  - destruct (zero_words_prefix 2 (mem c)) as [L R]; [lia|].
    apply (parity_kernel_spec 3 3 dot_192 c v At); auto; try lia.
    intros i. apply pbit_dot_192.
  - destruct (zero_words_prefix 3 (mem c)) as [L R]; [lia|].
    apply (parity_kernel_spec 4 3 dot_256 c v At); auto; try lia.
    intros i. apply pbit_dot_256.
Qed.

(** The theorem at [mzd_mul_v_parity_uint64_128_3] on a unit vector and a
    matrix whose row 0 meets it: row 0 is reported on bit 61. *)
Lemma mzd_mul_v_parity_uint64_top_bits_witness :
  mem (mzd_mul_v_parity_uint64_128_3 Examples.c128 Examples.v128_e0 Examples.At3_128)
    = [0; 2 ^ 61] /\
  parity_dot_result 2 3 Examples.c128 Examples.v128_e0 Examples.At3_128
    (mzd_mul_v_parity_uint64_128_3 Examples.c128 Examples.v128_e0 Examples.At3_128).
Proof.
  split; [vm_compute; reflexivity|].
  apply (mzd_mul_v_parity_uint64_top_bits mzd_mul_v_parity_uint64_128_3 2 3
           Examples.c128 Examples.v128_e0 Examples.At3_128).
  - simpl. tauto.
  - simpl; lia.
  - simpl; lia.
  - apply shapedb_spec; vm_compute; reflexivity.
  - reflexivity.
  - simpl; lia.
Defined.

(** C8 as stated puts row [i] on bit [63 - i].  On a unit vector and a
    matrix whose row 0 meets it, the inner product with row 0 is 1 while
    bit 63 of the last word of the result is 0 (the 1 sits on bit 61). *)
Lemma mzd_mul_v_parity_uint64_bit63_counterexample :
  let c' := mzd_mul_v_parity_uint64_128_3
              Examples.c128 Examples.v128_e0 Examples.At3_128 in
  shaped Examples.At3_128 /\
  dot_bit 2 Examples.v128_e0 Examples.At3_128 0 = true /\
  Z.testbit (rd (mem c') 1) (63 - 0) = false /\
  Z.testbit (rd (mem c') 1) (63 - 0)
    <> dot_bit 2 Examples.v128_e0 Examples.At3_128 0.
Proof.
  split; [apply shapedb_spec; vm_compute; reflexivity|].
  split; [vm_compute; reflexivity|].
  split; [vm_compute; reflexivity|].
  vm_compute. discriminate.
Qed.

End BinMatFacts.

(* ================================================================== *)
(** * The lookup-table multiply *)
(* ================================================================== *)

Module LookupFacts.

Import BinMat BinMatFacts.

Ltac bool_to_prop :=
  repeat match goal with
         | H : (_ <=? _)%nat = true |- _ => apply Nat.leb_le in H
         | H : (_ <=? _)%nat = false |- _ => apply Nat.leb_gt in H
         | H : (_ <? _)%nat = true |- _ => apply Nat.ltb_lt in H
         | H : (_ <? _)%nat = false |- _ => apply Nat.ltb_ge in H
         | H : (_ && _) = true |- _ => apply andb_true_iff in H; destruct H
         | H : (_ && _) = false |- _ => apply andb_false_iff in H; destruct H
         end.

(** Membership of a position in the window [[lo, lo + n)]. *)
Definition within (lo n p : nat) : bool := ((lo <=? p) && (p <? lo + n))%nat.

Lemma within_true lo n p : within lo n p = true <-> (lo <= p < lo + n)%nat.
Proof.
  unfold within. rewrite andb_true_iff, Nat.leb_le, Nat.ltb_lt. tauto.
Qed.

Lemma within_false lo n p : within lo n p = false <-> (p < lo \/ lo + n <= p)%nat.
Proof.
  unfold within. rewrite andb_false_iff, Nat.leb_gt, Nat.ltb_ge. tauto.
Qed.

Lemma xor_words_spec n : forall i0 smem sptr dmem dptr,
  (dptr + i0 + n <= length dmem)%nat ->
  length (xor_words n i0 smem sptr dmem dptr) = length dmem /\
  forall p, rd (xor_words n i0 smem sptr dmem dptr) p =
            if within (dptr + i0) n p
            then Z.lxor (rd dmem p) (rd smem (sptr + (p - dptr)))
            else rd dmem p.
Proof.
  induction n as [|n IH]; intros i0 smem sptr dmem dptr Hlen.
  - simpl. split; [reflexivity|]. intros p.
    destruct (within (dptr + i0) 0 p) eqn:E; [|reflexivity].
    apply within_true in E. lia.
  - cbn [xor_words].
    set (d1 := upd dmem (dptr + i0)
                 (Z.lxor (rd dmem (dptr + i0)) (rd smem (sptr + i0)))).
    destruct (IH (S i0) smem sptr d1 dptr) as [IHl IHr].
    { unfold d1. rewrite upd_length. lia. }
    split; [rewrite IHl; apply upd_length|].
    intros p. rewrite IHr. unfold d1, rd.
    destruct (Nat.eq_dec p (dptr + i0)) as [->|Hne].
    + rewrite rd_upd_eq by lia.
      replace (within (dptr + S i0) n (dptr + i0)) with false
        by (symmetry; apply within_false; lia).
      replace (within (dptr + i0) (S n) (dptr + i0)) with true
        by (symmetry; apply within_true; lia).
      do 3 f_equal. lia.
    + rewrite rd_upd_neq by congruence.
      destruct (within (dptr + S i0) n p) eqn:E1;
        destruct (within (dptr + i0) (S n) p) eqn:E2; try reflexivity; exfalso;
        try apply within_true in E1; try apply within_false in E1;
        try apply within_true in E2; try apply within_false in E2; lia.
Qed.

Lemma xor_words_ok n : forall i0 smem sptr dmem dptr,
  words_ok smem -> words_ok dmem ->
  words_ok (xor_words n i0 smem sptr dmem dptr).
Proof.
  induction n as [|n IH]; intros; simpl; auto.
  apply IH; auto with w64.
Qed.

Lemma testbit_0_land_1 comb : (Z.land comb 1 =? 0) = negb (Z.testbit comb 0).
Proof.
  rewrite land_1_b2z. now destruct (Z.testbit comb 0).
Qed.

Lemma bits_above_zero comb n :
  0 <= comb < 2 ^ Z.of_nat n -> forall t, Z.of_nat n <= t -> Z.testbit comb t = false.
Proof.
  intros Hc t Ht. rewrite <- (Z.mod_small comb (2 ^ Z.of_nat n)) by assumption.
  apply Z.mod_pow2_bits_high. lia.
Qed.

Lemma shiftr1_bound comb n :
  0 <= comb < 2 ^ Z.of_nat (S n) -> 0 <= Z.shiftr comb 1 < 2 ^ Z.of_nat n.
Proof.
  intros [H0 H1]. rewrite Z.shiftr_div_pow2 by lia. change (2 ^ 1) with 2.
  rewrite Nat2Z.inj_succ, Z.pow_succ_r in H1 by lia.
  split; [apply Z.div_pos; lia | apply Z.div_lt_upper_bound; lia].
Qed.

(** [xor_comb] XORs into the [len] words at [Brow] the rows
    [r_offset + t] of [A] for the set bits [t] of [comb]. *)
Lemma xor_comb_spec fuel : forall len Bmem Brow A r_offset comb,
  0 <= comb < 2 ^ Z.of_nat fuel ->
  (Brow + len <= length Bmem)%nat ->
  length (xor_comb fuel len Bmem Brow A r_offset comb) = length Bmem /\
  forall p, rd (xor_comb fuel len Bmem Brow A r_offset comb) p =
            if within Brow len p
            then Z.lxor (rd Bmem p)
                   (bigxor fuel
                      (fun t => sel (Z.testbit comb (Z.of_nat t))
                                    (row_word A (r_offset + t) (p - Brow))))
            else rd Bmem p.
Proof.
  induction fuel as [|fuel IH]; intros len Bmem Brow A r_offset comb Hc Hlen.
  - simpl. split; [reflexivity|]. intros p. rewrite Z.lxor_0_r.
    now destruct (within Brow len p).
  - cbn [xor_comb]. destruct (comb =? 0) eqn:E0.
    + apply Z.eqb_eq in E0. subst comb. split; [reflexivity|]. intros p.
      rewrite bigxor_zero.
      * rewrite Z.lxor_0_r. now destruct (within Brow len p).
      * intros t _. now rewrite Z.bits_0.
    + set (B1 := if Z.land comb 1 =? 0 then Bmem
                 else xor_words len 0 (mem A) (ROW A r_offset) Bmem Brow).
      assert (HB1 : length B1 = length Bmem /\
                    forall p, rd B1 p =
                      if within Brow len p
                      then Z.lxor (rd Bmem p)
                             (sel (Z.testbit comb 0)
                                  (row_word A r_offset (p - Brow)))
                      else rd Bmem p).
      { unfold B1. rewrite testbit_0_land_1.
        destruct (Z.testbit comb 0); cbn [negb sel].
        - destruct (xor_words_spec len 0 (mem A) (ROW A r_offset) Bmem Brow)
            as [L R]; [lia|].
          split; [exact L|]. intros p. rewrite R, Nat.add_0_r. reflexivity.
        - split; [reflexivity|]. intros p. rewrite Z.lxor_0_r.
          now destruct (within Brow len p). }
      destruct HB1 as [L1 R1].
      destruct (IH len B1 Brow A (S r_offset) (Z.shiftr comb 1)) as [L2 R2];
        [now apply shiftr1_bound | lia |].
      split; [congruence|].
      intros p. rewrite R2, R1.
      destruct (within Brow len p); [|reflexivity].
      rewrite bigxor_front, Z.lxor_assoc. f_equal. f_equal.
      * now rewrite Nat.add_0_r.
      * apply bigxor_ext. intros t _. rewrite Z.shiftr_spec by lia.
        replace (Z.of_nat t + 1) with (Z.of_nat (S t)) by lia.
        f_equal. f_equal. lia.
Qed.

Lemma row_pos_inj rs r r0 j len p :
  (j < rs)%nat -> (len <= rs)%nat -> p = (r * rs + j)%nat ->
  within (r0 * rs) len p = ((r =? r0) && (j <? len))%nat.
Proof.
  intros Hj Hlen ->. unfold within.
  destruct (Nat.lt_trichotomy r r0) as [Hlt|[->|Hgt]].
  - replace (r =? r0)%nat with false by (symmetry; apply Nat.eqb_neq; lia).
    replace (r0 * rs <=? r * rs + j)%nat with false; [reflexivity|].
    symmetry. apply Nat.leb_gt.
    assert ((r + 1) * rs <= r0 * rs)%nat by (apply Nat.mul_le_mono_r; lia). lia.
  - rewrite Nat.eqb_refl.
    replace (r0 * rs <=? r0 * rs + j)%nat with true
      by (symmetry; apply Nat.leb_le; lia).
    cbn [andb]. destruct (j <? len)%nat eqn:E.
    + apply Nat.ltb_lt. apply Nat.ltb_lt in E. lia.
    + apply Nat.ltb_ge. apply Nat.ltb_ge in E. lia.
  - replace (r =? r0)%nat with false by (symmetry; apply Nat.eqb_neq; lia).
    replace (r * rs + j <? r0 * rs + len)%nat with false;
      [apply andb_false_r|].
    symmetry. apply Nat.ltb_ge.
    assert ((r0 + 1) * rs <= r * rs)%nat by (apply Nat.mul_le_mono_r; lia). lia.
Qed.

(** Row [r] of the table after the rows [r0 .. r0 + n - 1] were filled. *)
Lemma precompute_rows_spec n : forall r0 len A B,
  (r0 + n <= nrows B)%nat ->
  length (mem B) = (nrows B * rowstride B)%nat ->
  (len <= rowstride B)%nat ->
  let B' := precompute_rows n r0 len A B in
  nrows B' = nrows B /\ ncols B' = ncols B /\ width B' = width B /\
  rowstride B' = rowstride B /\ length (mem B') = length (mem B) /\
  forall r j, (j < rowstride B)%nat ->
    row_word B' r j =
    if ((r0 <=? r) && (r <? r0 + n) && (j <? len))%nat
    then Z.lxor (row_word B r j)
           (bigxor 32
              (fun t => sel (Z.testbit (Z.land (Z.of_nat r) 255) (Z.of_nat t))
                            (row_word A
                               (Z.to_nat (Z.shiftl (Z.shiftr (Z.of_nat r) 8) 3) + t)
                               j)))
    else row_word B r j.
Proof.
  induction n as [|n IH]; intros r0 len A B Hr HB Hlen B'.
  - subst B'. cbn [precompute_rows]. repeat split; try reflexivity.
    intros r j _.
    replace ((r0 <=? r) && (r <? r0 + 0))%nat with false; [reflexivity|].
    symmetry. apply andb_false_iff.
    destruct (Nat.le_gt_cases r0 r); [right; apply Nat.ltb_ge; lia
                                     | left; apply Nat.leb_gt; lia].
  - subst B'. cbn [precompute_rows].
    set (comb := Z.land (Z.of_nat r0) 255).
    set (roff := Z.to_nat (Z.shiftl (Z.shiftr (Z.of_nat r0) 8) 3)).
    remember (if comb =? 0 then B
              else set_mem B (xor_comb 32 len (mem B) (ROW B r0) A roff comb))
      as B1 eqn:EB1.
    assert (Hcomb : 0 <= comb < 2 ^ Z.of_nat 32).
    { unfold comb. change 255 with (Z.ones 8). rewrite Z.land_ones by lia.
      pose proof (Z.mod_pos_bound (Z.of_nat r0) (2 ^ 8) ltac:(lia)) as Hm.
      change (2 ^ Z.of_nat 32) with 4294967296. change (2 ^ 8) with 256 in *. lia. }
    assert (Hrow : (ROW B r0 + len <= length (mem B))%nat).
    { unfold ROW. rewrite HB.
      assert ((r0 + 1) * rowstride B <= nrows B * rowstride B)%nat
        by (apply Nat.mul_le_mono_r; lia). lia. }
    destruct (xor_comb_spec 32 len (mem B) (ROW B r0) A roff comb Hcomb Hrow)
      as [XL XR].
    assert (HB1 : nrows B1 = nrows B /\ ncols B1 = ncols B /\ width B1 = width B /\
                  rowstride B1 = rowstride B /\ length (mem B1) = length (mem B) /\
                  forall r j, (j < rowstride B)%nat ->
                    row_word B1 r j =
                    if ((r =? r0) && (j <? len))%nat
                    then Z.lxor (row_word B r j)
                           (bigxor 32
                              (fun t => sel (Z.testbit comb (Z.of_nat t))
                                            (row_word A (roff + t) j)))
                    else row_word B r j).
    { subst B1. destruct (comb =? 0) eqn:E0.
      - repeat split; try reflexivity. intros r j Hj.
        apply Z.eqb_eq in E0. rewrite E0.
        rewrite bigxor_zero by (intros; now rewrite Z.bits_0).
        rewrite Z.lxor_0_r. now destruct ((r =? r0) && (j <? len))%nat.
      - repeat split; try reflexivity; [exact XL|].
        intros r j Hj. unfold row_word at 1. cbn [mem set_mem ROW rowstride].
        rewrite XR. unfold ROW.
        rewrite (row_pos_inj (rowstride B) r r0 j len) by (auto; lia).
        destruct ((r =? r0) && (j <? len))%nat eqn:E; [|reflexivity].
        apply andb_true_iff in E. destruct E as [E _].
        apply Nat.eqb_eq in E. subst r.
        unfold row_word, ROW. f_equal.
        apply bigxor_ext. intros t _. cbn [rowstride set_mem].
        f_equal. f_equal. lia. }
    destruct HB1 as (N1 & C1 & W1 & S1 & L1 & R1).
    destruct (IH (S r0) len A B1) as (N2 & C2 & W2 & S2 & L2 & R2);
      [rewrite N1; lia | rewrite L1, N1, S1; exact HB | rewrite S1; exact Hlen |].
    repeat split; try congruence.
    intros r j Hj. rewrite R2 by (rewrite S1; exact Hj). rewrite R1 by exact Hj.
    destruct (Nat.eq_dec r r0) as [->|Hne].
    + rewrite Nat.eqb_refl.
      replace (S r0 <=? r0)%nat with false by (symmetry; apply Nat.leb_gt; lia).
      replace (r0 <=? r0)%nat with true by (symmetry; apply Nat.leb_le; lia).
      replace (r0 <? r0 + S n)%nat with true by (symmetry; apply Nat.ltb_lt; lia).
      cbn [andb]. reflexivity.
    + replace (r =? r0)%nat with false by (symmetry; apply Nat.eqb_neq; lia).
      cbn [andb].
      replace ((S r0 <=? r) && (r <? S r0 + n))%nat
        with ((r0 <=? r) && (r <? r0 + S n))%nat; [reflexivity|].
      destruct (S r0 <=? r)%nat eqn:E1; destruct (r0 <=? r)%nat eqn:E2;
        destruct (r <? S r0 + n)%nat eqn:E3; destruct (r <? r0 + S n)%nat eqn:E4;
        cbn [andb]; try reflexivity; exfalso; bool_to_prop; lia.
Qed.

Lemma rd_repeat_0 n p : rd (repeat 0 n) p = 0.
Proof.
  unfold rd, rd_gen. destruct (Nat.lt_ge_cases p n).
  - apply nth_repeat_lt. assumption.
  - apply nth_overflow. rewrite repeat_length. assumption.
Qed.

Lemma table_row_index k combo :
  0 <= combo < 256 ->
  Z.land (Z.of_nat (256 * k + Z.to_nat combo)) 255 = combo /\
  Z.to_nat (Z.shiftl (Z.shiftr (Z.of_nat (256 * k + Z.to_nat combo)) 8) 3)
  = (8 * k)%nat.
Proof.
  intros Hc.
  replace (Z.of_nat (256 * k + Z.to_nat combo)) with (combo + Z.of_nat k * 2 ^ 8)
    by (change (2 ^ 8) with 256; lia).
  split.
  - change 255 with (Z.ones 8). rewrite Z.land_ones by lia.
    rewrite Z.mod_add by (change (2 ^ 8) with 256; lia).
    apply Z.mod_small. change (2 ^ 8) with 256. lia.
  - rewrite Z.shiftr_div_pow2, Z.shiftl_mul_pow2 by lia.
    rewrite Z.div_add by (change (2 ^ 8) with 256; lia).
    rewrite Z.div_small by (change (2 ^ 8) with 256; lia).
    change (2 ^ 3) with 8. lia.
Qed.

(** The table built by [mzd_precompute_matrix_lookup]: 32 times the rows
    of [A]; row [256 * k + combo] is the XOR of the rows [8 * k + bit] of
    [A] over the set bits of [combo]; the padding words are zero. *)
Lemma mzd_precompute_matrix_lookup_rows A :
  allocated A ->
  let B := mzd_precompute_matrix_lookup A in
  nrows B = (32 * nrows A)%nat /\ ncols B = ncols A /\
  width B = width A /\ rowstride B = rowstride A /\
  length (mem B) = (nrows B * rowstride B)%nat /\
  forall k combo j,
    (256 * k + Z.to_nat combo < nrows B)%nat -> 0 <= combo < 256 ->
    (j < rowstride B)%nat ->
    row_word B (256 * k + Z.to_nat combo) j =
    if (j <? width A)%nat then lookup_row_word A k combo j else 0.
Proof.
  intros HA B.
  destruct HA as [HS HW HR].
  set (B0 := mzd_local_init_ex [] (32 * nrows A) (ncols A) true).
  assert (W0 : width B0 = width A)
    by (unfold B0, mzd_local_init_ex; cbn [width]; congruence).
  assert (S0 : rowstride B0 = rowstride A)
    by (unfold B0, mzd_local_init_ex; cbn [rowstride]; congruence).
  assert (N0 : nrows B0 = (32 * nrows A)%nat) by reflexivity.
  assert (C0 : ncols B0 = ncols A) by reflexivity.
  assert (L0 : length (mem B0) = (nrows B0 * rowstride B0)%nat).
  { cbn [B0 mzd_local_init_ex mem nrows rowstride]. apply repeat_length. }
  assert (Z0 : forall r j, row_word B0 r j = 0).
  { intros r j. unfold row_word. cbn [B0 mzd_local_init_ex mem].
    apply rd_repeat_0. }
  destruct (precompute_rows_spec (nrows B0) 0 (width A) A B0)
    as (N & C & W & S & L & R);
    [lia | exact L0 | rewrite S0; apply (shaped_width A HS) |].
  fold B0 in B. change (precompute_rows (nrows B0) 0 (width A) A B0) with B in *.
  repeat split; try congruence.
  intros k combo j Hr Hc Hj.
  rewrite R by congruence.
  destruct (table_row_index k combo Hc) as [E1 E2]. rewrite E1, E2.
  cbn [Nat.leb andb]. rewrite Z0, Z.lxor_0_l.
  replace (256 * k + Z.to_nat combo <? 0 + nrows B0)%nat with true
    by (symmetry; apply Nat.ltb_lt; lia).
  cbn [andb]. destruct (j <? width A)%nat; [|reflexivity].
  unfold lookup_row_word. change 32%nat with (8 + 24)%nat.
  rewrite bigxor_app. rewrite (bigxor_zero 24).
  - apply Z.lxor_0_r.
  - intros t _. rewrite (bits_above_zero combo 8); [reflexivity | | lia].
    change (2 ^ Z.of_nat 8) with 256. lia.
Qed.

Lemma shr8_bound idx n :
  0 <= idx < 2 ^ (8 * Z.of_nat (S n)) -> 0 <= shr idx 8 < 2 ^ (8 * Z.of_nat n).
Proof.
  intros [H0 H1]. unfold shr. rewrite Z.shiftr_div_pow2 by lia.
  replace (8 * Z.of_nat (S n)) with (8 + 8 * Z.of_nat n) in H1 by lia.
  rewrite Z.pow_add_r in H1 by lia.
  split; [apply Z.div_pos; lia | apply Z.div_lt_upper_bound; lia].
Qed.

Lemma byte_bound x : 0 <= Z.land x 255 < 256.
Proof.
  change 255 with (Z.ones 8). rewrite Z.land_ones by lia.
  change 256 with (2 ^ 8). apply Z.mod_pos_bound. lia.
Qed.

(** One word of [v] through the table [T]: one row per byte, the rows of
    the all-zero bytes at the top being skipped. *)
Lemma addmul_vl_bytes_spec fuel : forall len T w idx a c,
  0 <= idx < 2 ^ (8 * Z.of_nat fuel) -> (len <= length c)%nat ->
  (forall k j, (j < len)%nat -> row_word T (256 * k) j = 0) ->
  length (addmul_vl_bytes fuel len T w idx (256 * a) c) = length c /\
  forall j, rd (addmul_vl_bytes fuel len T w idx (256 * a) c) j =
            if (j <? len)%nat
            then Z.lxor (rd c j)
                   (bigxor fuel
                      (fun s => row_word T
                                  (256 * (8 * w + a + s)
                                   + Z.to_nat (Z.land (shr idx (8 * Z.of_nat s)) 255))
                                  j))
            else rd c j.
Proof.
  induction fuel as [|fuel IH]; intros len T w idx a c Hidx Hlen Hz.
  - simpl. split; [reflexivity|]. intros j. rewrite Z.lxor_0_r.
    now destruct (j <? len)%nat.
  - cbn [addmul_vl_bytes]. destruct (idx =? 0) eqn:E0.
    + apply Z.eqb_eq in E0. subst idx. split; [reflexivity|]. intros j.
      destruct (j <? len)%nat eqn:Ej; [|reflexivity].
      apply Nat.ltb_lt in Ej. rewrite bigxor_zero; [now rewrite Z.lxor_0_r|].
      intros s _. unfold shr. rewrite Z.shiftr_0_l, Z.land_0_l.
      change (Z.to_nat 0) with 0%nat. rewrite Nat.add_0_r. now apply Hz.
    + set (Aptr := ROW T (w * sizeof_word * 8 * 32 + 256 * a
                          + Z.to_nat (Z.land idx 255))).
      destruct (xor_words_spec len 0 (mem T) Aptr c 0) as [XL XR]; [lia|].
      replace (256 * a + 256)%nat with (256 * S a)%nat by lia.
      destruct (IH len T w (shr idx 8) (S a) (xor_words len 0 (mem T) Aptr c 0))
        as [IL IR]; [now apply shr8_bound | lia | exact Hz |].
      split; [congruence|].
      intros j. rewrite IR, XR. unfold within. cbn [Nat.leb andb Nat.add].
      destruct (j <? len)%nat; [|reflexivity].
      rewrite bigxor_front, Z.lxor_assoc. f_equal. f_equal.
      * unfold row_word, Aptr, sizeof_word. rewrite shr_0.
        f_equal. f_equal; [|lia]. f_equal. lia.
      * apply bigxor_ext. intros s _. rewrite shr_shr by lia.
        replace (8 + 8 * Z.of_nat s) with (8 * Z.of_nat (S s)) by lia.
        f_equal. lia.
Qed.

Lemma addmul_vl_words_spec n : forall w0 len T vmem vptr c,
  words_ok vmem -> (len <= length c)%nat ->
  (forall k j, (j < len)%nat -> row_word T (256 * k) j = 0) ->
  length (addmul_vl_words n w0 len T vmem vptr c) = length c /\
  forall j, rd (addmul_vl_words n w0 len T vmem vptr c) j =
            if (j <? len)%nat
            then Z.lxor (rd c j)
                   (bigxor n
                      (fun i =>
                         bigxor 8
                           (fun s => row_word T
                                       (256 * (8 * (w0 + i) + s)
                                        + Z.to_nat
                                            (Z.land (shr (rd vmem (vptr + i))
                                                         (8 * Z.of_nat s)) 255))
                                       j)))
            else rd c j.
Proof.
  induction n as [|n IH]; intros w0 len T vmem vptr c Hv Hlen Hz.
  - simpl. split; [reflexivity|]. intros j. rewrite Z.lxor_0_r.
    now destruct (j <? len)%nat.
  - cbn [addmul_vl_words].
    destruct (addmul_vl_bytes_spec 8 len T w0 (rd vmem vptr) 0 c) as [BL BR];
      [apply (rd_in_range vmem vptr Hv) | exact Hlen | exact Hz |].
    change (256 * 0)%nat with 0%nat in BL, BR.
    destruct (IH (S w0) len T vmem (S vptr)
                (addmul_vl_bytes 8 len T w0 (rd vmem vptr) 0 c))
      as [IL IR]; [exact Hv | lia | exact Hz |].
    split; [congruence|].
    intros j. rewrite IR, BR.
    destruct (j <? len)%nat; [|reflexivity].
    rewrite (bigxor_front n), Z.lxor_assoc. f_equal. f_equal.
    + rewrite !Nat.add_0_r. apply bigxor_ext. intros s _.
      reflexivity.
    + apply bigxor_ext. intros i _. apply bigxor_ext. intros s _.
      replace (vptr + S i)%nat with (S vptr + i)%nat by lia.
      f_equal. lia.
Qed.

(** The bytes of a word select the same rows as its bits. *)
Lemma bytes_select_bits A (v : mzd_local_t) n j :
  bigxor n
    (fun i => bigxor 8
       (fun s => lookup_row_word A (8 * i + s)
                   (Z.land (shr (rd (mem v) i) (8 * Z.of_nat s)) 255) j))
  = bigxor (n * 64) (fun t => sel (vbit v t) (row_word A t j)).
Proof.
  rewrite (bigxor_blocks 64 n). apply bigxor_ext. intros i _.
  change 64%nat with (8 * 8)%nat at 1. rewrite (bigxor_blocks 8 8).
  apply bigxor_ext. intros s Hs. unfold lookup_row_word.
  apply bigxor_ext. intros bit Hbit.
  f_equal.
  - unfold vbit.
    replace (i * 64 + (s * 8 + bit))%nat with ((s * 8 + bit) + i * 64)%nat by lia.
    rewrite Nat.div_add, Nat.Div0.mod_add, Nat.div_small, Nat.mod_small by lia.
    rewrite Z.land_spec, shr_testbit by lia.
    change 255 with (Z.ones 8). rewrite Z.ones_spec_low by lia.
    rewrite andb_true_r. cbn [Nat.add]. f_equal. lia.
  - f_equal. lia.
Qed.

Lemma lookup_row_word_0 A k j : lookup_row_word A k 0 j = 0.
Proof.
  unfold lookup_row_word. apply bigxor_zero. intros t _.
  now rewrite Z.bits_0.
Qed.

Lemma table_zero_rows A :
  allocated A ->
  forall k j, (j < width A)%nat ->
    row_word (mzd_precompute_matrix_lookup A) (256 * k) j = 0.
Proof.
  intros HA k j Hj.
  destruct (mzd_precompute_matrix_lookup_rows A HA) as (N & C & W & S & L & R).
  pose proof (shaped_width A (alloc_shaped A HA)) as Hw.
  destruct (Nat.lt_ge_cases (256 * k) (nrows (mzd_precompute_matrix_lookup A)))
    as [Hin|Hout].
  - specialize (R k 0 j). change (Z.to_nat 0) with 0%nat in R.
    rewrite Nat.add_0_r in R. rewrite R by lia.
    apply Nat.ltb_lt in Hj. rewrite Hj. apply lookup_row_word_0.
  - unfold row_word, rd, rd_gen. apply nth_overflow. rewrite L. unfold ROW.
    assert (nrows (mzd_precompute_matrix_lookup A)
            * rowstride (mzd_precompute_matrix_lookup A)
            <= 256 * k * rowstride (mzd_precompute_matrix_lookup A))%nat
      by (apply Nat.mul_le_mono_r; lia).
    lia.
Qed.

Lemma mzd_addmul_vl_uint64_precomputed (c v A : mzd_local_t) :
  allocated A ->
  nrows A = (width v * 64)%nat ->
  words_ok (mem v) ->
  (width A <= length (mem c))%nat ->
  mzd_addmul_vl_uint64 c v (mzd_precompute_matrix_lookup A)
  = mzd_addmul_v_uint64 c v A.
Proof.
  intros HA Hrows Hv Hc.
  destruct (mzd_precompute_matrix_lookup_rows A HA) as (N & C & W & S & L & R).
  pose proof (alloc_shaped A HA) as HS.
  pose proof (shaped_width A HS) as Hw.
  set (B := mzd_precompute_matrix_lookup A) in *.
  unfold mzd_addmul_vl_uint64, mzd_addmul_v_uint64. f_equal.
  destruct (addmul_vl_words_spec (width v) 0 (width B) B (mem v) (FIRST_ROW v)
              (mem c)) as [VL VR];
    [exact Hv | rewrite W; exact Hc
     | intros k j Hj; apply table_zero_rows; [exact HA | rewrite <- W; exact Hj] |].
  destruct (addmul_v_words_spec (width v) (width A) (rowstride A) (mem A) (mem v)
              (FIRST_ROW v) (FIRST_ROW A) (mem c) Hc (shaped_words A HS))
    as [SL SR].
  apply (rd_ext Z 0); [congruence|].
  intros i _. fold (rd (addmul_vl_words (width v) 0 (width B) B (mem v)
                          (FIRST_ROW v) (mem c)) i).
  fold (rd (addmul_v_words (width v) (width A) (rowstride A) (mem A) (mem v)
              (FIRST_ROW v) (FIRST_ROW A) (mem c)) i).
  rewrite VR, SR, W.
  destruct (i <? width A)%nat eqn:Ei; [|reflexivity].
  apply Nat.ltb_lt in Ei. f_equal.
  transitivity (bigxor (width v * 64) (fun t => sel (vbit v t) (row_word A t i))).
  - rewrite <- bytes_select_bits. apply bigxor_ext. intros i0 Hi0.
    apply bigxor_ext. intros s Hs. cbn [FIRST_ROW Nat.add].
    rewrite R.
    + apply Nat.ltb_lt in Ei. rewrite Ei. reflexivity.
    + rewrite N, Hrows.
      pose proof (byte_bound (shr (rd (mem v) i0) (8 * Z.of_nat s))). lia.
    + apply byte_bound.
    + lia.
  - apply bigxor_ext. intros t _. unfold vbit, row_word, ROW.
    cbn [FIRST_ROW Nat.add]. reflexivity.
Qed.

Lemma mzd_local_clear_length_ge c :
  (length (mem c) <= length (mem (mzd_local_clear c)))%nat.
Proof.
  unfold mzd_local_clear. cbn [mem set_mem].
  rewrite length_app, repeat_length, length_skipn. lia.
Qed.

(** C3.  The table [B] built by [mzd_precompute_matrix_lookup(A)] has 32
    times the rows of [A]; its row for block [k] and byte value [combo]
    (row [256 * k + combo]) is the XOR of the rows [8 * k + bit] of [A]
    over the set bits of [combo]; and the lookup multiply through [B]
    leaves in [c] what the direct multiply by [A] leaves, both for
    [mul] and for [addmul]. *)
Theorem mzd_mul_vl_uint64_agrees_with_mul_v (c v A : mzd_local_t) :
  allocated A ->
  nrows A = (width v * 64)%nat ->
  (width v <= length (mem v))%nat ->
  words_ok (mem v) ->
  (width A <= length (mem c))%nat ->
  let B := mzd_precompute_matrix_lookup A in
  nrows B = (32 * nrows A)%nat /\
  (forall k combo j,
     (8 * k + 8 <= nrows A)%nat -> 0 <= combo < 256 -> (j < width A)%nat ->
     row_word B (256 * k + Z.to_nat combo) j = lookup_row_word A k combo j) /\
  mzd_mul_vl_uint64 c v B = mzd_mul_v_uint64 c v A /\
  mzd_addmul_vl_uint64 c v B = mzd_addmul_v_uint64 c v A.
Proof.
  intros HA Hrows Hvl Hv Hc B.
  destruct (mzd_precompute_matrix_lookup_rows A HA) as (N & C & W & S & L & R).
  pose proof (shaped_width A (alloc_shaped A HA)) as Hw.
  fold B in N, C, W, S, L, R.
  split; [exact N|]. split; [|split].
  - intros k combo j Hk Hcombo Hj. rewrite R by lia.
    apply Nat.ltb_lt in Hj. now rewrite Hj.
  - unfold mzd_mul_vl_uint64, mzd_mul_v_uint64.
    apply mzd_addmul_vl_uint64_precomputed; auto.
    pose proof (mzd_local_clear_length_ge c). lia.
  - apply mzd_addmul_vl_uint64_precomputed; auto.
Qed.

Lemma A64_allocated : allocated Examples.A64.
Proof.
  constructor; [apply shapedb_spec; vm_compute; reflexivity | reflexivity ..].
Qed.

(** The theorem at the 64 x 64 example: the table has 2048 rows and both
    multiplies leave the same vector. *)
Lemma mzd_mul_vl_uint64_agrees_with_mul_v_witness :
  allocated Examples.A64 /\
  nrows Examples.A64 = (width Examples.v64 * 64)%nat /\
  words_ok (mem Examples.v64) /\
  mem (mzd_mul_v_uint64 Examples.c64 Examples.v64 Examples.A64) = [2; 0] /\
  mzd_mul_vl_uint64 Examples.c64 Examples.v64
    (mzd_precompute_matrix_lookup Examples.A64)
  = mzd_mul_v_uint64 Examples.c64 Examples.v64 Examples.A64.
Proof.
  split; [exact A64_allocated|].
  split; [reflexivity|].
  split; [apply words_okb_spec; reflexivity|].
  split; [vm_compute; reflexivity|].
  apply (mzd_mul_vl_uint64_agrees_with_mul_v
           Examples.c64 Examples.v64 Examples.A64).
  - exact A64_allocated.
  - reflexivity.
  - simpl; lia.
  - apply words_okb_spec; reflexivity.
  - simpl; lia.
Defined.

End LookupFacts.

(* ================================================================== *)
(** * The 128-bit backends against the scalar code *)
(* ================================================================== *)

Module SimdFacts.

Import BinMat Simd BinMatFacts.

(** Equalities between XORs of the same words in another order. *)
Ltac lxor_bits :=
  rewrite ?Z.lxor_0_l, ?Z.lxor_0_r;
  apply Z.bits_inj'; intros ?k ?Hk; rewrite !Z.lxor_spec; ring.

Lemma lane_load128 mem base k j :
  (j < 2)%nat -> lane j (load128 mem base k) = rd mem (base + 2 * k + j).
Proof.
  intros Hj. destruct j as [|[|j]]; [| |lia]; cbn [lane load128 lane0 lane1].
  - now rewrite Nat.add_0_r.
  - reflexivity.
Qed.

Lemma masked_word x idx bit :
  in_range x -> 0 <= bit ->
  Z.land x (neg (Z.land (shr idx bit) 1)) = sel (Z.testbit idx bit) x.
Proof.
  intros Hx Hb. rewrite shr_land_1 by exact Hb.
  apply (land_mask_of x (Z.testbit idx bit) Hx).
Qed.

Section Backend128Facts.

Context {backend : Simd128}.

Variable Amem : list word.
Variable Abase : nat.
Hypothesis HA : words_ok Amem.

Lemma mm128_xor_mask_lane j lhs k idx bit :
  (j < 2)%nat -> 0 <= bit ->
  lane j (mm128_xor_mask lhs (load128 Amem Abase k) (mm128_compute_mask idx bit))
  = Z.lxor (lane j lhs)
      (sel (Z.testbit idx bit) (rd Amem (Abase + 2 * k + j))).
Proof.
  intros Hj Hb. unfold mm128_xor_mask, mm128_compute_mask.
  rewrite vxor_lanes, vand_lanes, vdup_lanes.
  rewrite <- (lane_load128 Amem Abase k j Hj).
  destruct j as [|[|j]]; [| |lia];
    cbn [lane lanewise lane0 lane1 load128]; f_equal;
    apply masked_word; auto; apply rd_in_range, HA.
Qed.

Lemma mul_v_128_loop_spec n : forall idx mAptr cval,
  fst (mul_v_128_loop n Amem Abase idx mAptr cval) = (mAptr + 4 * n)%nat /\
  forall j, (j < 2)%nat ->
    fold128 (snd (mul_v_128_loop n Amem Abase idx mAptr cval)) j
    = Z.lxor (fold128 cval j)
        (bigxor (4 * n)
           (fun t => sel (Z.testbit idx (Z.of_nat t))
                         (rd Amem (Abase + 2 * (mAptr + t) + j)))).
Proof.
  induction n as [|n IH]; intros idx mAptr [c0 c1].
  - cbn [mul_v_128_loop fst snd bigxor Nat.mul]. split; [lia|].
    intros j _. now rewrite Z.lxor_0_r.
  - cbn [mul_v_128_loop].
    match goal with
    | |- context [mul_v_128_loop n Amem Abase ?i ?p ?cv] =>
        destruct (IH i p cv) as [I1 I2]
    end.
    split; [rewrite I1; lia|].
    intros j Hj. rewrite (I2 j Hj). unfold fold128 at 1 2. cbn [fst snd].
    rewrite !mm128_xor_mask_lane by (auto; lia).
    replace (4 * S n)%nat with (4 + 4 * n)%nat by lia.
    rewrite bigxor_app. cbn [bigxor].
    rewrite (bigxor_ext (4 * n)
               (fun t => sel (Z.testbit (shr idx 4) (Z.of_nat t))
                             (rd Amem (Abase + 2 * (mAptr + 4 + t) + j)))
               (fun t => sel (Z.testbit idx (Z.of_nat (4 + t)))
                             (rd Amem (Abase + 2 * (mAptr + (4 + t)) + j)))).
    2:{ intros t _. rewrite shr_testbit by lia.
        do 2 f_equal; [f_equal|]; lia. }
    change (Z.of_nat 0) with 0. change (Z.of_nat 1) with 1.
    change (Z.of_nat 2) with 2. change (Z.of_nat 3) with 3.
    lxor_bits.
Qed.

Lemma mul_v_128_words_spec vmem w : forall vptr mAptr cval j,
  (j < 2)%nat ->
  fold128 (mul_v_128_words w Amem vmem Abase vptr mAptr cval) j
  = Z.lxor (fold128 cval j)
      (bigxor (w * 64)
         (fun i => sel (Z.testbit (rd vmem (vptr + i / 64))
                                  (Z.of_nat (i mod 64)))
                       (rd Amem (Abase + 2 * (mAptr + i) + j)))).
Proof.
  induction w as [|w IH]; intros vptr mAptr cval j Hj.
  - cbn [mul_v_128_words Nat.mul bigxor]. now rewrite Z.lxor_0_r.
  - cbn [mul_v_128_words].
    destruct (mul_v_128_loop_spec 16 (rd vmem vptr) mAptr cval) as [L1 L2].
    destruct (mul_v_128_loop 16 Amem Abase (rd vmem vptr) mAptr cval)
      as [mAptr' cval'] eqn:E.
    cbn [fst snd] in L1, L2. subst mAptr'.
    rewrite (IH _ _ _ j Hj), (L2 j Hj).
    replace (S w * 64)%nat with (4 * 16 + w * 64)%nat by lia.
    rewrite bigxor_app, Z.lxor_assoc. f_equal. f_equal.
    + apply bigxor_ext. intros t Ht.
      rewrite Nat.div_small, Nat.mod_small, Nat.add_0_r by lia. reflexivity.
    + apply bigxor_ext. intros t _.
      replace (4 * 16 + t)%nat with (t + 1 * 64)%nat by lia.
      rewrite Nat.div_add, Nat.Div0.mod_add by lia.
      f_equal; f_equal; f_equal; lia.
Qed.

End Backend128Facts.

(** ** The 256-bit accumulators *)

Section Avx128Facts.

Variable Amem : list word.
Variable Abase : nat.
Hypothesis HA : words_ok Amem.

Lemma mm256_xor_mask_half_sum j lhs k idx bit :
  (j < 2)%nat -> 0 <= bit ->
  half_sum (mm256_xor_mask lhs (load256 Amem Abase k)
              (mm256_compute_mask_2 idx bit)) j
  = Z.lxor (half_sum lhs j)
      (Z.lxor (sel (Z.testbit idx bit) (rd Amem (Abase + 2 * (2 * k) + j)))
              (sel (Z.testbit idx (bit + 1))
                   (rd Amem (Abase + 2 * (2 * k + 1) + j)))).
Proof.
  intros Hj Hb.
  rewrite <- !(lane_load128 Amem Abase _ j Hj).
  unfold half_sum, mm256_xor_mask, mm256_compute_mask_2, _mm256_xor_si256,
    _mm256_and_si256, _mm256_set_epi64x, load256.
  destruct j as [|[|j]]; [| |lia];
    cbn [lane lanewise lane0 lane1 low128 high128 load128];
    rewrite !masked_word by (try lia; apply rd_in_range, HA);
    lxor_bits.
Qed.

Lemma mul_v_avx_128_loop_spec n : forall idx mAptr cval,
  fst (mul_v_avx_128_loop n Amem Abase idx mAptr cval) = (mAptr + 4 * n)%nat /\
  forall j, (j < 2)%nat ->
    fold256 (snd (mul_v_avx_128_loop n Amem Abase idx mAptr cval)) j
    = Z.lxor (fold256 cval j)
        (bigxor (8 * n)
           (fun t => sel (Z.testbit idx (Z.of_nat t))
                         (rd Amem (Abase + 2 * (2 * mAptr + t) + j)))).
Proof.
  induction n as [|n IH]; intros idx mAptr [c0 c1].
  - cbn [mul_v_avx_128_loop fst snd bigxor Nat.mul]. split; [lia|].
    intros j _. now rewrite Z.lxor_0_r.
  - cbn [mul_v_avx_128_loop].
    match goal with
    | |- context [mul_v_avx_128_loop n Amem Abase ?i ?p ?cv] =>
        destruct (IH i p cv) as [I1 I2]
    end.
    split; [rewrite I1; lia|].
    intros j Hj. rewrite (I2 j Hj). unfold fold256 at 1 2. cbn [fst snd].
    rewrite !mm256_xor_mask_half_sum by (auto; lia).
    replace (8 * S n)%nat with (8 + 8 * n)%nat by lia.
    rewrite bigxor_app. cbn [bigxor].
    rewrite (bigxor_ext (8 * n)
               (fun t => sel (Z.testbit (shr idx 8) (Z.of_nat t))
                             (rd Amem (Abase + 2 * (2 * (mAptr + 4) + t) + j)))
               (fun t => sel (Z.testbit idx (Z.of_nat (8 + t)))
                             (rd Amem (Abase + 2 * (2 * mAptr + (8 + t)) + j)))).
    2:{ intros t _. rewrite shr_testbit by lia.
        do 2 f_equal; [f_equal|]; lia. }
    change (Z.of_nat 0) with 0. change (Z.of_nat 1) with 1.
    change (Z.of_nat 2) with 2. change (Z.of_nat 3) with 3.
    change (Z.of_nat 4) with 4. change (Z.of_nat 5) with 5.
    change (Z.of_nat 6) with 6. change (Z.of_nat 7) with 7.
    change (0 + 1) with 1. change (2 + 1) with 3.
    change (4 + 1) with 5. change (6 + 1) with 7.
    replace (2 * (mAptr + 0))%nat with (2 * mAptr + 0)%nat by lia.
    replace (2 * mAptr + 0 + 1)%nat with (2 * mAptr + 1)%nat by lia.
    replace (2 * (mAptr + 1))%nat with (2 * mAptr + 2)%nat by lia.
    replace (2 * mAptr + 2 + 1)%nat with (2 * mAptr + 3)%nat by lia.
    replace (2 * (mAptr + 2))%nat with (2 * mAptr + 4)%nat by lia.
    replace (2 * mAptr + 4 + 1)%nat with (2 * mAptr + 5)%nat by lia.
    replace (2 * (mAptr + 3))%nat with (2 * mAptr + 6)%nat by lia.
    replace (2 * mAptr + 6 + 1)%nat with (2 * mAptr + 7)%nat by lia.
    lxor_bits.
Qed.

Lemma mul_v_avx_128_words_spec vmem w : forall vptr mAptr cval j,
  (j < 2)%nat ->
  fold256 (mul_v_avx_128_words w Amem vmem Abase vptr mAptr cval) j
  = Z.lxor (fold256 cval j)
      (bigxor (w * 64)
         (fun i => sel (Z.testbit (rd vmem (vptr + i / 64))
                                  (Z.of_nat (i mod 64)))
                       (rd Amem (Abase + 2 * (2 * mAptr + i) + j)))).
Proof.
  induction w as [|w IH]; intros vptr mAptr cval j Hj.
  - cbn [mul_v_avx_128_words Nat.mul bigxor]. now rewrite Z.lxor_0_r.
  - cbn [mul_v_avx_128_words].
    destruct (mul_v_avx_128_loop_spec 8 (rd vmem vptr) mAptr cval) as [L1 L2].
    destruct (mul_v_avx_128_loop 8 Amem Abase (rd vmem vptr) mAptr cval)
      as [mAptr' cval'] eqn:E.
    cbn [fst snd] in L1, L2. subst mAptr'.
    rewrite (IH _ _ _ j Hj), (L2 j Hj).
    replace (S w * 64)%nat with (8 * 8 + w * 64)%nat by lia.
    rewrite bigxor_app, Z.lxor_assoc. f_equal. f_equal.
    + apply bigxor_ext. intros t Ht.
      rewrite Nat.div_small, Nat.mod_small, Nat.add_0_r by lia. reflexivity.
    + apply bigxor_ext. intros t _.
      replace (8 * 8 + t)%nat with (t + 1 * 64)%nat by lia.
      rewrite Nat.div_add, Nat.Div0.mod_add by lia.
      f_equal; f_equal; f_equal; lia.
Qed.

End Avx128Facts.

(** ** One-row results *)

Lemma two_words (l : list word) :
  length l = 2%nat -> l = [rd l 0; rd l 1].
Proof.
  destruct l as [|a [|b [|x l]]]; try discriminate. reflexivity.
Qed.

Lemma store128_two (mem : list word) (x : m128) :
  length mem = 2%nat -> store128 mem 0 0 x = [lane0 x; lane1 x].
Proof.
  destruct mem as [|a [|b [|y l]]]; try discriminate. reflexivity.
Qed.

Lemma mzd_same (x y : mzd_local_t) :
  nrows x = nrows y -> ncols x = ncols y -> width x = width y ->
  rowstride x = rowstride y -> mem x = mem y -> x = y.
Proof.
  destruct x, y; cbn; intros; subst; reflexivity.
Qed.

Lemma lxor_cancel_l a u : Z.lxor a u = a <-> u = 0.
Proof.
  split; intros H.
  - assert (E : Z.lxor a (Z.lxor a u) = Z.lxor a a) by (now rewrite H).
    rewrite <- Z.lxor_assoc, Z.lxor_nilpotent, Z.lxor_0_l in E. exact E.
  - subst u. apply Z.lxor_0_r.
Qed.

(** The row sum the scalar code leaves, read with the strides of the
    128-bit specializations. *)
Lemma vecmat_word_128 (v A : mzd_local_t) (j mAptr : nat) :
  width v = 2%nat -> rowstride A = 2%nat ->
  bigxor (2 * 64)
    (fun i => sel (Z.testbit (rd (mem v) (FIRST_ROW v + i / 64))
                             (Z.of_nat (i mod 64)))
                  (rd (mem A) (FIRST_ROW A + 2 * (mAptr * 0 + i) + j)))
  = vecmat_word v A j.
Proof.
  intros Hv HA. unfold vecmat_word. rewrite Hv.
  apply bigxor_ext. intros i _. unfold vbit, row_word, ROW, FIRST_ROW.
  rewrite HA. do 2 f_equal. lia.
Qed.

Lemma mzd_addmul_v_uint64_128 (c v A : mzd_local_t) :
  length (mem c) = 2%nat -> vector_128 v -> matrix_128 A ->
  mem (mzd_addmul_v_uint64 c v A)
  = [Z.lxor (rd (mem c) 0) (vecmat_word v A 0);
     Z.lxor (rd (mem c) 1) (vecmat_word v A 1)].
Proof.
  intros Hc Hv HA. unfold mzd_addmul_v_uint64. cbn [mem set_mem].
  destruct (addmul_v_words_spec (width v) (width A) (rowstride A) (mem A)
              (mem v) (FIRST_ROW v) (FIRST_ROW A) (mem c)) as [Hlen Hrd].
  { rewrite (m128_width A HA). lia. }
  { exact (m128_words A HA). }
  rewrite (two_words _ (eq_trans Hlen Hc)), !Hrd.
  rewrite (m128_width A HA), (m128_rowstride A HA), (v128_width v Hv).
  cbn [Nat.ltb Nat.leb]. unfold vecmat_word.
  rewrite (v128_width v Hv).
  f_equal; [|f_equal]; f_equal; apply bigxor_ext; intros i _;
    unfold vbit, row_word, ROW, FIRST_ROW; rewrite (m128_rowstride A HA);
    reflexivity.
Qed.

Lemma mzd_mul_v_uint64_128 (c v A : mzd_local_t) :
  vector_128 c -> vector_128 v -> matrix_128 A ->
  mem (mzd_mul_v_uint64 c v A) = [vecmat_word v A 0; vecmat_word v A 1].
Proof.
  intros Hc Hv HA. unfold mzd_mul_v_uint64.
  rewrite mzd_addmul_v_uint64_128; auto.
  - rewrite !mzd_local_clear_rd
      by (rewrite (v128_nrows c Hc), (v128_rowstride c Hc); lia).
    now rewrite !Z.lxor_0_l.
  - rewrite mzd_local_clear_length; [exact (v128_mem c Hc)|].
    rewrite (v128_nrows c Hc), (v128_rowstride c Hc), (v128_mem c Hc). lia.
Qed.

Section Backend128Results.

Context {backend : Simd128}.

Lemma lane_vxor a b j : lane j (vxor a b) = Z.lxor (lane j a) (lane j b).
Proof. rewrite vxor_lanes. now destruct j. Qed.

Lemma mul_v_128_words_result (c0 c1 : m128) (c v A : mzd_local_t) :
  length (mem c) = 2%nat -> vector_128 v -> matrix_128 A ->
  let '(r0, r1) :=
    mul_v_128_words 2 (mem A) (mem v) (FIRST_ROW A) (FIRST_ROW v) 0 (c0, c1) in
  store128 (mem c) (FIRST_ROW c) 0 (vxor r0 r1)
  = [Z.lxor (fold128 (c0, c1) 0) (vecmat_word v A 0);
     Z.lxor (fold128 (c0, c1) 1) (vecmat_word v A 1)].
Proof.
  intros Hc Hv HA.
  pose proof (mul_v_128_words_spec (mem A) (FIRST_ROW A) (m128_words A HA)
                (mem v) 2 (FIRST_ROW v) 0 (c0, c1)) as W.
  destruct (mul_v_128_words 2 (mem A) (mem v) (FIRST_ROW A) (FIRST_ROW v) 0
              (c0, c1)) as [r0 r1].
  unfold FIRST_ROW at 1. rewrite (store128_two _ _ Hc).
  change (lane0 (vxor r0 r1)) with (lane 0 (vxor r0 r1)).
  change (lane1 (vxor r0 r1)) with (lane 1 (vxor r0 r1)).
  rewrite !lane_vxor.
  change (Z.lxor (lane 0 r0) (lane 0 r1)) with (fold128 (r0, r1) 0).
  change (Z.lxor (lane 1 r0) (lane 1 r1)) with (fold128 (r0, r1) 1).
  rewrite !W by lia.
  rewrite <- (vecmat_word_128 v A 0 0), <- (vecmat_word_128 v A 1 0)
    by (apply Hv || apply HA).
  reflexivity.
Qed.

Lemma mzd_mul_v_128_mem (c v A : mzd_local_t) :
  length (mem c) = 2%nat -> vector_128 v -> matrix_128 A ->
  mem (mzd_mul_v_128 c v A) = [vecmat_word v A 0; vecmat_word v A 1].
Proof.
  intros Hc Hv HA. unfold mzd_mul_v_128.
  pose proof (mul_v_128_words_result vzero vzero c v A Hc Hv HA) as R.
  destruct (mul_v_128_words 2 (mem A) (mem v) (FIRST_ROW A) (FIRST_ROW v) 0
              (vzero, vzero)) as [r0 r1].
  cbn [mem set_mem]. rewrite R. unfold fold128. cbn [fst snd].
  rewrite vzero_lanes. cbn [lane lane0 lane1]. reflexivity.
Qed.

Lemma mzd_addmul_v_128_mem (c v A : mzd_local_t) :
  length (mem c) = 2%nat -> vector_128 v -> matrix_128 A ->
  mem (mzd_addmul_v_128 c v A)
  = [Z.lxor (rd (mem c) 0) (vecmat_word v A 0);
     Z.lxor (rd (mem c) 1) (vecmat_word v A 1)].
Proof.
  intros Hc Hv HA. unfold mzd_addmul_v_128.
  pose proof (mul_v_128_words_result (load128 (mem c) (FIRST_ROW c) 0) vzero
                c v A Hc Hv HA) as R.
  destruct (mul_v_128_words 2 (mem A) (mem v) (FIRST_ROW A) (FIRST_ROW v) 0
              (load128 (mem c) (FIRST_ROW c) 0, vzero)) as [r0 r1].
  cbn [mem set_mem]. rewrite R. unfold fold128. cbn [fst snd].
  rewrite vzero_lanes. cbn [lane lane0 lane1 load128 FIRST_ROW Nat.add Nat.mul].
  now rewrite !Z.lxor_0_r.
Qed.

(** The 128-bit multiply of any lawful backend is the scalar one. *)
Lemma mzd_mul_v_128_is_uint64 (c v A : mzd_local_t) :
  vector_128 c -> vector_128 v -> matrix_128 A ->
  mzd_mul_v_128 c v A = mzd_mul_v_uint64 c v A.
Proof.
  intros Hc Hv HA. apply mzd_same.
  5:{ rewrite mzd_mul_v_128_mem, mzd_mul_v_uint64_128; auto.
      exact (v128_mem c Hc). }
  all: unfold mzd_mul_v_128;
    destruct (mul_v_128_words 2 (mem A) (mem v) (FIRST_ROW A) (FIRST_ROW v) 0
                (vzero, vzero)); reflexivity.
Qed.

Lemma mzd_addmul_v_128_is_uint64 (c v A : mzd_local_t) :
  vector_128 c -> vector_128 v -> matrix_128 A ->
  mzd_addmul_v_128 c v A = mzd_addmul_v_uint64 c v A.
Proof.
  intros Hc Hv HA. apply mzd_same.
  5:{ rewrite mzd_addmul_v_128_mem, mzd_addmul_v_uint64_128; auto;
        exact (v128_mem c Hc). }
  all: unfold mzd_addmul_v_128;
    destruct (mul_v_128_words 2 (mem A) (mem v) (FIRST_ROW A) (FIRST_ROW v) 0
                (load128 (mem c) (FIRST_ROW c) 0, vzero)); reflexivity.
Qed.

Lemma mzd_xor_128_is_uint64 (res first second : mzd_local_t) :
  length (mem res) = 2%nat -> width first = 2%nat ->
  mzd_xor_128 res first second = mzd_xor_uint64 res first second.
Proof.
  intros Hr Hf. unfold mzd_xor_128, mzd_xor_uint64. f_equal.
  rewrite Hf. unfold FIRST_ROW. rewrite (store128_two _ _ Hr).
  rewrite vxor_lanes.
  destruct (mem res) as [|a [|b [|y l]]]; try discriminate. reflexivity.
Qed.

End Backend128Results.

(** ** AVX2 *)

Lemma fold_avx_128_mem (c : mzd_local_t) (cval : m256 * m256) :
  length (mem c) = 2%nat ->
  mem (fold_avx_128 c cval) = [fold256 cval 0; fold256 cval 1].
Proof.
  intros Hc. destruct cval as [c0 c1]. unfold fold_avx_128.
  cbn [mem set_mem]. unfold FIRST_ROW. rewrite (store128_two _ _ Hc).
  unfold fold256, half_sum, _mm_xor_si128, _mm256_xor_si256,
    _mm256_extractf128_si256.
  cbn [fst snd lane lanewise lane0 lane1 low128 high128].
  f_equal; [|f_equal]; lxor_bits.
Qed.

Lemma mul_v_avx_128_result (cval : m256 * m256) (c v A : mzd_local_t) :
  length (mem c) = 2%nat -> vector_128 v -> matrix_128 A ->
  mem (fold_avx_128 c
         (mul_v_avx_128_words 2 (mem A) (mem v) (FIRST_ROW A) (FIRST_ROW v) 0
            cval))
  = [Z.lxor (fold256 cval 0) (vecmat_word v A 0);
     Z.lxor (fold256 cval 1) (vecmat_word v A 1)].
Proof.
  intros Hc Hv HA. rewrite (fold_avx_128_mem _ _ Hc).
  rewrite !(mul_v_avx_128_words_spec (mem A) (FIRST_ROW A) (m128_words A HA))
    by lia.
  rewrite <- (vecmat_word_128 v A 0 0), <- (vecmat_word_128 v A 1 0)
    by (apply Hv || apply HA).
  reflexivity.
Qed.

Lemma fold_avx_128_shape (c : mzd_local_t) (cval : m256 * m256) :
  fold_avx_128 c cval = set_mem c (mem (fold_avx_128 c cval)).
Proof. destruct cval. reflexivity. Qed.

Lemma mzd_mul_v_avx_128_is_uint64 (c v A : mzd_local_t) :
  vector_128 c -> vector_128 v -> matrix_128 A ->
  mzd_mul_v_avx_128 c v A = mzd_mul_v_uint64 c v A.
Proof.
  intros Hc Hv HA. unfold mzd_mul_v_avx_128. rewrite fold_avx_128_shape.
  rewrite (mul_v_avx_128_result _ c v A (v128_mem c Hc) Hv HA).
  apply mzd_same; try reflexivity.
  rewrite mzd_mul_v_uint64_128 by assumption. reflexivity.
Qed.

(** What [mzd_addmul_v_avx_128] leaves: the scalar result XOR the upper
    half the cast left in the accumulator. *)
Lemma mzd_addmul_v_avx_128_mem (undefined : m128) (c v A : mzd_local_t) :
  vector_128 c -> vector_128 v -> matrix_128 A ->
  mem (mzd_addmul_v_avx_128 undefined c v A)
  = [Z.lxor (rd (mem (mzd_addmul_v_uint64 c v A)) 0) (lane0 undefined);
     Z.lxor (rd (mem (mzd_addmul_v_uint64 c v A)) 1) (lane1 undefined)].
Proof.
  intros Hc Hv HA. unfold mzd_addmul_v_avx_128.
  rewrite (mul_v_avx_128_result _ c v A (v128_mem c Hc) Hv HA).
  rewrite (mzd_addmul_v_uint64_128 c v A (v128_mem c Hc) Hv HA).
  unfold fold256, half_sum, _mm256_castsi128_si256, _mm256_setzero_si256,
    _mm_setzero_si128.
  cbn [fst snd lane lane0 lane1 low128 high128 load128 FIRST_ROW Nat.add
       Nat.mul].
  unfold rd, rd_gen. cbn [nth].
  f_equal; [|f_equal]; lxor_bits.
Qed.

Lemma mzd_addmul_v_avx_128_agrees (undefined : m128) (c v A : mzd_local_t) :
  vector_128 c -> vector_128 v -> matrix_128 A ->
  (mzd_addmul_v_avx_128 undefined c v A = mzd_addmul_v_uint64 c v A
   <-> undefined = _mm_setzero_si128).
Proof.
  intros Hc Hv HA.
  pose proof (mzd_addmul_v_avx_128_mem undefined c v A Hc Hv HA) as Havx.
  pose proof (mzd_addmul_v_uint64_128 c v A (v128_mem c Hc) Hv HA) as Hu.
  split.
  - intros E. rewrite E in Havx. rewrite Hu in Havx.
    unfold rd, rd_gen in Havx. cbn [nth] in Havx.
    injection Havx as E0 E1. symmetry in E0, E1.
    apply lxor_cancel_l in E0. apply lxor_cancel_l in E1.
    destruct undefined as [u0 u1]. cbn [lane0 lane1] in E0, E1.
    subst. reflexivity.
  - intros ->. unfold mzd_addmul_v_avx_128. rewrite fold_avx_128_shape.
    fold (mzd_addmul_v_avx_128 _mm_setzero_si128 c v A).
    rewrite Havx. cbn [_mm_setzero_si128 lane0 lane1].
    rewrite !Z.lxor_0_r, <- two_words.
    + apply mzd_same; reflexivity.
    + rewrite Hu. reflexivity.
Qed.

Lemma vec128_is_vector : vector_128 Examples.vec128.
Proof.
  split; try reflexivity. apply words_okb_spec. vm_compute. reflexivity.
Qed.

Lemma acc128_is_vector : vector_128 Examples.acc128.
Proof.
  split; try reflexivity. apply words_okb_spec. vm_compute. reflexivity.
Qed.

Lemma arg128_is_vector : vector_128 Examples.arg128.
Proof.
  split; try reflexivity. apply words_okb_spec. vm_compute. reflexivity.
Qed.

Lemma mat128_is_matrix : matrix_128 Examples.mat128.
Proof.
  split; try reflexivity. apply words_okb_spec. vm_compute. reflexivity.
Qed.

(** At 128 bits the SSE2, NEON and AVX2 multiplies leave in [c] exactly
    what the scalar [mzd_mul_v_uint64] leaves: the same record, word for
    word. *)
Theorem mzd_mul_v_simd_128_is_uint64 (c v A : mzd_local_t) :
  vector_128 c -> vector_128 v -> matrix_128 A ->
  mzd_mul_v_sse_128 c v A = mzd_mul_v_uint64 c v A /\
  mzd_mul_v_neon_128 c v A = mzd_mul_v_uint64 c v A /\
  mzd_mul_v_avx_128 c v A = mzd_mul_v_uint64 c v A.
Proof.
  intros Hc Hv HA. split; [|split].
  - apply (@mzd_mul_v_128_is_uint64 sse2); assumption.
  - apply (@mzd_mul_v_128_is_uint64 neon); assumption.
  - apply mzd_mul_v_avx_128_is_uint64; assumption.
Qed.

Lemma mzd_mul_v_simd_128_is_uint64_witness :
  mzd_mul_v_sse_128 Examples.acc128 Examples.vec128 Examples.mat128
  = mzd_mul_v_uint64 Examples.acc128 Examples.vec128 Examples.mat128 /\
  mzd_mul_v_neon_128 Examples.acc128 Examples.vec128 Examples.mat128
  = mzd_mul_v_uint64 Examples.acc128 Examples.vec128 Examples.mat128 /\
  mzd_mul_v_avx_128 Examples.acc128 Examples.vec128 Examples.mat128
  = mzd_mul_v_uint64 Examples.acc128 Examples.vec128 Examples.mat128.
Proof.
  exact (mzd_mul_v_simd_128_is_uint64 Examples.acc128 Examples.vec128
           Examples.mat128 acc128_is_vector vec128_is_vector mat128_is_matrix).
Defined.

(** The SSE2 and NEON accumulating multiplies at 128 bits leave in [c]
    exactly what [mzd_addmul_v_uint64] leaves. *)
Theorem mzd_addmul_v_simd_128_is_uint64 (c v A : mzd_local_t) :
  vector_128 c -> vector_128 v -> matrix_128 A ->
  mzd_addmul_v_sse_128 c v A = mzd_addmul_v_uint64 c v A /\
  mzd_addmul_v_neon_128 c v A = mzd_addmul_v_uint64 c v A.
Proof.
  intros Hc Hv HA. split.
  - apply (@mzd_addmul_v_128_is_uint64 sse2); assumption.
  - apply (@mzd_addmul_v_128_is_uint64 neon); assumption.
Qed.

Lemma mzd_addmul_v_simd_128_is_uint64_witness :
  mzd_addmul_v_sse_128 Examples.acc128 Examples.vec128 Examples.mat128
  = mzd_addmul_v_uint64 Examples.acc128 Examples.vec128 Examples.mat128 /\
  mzd_addmul_v_neon_128 Examples.acc128 Examples.vec128 Examples.mat128
  = mzd_addmul_v_uint64 Examples.acc128 Examples.vec128 Examples.mat128.
Proof.
  exact (mzd_addmul_v_simd_128_is_uint64 Examples.acc128 Examples.vec128
           Examples.mat128 acc128_is_vector vec128_is_vector mat128_is_matrix).
Defined.

(** [mzd_addmul_v_avx_128] starts its accumulator from
    [_mm256_castsi128_si256] of the old [c], whose upper 128 bits the
    intrinsic leaves undefined, and folds both halves into the result: it
    leaves the scalar result XOR those upper 128 bits, so it agrees with
    [mzd_addmul_v_uint64] exactly when they are zero. *)
Theorem mzd_addmul_v_avx_128_upper_half
        (undefined : m128) (c v A : mzd_local_t) :
  vector_128 c -> vector_128 v -> matrix_128 A ->
  mem (mzd_addmul_v_avx_128 undefined c v A)
  = [Z.lxor (rd (mem (mzd_addmul_v_uint64 c v A)) 0) (lane0 undefined);
     Z.lxor (rd (mem (mzd_addmul_v_uint64 c v A)) 1) (lane1 undefined)] /\
  (mzd_addmul_v_avx_128 undefined c v A = mzd_addmul_v_uint64 c v A
   <-> undefined = _mm_setzero_si128).
Proof.
  intros Hc Hv HA. split.
  - apply mzd_addmul_v_avx_128_mem; assumption.
  - apply mzd_addmul_v_avx_128_agrees; assumption.
Qed.

Lemma mzd_addmul_v_avx_128_upper_half_witness :
  mem (mzd_addmul_v_avx_128 Examples.stale_upper_half
         Examples.acc128 Examples.vec128 Examples.mat128)
  = [Z.lxor (rd (mem (mzd_addmul_v_uint64 Examples.acc128 Examples.vec128
                        Examples.mat128)) 0)
            (lane0 Examples.stale_upper_half);
     Z.lxor (rd (mem (mzd_addmul_v_uint64 Examples.acc128 Examples.vec128
                        Examples.mat128)) 1)
            (lane1 Examples.stale_upper_half)] /\
  (mzd_addmul_v_avx_128 Examples.stale_upper_half
     Examples.acc128 Examples.vec128 Examples.mat128
   = mzd_addmul_v_uint64 Examples.acc128 Examples.vec128 Examples.mat128
   <-> Examples.stale_upper_half = _mm_setzero_si128).
Proof.
  exact (mzd_addmul_v_avx_128_upper_half Examples.stale_upper_half
           Examples.acc128 Examples.vec128 Examples.mat128
           acc128_is_vector vec128_is_vector mat128_is_matrix).
Defined.

(** The three 128-bit XORs leave in [res] exactly what the scalar
    [mzd_xor_uint64] leaves when [first] is two words wide. *)
Theorem mzd_xor_simd_128_is_uint64 (res first second : mzd_local_t) :
  length (mem res) = 2%nat -> width first = 2%nat ->
  mzd_xor_sse_128 res first second = mzd_xor_uint64 res first second /\
  mzd_xor_neon_128 res first second = mzd_xor_uint64 res first second /\
  mzd_xor_avx_128 res first second = mzd_xor_uint64 res first second.
Proof.
  intros Hr Hf. split; [|split].
  - apply (@mzd_xor_128_is_uint64 sse2); assumption.
  - apply (@mzd_xor_128_is_uint64 neon); assumption.
  - apply (@mzd_xor_128_is_uint64 sse2); assumption.
Qed.

Lemma mzd_xor_simd_128_is_uint64_witness :
  mzd_xor_sse_128 Examples.acc128 Examples.vec128 Examples.arg128
  = mzd_xor_uint64 Examples.acc128 Examples.vec128 Examples.arg128 /\
  mzd_xor_neon_128 Examples.acc128 Examples.vec128 Examples.arg128
  = mzd_xor_uint64 Examples.acc128 Examples.vec128 Examples.arg128 /\
  mzd_xor_avx_128 Examples.acc128 Examples.vec128 Examples.arg128
  = mzd_xor_uint64 Examples.acc128 Examples.vec128 Examples.arg128.
Proof.
  exact (mzd_xor_simd_128_is_uint64 Examples.acc128 Examples.vec128
           Examples.arg128 eq_refl eq_refl).
Defined.

(** C2.  At 128 bits (a one-row accumulator [c], a vector [v] and a
    128-row matrix [A] of two-word rows) the SSE2, NEON and AVX2 [mul_v]
    entry points leave in [c] exactly what [mzd_mul_v_uint64] leaves, and
    the SSE2 and NEON [addmul_v] exactly what [mzd_addmul_v_uint64]
    leaves.  The AVX2 [addmul_v] is not identical to them: it starts from
    [_mm256_castsi128_si256( *mcptr )] and folds both halves of the
    register into the result, so it produces the scalar result, and the
    SSE2 result, exactly when the upper 128 bits that the cast leaves
    undefined happen to be zero. *)
Theorem mzd_backends_128_agree_up_to_cast
        (undefined : m128) (c v A : mzd_local_t) :
  vector_128 c -> vector_128 v -> matrix_128 A ->
  mzd_mul_v_sse_128 c v A = mzd_mul_v_uint64 c v A /\
  mzd_mul_v_neon_128 c v A = mzd_mul_v_uint64 c v A /\
  mzd_mul_v_avx_128 c v A = mzd_mul_v_uint64 c v A /\
  mzd_addmul_v_sse_128 c v A = mzd_addmul_v_uint64 c v A /\
  mzd_addmul_v_neon_128 c v A = mzd_addmul_v_uint64 c v A /\
  (mzd_addmul_v_avx_128 undefined c v A = mzd_addmul_v_uint64 c v A
   <-> undefined = _mm_setzero_si128) /\
  (mzd_addmul_v_avx_128 undefined c v A = mzd_addmul_v_sse_128 c v A
   <-> undefined = _mm_setzero_si128).
Proof.
  intros Hc Hv HA.
  pose proof (@mzd_addmul_v_128_is_uint64 sse2 c v A Hc Hv HA) as Hsse.
  fold mzd_addmul_v_sse_128 in Hsse.
  pose proof (mzd_addmul_v_avx_128_agrees undefined c v A Hc Hv HA) as Havx.
  split; [apply (@mzd_mul_v_128_is_uint64 sse2); assumption|].
  split; [apply (@mzd_mul_v_128_is_uint64 neon); assumption|].
  split; [apply mzd_mul_v_avx_128_is_uint64; assumption|].
  split; [exact Hsse|].
  split; [apply (@mzd_addmul_v_128_is_uint64 neon); assumption|].
  split; [exact Havx|].
  rewrite Hsse. exact Havx.
Qed.

Lemma mzd_backends_128_agree_up_to_cast_witness :
  mzd_mul_v_avx_128 Examples.acc128 Examples.vec128 Examples.mat128
  = mzd_mul_v_uint64 Examples.acc128 Examples.vec128 Examples.mat128 /\
  (mzd_addmul_v_avx_128 Examples.stale_upper_half
     Examples.acc128 Examples.vec128 Examples.mat128
   = mzd_addmul_v_sse_128 Examples.acc128 Examples.vec128 Examples.mat128
   <-> Examples.stale_upper_half = _mm_setzero_si128).
Proof.
  pose proof (mzd_backends_128_agree_up_to_cast Examples.stale_upper_half
                Examples.acc128 Examples.vec128 Examples.mat128
                acc128_is_vector vec128_is_vector mat128_is_matrix) as H.
  split; [exact (proj1 (proj2 (proj2 H)))|].
  exact (proj2 (proj2 (proj2 (proj2 (proj2 (proj2 H)))))).
Defined.

(** With one stale bit in the upper half of the accumulator register,
    [mzd_addmul_v_avx_128] leaves [[197; 442]] where the scalar, SSE2 and
    NEON code leave [[196; 442]]. *)
Example mzd_addmul_v_avx_128_differs :
  mem (mzd_addmul_v_uint64 Examples.acc128 Examples.vec128 Examples.mat128)
  = [196; 442] /\
  mem (mzd_addmul_v_sse_128 Examples.acc128 Examples.vec128 Examples.mat128)
  = [196; 442] /\
  mem (mzd_addmul_v_neon_128 Examples.acc128 Examples.vec128 Examples.mat128)
  = [196; 442] /\
  mem (mzd_addmul_v_avx_128 Examples.stale_upper_half
         Examples.acc128 Examples.vec128 Examples.mat128)
  = [197; 442] /\
  mzd_addmul_v_avx_128 Examples.stale_upper_half
    Examples.acc128 Examples.vec128 Examples.mat128
  <> mzd_addmul_v_uint64 Examples.acc128 Examples.vec128 Examples.mat128.
Proof.
  repeat split; try (vm_compute; reflexivity).
  vm_compute. discriminate.
Qed.

End SimdFacts.

(* ================================================================== *)
(** * BinMat: allocation, copy, comparison, XOR *)
(* ================================================================== *)

Module BinMatMoreFacts.

Import BinMat Simd BinMatFacts SimdFacts.

(** ** Layout *)

Lemma round_up_spec x k :
  (0 < k)%nat ->
  (x <= round_up x k < x + k)%nat /\ (round_up x k mod k = 0)%nat.
Proof.
  intros Hk. unfold round_up.
  pose proof (Nat.div_mod_eq (x + (k - 1)) k) as E.
  pose proof (Nat.mod_upper_bound (x + (k - 1)) k) as B.
  split; [nia|]. apply Nat.Div0.mod_mul.
Qed.

(** The layout [mzd_local_init_ex] gives a matrix of [r] rows and [c]
    columns, with [c + 63] and [r * rowstride] within 32 bits (the source
    computes both in [uint32_t]): [width] is the number of 64-bit words
    that hold [c] bits; [rowstride] is [width] rounded up to a multiple of
    2 words (16 bytes) for widths up to 2 and to a multiple of 4 words (32
    bytes) above; the storage has [r * rowstride] words, which are the
    [buffer_size] bytes the source allocates, all zero when [clear] is
    set. *)
Theorem mzd_local_init_ex_layout (junk : list word) (r c : nat) (clear : bool) :
  Z.of_nat c + 63 < 2 ^ 32 ->
  Z.of_nat r * Z.of_nat (calculate_rowstride (calculate_width c)) < 2 ^ 32 ->
  let M := mzd_local_init_ex junk r c clear in
  nrows M = r /\ ncols M = c /\
  (c <= 64 * width M < c + 64)%nat /\
  (width M <= rowstride M)%nat /\
  (width M <= 2 -> rowstride M < width M + 2 /\ rowstride M mod 2 = 0)%nat /\
  (2 < width M -> rowstride M < width M + 4 /\ rowstride M mod 4 = 0)%nat /\
  length (mem M) = (r * rowstride M)%nat /\
  Z.of_nat (length (mem M)) * Z.of_nat sizeof_word
    = buffer_size r (rowstride M) /\
  (clear = true -> forall i, rd (mem M) i = 0) /\
  (clear = true -> allocated M).
Proof.
  intros Hc Hsz M.
  assert (Hw : (c <= 64 * width M < c + 64)%nat).
  { unfold M, mzd_local_init_ex, calculate_width, sizeof_word. cbn [width].
    change (8 * 8)%nat with 64%nat.
    pose proof (Nat.div_mod_eq (c + 64 - 1) 64) as E.
    pose proof (Nat.mod_upper_bound (c + 64 - 1) 64) as B. lia. }
  assert (Hrs : rowstride M = calculate_rowstride (width M)) by reflexivity.
  assert (Hlow : (width M <= 2 ->
                  rowstride M < width M + 2 /\ rowstride M mod 2 = 0 /\
                  width M <= rowstride M)%nat).
  { intros H2. rewrite Hrs. unfold calculate_rowstride, align_bound, sizeof_word.
    change (128 / (8 * 8))%nat with 2%nat.
    destruct (Nat.ltb_spec 2 (width M)) as [H | _]; [lia|].
    destruct (round_up_spec (width M * 8) 16) as [[R1 R2] R3]; [lia|].
    assert (E : exists q, round_up (width M * 8) 16 = (q * 16)%nat).
    { exists (round_up (width M * 8) 16 / 16)%nat.
      pose proof (Nat.div_mod_eq (round_up (width M * 8) 16) 16). lia. }
    destruct E as [q E]. rewrite E in *.
    replace (q * 16 / 8)%nat with (q * 2)%nat
      by (replace (q * 16)%nat with (q * 2 * 8)%nat by lia;
          now rewrite Nat.div_mul).
    rewrite Nat.Div0.mod_mul. lia. }
  assert (Hhigh : (2 < width M ->
                   rowstride M < width M + 4 /\ rowstride M mod 4 = 0 /\
                   width M <= rowstride M)%nat).
  { intros H2. rewrite Hrs. unfold calculate_rowstride, align_bound, sizeof_word.
    change (128 / (8 * 8))%nat with 2%nat.
    destruct (Nat.ltb_spec 2 (width M)) as [_ | H]; [|lia].
    destruct (round_up_spec (width M * 8) 32) as [[R1 R2] R3]; [lia|].
    assert (E : exists q, round_up (width M * 8) 32 = (q * 32)%nat).
    { exists (round_up (width M * 8) 32 / 32)%nat.
      pose proof (Nat.div_mod_eq (round_up (width M * 8) 32) 32). lia. }
    destruct E as [q E]. rewrite E in *.
    replace (q * 32 / 8)%nat with (q * 4)%nat
      by (replace (q * 32)%nat with (q * 4 * 8)%nat by lia;
          now rewrite Nat.div_mul).
    rewrite Nat.Div0.mod_mul. lia. }
  assert (Hle : (width M <= rowstride M)%nat).
  { destruct (Nat.le_gt_cases (width M) 2) as [H | H];
      [apply Hlow in H | apply Hhigh in H]; lia. }
  assert (Hlen : length (mem M) = (r * rowstride M)%nat).
  { unfold M, mzd_local_init_ex. cbn [mem rowstride width].
    destruct clear; [apply repeat_length|].
    rewrite length_firstn, length_app, repeat_length. lia. }
  split; [reflexivity|]. split; [reflexivity|]. split; [exact Hw|].
  split; [exact Hle|].
  split; [intros H; apply Hlow in H; lia|].
  split; [intros H; apply Hhigh in H; lia|].
  split; [exact Hlen|].
  split.
  { rewrite Hlen, Hrs. unfold buffer_size. rewrite Nat2Z.inj_mul.
    change (width M) with (calculate_width c).
    rewrite Z.mod_small; [reflexivity|]. split; [lia|exact Hsz]. }
  split.
  - intros ->. intros i. unfold M, mzd_local_init_ex. cbn [mem].
    unfold rd, rd_gen. apply nth_repeat.
  - intros ->. split; [split|reflexivity|reflexivity].
    + exact Hlen.
    + exact Hle.
    + unfold M, mzd_local_init_ex. cbn [mem]. unfold words_ok.
      apply Forall_forall. intros x Hx. apply repeat_spec in Hx. subst x.
      apply in_range_0.
Qed.

Lemma mzd_local_init_ex_size_192 :
  Z.of_nat 192 * Z.of_nat (calculate_rowstride (calculate_width 192)) < 2 ^ 32.
Proof. vm_compute. reflexivity. Qed.

Lemma mzd_local_init_ex_layout_witness :
  width (mzd_local_init_ex [] 192 192 true) = 3%nat /\
  rowstride (mzd_local_init_ex [] 192 192 true) = 4%nat /\
  (192 <= 64 * width (mzd_local_init_ex [] 192 192 true) < 192 + 64)%nat.
Proof.
  split; [reflexivity|]. split; [reflexivity|].
  exact (proj1 (proj2 (proj2
           (mzd_local_init_ex_layout [] 192 192 true
              (proj1 (Z.ltb_lt (Z.of_nat 192 + 63) (2 ^ 32)) eq_refl)
              mzd_local_init_ex_size_192)))).
Defined.

(** ** Copy and comparison *)

Lemma words_differ_spec n : forall a b pa pb,
  words_differ n a b pa pb = false <->
  forall j, (j < n)%nat -> rd a (pa + j) = rd b (pb + j).
Proof.
  induction n as [|n IH]; intros a b pa pb; cbn [words_differ].
  - split; [intros _ j Hj; lia | reflexivity].
  - destruct (Z.eqb_spec (rd a pa) (rd b pb)) as [E | E].
    + rewrite IH. split.
      * intros H j Hj. destruct j as [|j].
        -- now rewrite !Nat.add_0_r.
        -- rewrite <- !Nat.add_succ_comm. apply H. lia.
      * intros H j Hj. rewrite !Nat.add_succ_comm. apply H. lia.
    + split; [discriminate|]. intros H. exfalso. apply E.
      specialize (H O). rewrite !Nat.add_0_r in H. apply H. lia.
Qed.

Lemma equal_rows_spec first second n : forall r,
  equal_rows n r first second = true <->
  forall r' j, (r <= r' < r + n)%nat -> (j < width first)%nat ->
    row_word first r' j = row_word second r' j.
Proof.
  induction n as [|n IH]; intros r; cbn [equal_rows].
  - split; [intros _ r' j Hr; lia | reflexivity].
  - destruct (words_differ (width first) (mem first) (mem second)
                (ROW first r) (ROW second r)) eqn:E.
    + split; [discriminate|]. intros H.
      assert (F : words_differ (width first) (mem first) (mem second)
                    (ROW first r) (ROW second r) = false).
      { apply words_differ_spec. intros j Hj. apply (H r j); [lia | exact Hj]. }
      congruence.
    + rewrite IH.
      pose proof (proj1 (words_differ_spec _ _ _ _ _) E) as E'. split.
      * intros H r' j Hr Hj.
        destruct (Nat.eq_dec r' r) as [-> | Hne]; [apply E'; exact Hj|].
        apply H; [lia | exact Hj].
      * intros H r' j Hr Hj. apply H; [lia | exact Hj].
Qed.

Lemma mzd_local_equal_rows (a b : mzd_local_t) :
  mzd_local_equal false a b = true <->
  ncols a = ncols b /\ nrows a = nrows b /\
  forall r j, (r < nrows a)%nat -> (j < width a)%nat ->
    row_word a r j = row_word b r j.
Proof.
  unfold mzd_local_equal.
  destruct (Nat.eqb_spec (ncols a) (ncols b)) as [Ec | Ec]; cbn [negb orb].
  - destruct (Nat.eqb_spec (nrows a) (nrows b)) as [Er | Er]; cbn [negb].
    + rewrite equal_rows_spec. split.
      * intros H. split; [exact Ec|]. split; [exact Er|].
        intros r j Hr Hj. apply H; [lia | exact Hj].
      * intros (_ & _ & H) r j Hr Hj. apply H; [lia | exact Hj].
    + split; [discriminate | intros (_ & E & _); contradiction].
  - split; [discriminate | intros (E & _); contradiction].
Qed.

(** [mzd_local_equal] on two different objects answers true exactly
    when they have the same numbers of rows and columns and agree on the
    first [width] words of every row; padding words and the other header
    fields are not looked at.  On one and the same object it answers true
    at once. *)
Theorem mzd_local_equal_decides (first second : mzd_local_t) :
  (mzd_local_equal false first second = true <->
   ncols first = ncols second /\ nrows first = nrows second /\
   forall r j, (r < nrows first)%nat -> (j < width first)%nat ->
     row_word first r j = row_word second r j) /\
  mzd_local_equal true first second = true /\
  mzd_local_equal false first first = true.
Proof.
  split; [apply mzd_local_equal_rows|]. split; [reflexivity|].
  apply mzd_local_equal_rows. split; [reflexivity|]. split; reflexivity.
Qed.

(** [mzd_local_copy] overwrites the first [nrows * rowstride] words of
    [dst] with those of [src], padding included, and leaves the rest of
    [dst] and its header alone; when the two have the same shape,
    [mzd_local_equal] then finds them equal. *)
Theorem mzd_local_copy_then_equal (dst src : mzd_local_t) :
  (nrows src * rowstride src <= length (mem src))%nat ->
  (nrows src * rowstride src <= length (mem dst))%nat ->
  let d := mzd_local_copy dst src in
  length (mem d) = length (mem dst) /\
  (forall i, (i < nrows src * rowstride src)%nat ->
     rd (mem d) i = rd (mem src) i) /\
  (forall i, (nrows src * rowstride src <= i)%nat ->
     rd (mem d) i = rd (mem dst) i) /\
  nrows d = nrows dst /\ ncols d = ncols dst /\ width d = width dst /\
  rowstride d = rowstride dst /\
  (nrows dst = nrows src -> ncols dst = ncols src -> width dst = width src ->
   rowstride dst = rowstride src -> (width src <= rowstride src)%nat ->
   mzd_local_equal false d src = true).
Proof.
  intros Hs Hd d.
  set (n := (nrows src * rowstride src)%nat) in *.
  assert (Hlen : length (mem d) = length (mem dst)).
  { unfold d, mzd_local_copy. cbn [mem set_mem]. fold n.
    rewrite length_app, length_firstn, length_skipn. lia. }
  assert (Hlow : forall i, (i < n)%nat -> rd (mem d) i = rd (mem src) i).
  { intros i Hi. unfold d, mzd_local_copy. cbn [mem set_mem]. fold n.
    unfold rd, rd_gen. rewrite app_nth1 by (rewrite length_firstn; lia).
    rewrite <- (firstn_skipn n (mem src)) at 2.
    rewrite app_nth1 by (rewrite length_firstn; lia). reflexivity. }
  split; [exact Hlen|]. split; [exact Hlow|]. split.
  - intros i Hi. unfold d, mzd_local_copy. cbn [mem set_mem]. fold n.
    unfold rd, rd_gen. rewrite app_nth2 by (rewrite length_firstn; lia).
    rewrite length_firstn, Nat.min_l by lia.
    rewrite <- (firstn_skipn n (mem dst)) at 2.
    rewrite app_nth2 by (rewrite length_firstn; lia).
    rewrite length_firstn, Nat.min_l by lia. reflexivity.
  - split; [reflexivity|]. split; [reflexivity|]. split; [reflexivity|].
    split; [reflexivity|].
    intros Er Ec Ew Es Hw.
    apply (proj2 (mzd_local_equal_rows d src)).
    split; [exact Ec|]. split; [exact Er|].
    intros r j Hr Hj. unfold row_word, ROW.
    change (rowstride d) with (rowstride dst). rewrite Es.
    apply Hlow. change (nrows d) with (nrows dst) in Hr.
    change (width d) with (width dst) in Hj. unfold n. nia.
Qed.

Lemma mzd_local_copy_then_equal_witness :
  mem (mzd_local_copy Examples.blank192 Examples.pad192)
  = [1; 2; 3; 77; 4; 5; 6; 88; 9] /\
  (nrows Examples.blank192 = nrows Examples.pad192 ->
   ncols Examples.blank192 = ncols Examples.pad192 ->
   width Examples.blank192 = width Examples.pad192 ->
   rowstride Examples.blank192 = rowstride Examples.pad192 ->
   (width Examples.pad192 <= rowstride Examples.pad192)%nat ->
   mzd_local_equal false
     (mzd_local_copy Examples.blank192 Examples.pad192) Examples.pad192
   = true).
Proof.
  split; [reflexivity|].
  exact (proj2 (proj2 (proj2 (proj2 (proj2 (proj2 (proj2
           (mzd_local_copy_then_equal Examples.blank192 Examples.pad192
              (proj1 (Nat.leb_le 8 8) eq_refl)
              (proj1 (Nat.leb_le 8 9) eq_refl))))))))).
Defined.

(** ** Scalar XOR *)

Lemma xor_uint64_loop_spec first second n : forall i res,
  (i + n <= length res)%nat ->
  length (xor_uint64_loop n i res first second) = length res /\
  forall j, rd (xor_uint64_loop n i res first second) j
            = if ((i <=? j) && (j <? i + n))%nat
              then Z.lxor (rd first j) (rd second j)
              else rd res j.
Proof.
  induction n as [|n IH]; intros i res Hn; cbn [xor_uint64_loop].
  - split; [reflexivity|]. intros j.
    destruct (Nat.leb_spec i j); destruct (Nat.ltb_spec j (i + 0));
      cbn [andb]; try reflexivity; lia.
  - destruct (IH (S i) (upd res i (Z.lxor (rd first i) (rd second i))))
      as [L R]; [rewrite upd_length; lia|].
    rewrite upd_length in L. split; [exact L|].
    intros j. rewrite R.
    destruct (Nat.leb_spec (S i) j); destruct (Nat.ltb_spec j (S i + n));
      destruct (Nat.leb_spec i j); destruct (Nat.ltb_spec j (i + S n));
      cbn [andb]; try lia; try reflexivity;
      first [ assert (j = i) by lia; subst j; apply (rd_upd_eq Z 0); lia
            | apply (rd_upd_neq Z 0); lia ].
Qed.

(** [mzd_xor_uint64] writes [first[j] ^ second[j]] to the first
    [first->width] words of [res] and nothing else; used in place,
    XORing the same operand in twice gives the matrix back. *)
Theorem mzd_xor_uint64_words (res first second : mzd_local_t) :
  (width first <= length (mem res))%nat ->
  let r := mzd_xor_uint64 res first second in
  length (mem r) = length (mem res) /\
  (forall j, (j < width first)%nat ->
     rd (mem r) j = Z.lxor (rd (mem first) j) (rd (mem second) j)) /\
  (forall j, (width first <= j)%nat -> rd (mem r) j = rd (mem res) j) /\
  (width first <= length (mem first) ->
   let once := mzd_xor_uint64 first first second in
   mzd_xor_uint64 once once second = first)%nat.
Proof.
  intros Hw r.
  destruct (xor_uint64_loop_spec (mem first) (mem second) (width first) 0
              (mem res) Hw) as [L R].
  split; [exact L|]. split; [|split].
  - intros j Hj. unfold r, mzd_xor_uint64. cbn [mem set_mem]. rewrite R.
    cbn [Nat.leb Nat.add andb]. apply Nat.ltb_lt in Hj. now rewrite Hj.
  - intros j Hj. unfold r, mzd_xor_uint64. cbn [mem set_mem]. rewrite R.
    cbn [Nat.leb Nat.add andb]. apply Nat.ltb_ge in Hj. now rewrite Hj.
  - intros Hf once.
    destruct (xor_uint64_loop_spec (mem first) (mem second) (width first) 0
                (mem first) Hf) as [L1 R1].
    assert (Ho : mem once = xor_uint64_loop (width first) 0 (mem first)
                              (mem first) (mem second)) by reflexivity.
    destruct (xor_uint64_loop_spec (mem once) (mem second) (width first) 0
                (mem once)) as [L2 R2]; [rewrite Ho, L1; exact Hf|].
    apply mzd_same; try reflexivity.
    unfold mzd_xor_uint64. cbn [mem set_mem].
    change (width once) with (width first).
    apply (rd_ext Z 0); [rewrite L2, Ho, L1; reflexivity|].
    intros j _. fold (rd (xor_uint64_loop (width first) 0 (mem once)
                            (mem once) (mem second)) j).
    fold (rd (mem first) j). rewrite R2, Ho, R1.
    destruct ((0 <=? j) && (j <? 0 + width first))%nat; [|reflexivity].
    rewrite Z.lxor_assoc, Z.lxor_nilpotent, Z.lxor_0_r. reflexivity.
Qed.

Lemma mzd_xor_uint64_words_witness :
  mem (mzd_xor_uint64 Examples.blank192 Examples.pad192 Examples.c192)
  = [0; 3; 2; 9; 9; 9; 9; 9; 9] /\
  (forall j, (width Examples.pad192 <= j)%nat ->
     rd (mem (mzd_xor_uint64 Examples.blank192 Examples.pad192 Examples.c192)) j
     = rd (mem Examples.blank192) j).
Proof.
  split; [reflexivity|].
  exact (proj1 (proj2 (proj2
           (mzd_xor_uint64_words Examples.blank192 Examples.pad192
              Examples.c192 (proj1 (Nat.leb_le 3 9) eq_refl))))).
Defined.

(** ** Multiplies by the top bits *)

(** [mzd_addmul_v_uint64_30] XORs into the first [v->width] words of [c]
    the rows [i < 30] of [A] whose bit [34 + i] is set in the last word
    of [v]; [mzd_addmul_v_uint64_3] does the same with the rows [i < 3]
    and the bits [61 + i].  Nothing else of [c] changes. *)
Theorem mzd_addmul_v_uint64_top_bits (c v A : mzd_local_t) :
  (1 <= width v)%nat -> (width v <= length (mem c))%nat ->
  words_ok (mem A) ->
  let last := rd (mem v) (width v - 1) in
  let c30 := mzd_addmul_v_uint64_30 c v A in
  let c3 := mzd_addmul_v_uint64_3 c v A in
  (forall j, (j < width v)%nat ->
     rd (mem c30) j
     = Z.lxor (rd (mem c) j)
         (bigxor 30 (fun i => sel (Z.testbit last (34 + Z.of_nat i))
                                  (row_word A i j)))) /\
  (forall j, (j < width v)%nat ->
     rd (mem c3) j
     = Z.lxor (rd (mem c) j)
         (bigxor 3 (fun i => sel (Z.testbit last (61 + Z.of_nat i))
                                 (row_word A i j)))) /\
  (forall j, (width v <= j)%nat ->
     rd (mem c30) j = rd (mem c) j /\ rd (mem c3) j = rd (mem c) j) /\
  length (mem c30) = length (mem c) /\ length (mem c3) = length (mem c).
Proof.
  intros Hv Hc HA last c30 c3.
  destruct (addmul_v_bits_spec 30 (width v) (rowstride A) (mem A)
              (shr (rd (mem v) (FIRST_ROW v + (width v - 1))) 34)
              (FIRST_ROW A) (mem c) Hc HA) as (_ & L30 & R30).
  destruct (addmul_v_bits_spec 3 (width v) (rowstride A) (mem A)
              (shr (rd (mem v) (FIRST_ROW v + (width v - 1))) 61)
              (FIRST_ROW A) (mem c) Hc HA) as (_ & L3 & R3).
  split; [|split; [|split; [|split; [exact L30 | exact L3]]]].
  - intros j Hj. unfold c30, mzd_addmul_v_uint64_30. cbn [mem set_mem].
    rewrite R30. apply Nat.ltb_lt in Hj. rewrite Hj. f_equal.
    apply bigxor_ext. intros i _. rewrite shr_testbit by lia.
    unfold row_word, ROW, FIRST_ROW, last. cbn [Nat.add].
    do 2 f_equal. lia.
  - intros j Hj. unfold c3, mzd_addmul_v_uint64_3. cbn [mem set_mem].
    rewrite R3. apply Nat.ltb_lt in Hj. rewrite Hj. f_equal.
    apply bigxor_ext. intros i _. rewrite shr_testbit by lia.
    unfold row_word, ROW, FIRST_ROW, last. cbn [Nat.add].
    do 2 f_equal. lia.
  - intros j Hj. apply Nat.ltb_ge in Hj.
    unfold c30, mzd_addmul_v_uint64_30, c3, mzd_addmul_v_uint64_3.
    cbn [mem set_mem]. rewrite R30, R3, Hj. split; reflexivity.
Qed.

Lemma A30_192_words : words_ok (mem Examples.A30_192).
Proof. apply words_okb_spec. vm_compute. reflexivity. Qed.

Lemma mzd_addmul_v_uint64_top_bits_witness :
  mem (mzd_addmul_v_uint64_30 Examples.c192 Examples.v192_top Examples.A30_192)
  = [29; 63; 6; 1] /\
  mem (mzd_addmul_v_uint64_3 Examples.c192 Examples.v192_top Examples.A30_192)
  = [2; 5; 6; 1] /\
  forall j, (width Examples.v192_top <= j)%nat ->
    rd (mem (mzd_addmul_v_uint64_30 Examples.c192 Examples.v192_top
               Examples.A30_192)) j
    = rd (mem Examples.c192) j /\
    rd (mem (mzd_addmul_v_uint64_3 Examples.c192 Examples.v192_top
               Examples.A30_192)) j
    = rd (mem Examples.c192) j.
Proof.
  split; [vm_compute; reflexivity|]. split; [vm_compute; reflexivity|].
  exact (proj1 (proj2 (proj2
           (mzd_addmul_v_uint64_top_bits Examples.c192 Examples.v192_top
              Examples.A30_192 (proj1 (Nat.leb_le 1 3) eq_refl)
              (proj1 (Nat.leb_le 3 4) eq_refl) A30_192_words)))).
Defined.

End BinMatMoreFacts.

(* ================================================================== *)
(** * The vector backends: whole-row XOR, top-bit multiplies, 192 and
      256 bits *)
(* ================================================================== *)

Module SimdMoreFacts.

Import BinMat Simd BinMatFacts SimdFacts BinMatMoreFacts.

(** ** Whole-row XOR *)

Lemma store128_spec (mem : list word) (k : nat) (x : m128) :
  (2 * k + 1 < length mem)%nat ->
  length (store128 mem 0 k x) = length mem /\
  forall j, rd (store128 mem 0 k x) j
            = if (j =? 2 * k)%nat then lane0 x
              else if (j =? 2 * k + 1)%nat then lane1 x
              else rd mem j.
Proof.
  intros Hk. unfold store128. cbn [Nat.add].
  split; [now rewrite !upd_length|].
  intros j.
  destruct (Nat.eqb_spec j (2 * k)) as [-> | H0].
  - unfold rd. rewrite (rd_upd_neq Z 0) by lia. apply (rd_upd_eq Z 0). lia.
  - destruct (Nat.eqb_spec j (2 * k + 1)) as [-> | H1].
    + apply (rd_upd_eq Z 0). rewrite upd_length. lia.
    + unfold rd. rewrite !(rd_upd_neq Z 0) by lia. reflexivity.
Qed.

Lemma store256_spec (mem : list word) (k : nat) (x : m256) :
  (4 * k + 3 < length mem)%nat ->
  length (store256 mem 0 k x) = length mem /\
  forall j, rd (store256 mem 0 k x) j
            = if ((4 * k <=? j) && (j <? 4 * k + 4))%nat
              then lane256 (j - 4 * k) x
              else rd mem j.
Proof.
  intros Hk. unfold store256.
  destruct (store128_spec mem (2 * k) (low128 x)) as [L1 R1]; [lia|].
  destruct (store128_spec (store128 mem 0 (2 * k) (low128 x)) (2 * k + 1)
              (high128 x)) as [L2 R2]; [lia|].
  split; [congruence|]. intros j. rewrite R2, R1.
  destruct (Nat.leb_spec (4 * k) j); destruct (Nat.ltb_spec j (4 * k + 4));
    cbn [andb].
  - assert (E : (j - 4 * k = 0 \/ j - 4 * k = 1 \/ j - 4 * k = 2 \/
                 j - 4 * k = 3)%nat) by lia.
    destruct E as [E | [E | [E | E]]]; rewrite E; cbn [lane256].
    + replace (j =? 2 * (2 * k + 1))%nat with false
        by (symmetry; apply Nat.eqb_neq; lia).
      replace (j =? 2 * (2 * k + 1) + 1)%nat with false
        by (symmetry; apply Nat.eqb_neq; lia).
      replace (j =? 2 * (2 * k))%nat with true
        by (symmetry; apply Nat.eqb_eq; lia).
      reflexivity.
    + replace (j =? 2 * (2 * k + 1))%nat with false
        by (symmetry; apply Nat.eqb_neq; lia).
      replace (j =? 2 * (2 * k + 1) + 1)%nat with false
        by (symmetry; apply Nat.eqb_neq; lia).
      replace (j =? 2 * (2 * k))%nat with false
        by (symmetry; apply Nat.eqb_neq; lia).
      replace (j =? 2 * (2 * k) + 1)%nat with true
        by (symmetry; apply Nat.eqb_eq; lia).
      reflexivity.
    + replace (j =? 2 * (2 * k + 1))%nat with true
        by (symmetry; apply Nat.eqb_eq; lia).
      reflexivity.
    + replace (j =? 2 * (2 * k + 1))%nat with false
        by (symmetry; apply Nat.eqb_neq; lia).
      replace (j =? 2 * (2 * k + 1) + 1)%nat with true
        by (symmetry; apply Nat.eqb_eq; lia).
      reflexivity.
  - replace (j =? 2 * (2 * k + 1))%nat with false
      by (symmetry; apply Nat.eqb_neq; lia).
    replace (j =? 2 * (2 * k + 1) + 1)%nat with false
      by (symmetry; apply Nat.eqb_neq; lia).
    replace (j =? 2 * (2 * k))%nat with false
      by (symmetry; apply Nat.eqb_neq; lia).
    replace (j =? 2 * (2 * k) + 1)%nat with false
      by (symmetry; apply Nat.eqb_neq; lia).
    reflexivity.
  - replace (j =? 2 * (2 * k + 1))%nat with false
      by (symmetry; apply Nat.eqb_neq; lia).
    replace (j =? 2 * (2 * k + 1) + 1)%nat with false
      by (symmetry; apply Nat.eqb_neq; lia).
    replace (j =? 2 * (2 * k))%nat with false
      by (symmetry; apply Nat.eqb_neq; lia).
    replace (j =? 2 * (2 * k) + 1)%nat with false
      by (symmetry; apply Nat.eqb_neq; lia).
    reflexivity.
  - lia.
Qed.

Lemma lane256_load256 mem k j :
  (j < 4)%nat -> lane256 j (load256 mem 0 k) = rd mem (4 * k + j).
Proof.
  intros Hj. unfold load256, load128.
  destruct j as [|[|[|[|j]]]]; [| | | |lia];
    cbn [lane256 low128 high128 lane0 lane1 Nat.add]; f_equal; lia.
Qed.

Lemma lane256_xor a b j :
  lane256 j (_mm256_xor_si256 a b) = Z.lxor (lane256 j a) (lane256 j b).
Proof.
  destruct j as [|[|[|j]]]; reflexivity.
Qed.

Section Backend128XorFacts.

Context {backend : Simd128}.

Lemma xor_128_loop_spec first second n : forall fuel k res,
  (1 <= n)%nat -> Z.of_nat (2 * n) < 2 ^ 32 ->
  (2 * (k + n) <= length res)%nat -> (n <= fuel)%nat ->
  exists res',
    xor_128_loop fuel (Z.of_nat (2 * n)) k res first second 0 0 0 = Some res' /\
    length res' = length res /\
    forall j, rd res' j
              = if ((2 * k <=? j) && (j <? 2 * (k + n)))%nat
                then Z.lxor (rd first j) (rd second j)
                else rd res j.
Proof.
  induction n as [|n IH]; intros fuel k res Hn Hw Hl Hf; [lia|].
  destruct fuel as [|fuel]; [lia|]. cbn [xor_128_loop].
  set (res1 := store128 res 0 k
                 (vxor (load128 first 0 k) (load128 second 0 k))).
  destruct (store128_spec res k
              (vxor (load128 first 0 k) (load128 second 0 k))) as [L1 R1];
    [lia|]. fold res1 in L1, R1.
  assert (Hx : forall j,
             rd res1 j
             = if ((2 * k <=? j) && (j <? 2 * (k + 1)))%nat
               then Z.lxor (rd first j) (rd second j)
               else rd res j).
  { intros j. rewrite R1, vxor_lanes. unfold load128, lanewise.
    cbn [lane0 lane1 Nat.add].
    destruct (Nat.eqb_spec j (2 * k)) as [-> | H0].
    - replace ((2 * k <=? 2 * k) && (2 * k <? 2 * (k + 1)))%nat with true;
        [reflexivity|].
      symmetry. apply andb_true_iff. split;
        [apply Nat.leb_le | apply Nat.ltb_lt]; lia.
    - destruct (Nat.eqb_spec j (2 * k + 1)) as [-> | H1].
      + replace ((2 * k <=? 2 * k + 1) && (2 * k + 1 <? 2 * (k + 1)))%nat
          with true; [reflexivity|].
        symmetry. apply andb_true_iff. split;
          [apply Nat.leb_le | apply Nat.ltb_lt]; lia.
      + destruct (Nat.leb_spec (2 * k) j);
          destruct (Nat.ltb_spec j (2 * (k + 1))); cbn [andb];
          try reflexivity; lia. }
  replace ((Z.of_nat (2 * S n) - 2) mod 2 ^ 32) with (Z.of_nat (2 * n))
    by (rewrite Z.mod_small; lia).
  destruct n as [|n].
  - change (Z.of_nat (2 * 0) =? 0) with true. cbv iota.
    exists res1. split; [reflexivity|]. split; [exact L1|]. exact Hx.
  - replace (Z.of_nat (2 * S n) =? 0) with false
      by (symmetry; apply Z.eqb_neq; lia).
    destruct (IH fuel (S k) res1) as (res' & E & L & R);
      [lia | lia | rewrite L1; lia | lia |].
    exists res'. split; [exact E|]. split; [congruence|].
    intros j. rewrite R, Hx.
    destruct (Nat.leb_spec (2 * S k) j);
      destruct (Nat.ltb_spec j (2 * (S k + S n)));
      destruct (Nat.leb_spec (2 * k) j);
      destruct (Nat.ltb_spec j (2 * (k + 1)));
      destruct (Nat.ltb_spec j (2 * (k + S (S n))));
      cbn [andb]; try reflexivity; lia.
Qed.

Lemma xor_128_loop_odd first second : forall fuel width k res,
  0 <= width < 2 ^ 32 -> width mod 2 = 1 ->
  xor_128_loop fuel width k res first second 0 0 0 = None.
Proof.
  induction fuel as [|fuel IH]; intros width k res Hw Ho; [reflexivity|].
  cbn [xor_128_loop].
  assert (Hm : ((width - 2) mod 2 ^ 32) mod 2 = 1).
  { rewrite Z.mod_mod_divide by (exists (2 ^ 31); reflexivity).
    rewrite Zminus_mod, Ho. reflexivity. }
  destruct (Z.eqb_spec ((width - 2) mod 2 ^ 32) 0) as [E | E].
  - rewrite E in Hm. discriminate.
  - apply IH; [apply Z.mod_pos_bound; lia | exact Hm].
Qed.

End Backend128XorFacts.

Lemma xor_256_loop_spec first second n : forall fuel k res,
  (1 <= n)%nat -> Z.of_nat (4 * n) < 2 ^ 32 ->
  (4 * (k + n) <= length res)%nat -> (n <= fuel)%nat ->
  exists res',
    xor_256_loop fuel (Z.of_nat (4 * n)) k res first second 0 0 0 = Some res' /\
    length res' = length res /\
    forall j, rd res' j
              = if ((4 * k <=? j) && (j <? 4 * (k + n)))%nat
                then Z.lxor (rd first j) (rd second j)
                else rd res j.
Proof.
  induction n as [|n IH]; intros fuel k res Hn Hw Hl Hf; [lia|].
  destruct fuel as [|fuel]; [lia|]. cbn [xor_256_loop].
  set (res1 := store256 res 0 k
                 (_mm256_xor_si256 (load256 first 0 k) (load256 second 0 k))).
  destruct (store256_spec res k
              (_mm256_xor_si256 (load256 first 0 k) (load256 second 0 k)))
    as [L1 R1]; [lia|]. fold res1 in L1, R1.
  assert (Hx : forall j,
             rd res1 j
             = if ((4 * k <=? j) && (j <? 4 * (k + 1)))%nat
               then Z.lxor (rd first j) (rd second j)
               else rd res j).
  { intros j. rewrite R1.
    replace (4 * (k + 1))%nat with (4 * k + 4)%nat by lia.
    destruct (Nat.leb_spec (4 * k) j); destruct (Nat.ltb_spec j (4 * k + 4));
      cbn [andb]; try reflexivity.
    rewrite lane256_xor, !lane256_load256 by lia.
    replace (4 * k + (j - 4 * k))%nat with j by lia. reflexivity. }
  replace ((Z.of_nat (4 * S n) - 4) mod 2 ^ 32) with (Z.of_nat (4 * n))
    by (rewrite Z.mod_small; lia).
  destruct n as [|n].
  - change (Z.of_nat (4 * 0) =? 0) with true. cbv iota.
    exists res1. split; [reflexivity|]. split; [exact L1|]. exact Hx.
  - replace (Z.of_nat (4 * S n) =? 0) with false
      by (symmetry; apply Z.eqb_neq; lia).
    destruct (IH fuel (S k) res1) as (res' & E & L & R);
      [lia | lia | rewrite L1; lia | lia |].
    exists res'. split; [exact E|]. split; [congruence|].
    intros j. rewrite R, Hx.
    destruct (Nat.leb_spec (4 * S k) j);
      destruct (Nat.ltb_spec j (4 * (S k + S n)));
      destruct (Nat.leb_spec (4 * k) j);
      destruct (Nat.ltb_spec j (4 * (k + 1)));
      destruct (Nat.ltb_spec j (4 * (k + S (S n))));
      cbn [andb]; try reflexivity; lia.
Qed.

Lemma xor_256_loop_misaligned first second : forall fuel width k res,
  0 <= width < 2 ^ 32 -> width mod 4 <> 0 ->
  xor_256_loop fuel width k res first second 0 0 0 = None.
Proof.
  induction fuel as [|fuel IH]; intros width k res Hw Ho; [reflexivity|].
  cbn [xor_256_loop].
  assert (Hm : ((width - 4) mod 2 ^ 32) mod 4 <> 0).
  { rewrite Z.mod_mod_divide by (exists (2 ^ 30); reflexivity).
    rewrite Zminus_mod. change (4 mod 4) with 0. rewrite Z.sub_0_r.
    rewrite Z.mod_mod by lia. exact Ho. }
  destruct (Z.eqb_spec ((width - 4) mod 2 ^ 32) 0) as [E | E].
  - rewrite E in Hm. exfalso. apply Hm. reflexivity.
  - apply IH; [apply Z.mod_pos_bound; lia | exact Hm].
Qed.

Lemma mzd_xor_uint64_rd (res first second : mzd_local_t) j :
  (width first <= length (mem res))%nat ->
  rd (mem (mzd_xor_uint64 res first second)) j
  = if (j <? width first)%nat
    then Z.lxor (rd (mem first) j) (rd (mem second) j)
    else rd (mem res) j.
Proof.
  intros Hw. unfold mzd_xor_uint64. cbn [mem set_mem].
  destruct (xor_uint64_loop_spec (mem first) (mem second) (width first) 0
              (mem res) Hw) as [_ R].
  rewrite R. reflexivity.
Qed.

Lemma mzd_xor_uint64_length (res first second : mzd_local_t) :
  (width first <= length (mem res))%nat ->
  length (mem (mzd_xor_uint64 res first second)) = length (mem res).
Proof.
  intros Hw. unfold mzd_xor_uint64. cbn [mem set_mem].
  apply (xor_uint64_loop_spec (mem first) (mem second) (width first) 0
           (mem res) Hw).
Qed.

Section Backend128XorRows.

Context {backend : Simd128}.

Lemma mzd_xor_by_128_rows (fuel : nat) (res first second : mzd_local_t)
      (n : nat) :
  rowstride first = (2 * n)%nat -> (1 <= n)%nat ->
  Z.of_nat (rowstride first) < 2 ^ 32 ->
  (rowstride first <= length (mem res))%nat -> (n <= fuel)%nat ->
  (width first <= rowstride first)%nat ->
  exists r,
    mzd_xor_by_128 fuel res first second = Some r /\
    r = set_mem res (mem r) /\
    length (mem r) = length (mem res) /\
    (forall j, (j < rowstride first)%nat ->
       rd (mem r) j = Z.lxor (rd (mem first) j) (rd (mem second) j)) /\
    (forall j, (rowstride first <= j)%nat -> rd (mem r) j = rd (mem res) j) /\
    (forall j, (j < width first)%nat ->
       rd (mem r) j = rd (mem (mzd_xor_uint64 res first second)) j) /\
    (width first = rowstride first -> r = mzd_xor_uint64 res first second).
Proof.
  intros Hr Hn H32 Hl Hf Hw. rewrite Hr in *.
  destruct (xor_128_loop_spec (mem first) (mem second) n fuel 0 (mem res))
    as (m & E & L & R); [lia | lia | cbn [Nat.add]; lia | lia |].
  change (2 * 0)%nat with 0%nat in R. change (0 + n)%nat with n in R.
  cbn [Nat.leb andb] in R.
  exists (set_mem res m).
  assert (Hlow : forall j, (j < 2 * n)%nat ->
             rd m j = Z.lxor (rd (mem first) j) (rd (mem second) j)).
  { intros j Hj. rewrite R. apply Nat.ltb_lt in Hj. now rewrite Hj. }
  assert (Hhigh : forall j, (2 * n <= j)%nat -> rd m j = rd (mem res) j).
  { intros j Hj. rewrite R. apply Nat.ltb_ge in Hj. now rewrite Hj. }
  split.
  { unfold mzd_xor_by_128. rewrite Hr. unfold FIRST_ROW. rewrite E.
    reflexivity. }
  split; [reflexivity|]. cbn [mem set_mem].
  split; [exact L|]. split; [exact Hlow|]. split; [exact Hhigh|]. split.
  - intros j Hj. rewrite mzd_xor_uint64_rd by lia.
    rewrite Hlow by lia. apply Nat.ltb_lt in Hj. now rewrite Hj.
  - intros Ew. apply mzd_same; try reflexivity. cbn [mem set_mem].
    apply (rd_ext Z 0).
    + rewrite L. symmetry. apply mzd_xor_uint64_length. lia.
    + intros j _. fold (rd m j).
      fold (rd (mem (mzd_xor_uint64 res first second)) j).
      rewrite mzd_xor_uint64_rd by lia. rewrite Ew.
      destruct (Nat.ltb_spec j (2 * n)); [apply Hlow | apply Hhigh]; lia.
Qed.

Lemma mzd_xor_by_128_odd (fuel : nat) (res first second : mzd_local_t) :
  Z.of_nat (rowstride first) < 2 ^ 32 ->
  (rowstride first mod 2 = 1)%nat ->
  mzd_xor_by_128 fuel res first second = None.
Proof.
  intros H32 Ho. unfold mzd_xor_by_128, FIRST_ROW.
  rewrite xor_128_loop_odd; [reflexivity | lia |].
  change 2 with (Z.of_nat 2). rewrite <- Nat2Z.inj_mod, Ho. reflexivity.
Qed.

End Backend128XorRows.

(** [mzd_xor_sse] and [mzd_xor_neon] count [first->rowstride] down by
    two words per step.  With an even, positive rowstride they return
    after [rowstride / 2] steps having XORed every word of the row,
    padding included, so they agree with [mzd_xor_uint64] on the first
    [width] words and are equal to it when the row has no padding.  With
    an odd rowstride the counter never reaches zero. *)
Theorem mzd_xor_sse_neon_rows (fuel : nat) (res first second : mzd_local_t) :
  Z.of_nat (rowstride first) < 2 ^ 32 ->
  ((rowstride first mod 2 = 1)%nat ->
   mzd_xor_sse fuel res first second = None /\
   mzd_xor_neon fuel res first second = None) /\
  (forall n, rowstride first = (2 * n)%nat -> (1 <= n <= fuel)%nat ->
     (rowstride first <= length (mem res))%nat ->
     (width first <= rowstride first)%nat ->
     exists r,
       mzd_xor_sse fuel res first second = Some r /\
       mzd_xor_neon fuel res first second = Some r /\
       length (mem r) = length (mem res) /\
       (forall j, (j < rowstride first)%nat ->
          rd (mem r) j = Z.lxor (rd (mem first) j) (rd (mem second) j)) /\
       (forall j, (rowstride first <= j)%nat ->
          rd (mem r) j = rd (mem res) j) /\
       (forall j, (j < width first)%nat ->
          rd (mem r) j = rd (mem (mzd_xor_uint64 res first second)) j) /\
       (width first = rowstride first ->
        r = mzd_xor_uint64 res first second)).
Proof.
  intros H32. split.
  - intros Ho. split.
    + apply (@mzd_xor_by_128_odd sse2); assumption.
    + apply (@mzd_xor_by_128_odd neon); assumption.
  - intros n Hr Hn Hl Hw.
    destruct (@mzd_xor_by_128_rows sse2 fuel res first second n)
      as (r & E & Er & L & R1 & R2 & R3 & R4); try assumption; try lia.
    destruct (@mzd_xor_by_128_rows neon fuel res first second n)
      as (r' & E' & Er' & L' & R1' & R2' & _); try assumption; try lia.
    exists r. split; [exact E|]. split.
    + unfold mzd_xor_neon. rewrite E'. f_equal.
      rewrite Er, Er'. f_equal. apply (rd_ext Z 0); [congruence|].
      intros j _. fold (rd (mem r') j). fold (rd (mem r) j).
      destruct (Nat.lt_ge_cases j (rowstride first)) as [Hj | Hj].
      * rewrite R1, R1' by exact Hj. reflexivity.
      * rewrite R2, R2' by exact Hj. reflexivity.
    + repeat split; assumption.
Qed.

Lemma mzd_xor_sse_neon_rows_witness :
  mzd_xor_sse 2 Examples.blank192 Examples.pad192 Examples.c192
  = Some (set_mem Examples.blank192 [0; 3; 2; 76; 9; 9; 9; 9; 9]) /\
  mem (mzd_xor_uint64 Examples.blank192 Examples.pad192 Examples.c192)
  = [0; 3; 2; 9; 9; 9; 9; 9; 9] /\
  exists r,
    mzd_xor_sse 2 Examples.blank192 Examples.pad192 Examples.c192 = Some r /\
    mzd_xor_neon 2 Examples.blank192 Examples.pad192 Examples.c192 = Some r /\
    length (mem r) = length (mem Examples.blank192) /\
    (forall j, (j < rowstride Examples.pad192)%nat ->
       rd (mem r) j
       = Z.lxor (rd (mem Examples.pad192) j) (rd (mem Examples.c192) j)) /\
    (forall j, (rowstride Examples.pad192 <= j)%nat ->
       rd (mem r) j = rd (mem Examples.blank192) j) /\
    (forall j, (j < width Examples.pad192)%nat ->
       rd (mem r) j
       = rd (mem (mzd_xor_uint64 Examples.blank192 Examples.pad192
                    Examples.c192)) j) /\
    (width Examples.pad192 = rowstride Examples.pad192 ->
     r = mzd_xor_uint64 Examples.blank192 Examples.pad192 Examples.c192).
Proof.
  split; [reflexivity|]. split; [reflexivity|].
  exact (proj2 (mzd_xor_sse_neon_rows 2 Examples.blank192 Examples.pad192
                  Examples.c192 (proj1 (Z.ltb_lt 4 (2 ^ 32)) eq_refl))
           2%nat eq_refl
           (conj (proj1 (Nat.leb_le 1 2) eq_refl)
                 (proj1 (Nat.leb_le 2 2) eq_refl))
           (proj1 (Nat.leb_le 4 9) eq_refl)
           (proj1 (Nat.leb_le 3 4) eq_refl)).
Defined.

(** [mzd_xor_avx] counts [first->rowstride] down by four words per step.
    With a positive rowstride that is a multiple of four it returns after
    [rowstride / 4] steps having XORed every word of the row, padding
    included, and so agrees with [mzd_xor_uint64] on the first [width]
    words.  With any other rowstride, the two-word rows of 128-bit
    operands among them, the counter never reaches zero. *)
Theorem mzd_xor_avx_rows (fuel : nat) (res first second : mzd_local_t) :
  Z.of_nat (rowstride first) < 2 ^ 32 ->
  ((rowstride first mod 4 <> 0)%nat ->
   mzd_xor_avx fuel res first second = None) /\
  (forall n, rowstride first = (4 * n)%nat -> (1 <= n <= fuel)%nat ->
     (rowstride first <= length (mem res))%nat ->
     (width first <= rowstride first)%nat ->
     exists r,
       mzd_xor_avx fuel res first second = Some r /\
       length (mem r) = length (mem res) /\
       (forall j, (j < rowstride first)%nat ->
          rd (mem r) j = Z.lxor (rd (mem first) j) (rd (mem second) j)) /\
       (forall j, (rowstride first <= j)%nat ->
          rd (mem r) j = rd (mem res) j) /\
       (forall j, (j < width first)%nat ->
          rd (mem r) j = rd (mem (mzd_xor_uint64 res first second)) j) /\
       (width first = rowstride first ->
        r = mzd_xor_uint64 res first second)).
Proof.
  intros H32. split.
  - intros Ho. unfold mzd_xor_avx, FIRST_ROW.
    rewrite xor_256_loop_misaligned; [reflexivity | lia |].
    change 4 with (Z.of_nat 4). rewrite <- Nat2Z.inj_mod. lia.
  - intros n Hr Hn Hl Hw. rewrite Hr in *.
    destruct (xor_256_loop_spec (mem first) (mem second) n fuel 0 (mem res))
      as (m & E & L & R); [lia | lia | cbn [Nat.add]; lia | lia |].
    change (4 * 0)%nat with 0%nat in R. change (0 + n)%nat with n in R.
    cbn [Nat.leb andb] in R.
    exists (set_mem res m).
    assert (Hlow : forall j, (j < 4 * n)%nat ->
               rd m j = Z.lxor (rd (mem first) j) (rd (mem second) j)).
    { intros j Hj. rewrite R. apply Nat.ltb_lt in Hj. now rewrite Hj. }
    assert (Hhigh : forall j, (4 * n <= j)%nat -> rd m j = rd (mem res) j).
    { intros j Hj. rewrite R. apply Nat.ltb_ge in Hj. now rewrite Hj. }
    split.
    { unfold mzd_xor_avx. rewrite Hr. unfold FIRST_ROW. rewrite E.
      reflexivity. }
    cbn [mem set_mem].
    split; [exact L|]. split; [exact Hlow|]. split; [exact Hhigh|]. split.
    + intros j Hj. rewrite mzd_xor_uint64_rd by lia.
      rewrite Hlow by lia. apply Nat.ltb_lt in Hj. now rewrite Hj.
    + intros Ew. apply mzd_same; try reflexivity. cbn [mem set_mem].
      apply (rd_ext Z 0).
      * rewrite L. symmetry. apply mzd_xor_uint64_length. lia.
      * intros j _. fold (rd m j).
        fold (rd (mem (mzd_xor_uint64 res first second)) j).
        rewrite mzd_xor_uint64_rd by lia. rewrite Ew.
        destruct (Nat.ltb_spec j (4 * n)); [apply Hlow | apply Hhigh]; lia.
Qed.

Lemma mzd_xor_avx_rows_witness :
  mzd_xor_avx 1 Examples.blank192 Examples.pad192 Examples.c192
  = Some (set_mem Examples.blank192 [0; 3; 2; 76; 9; 9; 9; 9; 9]) /\
  mzd_xor_avx 1000 Examples.acc128 Examples.vec128 Examples.arg128 = None /\
  ((rowstride Examples.vec128 mod 4 <> 0)%nat ->
   mzd_xor_avx 1000 Examples.acc128 Examples.vec128 Examples.arg128 = None).
Proof.
  split; [reflexivity|]. split; [vm_compute; reflexivity|].
  exact (proj1 (mzd_xor_avx_rows 1000 Examples.acc128 Examples.vec128
                  Examples.arg128 (proj1 (Z.ltb_lt 2 (2 ^ 32)) eq_refl))).
Defined.

(** ** Top-bit multiplies at 128 bits *)

Lemma addmul_v_bits_two n (Amem : list word) (idx : word) (c : list word) :
  length c = 2%nat -> words_ok Amem ->
  snd (addmul_v_bits n 2 2 Amem idx 0 c)
  = [Z.lxor (rd c 0)
       (bigxor n (fun t => sel (Z.testbit idx (Z.of_nat t))
                               (rd Amem (2 * t + 0))));
     Z.lxor (rd c 1)
       (bigxor n (fun t => sel (Z.testbit idx (Z.of_nat t))
                               (rd Amem (2 * t + 1))))].
Proof.
  intros Hc HA.
  destruct (addmul_v_bits_spec n 2 2 Amem idx 0 c) as (_ & L & R);
    [lia | exact HA |].
  rewrite (two_words _ (eq_trans L Hc)), !R. cbn [Nat.ltb Nat.leb].
  rewrite (bigxor_ext n
             (fun t => sel (Z.testbit idx (Z.of_nat t)) (rd Amem (0 + t * 2 + 0)))
             (fun t => sel (Z.testbit idx (Z.of_nat t)) (rd Amem (2 * t + 0))))
    by (intros t _; do 2 f_equal; lia).
  rewrite (bigxor_ext n
             (fun t => sel (Z.testbit idx (Z.of_nat t)) (rd Amem (0 + t * 2 + 1)))
             (fun t => sel (Z.testbit idx (Z.of_nat t)) (rd Amem (2 * t + 1))))
    by (intros t _; do 2 f_equal; lia).
  reflexivity.
Qed.

Section Backend128TopFacts.

Context {backend : Simd128}.

Variable Amem : list word.
Hypothesis HA : words_ok Amem.

Lemma top_128_loop_eq n : forall idx mAptr cval,
  top_128_loop n Amem 0 idx mAptr cval
  = (shr idx (4 * Z.of_nat n),
     fst (mul_v_128_loop n Amem 0 idx mAptr cval),
     snd (mul_v_128_loop n Amem 0 idx mAptr cval)).
Proof.
  induction n as [|n IH]; intros idx mAptr [c0 c1].
  - cbn [top_128_loop mul_v_128_loop fst snd]. now rewrite shr_0.
  - cbn [top_128_loop mul_v_128_loop]. rewrite IH.
    rewrite shr_shr by lia. do 2 f_equal. f_equal. lia.
Qed.

(** The loop of [n] turns followed by the two rows after it. *)
Lemma top_128_rows n (idx : word) (cval : m128 * m128) (j : nat) :
  (j < 2)%nat ->
  let '(idx', mAptr, (c0, c1)) := top_128_loop n Amem 0 idx 0 cval in
  Z.lxor
    (lane j (mm128_xor_mask c0 (load128 Amem 0 (mAptr + 0))
               (mm128_compute_mask idx' 0)))
    (lane j (mm128_xor_mask c1 (load128 Amem 0 (mAptr + 1))
               (mm128_compute_mask idx' 1)))
  = Z.lxor (fold128 cval j)
      (bigxor (4 * n + 2)
         (fun t => sel (Z.testbit idx (Z.of_nat t)) (rd Amem (2 * t + j)))).
Proof.
  intros Hj. rewrite top_128_loop_eq.
  destruct (mul_v_128_loop_spec Amem 0 HA n idx 0 cval) as [L1 L2].
  destruct (mul_v_128_loop n Amem 0 idx 0 cval) as [mAptr [c0 c1]].
  cbn [fst snd] in *. subst mAptr.
  rewrite !(mm128_xor_mask_lane Amem 0 HA) by lia.
  specialize (L2 j Hj). unfold fold128 at 1 in L2. cbn [fst snd] in L2.
  rewrite !shr_testbit by lia.
  replace (4 * n + 2)%nat with (S (S (4 * n))) by lia. cbn [bigxor].
  replace (Z.of_nat (S (4 * n))) with (1 + 4 * Z.of_nat n) by lia.
  replace (Z.of_nat (4 * n)) with (0 + 4 * Z.of_nat n) by lia.
  replace (0 + 2 * (0 + 4 * n + 0) + j)%nat with (2 * (4 * n) + j)%nat by lia.
  replace (0 + 2 * (0 + 4 * n + 1) + j)%nat with (2 * S (4 * n) + j)%nat
    by lia.
  rewrite (bigxor_ext (4 * n)
             (fun t => sel (Z.testbit idx (Z.of_nat t)) (rd Amem (2 * t + j)))
             (fun t => sel (Z.testbit idx (Z.of_nat t))
                           (rd Amem (0 + 2 * (0 + t) + j))))
    by (intros t _; do 2 f_equal; lia).
  revert L2.
  generalize (bigxor (4 * n)
                (fun t => sel (Z.testbit idx (Z.of_nat t))
                              (rd Amem (0 + 2 * (0 + t) + j)))) as B.
  intros B L2.
  transitivity
    (Z.lxor (Z.lxor (lane j c0) (lane j c1))
       (Z.lxor (sel (Z.testbit idx (0 + 4 * Z.of_nat n))
                    (rd Amem (2 * (4 * n) + j)))
               (sel (Z.testbit idx (1 + 4 * Z.of_nat n))
                    (rd Amem (2 * S (4 * n) + j)))));
    [lxor_bits | rewrite L2; lxor_bits].
Qed.

Lemma mzd_addmul_v_30_128_mem (c v A : mzd_local_t) :
  mem A = Amem -> length (mem c) = 2%nat ->
  mem (mzd_addmul_v_30_128 c v A)
  = snd (addmul_v_bits 30 2 2 Amem (shr (rd (mem v) 1) 34) 0 (mem c)).
Proof.
  intros EA Hc. rewrite (addmul_v_bits_two 30 Amem _ (mem c) Hc HA).
  unfold mzd_addmul_v_30_128, FIRST_ROW. cbn [Nat.add]. rewrite EA.
  set (idx := shr (rd (mem v) 1) 34).
  pose proof (top_128_rows 7 idx (load128 (mem c) 0 0, vzero) 0 ltac:(lia))
    as R0.
  pose proof (top_128_rows 7 idx (load128 (mem c) 0 0, vzero) 1 ltac:(lia))
    as R1.
  destruct (top_128_loop 7 Amem 0 idx 0 (load128 (mem c) 0 0, vzero))
    as [[idx' mAptr] [c0 c1]].
  cbn [mem set_mem]. rewrite (store128_two _ _ Hc).
  match goal with
  | |- [lane0 ?x; lane1 ?x] = _ =>
      change (lane0 x) with (lane 0 x); change (lane1 x) with (lane 1 x)
  end.
  rewrite !lane_vxor, R0, R1.
  unfold fold128. cbn [fst snd]. rewrite vzero_lanes.
  cbn [lane lane0 lane1 load128 Nat.add Nat.mul].
  rewrite !Z.lxor_0_r. reflexivity.
Qed.

Lemma mzd_addmul_v_3_128_mem (c v A : mzd_local_t) :
  mem A = Amem -> length (mem c) = 2%nat ->
  mem (mzd_addmul_v_3_128 c v A)
  = snd (addmul_v_bits 3 2 2 Amem (shr (rd (mem v) 1) 61) 0 (mem c)).
Proof.
  intros EA Hc. rewrite (addmul_v_bits_two 3 Amem _ (mem c) Hc HA).
  unfold mzd_addmul_v_3_128, FIRST_ROW. cbn [Nat.add]. rewrite EA.
  set (idx := shr (rd (mem v) 1) 61).
  cbn [mem set_mem]. rewrite (store128_two _ _ Hc).
  match goal with
  | |- [lane0 ?x; lane1 ?x] = _ =>
      change (lane0 x) with (lane 0 x); change (lane1 x) with (lane 1 x)
  end.
  rewrite !lane_vxor.
  rewrite !(mm128_xor_mask_lane Amem 0 HA) by lia.
  rewrite vzero_lanes.
  cbn [lane lane0 lane1 load128 Nat.add Nat.mul bigxor].
  change (Z.of_nat 0) with 0. change (Z.of_nat 1) with 1.
  change (Z.of_nat 2) with 2.
  f_equal; [|f_equal]; lxor_bits.
Qed.

End Backend128TopFacts.

Section Avx128TopFacts.

Variable Amem : list word.
Hypothesis HA : words_ok Amem.

Lemma top_avx_128_loop_eq n : forall idx mAptr cval,
  top_avx_128_loop n Amem 0 idx mAptr cval
  = (shr idx (8 * Z.of_nat n),
     fst (mul_v_avx_128_loop n Amem 0 idx mAptr cval),
     snd (mul_v_avx_128_loop n Amem 0 idx mAptr cval)).
Proof.
  induction n as [|n IH]; intros idx mAptr [c0 c1].
  - cbn [top_avx_128_loop mul_v_avx_128_loop fst snd]. now rewrite shr_0.
  - cbn [top_avx_128_loop mul_v_avx_128_loop]. rewrite IH.
    rewrite shr_shr by lia. do 2 f_equal. f_equal. lia.
Qed.

(** The loop of [n] turns followed by the three vectors after it. *)
Lemma top_avx_128_rows n (idx : word) (cval : m256 * m256) (j : nat) :
  (j < 2)%nat ->
  let '(idx', mAptr, (c0, c1)) := top_avx_128_loop n Amem 0 idx 0 cval in
  fold256
    (mm256_xor_mask
       (mm256_xor_mask c0 (load256 Amem 0 (mAptr + 0))
          (mm256_compute_mask_2 idx' 0))
       (load256 Amem 0 (mAptr + 2)) (mm256_compute_mask_2 idx' 4),
     mm256_xor_mask c1 (load256 Amem 0 (mAptr + 1))
       (mm256_compute_mask_2 idx' 2)) j
  = Z.lxor (fold256 cval j)
      (bigxor (8 * n + 6)
         (fun t => sel (Z.testbit idx (Z.of_nat t)) (rd Amem (2 * t + j)))).
Proof.
  intros Hj. rewrite top_avx_128_loop_eq.
  destruct (mul_v_avx_128_loop_spec Amem 0 HA n idx 0 cval) as [L1 L2].
  destruct (mul_v_avx_128_loop n Amem 0 idx 0 cval) as [mAptr [c0 c1]].
  cbn [fst snd] in *. subst mAptr.
  specialize (L2 j Hj). unfold fold256 at 1 in L2. cbn [fst snd] in L2.
  unfold fold256 at 1. cbn [fst snd].
  rewrite !(mm256_xor_mask_half_sum Amem 0 HA) by lia.
  rewrite !shr_testbit by lia.
  replace (8 * n + 6)%nat with (S (S (S (S (S (S (8 * n))))))) by lia.
  cbn [bigxor].
  rewrite (bigxor_ext (8 * n)
             (fun t => sel (Z.testbit idx (Z.of_nat t)) (rd Amem (2 * t + j)))
             (fun t => sel (Z.testbit idx (Z.of_nat t))
                           (rd Amem (0 + 2 * (2 * 0 + t) + j))))
    by (intros t _; do 2 f_equal; lia).
  revert L2.
  generalize (bigxor (8 * n)
                (fun t => sel (Z.testbit idx (Z.of_nat t))
                              (rd Amem (0 + 2 * (2 * 0 + t) + j)))) as B.
  intros B L2.
  replace (0 + 8 * Z.of_nat n) with (Z.of_nat (8 * n)) by lia.
  replace (0 + 1 + 8 * Z.of_nat n) with (Z.of_nat (S (8 * n))) by lia.
  replace (2 + 8 * Z.of_nat n) with (Z.of_nat (S (S (8 * n)))) by lia.
  replace (2 + 1 + 8 * Z.of_nat n) with (Z.of_nat (S (S (S (8 * n))))) by lia.
  replace (4 + 8 * Z.of_nat n) with (Z.of_nat (S (S (S (S (8 * n)))))) by lia.
  replace (4 + 1 + 8 * Z.of_nat n) with (Z.of_nat (S (S (S (S (S (8 * n)))))))
    by lia.
  replace (0 + 2 * (2 * (0 + 4 * n + 0)) + j)%nat
    with (2 * (8 * n) + j)%nat by lia.
  replace (0 + 2 * (2 * (0 + 4 * n + 0) + 1) + j)%nat
    with (2 * S (8 * n) + j)%nat by lia.
  replace (0 + 2 * (2 * (0 + 4 * n + 1)) + j)%nat
    with (2 * S (S (8 * n)) + j)%nat by lia.
  replace (0 + 2 * (2 * (0 + 4 * n + 1) + 1) + j)%nat
    with (2 * S (S (S (8 * n))) + j)%nat by lia.
  replace (0 + 2 * (2 * (0 + 4 * n + 2)) + j)%nat
    with (2 * S (S (S (S (8 * n)))) + j)%nat by lia.
  replace (0 + 2 * (2 * (0 + 4 * n + 2) + 1) + j)%nat
    with (2 * S (S (S (S (S (8 * n))))) + j)%nat by lia.
  match goal with
  | |- ?lhs = Z.lxor ?f (Z.lxor (Z.lxor (Z.lxor (Z.lxor (Z.lxor (Z.lxor
           B ?s0) ?s1) ?s2) ?s3) ?s4) ?s5) =>
      transitivity
        (Z.lxor (Z.lxor (half_sum c0 j) (half_sum c1 j))
           (Z.lxor (Z.lxor (Z.lxor s0 s1) (Z.lxor s2 s3)) (Z.lxor s4 s5)));
      [lxor_bits | rewrite L2; lxor_bits]
  end.
Qed.

Lemma mzd_addmul_v_avx_30_128_mem (undefined : m128) (c v A : mzd_local_t) :
  mem A = Amem -> length (mem c) = 2%nat ->
  mem (mzd_addmul_v_avx_30_128 undefined c v A)
  = [Z.lxor (rd (snd (addmul_v_bits 30 2 2 Amem (shr (rd (mem v) 1) 34) 0
                        (mem c))) 0) (lane0 undefined);
     Z.lxor (rd (snd (addmul_v_bits 30 2 2 Amem (shr (rd (mem v) 1) 34) 0
                        (mem c))) 1) (lane1 undefined)].
Proof.
  intros EA Hc. rewrite (addmul_v_bits_two 30 Amem _ (mem c) Hc HA).
  unfold mzd_addmul_v_avx_30_128, FIRST_ROW. cbn [Nat.add]. rewrite EA.
  set (idx := shr (rd (mem v) 1) 34).
  set (cval := (_mm256_castsi128_si256 undefined (load128 (mem c) 0 0),
                _mm256_setzero_si256)).
  pose proof (top_avx_128_rows 3 idx cval 0 ltac:(lia)) as R0.
  pose proof (top_avx_128_rows 3 idx cval 1 ltac:(lia)) as R1.
  destruct (top_avx_128_loop 3 Amem 0 idx 0 cval) as [[idx' mAptr] [c0 c1]].
  rewrite (fold_avx_128_mem _ _ Hc), R0, R1.
  change (8 * 3 + 6)%nat with 30%nat.
  unfold cval, fold256, half_sum, _mm256_castsi128_si256,
    _mm256_setzero_si256, _mm_setzero_si128.
  cbn [fst snd lane lane0 lane1 low128 high128 load128 Nat.add Nat.mul].
  generalize (bigxor 30
                (fun t => sel (Z.testbit idx (Z.of_nat t))
                              (rd Amem (t + (t + 0) + 0)))) as B0.
  generalize (bigxor 30
                (fun t => sel (Z.testbit idx (Z.of_nat t))
                              (rd Amem (t + (t + 0) + 1)))) as B1.
  intros B1 B0. unfold rd, rd_gen. cbn [nth].
  f_equal; [|f_equal]; lxor_bits.
Qed.

End Avx128TopFacts.

(** On two-word operands the SSE2 and NEON multiplies by the top 30 and
    the top 3 bits leave in [c] exactly what [mzd_addmul_v_uint64_30] and
    [mzd_addmul_v_uint64_3] leave.  [mzd_addmul_v_avx_30_128] starts from
    [_mm256_castsi128_si256] like [mzd_addmul_v_avx_128] and leaves the
    scalar result XOR the undefined upper 128 bits. *)
Theorem mzd_addmul_v_simd_top_128
        (undefined : m128) (c v A : mzd_local_t) :
  length (mem c) = 2%nat -> width v = 2%nat -> rowstride A = 2%nat ->
  words_ok (mem A) ->
  (mzd_addmul_v_sse_30_128 c v A = mzd_addmul_v_uint64_30 c v A /\
   mzd_addmul_v_neon_30_128 c v A = mzd_addmul_v_uint64_30 c v A) /\
  (mzd_addmul_v_sse_3_128 c v A = mzd_addmul_v_uint64_3 c v A /\
   mzd_addmul_v_neon_3_128 c v A = mzd_addmul_v_uint64_3 c v A) /\
  mem (mzd_addmul_v_avx_30_128 undefined c v A)
  = [Z.lxor (rd (mem (mzd_addmul_v_uint64_30 c v A)) 0) (lane0 undefined);
     Z.lxor (rd (mem (mzd_addmul_v_uint64_30 c v A)) 1) (lane1 undefined)].
Proof.
  intros Hc Hv Hr HA.
  assert (E30 : mem (mzd_addmul_v_uint64_30 c v A)
                = snd (addmul_v_bits 30 2 2 (mem A)
                         (shr (rd (mem v) 1) 34) 0 (mem c))).
  { unfold mzd_addmul_v_uint64_30, FIRST_ROW. cbn [mem set_mem].
    rewrite Hv, Hr. reflexivity. }
  assert (E3 : mem (mzd_addmul_v_uint64_3 c v A)
               = snd (addmul_v_bits 3 2 2 (mem A)
                        (shr (rd (mem v) 1) 61) 0 (mem c))).
  { unfold mzd_addmul_v_uint64_3, FIRST_ROW. cbn [mem set_mem].
    rewrite Hv, Hr. reflexivity. }
  assert (S30 : forall backend : Simd128,
             @mzd_addmul_v_30_128 backend c v A = mzd_addmul_v_uint64_30 c v A).
  { intros backend. apply mzd_same.
    5:{ rewrite E30. apply (mzd_addmul_v_30_128_mem (mem A) HA); auto. }
    all: unfold mzd_addmul_v_30_128;
      destruct (top_128_loop 7 (mem A) (FIRST_ROW A)
                  (shr (rd (mem v) (FIRST_ROW v + 1)) 34) 0
                  (load128 (mem c) (FIRST_ROW c) 0, vzero))
        as [[? ?] [? ?]]; reflexivity. }
  assert (S3 : forall backend : Simd128,
            @mzd_addmul_v_3_128 backend c v A = mzd_addmul_v_uint64_3 c v A).
  { intros backend. apply mzd_same; try reflexivity.
    rewrite E3. apply (mzd_addmul_v_3_128_mem (mem A) HA); auto. }
  split; [split; apply S30|]. split; [split; apply S3|].
  rewrite E30. apply (mzd_addmul_v_avx_30_128_mem (mem A) HA); auto.
Qed.

Lemma A30_128_words : words_ok (mem Examples.A30_128).
Proof. apply words_okb_spec. vm_compute. reflexivity. Qed.

Lemma mzd_addmul_v_simd_top_128_witness :
  mem (mzd_addmul_v_uint64_30 Examples.acc128 Examples.v128_top
         Examples.A30_128) = [27; 63] /\
  mem (mzd_addmul_v_avx_30_128 Examples.stale_upper_half Examples.acc128
         Examples.v128_top Examples.A30_128) = [26; 63] /\
  mzd_addmul_v_sse_30_128 Examples.acc128 Examples.v128_top Examples.A30_128
  = mzd_addmul_v_uint64_30 Examples.acc128 Examples.v128_top Examples.A30_128 /\
  mzd_addmul_v_neon_30_128 Examples.acc128 Examples.v128_top Examples.A30_128
  = mzd_addmul_v_uint64_30 Examples.acc128 Examples.v128_top Examples.A30_128.
Proof.
  split; [vm_compute; reflexivity|]. split; [vm_compute; reflexivity|].
  exact (proj1 (mzd_addmul_v_simd_top_128 Examples.stale_upper_half
                  Examples.acc128 Examples.v128_top Examples.A30_128
                  eq_refl eq_refl eq_refl A30_128_words)).
Defined.

(** ** AVX2 at 192 and 256 bits *)

Lemma four_words (l : list word) :
  length l = 4%nat -> l = [rd l 0; rd l 1; rd l 2; rd l 3].
Proof.
  destruct l as [|a [|b [|c [|d [|x l]]]]]; try discriminate. reflexivity.
Qed.

Lemma store256_four (mem : list word) (x : m256) :
  length mem = 4%nat ->
  store256 mem 0 0 x = [lane256 0 x; lane256 1 x; lane256 2 x; lane256 3 x].
Proof.
  destruct mem as [|a [|b [|c [|d [|y l]]]]]; try discriminate. reflexivity.
Qed.

Section Avx256Facts.

Variable Amem : list word.
Hypothesis HA : words_ok Amem.

Lemma mm256_xor_mask_lane256 j lhs k idx bit :
  (j < 4)%nat -> 0 <= bit ->
  lane256 j (mm256_xor_mask lhs (load256 Amem 0 k) (mm256_compute_mask idx bit))
  = Z.lxor (lane256 j lhs) (sel (Z.testbit idx bit) (rd Amem (4 * k + j))).
Proof.
  intros Hj Hb. rewrite <- (lane256_load256 Amem k j Hj).
  unfold mm256_xor_mask, mm256_compute_mask, _mm256_set1_epi64x.
  rewrite lane256_xor. f_equal.
  destruct j as [|[|[|[|j]]]]; [| | | |lia];
    cbn [lane256 _mm256_and_si256 lanewise low128 high128 lane0 lane1];
    apply masked_word; auto; apply rd_in_range, HA.
Qed.

Lemma mul_v_avx_256_loop_spec n : forall idx mAptr cval,
  fst (mul_v_avx_256_loop n Amem 0 idx mAptr cval) = (mAptr + 4 * n)%nat /\
  forall j, (j < 4)%nat ->
    Z.lxor (lane256 j (fst (snd (mul_v_avx_256_loop n Amem 0 idx mAptr cval))))
           (lane256 j (snd (snd (mul_v_avx_256_loop n Amem 0 idx mAptr cval))))
    = Z.lxor (Z.lxor (lane256 j (fst cval)) (lane256 j (snd cval)))
        (bigxor (4 * n)
           (fun t => sel (Z.testbit idx (Z.of_nat t))
                         (rd Amem (4 * (mAptr + t) + j)))).
Proof.
  induction n as [|n IH]; intros idx mAptr [c0 c1].
  - cbn [mul_v_avx_256_loop fst snd bigxor Nat.mul]. split; [lia|].
    intros j _. now rewrite Z.lxor_0_r.
  - cbn [mul_v_avx_256_loop].
    match goal with
    | |- context [mul_v_avx_256_loop n Amem 0 ?i ?p ?cv] =>
        destruct (IH i p cv) as [I1 I2]
    end.
    split; [rewrite I1; lia|].
    intros j Hj. rewrite (I2 j Hj). cbn [fst snd].
    rewrite !mm256_xor_mask_lane256 by (auto; lia).
    replace (4 * S n)%nat with (4 + 4 * n)%nat by lia.
    rewrite bigxor_app. cbn [bigxor].
    rewrite (bigxor_ext (4 * n)
               (fun t => sel (Z.testbit (shr idx 4) (Z.of_nat t))
                             (rd Amem (4 * (mAptr + 4 + t) + j)))
               (fun t => sel (Z.testbit idx (Z.of_nat (4 + t)))
                             (rd Amem (4 * (mAptr + (4 + t)) + j)))).
    2:{ intros t _. rewrite shr_testbit by lia.
        do 2 f_equal; [f_equal|]; lia. }
    change (Z.of_nat 0) with 0. change (Z.of_nat 1) with 1.
    change (Z.of_nat 2) with 2. change (Z.of_nat 3) with 3.
    lxor_bits.
Qed.

Lemma mul_v_avx_256_words_spec vmem w : forall vptr mAptr cval j,
  (j < 4)%nat ->
  Z.lxor (lane256 j (fst (mul_v_avx_256_words w Amem vmem 0 vptr mAptr cval)))
         (lane256 j (snd (mul_v_avx_256_words w Amem vmem 0 vptr mAptr cval)))
  = Z.lxor (Z.lxor (lane256 j (fst cval)) (lane256 j (snd cval)))
      (bigxor (w * 64)
         (fun i => sel (Z.testbit (rd vmem (vptr + i / 64))
                                  (Z.of_nat (i mod 64)))
                       (rd Amem (4 * (mAptr + i) + j)))).
Proof.
  induction w as [|w IH]; intros vptr mAptr cval j Hj.
  - cbn [mul_v_avx_256_words Nat.mul bigxor]. now rewrite Z.lxor_0_r.
  - cbn [mul_v_avx_256_words].
    destruct (mul_v_avx_256_loop_spec 16 (rd vmem vptr) mAptr cval) as [L1 L2].
    destruct (mul_v_avx_256_loop 16 Amem 0 (rd vmem vptr) mAptr cval)
      as [mAptr' cval'] eqn:E.
    cbn [fst snd] in L1, L2. subst mAptr'.
    rewrite (IH _ _ _ j Hj), (L2 j Hj).
    replace (S w * 64)%nat with (4 * 16 + w * 64)%nat by lia.
    rewrite bigxor_app, Z.lxor_assoc. f_equal. f_equal.
    + apply bigxor_ext. intros t Ht.
      rewrite Nat.div_small, Nat.mod_small, Nat.add_0_r by lia. reflexivity.
    + apply bigxor_ext. intros t _.
      replace (4 * 16 + t)%nat with (t + 1 * 64)%nat by lia.
      rewrite Nat.div_add, Nat.Div0.mod_add by lia.
      f_equal; f_equal; f_equal; lia.
Qed.

End Avx256Facts.

(** What the 256-bit-row multiplies leave: every one of the four words
    of the row gets the selected rows XORed in, the padding word too. *)
Lemma store_avx_256_mem (w : nat) (c v A : mzd_local_t) (cval : m256 * m256) :
  length (mem c) = 4%nat -> width v = w -> rowstride A = 4%nat ->
  words_ok (mem A) ->
  mem (store_avx_256 c
         (mul_v_avx_256_words w (mem A) (mem v) (FIRST_ROW A) (FIRST_ROW v) 0
            cval))
  = map (fun j => Z.lxor (Z.lxor (lane256 j (fst cval)) (lane256 j (snd cval)))
                    (vecmat_word v A j)) [0; 1; 2; 3]%nat.
Proof.
  intros Hc Hv Hr HA. unfold store_avx_256, FIRST_ROW. cbn [mem set_mem].
  rewrite (store256_four _ _ Hc). cbn [map].
  rewrite !lane256_xor.
  rewrite !(mul_v_avx_256_words_spec (mem A) HA) by lia.
  assert (E : forall j,
             bigxor (w * 64)
               (fun i => sel (Z.testbit (rd (mem v) (0 + i / 64))
                                        (Z.of_nat (i mod 64)))
                             (rd (mem A) (4 * (0 + i) + j)))
             = vecmat_word v A j).
  { intros j. unfold vecmat_word. rewrite Hv. apply bigxor_ext. intros i _.
    unfold vbit, row_word, ROW. rewrite Hr. cbn [Nat.add].
    do 2 f_equal. lia. }
  rewrite !E. reflexivity.
Qed.

Lemma mzd_addmul_v_uint64_in_256 (w : nat) (c v A : mzd_local_t) :
  length (mem c) = 4%nat -> width v = w -> width A = w -> (w <= 4)%nat ->
  rowstride A = 4%nat -> words_ok (mem A) ->
  mem (mzd_addmul_v_uint64 c v A)
  = map (fun j => if (j <? w)%nat
                  then Z.lxor (rd (mem c) j) (vecmat_word v A j)
                  else rd (mem c) j) [0; 1; 2; 3]%nat.
Proof.
  intros Hc Hv Hw Hle Hr HA. unfold mzd_addmul_v_uint64. cbn [mem set_mem].
  destruct (addmul_v_words_spec (width v) (width A) (rowstride A) (mem A)
              (mem v) (FIRST_ROW v) (FIRST_ROW A) (mem c)) as [Hlen Hrd];
    [lia | exact HA |].
  rewrite (four_words _ (eq_trans Hlen Hc)), !Hrd. cbn [map].
  rewrite Hw, Hr, Hv.
  assert (E : forall j,
             bigxor (w * 64)
               (fun i => sel (Z.testbit (rd (mem v) (FIRST_ROW v + i / 64))
                                        (Z.of_nat (i mod 64)))
                             (rd (mem A) (FIRST_ROW A + i * 4 + j)))
             = vecmat_word v A j).
  { intros j. unfold vecmat_word. rewrite Hv. apply bigxor_ext. intros i _.
    unfold vbit, row_word, ROW, FIRST_ROW. rewrite Hr. reflexivity. }
  rewrite !E. reflexivity.
Qed.

Lemma lane256_zero j : lane256 j _mm256_setzero_si256 = 0.
Proof. destruct j as [|[|[|j]]]; reflexivity. Qed.

(** At 256 bits the AVX2 multiplies leave in [c] exactly what the scalar
    ones leave. *)
Theorem mzd_mul_v_avx_256_is_uint64 (c v A : mzd_local_t) :
  vector_in_256 4 c -> vector_in_256 4 v -> matrix_in_256 4 A ->
  mzd_mul_v_avx_256 c v A = mzd_mul_v_uint64 c v A /\
  mzd_addmul_v_avx_256 c v A = mzd_addmul_v_uint64 c v A.
Proof.
  intros Hc Hv HA. split.
  - apply mzd_same; try reflexivity.
    unfold mzd_mul_v_avx_256, mzd_mul_v_uint64.
    rewrite (store_avx_256_mem 4 c v A);
      [| apply Hc | apply Hv | apply HA | apply HA].
    rewrite (mzd_addmul_v_uint64_in_256 4);
      [| | apply Hv | apply HA | lia | apply HA | apply HA].
    2:{ rewrite mzd_local_clear_length; [apply Hc|].
        rewrite (v256_nrows 4 c Hc), (v256_rowstride 4 c Hc),
          (v256_mem 4 c Hc). lia. }
    cbn [map Nat.ltb Nat.leb fst snd].
    rewrite !mzd_local_clear_rd
      by (rewrite (v256_nrows 4 c Hc), (v256_rowstride 4 c Hc); lia).
    rewrite !lane256_zero. reflexivity.
  - apply mzd_same; try reflexivity.
    unfold mzd_addmul_v_avx_256.
    rewrite (store_avx_256_mem 4 c v A);
      [| apply Hc | apply Hv | apply HA | apply HA].
    rewrite (mzd_addmul_v_uint64_in_256 4);
      [| apply Hc | apply Hv | apply HA | lia | apply HA | apply HA].
    cbn [map Nat.ltb Nat.leb fst snd].
    rewrite !lane256_zero, !Z.lxor_0_r.
    unfold FIRST_ROW. rewrite !lane256_load256 by lia. reflexivity.
Qed.

Lemma acc256_shape : vector_in_256 4 Examples.acc256.
Proof.
  split; try reflexivity. apply words_okb_spec. vm_compute. reflexivity.
Qed.

Lemma vec256_shape : vector_in_256 4 Examples.vec256.
Proof.
  split; try reflexivity. apply words_okb_spec. vm_compute. reflexivity.
Qed.

Lemma mat256_shape : matrix_in_256 4 Examples.mat256.
Proof.
  split; try reflexivity. apply words_okb_spec. vm_compute. reflexivity.
Qed.

Lemma mzd_mul_v_avx_256_is_uint64_witness :
  mzd_mul_v_avx_256 Examples.acc256 Examples.vec256 Examples.mat256
  = mzd_mul_v_uint64 Examples.acc256 Examples.vec256 Examples.mat256 /\
  mzd_addmul_v_avx_256 Examples.acc256 Examples.vec256 Examples.mat256
  = mzd_addmul_v_uint64 Examples.acc256 Examples.vec256 Examples.mat256.
Proof.
  exact (mzd_mul_v_avx_256_is_uint64 Examples.acc256 Examples.vec256
           Examples.mat256 acc256_shape vec256_shape mat256_shape).
Defined.

(** At 192 bits the rows are four words long with one padding word.  The
    AVX2 multiplies XOR the selected rows into all four words: on the
    three words of the vector they agree with the scalar multiplies, and
    the fourth word additionally receives the XOR of the selected rows'
    padding words.  With zero padding in [A] they leave in [c] exactly
    what the scalar multiplies leave. *)
Theorem mzd_mul_v_avx_192_padding (c v A : mzd_local_t) :
  vector_in_256 3 c -> vector_in_256 3 v -> matrix_in_256 3 A ->
  (forall j, (j < 3)%nat ->
     rd (mem (mzd_mul_v_avx_192 c v A)) j
     = rd (mem (mzd_mul_v_uint64 c v A)) j /\
     rd (mem (mzd_addmul_v_avx_192 c v A)) j
     = rd (mem (mzd_addmul_v_uint64 c v A)) j) /\
  rd (mem (mzd_mul_v_avx_192 c v A)) 3
  = Z.lxor (rd (mem (mzd_mul_v_uint64 c v A)) 3) (vecmat_word v A 3) /\
  rd (mem (mzd_addmul_v_avx_192 c v A)) 3
  = Z.lxor (rd (mem (mzd_addmul_v_uint64 c v A)) 3) (vecmat_word v A 3) /\
  ((forall i, (i < 192)%nat -> row_word A i 3 = 0) ->
   mzd_mul_v_avx_192 c v A = mzd_mul_v_uint64 c v A /\
   mzd_addmul_v_avx_192 c v A = mzd_addmul_v_uint64 c v A).
Proof.
  intros Hc Hv HA.
  assert (Em : mem (mzd_mul_v_avx_192 c v A)
               = map (fun j => vecmat_word v A j) [0; 1; 2; 3]%nat).
  { unfold mzd_mul_v_avx_192.
    rewrite (store_avx_256_mem 3 c v A);
      [| apply Hc | apply Hv | apply HA | apply HA].
    cbn [map fst snd]. rewrite !lane256_zero. reflexivity. }
  assert (Ea : mem (mzd_addmul_v_avx_192 c v A)
               = map (fun j => Z.lxor (rd (mem c) j) (vecmat_word v A j))
                   [0; 1; 2; 3]%nat).
  { unfold mzd_addmul_v_avx_192.
    rewrite (store_avx_256_mem 3 c v A);
      [| apply Hc | apply Hv | apply HA | apply HA].
    cbn [map fst snd]. rewrite !lane256_zero, !Z.lxor_0_r.
    unfold FIRST_ROW. rewrite !lane256_load256 by lia. reflexivity. }
  assert (Um : mem (mzd_mul_v_uint64 c v A)
               = [vecmat_word v A 0; vecmat_word v A 1; vecmat_word v A 2; 0]).
  { unfold mzd_mul_v_uint64.
    rewrite (mzd_addmul_v_uint64_in_256 3);
      [| | apply Hv | apply HA | lia | apply HA | apply HA].
    2:{ rewrite mzd_local_clear_length; [apply Hc|].
        rewrite (v256_nrows 3 c Hc), (v256_rowstride 3 c Hc),
          (v256_mem 3 c Hc). lia. }
    cbn [map Nat.ltb Nat.leb].
    rewrite !mzd_local_clear_rd
      by (rewrite (v256_nrows 3 c Hc), (v256_rowstride 3 c Hc); lia).
    reflexivity. }
  assert (Ua : mem (mzd_addmul_v_uint64 c v A)
               = [Z.lxor (rd (mem c) 0) (vecmat_word v A 0);
                  Z.lxor (rd (mem c) 1) (vecmat_word v A 1);
                  Z.lxor (rd (mem c) 2) (vecmat_word v A 2);
                  rd (mem c) 3]).
  { rewrite (mzd_addmul_v_uint64_in_256 3);
      [| apply Hc | apply Hv | apply HA | lia | apply HA | apply HA].
    reflexivity. }
  rewrite Em, Ea, Um, Ua. cbn [map].
  split; [|split; [|split]].
  - intros j Hj. destruct j as [|[|[|j]]]; [| | |lia]; split; reflexivity.
  - unfold rd, rd_gen. cbn [nth]. now rewrite Z.lxor_0_l.
  - reflexivity.
  - intros Hpad.
    assert (Z3 : vecmat_word v A 3 = 0).
    { unfold vecmat_word. apply bigxor_zero. intros i Hi.
      rewrite (v256_width 3 v Hv) in Hi. rewrite Hpad by lia.
      now destruct (vbit v i). }
    split; apply mzd_same; try reflexivity.
    + rewrite Em, Um. cbn [map]. now rewrite Z3.
    + rewrite Ea, Ua. cbn [map]. now rewrite Z3, Z.lxor_0_r.
Qed.

Lemma acc192_shape : vector_in_256 3 Examples.acc192.
Proof.
  split; try reflexivity. apply words_okb_spec. vm_compute. reflexivity.
Qed.

Lemma vec192_shape : vector_in_256 3 Examples.vec192.
Proof.
  split; try reflexivity. apply words_okb_spec. vm_compute. reflexivity.
Qed.

Lemma mat192_shape :
  matrix_in_256 3 (Examples.mat192 (fun i => Z.of_nat i + 9)).
Proof.
  split; try reflexivity. apply words_okb_spec. vm_compute. reflexivity.
Qed.

(** With padding words [i + 9] in row [i], the fourth word ends up as
    the XOR of the padding of rows 0, 2, 64 and 191. *)
Lemma mzd_mul_v_avx_192_padding_witness :
  mem (mzd_mul_v_uint64 Examples.acc192 Examples.vec192
         (Examples.mat192 (fun i => Z.of_nat i + 9))) = [131; 763; 0; 0] /\
  mem (mzd_mul_v_avx_192 Examples.acc192 Examples.vec192
         (Examples.mat192 (fun i => Z.of_nat i + 9))) = [131; 763; 0; 131] /\
  rd (mem (mzd_mul_v_avx_192 Examples.acc192 Examples.vec192
             (Examples.mat192 (fun i => Z.of_nat i + 9)))) 3
  = Z.lxor
      (rd (mem (mzd_mul_v_uint64 Examples.acc192 Examples.vec192
                  (Examples.mat192 (fun i => Z.of_nat i + 9)))) 3)
      (vecmat_word Examples.vec192
         (Examples.mat192 (fun i => Z.of_nat i + 9)) 3).
Proof.
  split; [vm_compute; reflexivity|]. split; [vm_compute; reflexivity|].
  exact (proj1 (proj2
           (mzd_mul_v_avx_192_padding Examples.acc192 Examples.vec192
              (Examples.mat192 (fun i => Z.of_nat i + 9))
              acc192_shape vec192_shape mat192_shape))).
Defined.

End SimdMoreFacts.

(* ================================================================== *)
(** * Bit extraction and the shuffles *)
(* ================================================================== *)

Module ShuffleFacts.
Import BinMat Simd BinMatFacts.

(** ** The lowest set bit of a word *)

Lemma wrap_testbit z i :
  0 <= i -> Z.testbit (wrap z) i = (i <? 64) && Z.testbit z i.
Proof.
  intros Hi. unfold wrap, wB. destruct (Z.ltb_spec i 64).
  - now rewrite Z.mod_pow2_bits_low.
  - now rewrite Z.mod_pow2_bits_high by lia.
Qed.

Lemma b2z_testbit (b : bool) i :
  0 <= i -> Z.testbit (Z.b2z b) i = b && (i =? 0).
Proof.
  intros Hi. destruct b; cbn [Z.b2z andb].
  - destruct (Z.eqb_spec i 0) as [->|N]; [reflexivity|].
    change 1 with (2 ^ 0). rewrite Z.pow2_bits_eqb by lia.
    apply Z.eqb_neq. lia.
  - apply Z.bits_0.
Qed.

Lemma shifted_odd_testbit pos h i :
  0 <= pos -> 0 <= i ->
  Z.testbit (2 ^ pos * (2 * h + 1)) i
  = if i <? pos then false
    else if i =? pos then true else Z.testbit h (i - pos - 1).
Proof.
  intros Hp Hi. rewrite Z.mul_comm, Z.mul_pow2_bits by lia.
  destruct (Z.ltb_spec i pos).
  - apply Z.testbit_neg_r. lia.
  - destruct (Z.eqb_spec i pos).
    + subst. rewrite Z.sub_diag. apply Z.testbit_odd_0.
    + rewrite <- (Z.testbit_odd_succ h (i - pos - 1)) by lia.
      f_equal. lia.
Qed.

Lemma lowest_bit_split m pos :
  0 <= pos ->
  (forall i, 0 <= i < pos -> Z.testbit m i = false) ->
  Z.testbit m pos = true ->
  exists h, m = 2 ^ pos * (2 * h + 1).
Proof.
  intros Hp Hlow Hbit.
  exists (m / 2 ^ pos / 2).
  assert (P : 0 < 2 ^ pos) by (apply Z.pow_pos_nonneg; lia).
  assert (M : m mod 2 ^ pos = 0).
  { apply Z.bits_inj_0. intros i.
    destruct (Z.neg_nonneg_cases i) as [N|N].
    - now apply Z.testbit_neg_r.
    - destruct (Z.lt_ge_cases i pos).
      + rewrite Z.mod_pow2_bits_low by lia. apply Hlow. lia.
      + apply Z.mod_pow2_bits_high. lia. }
  assert (O : (m / 2 ^ pos) mod 2 = 1).
  { rewrite <- Z.bit0_mod, Z.div_pow2_bits by lia.
    cbn [Z.add]. now rewrite Hbit. }
  pose proof (Z.div_mod m (2 ^ pos) ltac:(lia)) as E1.
  pose proof (Z.div_mod (m / 2 ^ pos) 2 ltac:(lia)) as E2.
  rewrite O in E2. rewrite M in E1. rewrite <- E2. lia.
Qed.

Lemma opp_shifted_odd pos h :
  - (2 ^ pos * (2 * h + 1)) = 2 ^ pos * (2 * Z.lnot h + 1).
Proof. unfold Z.lnot. rewrite <- Z.sub_1_r. ring. Qed.

(** [mask & -mask] is the lowest set bit of [mask]. *)
Lemma lowest_bit m pos :
  0 <= pos < 64 ->
  (forall i, 0 <= i < pos -> Z.testbit m i = false) ->
  Z.testbit m pos = true ->
  Z.land m (neg m) = 2 ^ pos.
Proof.
  intros Hp Hlow Hbit.
  destruct (lowest_bit_split m pos ltac:(lia) Hlow Hbit) as [h ->].
  apply Z.bits_inj'. intros i Hi.
  unfold neg. rewrite Z.land_spec, wrap_testbit, opp_shifted_odd by lia.
  rewrite !shifted_odd_testbit, Z.pow2_bits_eqb by lia.
  rewrite (Z.eqb_sym pos i).
  destruct (Z.eqb_spec i pos) as [->|N].
  - rewrite Z.ltb_irrefl.
    destruct (Z.ltb_spec pos 64); [reflexivity|lia].
  - destruct (Z.ltb_spec i pos); [reflexivity|].
    rewrite Z.lnot_spec by lia.
    destruct (Z.testbit h (i - pos - 1)), (i <? 64); reflexivity.
Qed.

(** [mask & (mask - 1)] is [mask] without its lowest set bit. *)
Lemma clear_lowest_bit m pos i :
  in_range m -> 0 <= pos < 64 ->
  (forall i, 0 <= i < pos -> Z.testbit m i = false) ->
  Z.testbit m pos = true ->
  0 <= i ->
  Z.testbit (Z.land m (wrap (m - 1))) i
  = if i =? pos then false else Z.testbit m i.
Proof.
  intros Hm Hp Hlow Hbit Hi.
  rewrite Z.land_spec, wrap_testbit by lia.
  assert (B : Z.testbit (m - 1) i = negb (Z.testbit (- m) i)).
  { rewrite Z.bits_opp by lia. rewrite negb_involutive.
    now rewrite Z.sub_1_r. }
  rewrite B.
  destruct (Z.ltb_spec i 64) as [L|L].
  2:{ rewrite (in_range_testbit_high m i Hm L).
      now destruct (i =? pos). }
  destruct (lowest_bit_split m pos ltac:(lia) Hlow Hbit) as [h E].
  rewrite E, opp_shifted_odd, !shifted_odd_testbit by lia.
  destruct (Z.ltb_spec i pos).
  - destruct (Z.eqb_spec i pos); [lia|reflexivity].
  - destruct (Z.eqb_spec i pos); [reflexivity|].
    rewrite Z.lnot_spec by lia.
    now destruct (Z.testbit h (i - pos - 1)).
Qed.

Lemma land_pow2 x p :
  0 <= p -> Z.land x (2 ^ p) = if Z.testbit x p then 2 ^ p else 0.
Proof.
  intros Hp. apply Z.bits_inj'. intros i Hi.
  rewrite Z.land_spec, Z.pow2_bits_eqb by lia.
  destruct (Z.eqb_spec p i) as [->|N].
  - rewrite andb_true_r.
    destruct (Z.testbit x i) eqn:E;
      [rewrite Z.pow2_bits_eqb, Z.eqb_refl by lia; reflexivity
      |now rewrite Z.bits_0].
  - rewrite andb_false_r.
    destruct (Z.testbit x p);
      [rewrite Z.pow2_bits_eqb by lia; symmetry; now apply Z.eqb_neq
      |now rewrite Z.bits_0].
Qed.

(** ** [extract_bits] is a parallel bit extract *)

Lemma pext_from_ext x mask mask' : forall n pos k,
  (forall i, (pos <= i)%nat ->
             Z.testbit mask (Z.of_nat i) = Z.testbit mask' (Z.of_nat i)) ->
  pext_from n pos k x mask = pext_from n pos k x mask'.
Proof.
  induction n as [|n IH]; intros pos k H; [reflexivity|].
  cbn [pext_from]. rewrite <- (H pos) by lia.
  rewrite (IH (S pos) (S k)), (IH (S pos) k);
    [reflexivity| |]; intros i Hi; apply H; lia.
Qed.

Lemma extract_bits_loop_spec x : forall n pos k fuel mask bb res,
  (pos + n = 64)%nat -> (k <= pos)%nat -> in_range mask ->
  (forall i, (i < pos)%nat -> Z.testbit mask (Z.of_nat i) = false) ->
  bb = wrap (2 ^ Z.of_nat k) -> (n <= fuel)%nat ->
  extract_bits_loop fuel x mask bb res
  = (0, Z.lor res (pext_from n pos k x mask)).
Proof.
  induction n as [|n IH]; intros pos k fuel mask bb res Hn Hk Hm Hlow Hbb Hf.
  - assert (mask = 0) as ->.
    { apply Z.bits_inj_0. intros i.
      destruct (Z.neg_nonneg_cases i) as [N|N];
        [now apply Z.testbit_neg_r|].
      destruct (Z.lt_ge_cases i 64).
      - rewrite <- (Z2Nat.id i N). apply Hlow. lia.
      - now apply in_range_testbit_high. }
    cbn [pext_from]. rewrite Z.lor_0_r. destruct fuel; reflexivity.
  - assert (Hlow' : forall i, 0 <= i < Z.of_nat pos -> Z.testbit mask i = false).
    { intros i Hi. rewrite <- (Z2Nat.id i) by lia. apply Hlow. lia. }
    cbn [pext_from].
    destruct (Z.testbit mask (Z.of_nat pos)) eqn:Hbit.
    + destruct fuel as [|fuel]; [lia|].
      assert (Hne : mask <> 0).
      { intros ->. now rewrite Z.bits_0 in Hbit. }
      cbn [extract_bits_loop].
      destruct (Z.eqb_spec mask 0) as [|_]; [contradiction|].
      rewrite <- Z.land_assoc,
        (lowest_bit mask (Z.of_nat pos) ltac:(lia) Hlow' Hbit),
        land_pow2 by lia.
      assert (P : 0 < 2 ^ Z.of_nat pos) by (apply Z.pow_pos_nonneg; lia).
      assert (Hhit : negb ((if Z.testbit x (Z.of_nat pos)
                            then 2 ^ Z.of_nat pos else 0) =? 0)
                     = Z.testbit x (Z.of_nat pos)).
      { destruct (Z.testbit x (Z.of_nat pos)); [|reflexivity].
        destruct (Z.eqb_spec (2 ^ Z.of_nat pos) 0); [lia|reflexivity]. }
      rewrite Hhit.
      change (neg (Z.b2z (Z.testbit x (Z.of_nat pos))))
        with (mask_of (Z.b2z (Z.testbit x (Z.of_nat pos)))).
      rewrite land_mask_of by (subst bb; apply wrap_in_range).
      rewrite (IH (S pos) (S k) fuel); try lia.
      * assert (Ebb : (if Z.testbit x (Z.of_nat pos) then bb else 0)
                      = Z.shiftl (Z.b2z (Z.testbit x (Z.of_nat pos)))
                                 (Z.of_nat k)).
        { subst bb. rewrite wrap_small.
          - destruct (Z.testbit x (Z.of_nat pos)); cbn [Z.b2z];
              [now rewrite Z.shiftl_1_l|now rewrite Z.shiftl_0_l].
          - split; [apply Z.pow_nonneg; lia|].
            unfold wB. apply Z.pow_lt_mono_r; lia. }
        rewrite Ebb, <- Z.lor_assoc.
        rewrite (pext_from_ext x (Z.land mask (wrap (mask - 1))) mask);
          [reflexivity|].
        intros i Hi.
        rewrite (clear_lowest_bit mask (Z.of_nat pos)); auto; try lia.
        destruct (Z.eqb_spec (Z.of_nat i) (Z.of_nat pos)); [lia|reflexivity].
      * now apply land_in_range.
      * intros i Hi.
        rewrite (clear_lowest_bit mask (Z.of_nat pos)); auto; try lia.
        destruct (Z.eqb_spec (Z.of_nat i) (Z.of_nat pos)); [reflexivity|].
        apply Hlow. lia.
      * subst bb. unfold shl, wrap.
        rewrite Z.shiftl_mul_pow2 by lia.
        rewrite Z.mul_mod_idemp_l by (unfold wB; lia).
        f_equal. rewrite Nat2Z.inj_succ, Z.pow_succ_r by lia. ring.
    + apply (IH (S pos) k fuel); try lia; auto.
      intros i Hi. destruct (Nat.eq_dec i pos) as [->|N]; [assumption|].
      apply Hlow. lia.
Qed.

Lemma extract_bits_loop_ends x mask :
  in_range mask ->
  extract_bits_loop 64 x mask 1 0 = (0, pext x mask).
Proof.
  intros Hm. unfold pext.
  rewrite <- (Z.lor_0_l (pext_from 64 0 0 x mask)).
  apply extract_bits_loop_spec;
    [reflexivity|apply le_n|exact Hm|intros i Hi; lia|reflexivity|apply le_n].
Qed.

Lemma extract_bits_pext x mask :
  in_range mask -> extract_bits x mask = pext x mask.
Proof.
  intros Hm. unfold extract_bits. now rewrite extract_bits_loop_ends.
Qed.

(** ** Where the extracted bits go *)

Lemma pext_from_nonneg x mask : forall n pos k, 0 <= pext_from n pos k x mask.
Proof.
  induction n as [|n IH]; intros pos k; cbn [pext_from]; [lia|].
  destruct (Z.testbit mask (Z.of_nat pos)); [|apply IH].
  apply Z.lor_nonneg. split; [|apply IH].
  apply Z.shiftl_nonneg. now destruct (Z.testbit x (Z.of_nat pos)).
Qed.

Lemma pext_from_low x mask : forall n pos k j,
  0 <= j < Z.of_nat k -> Z.testbit (pext_from n pos k x mask) j = false.
Proof.
  induction n as [|n IH]; intros pos k j Hj; cbn [pext_from];
    [apply Z.bits_0|].
  destruct (Z.testbit mask (Z.of_nat pos)); [|now apply IH].
  rewrite Z.lor_spec, Z.shiftl_spec by lia.
  rewrite Z.testbit_neg_r by lia. apply IH. lia.
Qed.

Lemma pext_from_high x mask : forall n pos k j,
  Z.of_nat (k + count_bits n pos mask) <= j ->
  Z.testbit (pext_from n pos k x mask) j = false.
Proof.
  induction n as [|n IH]; intros pos k j Hj;
    cbn [pext_from count_bits] in *; [apply Z.bits_0|].
  destruct (Z.testbit mask (Z.of_nat pos)).
  - rewrite Z.lor_spec, Z.shiftl_spec, b2z_testbit by lia.
    destruct (Z.eqb_spec (j - Z.of_nat k) 0); [lia|].
    rewrite andb_false_r. apply IH. lia.
  - apply IH. lia.
Qed.

Lemma pext_from_selects x mask : forall n pos k p,
  (pos <= p < pos + n)%nat ->
  Z.testbit mask (Z.of_nat p) = true ->
  Z.testbit (pext_from n pos k x mask)
            (Z.of_nat (k + count_bits (p - pos) pos mask))
  = Z.testbit x (Z.of_nat p).
Proof.
  induction n as [|n IH]; intros pos k p Hp Hbit; [lia|].
  cbn [pext_from].
  destruct (Nat.eq_dec p pos) as [->|N].
  - rewrite Hbit, Nat.sub_diag. cbn [count_bits]. rewrite Nat.add_0_r.
    rewrite Z.lor_spec, Z.shiftl_spec, Z.sub_diag, b2z_testbit by lia.
    rewrite pext_from_low by lia.
    cbn. now rewrite andb_true_r, orb_false_r.
  - replace (p - pos)%nat with (S (p - S pos)) by lia.
    cbn [count_bits].
    destruct (Z.testbit mask (Z.of_nat pos)).
    + rewrite Z.lor_spec, Z.shiftl_spec, b2z_testbit by lia.
      match goal with
      | |- context [?a =? 0] => destruct (Z.eqb_spec a 0) as [E|_]; [lia|]
      end.
      rewrite andb_false_r. cbn [orb].
      replace (k + (1 + count_bits (p - S pos) (S pos) mask))%nat
        with (S k + count_bits (p - S pos) (S pos) mask)%nat by lia.
      apply IH; [lia|assumption].
    + cbn [Nat.add]. apply IH; [lia|assumption].
Qed.

Lemma count_bits_le mask : forall n pos, (count_bits n pos mask <= n)%nat.
Proof.
  induction n as [|n IH]; intros pos; cbn [count_bits]; [lia|].
  specialize (IH (S pos)). destruct (Z.testbit mask (Z.of_nat pos)); lia.
Qed.

Lemma count_bits_app mask : forall a b pos,
  count_bits (a + b) pos mask
  = (count_bits a pos mask + count_bits b (pos + a) mask)%nat.
Proof.
  induction a as [|a IH]; intros b pos; cbn [count_bits Nat.add].
  - now rewrite Nat.add_0_r.
  - rewrite IH. replace (S pos + a)%nat with (pos + S a)%nat by lia. lia.
Qed.

Lemma lnot64_testbit mask i :
  0 <= i -> Z.testbit (lnot64 mask) i = (i <? 64) && negb (Z.testbit mask i).
Proof.
  intros Hi. unfold lnot64. rewrite wrap_testbit, Z.lnot_spec by lia.
  reflexivity.
Qed.

Lemma count_bits_lnot64 mask : forall n pos,
  (pos + n <= 64)%nat ->
  (count_bits n pos (lnot64 mask) + count_bits n pos mask = n)%nat.
Proof.
  induction n as [|n IH]; intros pos H; cbn [count_bits]; [reflexivity|].
  specialize (IH (S pos) ltac:(lia)).
  rewrite lnot64_testbit by lia.
  destruct (Z.ltb_spec (Z.of_nat pos) 64); [|lia].
  destruct (Z.testbit mask (Z.of_nat pos)); cbn [andb negb]; lia.
Qed.

(** A set position has fewer set positions below it than there are in
    the whole word. *)
Lemma rank_lt_popcount mask p :
  (p < 64)%nat -> Z.testbit mask (Z.of_nat p) = true ->
  (rank mask p < popcount mask)%nat.
Proof.
  intros Hp Hbit. unfold popcount, rank.
  replace 64%nat with (p + S (63 - p))%nat by lia.
  rewrite count_bits_app. cbn [count_bits Nat.add].
  rewrite Hbit. lia.
Qed.

Lemma popcount_lnot64 mask :
  (popcount (lnot64 mask) + popcount mask = 64)%nat.
Proof. apply (count_bits_lnot64 mask 64 0). lia. Qed.

Lemma pext_selects x mask p :
  (p < 64)%nat -> Z.testbit mask (Z.of_nat p) = true ->
  Z.testbit (pext x mask) (Z.of_nat (rank mask p))
  = Z.testbit x (Z.of_nat p).
Proof.
  intros Hp Hbit. unfold pext, rank.
  pose proof (pext_from_selects x mask 64 0 0 p ltac:(lia) Hbit) as H.
  rewrite Nat.sub_0_r in H. exact H.
Qed.

Lemma pext_high x mask j :
  Z.of_nat (popcount mask) <= j -> Z.testbit (pext x mask) j = false.
Proof.
  intros Hj. apply pext_from_high. exact Hj.
Qed.

Lemma pext_in_range x mask : in_range (pext x mask).
Proof.
  apply testbit_range; [apply pext_from_nonneg|].
  intros i Hi. apply pext_high. unfold popcount, rank.
  pose proof (count_bits_le mask 64 0). lia.
Qed.

Lemma shuffle_word_bits (t : nat) w mask p :
  in_range mask -> popcount mask = t -> (p < 64)%nat ->
  (shuffle_target t mask p < 64)%nat /\
  Z.testbit (Z.lor (shl (extract_bits w mask) (64 - Z.of_nat t))
                   (extract_bits w (lnot64 mask)))
            (Z.of_nat (shuffle_target t mask p))
  = Z.testbit w (Z.of_nat p).
Proof.
  intros Hm Ht Hp.
  pose proof (popcount_lnot64 mask) as Hc.
  assert (T : (t <= 64)%nat) by lia.
  rewrite !extract_bits_pext by (auto; apply wrap_in_range).
  unfold shuffle_target.
  destruct (Z.testbit mask (Z.of_nat p)) eqn:Hbit.
  - pose proof (rank_lt_popcount mask p Hp Hbit) as R.
    split; [lia|].
    rewrite Z.lor_spec. unfold shl.
    rewrite wrap_testbit, Z.shiftl_spec by lia.
    rewrite (pext_high w (lnot64 mask)) by lia.
    rewrite orb_false_r.
    destruct (Z.ltb_spec (Z.of_nat (64 - t + rank mask p)) 64); [|lia].
    cbn [andb].
    replace (Z.of_nat (64 - t + rank mask p) - (64 - Z.of_nat t))
      with (Z.of_nat (rank mask p)) by lia.
    now apply pext_selects.
  - assert (Hbit' : Z.testbit (lnot64 mask) (Z.of_nat p) = true).
    { rewrite lnot64_testbit, Hbit by lia.
      destruct (Z.ltb_spec (Z.of_nat p) 64); [reflexivity|lia]. }
    pose proof (rank_lt_popcount (lnot64 mask) p Hp Hbit') as R.
    split; [lia|].
    rewrite Z.lor_spec. unfold shl.
    rewrite wrap_testbit, Z.shiftl_spec by lia.
    rewrite (Z.testbit_neg_r (pext w mask)) by lia.
    rewrite andb_false_r. cbn [orb].
    now apply pext_selects.
Qed.

Lemma rank_lt mask p q :
  (p < q)%nat -> Z.testbit mask (Z.of_nat p) = true ->
  (rank mask p < rank mask q)%nat.
Proof.
  intros L Hbit. unfold rank.
  replace q with (p + S (q - p - 1))%nat by lia.
  rewrite count_bits_app. cbn [count_bits Nat.add]. rewrite Hbit. lia.
Qed.

Lemma rank_inj mask p q :
  Z.testbit mask (Z.of_nat p) = true -> Z.testbit mask (Z.of_nat q) = true ->
  rank mask p = rank mask q -> p = q.
Proof.
  intros Bp Bq E. destruct (Nat.lt_trichotomy p q) as [L|[L|L]]; auto.
  - pose proof (rank_lt mask p q L Bp). lia.
  - pose proof (rank_lt mask q p L Bq). lia.
Qed.

Lemma lnot64_set mask p :
  (p < 64)%nat -> Z.testbit mask (Z.of_nat p) = false ->
  Z.testbit (lnot64 mask) (Z.of_nat p) = true.
Proof.
  intros Hp Hbit. rewrite lnot64_testbit, Hbit by lia.
  destruct (Z.ltb_spec (Z.of_nat p) 64); [reflexivity|lia].
Qed.

(** No two positions are moved to the same place. *)
Lemma shuffle_target_inj t mask p q :
  popcount mask = t -> (p < 64)%nat -> (q < 64)%nat ->
  shuffle_target t mask q = shuffle_target t mask p -> q = p.
Proof.
  intros Ht Hp Hq E. pose proof (popcount_lnot64 mask) as Hc.
  unfold shuffle_target in E.
  destruct (Z.testbit mask (Z.of_nat p)) eqn:Bp;
    destruct (Z.testbit mask (Z.of_nat q)) eqn:Bq.
  - apply (rank_inj mask); auto. lia.
  - pose proof (rank_lt_popcount (lnot64 mask) q Hq (lnot64_set mask q Hq Bq)).
    lia.
  - pose proof (rank_lt_popcount (lnot64 mask) p Hp (lnot64_set mask p Hp Bp)).
    lia.
  - apply (rank_inj (lnot64 mask)); auto using lnot64_set.
Qed.

Lemma shuffled_word_in_range w mask s :
  in_range (Z.lor (shl (extract_bits w mask) s)
                  (extract_bits w (lnot64 mask))).
Proof.
  apply lor_in_range; [apply wrap_in_range|].
  rewrite extract_bits_pext by apply wrap_in_range. apply pext_in_range.
Qed.

(** [extract_bits(in, mask)] uses up the mask within 64 turns and packs
    the masked bits of [in]: the bit at a set position [p] of [mask]
    lands at the position given by the number of set bits of [mask]
    below [p], and every bit of the result from the number of set bits
    of [mask] upward is zero. *)
Theorem extract_bits_packs (x mask : word) :
  in_range mask ->
  fst (extract_bits_loop 64 x mask 1 0) = 0 /\
  (forall p, (p < 64)%nat -> Z.testbit mask (Z.of_nat p) = true ->
     Z.testbit (extract_bits x mask) (Z.of_nat (rank mask p))
     = Z.testbit x (Z.of_nat p)) /\
  (forall p q, (p < q)%nat -> Z.testbit mask (Z.of_nat p) = true ->
     (rank mask p < rank mask q)%nat) /\
  (forall j, Z.of_nat (popcount mask) <= j ->
     Z.testbit (extract_bits x mask) j = false) /\
  in_range (extract_bits x mask).
Proof.
  intros Hm. rewrite extract_bits_loop_ends, extract_bits_pext by assumption.
  split; [reflexivity|]. split; [|split; [|split]].
  - intros p Hp Hbit. now apply pext_selects.
  - intros p q. apply rank_lt.
  - intros j Hj. now apply pext_high.
  - apply pext_in_range.
Qed.

Lemma shuffle_read x (mask : word) (f : word -> word) :
  (1 <= width x)%nat -> (width x <= length (mem x))%nat ->
  let last := (width x - 1)%nat in
  let y := set_mem x (upd (mem x) (FIRST_ROW x + last)
                        (f (rd (mem x) (FIRST_ROW x + last)))) in
  rd (mem y) last = f (rd (mem x) last) /\
  (forall i, i <> last -> rd (mem y) i = rd (mem x) i) /\
  length (mem y) = length (mem x).
Proof.
  intros Hw Hl last y. unfold y, FIRST_ROW. cbn [mem set_mem Nat.add].
  split; [|split].
  - unfold rd. rewrite rd_upd_eq by (unfold last; lia). reflexivity.
  - intros i Hi. unfold rd. now rewrite rd_upd_neq by auto.
  - apply upd_length.
Qed.

(** With a mask of exactly 30 set bits [mzd_shuffle_30] permutes the
    bits of the last word of the first row: bit [p] moves to
    [shuffle_target 30 mask p], which puts the masked bits, in order, at
    positions 34 to 63 and the other bits, in order, at positions 0 to
    33.  [mzd_shuffle_3] does the same with 3 mask bits and positions 61
    to 63.  No other word changes. *)
Theorem mzd_shuffle_moves_bits (x : mzd_local_t) (mask : word) (p : nat) :
  (1 <= width x)%nat -> (width x <= length (mem x))%nat ->
  in_range mask -> (p < 64)%nat ->
  let last := (width x - 1)%nat in
  (popcount mask = 30%nat ->
   Z.testbit (rd (mem (mzd_shuffle_30 x mask)) last)
             (Z.of_nat (shuffle_target 30 mask p))
   = Z.testbit (rd (mem x) last) (Z.of_nat p) /\
   (shuffle_target 30 mask p < 64)%nat /\
   (Z.testbit mask (Z.of_nat p) = true <->
    (34 <= shuffle_target 30 mask p)%nat) /\
   (forall q, (q < 64)%nat ->
      shuffle_target 30 mask q = shuffle_target 30 mask p -> q = p)) /\
  (popcount mask = 3%nat ->
   Z.testbit (rd (mem (mzd_shuffle_3 x mask)) last)
             (Z.of_nat (shuffle_target 3 mask p))
   = Z.testbit (rd (mem x) last) (Z.of_nat p) /\
   (shuffle_target 3 mask p < 64)%nat /\
   (Z.testbit mask (Z.of_nat p) = true <->
    (61 <= shuffle_target 3 mask p)%nat) /\
   (forall q, (q < 64)%nat ->
      shuffle_target 3 mask q = shuffle_target 3 mask p -> q = p)) /\
  (forall i, i <> last ->
     rd (mem (mzd_shuffle_30 x mask)) i = rd (mem x) i /\
     rd (mem (mzd_shuffle_3 x mask)) i = rd (mem x) i) /\
  in_range (rd (mem (mzd_shuffle_30 x mask)) last) /\
  in_range (rd (mem (mzd_shuffle_3 x mask)) last).
Proof.
  intros Hw Hl Hm Hp last.
  pose proof (popcount_lnot64 mask) as Hc.
  destruct (shuffle_read x mask
              (fun w => Z.lor (shl (extract_bits w mask) 34)
                              (extract_bits w (lnot64 mask))) Hw Hl)
    as (R30 & O30 & _).
  destruct (shuffle_read x mask
              (fun w => Z.lor (shl (extract_bits w mask) 61)
                              (extract_bits w (lnot64 mask))) Hw Hl)
    as (R3 & O3 & _).
  fold last in R30, O30, R3, O3.
  change (set_mem x _) with (mzd_shuffle_30 x mask) in R30, O30.
  change (set_mem x _) with (mzd_shuffle_3 x mask) in R3, O3.
  assert (Side : forall t, popcount mask = t ->
            (Z.testbit mask (Z.of_nat p) = true <->
             (64 - t <= shuffle_target t mask p)%nat)).
  { intros t Ht. unfold shuffle_target.
    destruct (Z.testbit mask (Z.of_nat p)) eqn:Bp.
    - split; [lia|reflexivity].
    - pose proof (rank_lt_popcount (lnot64 mask) p Hp
                    (lnot64_set mask p Hp Bp)).
      split; [discriminate|lia]. }
  split; [|split; [|split; [|split]]].
  - intros Ht.
    destruct (shuffle_word_bits 30 (rd (mem x) last) mask p Hm Ht Hp)
      as [B1 B2].
    rewrite R30. split; [exact B2|]. split; [exact B1|].
    split; [exact (Side 30%nat Ht)|].
    intros q Hq. now apply shuffle_target_inj.
  - intros Ht.
    destruct (shuffle_word_bits 3 (rd (mem x) last) mask p Hm Ht Hp)
      as [B1 B2].
    rewrite R3. split; [exact B2|]. split; [exact B1|].
    split; [exact (Side 3%nat Ht)|].
    intros q Hq. now apply shuffle_target_inj.
  - intros i Hi. split; [now apply O30|now apply O3].
  - rewrite R30. apply shuffled_word_in_range.
  - rewrite R3. apply shuffled_word_in_range.
Qed.

Lemma mask30_in_range : in_range Examples.mask30.
Proof. apply in_rangeb_spec. reflexivity. Qed.

Lemma extract_bits_packs_witness :
  fst (extract_bits_loop 64 9223372122754121728 Examples.mask30 1 0) = 0 /\
  extract_bits 9223372122754121728 Examples.mask30 = 98304.
Proof.
  split; [|vm_compute; reflexivity].
  exact (proj1 (extract_bits_packs 9223372122754121728 Examples.mask30
                  mask30_in_range)).
Defined.

Lemma mzd_shuffle_moves_bits_witness :
  Z.testbit (rd (mem (mzd_shuffle_30 Examples.v192_top Examples.mask30)) 2)
            (Z.of_nat (shuffle_target 30 Examples.mask30 36))
  = Z.testbit (rd (mem Examples.v192_top) 2) (Z.of_nat 36) /\
  shuffle_target 30 Examples.mask30 36 = 50%nat /\
  mem (mzd_shuffle_30 Examples.v192_top Examples.mask30)
  = [5; 6; 1688858450198528; 0].
Proof.
  split; [|split; vm_compute; reflexivity].
  exact (proj1 (proj1 (mzd_shuffle_moves_bits Examples.v192_top
                         Examples.mask30 36
                         (proj1 (Nat.leb_le 1 3) eq_refl)
                         (proj1 (Nat.leb_le 3 4) eq_refl)
                         mask30_in_range
                         (proj1 (Nat.ltb_lt 36 64) eq_refl))
                  eq_refl)).
Defined.

(** ** The shuffles by [pext] *)

Lemma pext_from_app x m : forall a b pos k,
  pext_from (a + b) pos k x m
  = Z.lor (pext_from a pos k x m)
          (pext_from b (pos + a) (k + count_bits a pos m) x m).
Proof.
  induction a as [|a IH]; intros b pos k; cbn [pext_from count_bits Nat.add].
  - rewrite Z.lor_0_l, !Nat.add_0_r. reflexivity.
  - replace (pos + S a)%nat with (S pos + a)%nat by lia.
    destruct (Z.testbit m (Z.of_nat pos)).
    + rewrite IH, Z.lor_assoc.
      replace (k + (1 + count_bits a (S pos) m))%nat
        with (S k + count_bits a (S pos) m)%nat by lia.
      reflexivity.
    + rewrite IH. reflexivity.
Qed.

Lemma pext_from_shift_pos x m d : forall n pos k,
  pext_from n (pos + d) k x m
  = pext_from n pos k (Z.shiftr x (Z.of_nat d)) (Z.shiftr m (Z.of_nat d)).
Proof.
  induction n as [|n IH]; intros pos k; cbn [pext_from]; [reflexivity|].
  rewrite !Z.shiftr_spec by lia.
  replace (Z.of_nat pos + Z.of_nat d) with (Z.of_nat (pos + d)) by lia.
  rewrite <- (IH (S pos) k), <- (IH (S pos) (S k)). reflexivity.
Qed.

Lemma pext_from_shift_k x m d : forall n pos k,
  pext_from n pos (k + d) x m
  = Z.shiftl (pext_from n pos k x m) (Z.of_nat d).
Proof.
  induction n as [|n IH]; intros pos k; cbn [pext_from];
    [now rewrite Z.shiftl_0_l|].
  destruct (Z.testbit m (Z.of_nat pos)); [|apply IH].
  rewrite Z.shiftl_lor, Z.shiftl_shiftl by lia.
  rewrite <- (IH (S pos) (S k)). cbn [Nat.add].
  now rewrite Nat2Z.inj_add.
Qed.

Lemma pext_from_ext_range x x' m m' : forall n pos k,
  (forall i, (pos <= i < pos + n)%nat ->
     Z.testbit x (Z.of_nat i) = Z.testbit x' (Z.of_nat i) /\
     Z.testbit m (Z.of_nat i) = Z.testbit m' (Z.of_nat i)) ->
  pext_from n pos k x m = pext_from n pos k x' m'.
Proof.
  induction n as [|n IH]; intros pos k H; [reflexivity|].
  cbn [pext_from].
  destruct (H pos ltac:(lia)) as [-> ->].
  rewrite (IH (S pos) (S k)), (IH (S pos) k);
    [reflexivity| |]; intros i Hi; apply H; lia.
Qed.

Lemma count_bits_ext m m' : forall n pos,
  (forall i, (pos <= i < pos + n)%nat ->
     Z.testbit m (Z.of_nat i) = Z.testbit m' (Z.of_nat i)) ->
  count_bits n pos m = count_bits n pos m'.
Proof.
  induction n as [|n IH]; intros pos H; [reflexivity|].
  cbn [count_bits]. rewrite (H pos) by lia.
  rewrite (IH (S pos)); [reflexivity|]. intros i Hi. apply H. lia.
Qed.

Lemma count_bits_shift m d : forall n pos,
  count_bits n (pos + d) m = count_bits n pos (Z.shiftr m (Z.of_nat d)).
Proof.
  induction n as [|n IH]; intros pos; cbn [count_bits]; [reflexivity|].
  rewrite Z.shiftr_spec by lia.
  replace (Z.of_nat pos + Z.of_nat d) with (Z.of_nat (pos + d)) by lia.
  rewrite <- (IH (S pos)). reflexivity.
Qed.

Lemma count_bits_zero m : forall n pos,
  (forall i, (pos <= i < pos + n)%nat -> Z.testbit m (Z.of_nat i) = false) ->
  count_bits n pos m = 0%nat.
Proof.
  induction n as [|n IH]; intros pos H; [reflexivity|].
  cbn [count_bits]. rewrite (H pos) by lia.
  rewrite (IH (S pos)); [reflexivity|]. intros i Hi. apply H. lia.
Qed.

(** The multiply-mask-remainder step of [popcount_32] counts the set
    bits of a chunk of 12 bits. *)
Definition chunk_count (c : Z) : Z :=
  Z.land (wrap (c * 281543712968705)) 37191016277640225 mod 31.

Lemma chunk_count_spec c :
  0 <= c < 4096 -> chunk_count c = Z.of_nat (count_bits 12 0 c).
Proof.
  intros Hc.
  assert (All : forallb (fun n => chunk_count (Z.of_nat n)
                                  =? Z.of_nat (count_bits 12 0 (Z.of_nat n)))
                        (seq 0 4096) = true)
    by (vm_compute; reflexivity).
  rewrite forallb_forall in All.
  specialize (All (Z.to_nat c)).
  rewrite Z2Nat.id in All by lia.
  apply Z.eqb_eq, All, in_seq.
  change (0 + 4096)%nat with (Z.to_nat 4096). lia.
Qed.

Lemma popcount_32_counts v :
  0 <= v < 2 ^ 32 -> popcount_32 v = Z.of_nat (count_bits 32 0 v).
Proof.
  intros Hv. unfold popcount_32.
  fold (chunk_count (Z.land v 4095)).
  fold (chunk_count (shr (Z.land v 16773120) 12)).
  fold (chunk_count (shr v 24)).
  assert (E1 : Z.land v 4095 = v mod 2 ^ 12).
  { change 4095 with (Z.ones 12). apply Z.land_ones. lia. }
  assert (E2 : shr (Z.land v 16773120) 12 = Z.shiftr v 12 mod 2 ^ 12).
  { unfold shr. rewrite Z.shiftr_land.
    change (Z.shiftr 16773120 12) with (Z.ones 12). apply Z.land_ones. lia. }
  assert (B3 : 0 <= shr v 24 < 256).
  { unfold shr. rewrite Z.shiftr_div_pow2 by lia.
    split; [apply Z.div_pos; lia|].
    apply Z.div_lt_upper_bound; lia. }
  rewrite E1, E2.
  rewrite !chunk_count_spec;
    [|lia|apply Z.mod_pos_bound; lia|apply Z.mod_pos_bound; lia].
  assert (C1 : count_bits 12 0 (v mod 2 ^ 12) = count_bits 12 0 v).
  { apply count_bits_ext. intros i Hi.
    apply Z.mod_pow2_bits_low. lia. }
  assert (C2 : count_bits 12 0 (Z.shiftr v 12 mod 2 ^ 12)
               = count_bits 12 12 v).
  { change (count_bits 12 12 v) with (count_bits 12 (0 + 12) v).
    rewrite (count_bits_shift v 12 12 0).
    apply count_bits_ext. intros i Hi.
    apply Z.mod_pow2_bits_low. lia. }
  assert (C3 : count_bits 12 0 (shr v 24) = count_bits 8 24 v).
  { change 12%nat with (8 + 4)%nat at 1. rewrite count_bits_app.
    rewrite (count_bits_zero (shr v 24) 4).
    - change (count_bits 8 24 v) with (count_bits 8 (0 + 24) v).
      rewrite (count_bits_shift v 24 8 0), Nat.add_0_r. reflexivity.
    - intros i Hi. unfold shr. rewrite Z.shiftr_spec by lia.
      apply Z.bits_above_log2; [lia|].
      destruct (Z.eq_dec v 0) as [->|N]; [cbn; lia|].
      assert (Z.log2 v < 32) by (apply Z.log2_lt_pow2; lia). lia. }
  rewrite C1, C2, C3.
  change 32%nat with (12 + (12 + 8))%nat.
  rewrite !count_bits_app. cbn [Nat.add].
  pose proof (count_bits_le v 12 0). pose proof (count_bits_le v 12 12).
  pose proof (count_bits_le v 8 24).
  unfold wrap, wB.
  rewrite (Z.mod_small (Z.of_nat (count_bits 12 0 v)
                        + Z.of_nat (count_bits 12 12 v))) by lia.
  rewrite (Z.mod_small _ (2 ^ 64)) by lia.
  rewrite Z.mod_small by lia. lia.
Qed.

Lemma pext_u64_pext a mask : _pext_u64 a mask = pext a mask.
Proof.
  unfold _pext_u64, _pext_u32, pext.
  assert (M : 0 <= mask mod 2 ^ 32 < 2 ^ 32) by (apply Z.mod_pos_bound; lia).
  rewrite (popcount_32_counts _ M).
  assert (C : count_bits 32 0 (mask mod 2 ^ 32) = count_bits 32 0 mask).
  { apply count_bits_ext. intros i Hi. apply Z.mod_pow2_bits_low. lia. }
  rewrite C.
  assert (L : pext_from 32 0 0 (a mod 2 ^ 32) (mask mod 2 ^ 32)
              = pext_from 32 0 0 a mask).
  { apply pext_from_ext_range. intros i Hi.
    split; apply Z.mod_pow2_bits_low; lia. }
  assert (H : pext_from 32 0 0 (shr a 32 mod 2 ^ 32) (shr mask 32 mod 2 ^ 32)
              = pext_from 32 32 0 a mask).
  { change (pext_from 32 32 0 a mask) with (pext_from 32 (0 + 32) 0 a mask).
    rewrite (pext_from_shift_pos a mask 32 32 0 0).
    apply pext_from_ext_range. intros i Hi.
    split; apply Z.mod_pow2_bits_low; lia. }
  rewrite L, H.
  change 64%nat with (32 + 32)%nat. rewrite pext_from_app.
  cbn [Nat.add]. rewrite Z.lor_comm. f_equal.
  unfold shl.
  rewrite <- (pext_from_shift_k a mask (count_bits 32 0 mask) 32 32 0).
  cbn [Nat.add]. apply wrap_small.
  apply testbit_range; [apply pext_from_nonneg|].
  intros i Hi. apply pext_from_high.
  pose proof (count_bits_le mask 32 0). pose proof (count_bits_le mask 32 32).
  lia.
Qed.

(** Where [_pext_u64] is built from two [_pext_u32] and [popcount_32],
    it computes what [extract_bits] computes, so that
    [mzd_shuffle_pext_30] and [mzd_shuffle_pext_3] change [x] as
    [mzd_shuffle_30] and [mzd_shuffle_3] do; [popcount_32] returns the
    number of set bits among the low 32. *)
Theorem mzd_shuffle_pext_is_shuffle (x : mzd_local_t) (a mask : word) :
  in_range mask ->
  popcount_32 (mask mod 2 ^ 32) = Z.of_nat (rank mask 32) /\
  _pext_u64 a mask = extract_bits a mask /\
  mzd_shuffle_pext_30 x mask = mzd_shuffle_30 x mask /\
  mzd_shuffle_pext_3 x mask = mzd_shuffle_3 x mask.
Proof.
  intros Hm. split; [|split; [|split]].
  - rewrite popcount_32_counts by (apply Z.mod_pos_bound; lia).
    unfold rank. f_equal. apply count_bits_ext. intros i Hi.
    apply Z.mod_pow2_bits_low. lia.
  - now rewrite pext_u64_pext, extract_bits_pext.
  - unfold mzd_shuffle_pext_30, mzd_shuffle_30.
    now rewrite !pext_u64_pext, !extract_bits_pext
      by (auto; apply wrap_in_range).
  - unfold mzd_shuffle_pext_3, mzd_shuffle_3.
    now rewrite !pext_u64_pext, !extract_bits_pext
      by (auto; apply wrap_in_range).
Qed.

Lemma mzd_shuffle_pext_is_shuffle_witness :
  mzd_shuffle_pext_30 Examples.v192_top Examples.mask30
  = mzd_shuffle_30 Examples.v192_top Examples.mask30 /\
  popcount_32 (Examples.mask30 mod 2 ^ 32) = 14.
Proof.
  split; [|vm_compute; reflexivity].
  exact (proj1 (proj2 (proj2 (mzd_shuffle_pext_is_shuffle Examples.v192_top
                                0 Examples.mask30 mask30_in_range)))).
Defined.

End ShuffleFacts.

(* ================================================================== *)
(** * Bits, tapes and the auxiliary-tape engine *)
(* ================================================================== *)

Module TapeFacts.

Import BinMat BinMatFacts Tape.

Lemma bytes_okb_spec l : bytes_okb l = true <-> bytes_ok l.
Proof.
  unfold bytes_okb, bytes_ok, byte_ok. rewrite forallb_forall, Forall_forall.
  split; intros H x Hx; specialize (H x Hx).
  - apply andb_true_iff in H. destruct H as [H1 H2].
    apply Z.leb_le in H1. apply Z.ltb_lt in H2. lia.
  - apply andb_true_iff. split; [apply Z.leb_le | apply Z.ltb_lt]; lia.
Qed.

Lemma rdb_ok l i : bytes_ok l -> byte_ok (rdb l i).
Proof.
  intros H. unfold rdb, rd_gen. destruct (Nat.lt_ge_cases i (length l)).
  - unfold bytes_ok in H. rewrite Forall_forall in H. apply H. now apply nth_In.
  - rewrite nth_overflow by assumption. unfold byte_ok. lia.
Qed.

Lemma upd_bytes_ok l i x : bytes_ok l -> byte_ok x -> bytes_ok (upd l i x).
Proof.
  unfold bytes_ok. intros Hl Hx. revert i.
  induction Hl as [|h t Hh Ht IH]; intros [|i]; simpl; constructor; auto.
Qed.

Lemma byte_testbit_high b t : byte_ok b -> 8 <= t -> Z.testbit b t = false.
Proof.
  intros Hb Ht. rewrite <- (Z.mod_small b (2 ^ 8)) by (change (2 ^ 8) with 256; exact Hb).
  apply Z.mod_pow2_bits_high. lia.
Qed.

Lemma is_bit_b2z x : is_bit x -> x = Z.b2z (x =? 1).
Proof. intros [-> | ->]; reflexivity. Qed.

Lemma b2z_is_bit b : is_bit (Z.b2z b).
Proof. destruct b; [right | left]; reflexivity. Qed.

Lemma getBit_testbit a n :
  getBit a n = Z.b2z (Z.testbit (rdb a (n / 8)) (7 - Z.of_nat (n mod 8))).
Proof.
  unfold getBit. rewrite land_1_b2z, Z.shiftr_spec by lia. reflexivity.
Qed.

Lemma getBit_is_bit a n : is_bit (getBit a n).
Proof. rewrite getBit_testbit. apply b2z_is_bit. Qed.

Lemma getBit_eqb a n :
  (getBit a n =? 1) = Z.testbit (rdb a (n / 8)) (7 - Z.of_nat (n mod 8)).
Proof. rewrite getBit_testbit. now destruct (Z.testbit _ _). Qed.

(** The byte [setBit] stores, bit by bit. *)
Lemma setBit_byte_testbit old (vb : bool) s t :
  0 <= s < 8 -> 0 <= t < 8 ->
  Z.testbit ((Z.lor (Z.land old (Z.lnot (Z.shiftl 1 s)))
                    (Z.shiftl (Z.b2z vb) s)) mod 256) t
  = if t =? s then vb else Z.testbit old t.
Proof.
  intros Hs Ht. change 256 with (2 ^ 8).
  rewrite Z.mod_pow2_bits_low by lia.
  rewrite Z.lor_spec, Z.land_spec, Z.lnot_spec by lia.
  rewrite Z.shiftl_1_l, Z.pow2_bits_eqb by lia.
  rewrite Z.shiftl_spec by lia.
  destruct (Z.eqb_spec t s) as [->|Hne].
  - rewrite Z.eqb_refl. cbn [negb]. rewrite andb_false_r, Z.sub_diag.
    cbn [orb]. now destruct vb.
  - replace (s =? t) with false by (symmetry; apply Z.eqb_neq; lia).
    cbn [negb]. rewrite andb_true_r.
    destruct vb; cbn [Z.b2z].
    + destruct (Z_lt_le_dec (t - s) 0).
      * rewrite (Z.testbit_neg_r 1) by lia. apply orb_false_r.
      * replace (Z.testbit 1 (t - s)) with false; [apply orb_false_r|].
        symmetry. change 1 with (2 ^ 0). rewrite Z.pow2_bits_eqb by lia.
        apply Z.eqb_neq. lia.
    + rewrite Z.bits_0. apply orb_false_r.
Qed.

Lemma setBit_length bytes n v : length (setBit bytes n v) = length bytes.
Proof. unfold setBit. apply upd_length. Qed.

Lemma setBit_bytes_ok bytes n v : bytes_ok bytes -> bytes_ok (setBit bytes n v).
Proof.
  intros H. unfold setBit. apply upd_bytes_ok; [assumption|].
  unfold byte_ok. apply Z.mod_pos_bound. lia.
Qed.

Lemma setBit_getBit bytes n v m :
  is_bit v -> (n < 8 * length bytes)%nat ->
  getBit (setBit bytes n v) m = if (m =? n)%nat then v else getBit bytes m.
Proof.
  intros Hv Hn.
  assert (Hq : (n / 8 < length bytes)%nat)
    by (apply Nat.Div0.div_lt_upper_bound; lia).
  pose proof (Nat.mod_upper_bound n 8 ltac:(lia)) as Hr.
  pose proof (Nat.mod_upper_bound m 8 ltac:(lia)) as Hr'.
  rewrite (is_bit_b2z v Hv). rewrite !getBit_testbit. unfold setBit, rdb.
  destruct (Nat.eq_dec (m / 8) (n / 8)) as [Eq|Ne].
  - rewrite Eq, rd_upd_eq by assumption.
    rewrite setBit_byte_testbit by lia.
    destruct (Nat.eqb_spec m n) as [->|Hmn].
    + now rewrite Z.eqb_refl.
    + replace (7 - Z.of_nat (m mod 8) =? 7 - Z.of_nat (n mod 8)) with false;
        [reflexivity|].
      symmetry. apply Z.eqb_neq. intros E.
      apply Hmn. rewrite (Nat.div_mod_eq m 8), (Nat.div_mod_eq n 8). lia.
  - rewrite rd_upd_neq by congruence.
    destruct (Nat.eqb_spec m n) as [->|Hmn]; [congruence | reflexivity].
Qed.

(** The shares bytes after the gathering loop. *)
Lemma gather_bits_spec n : forall i0 tapes shares,
  (i0 + n <= 8 * length shares)%nat -> bytes_ok shares ->
  length (gather_bits n i0 tapes shares) = length shares /\
  bytes_ok (gather_bits n i0 tapes shares) /\
  forall m, getBit (gather_bits n i0 tapes shares) m =
            if ((i0 <=? m) && (m <? i0 + n))%nat
            then getBit (party_tape tapes m) (pos tapes)
            else getBit shares m.
Proof.
  induction n as [|n IH]; intros i0 tapes shares Hlen Hok.
  - simpl. repeat split; auto. intros m.
    destruct (i0 <=? m)%nat eqn:E1; destruct (m <? i0 + 0)%nat eqn:E2;
      cbn [andb]; try reflexivity.
    apply Nat.leb_le in E1. apply Nat.ltb_lt in E2. lia.
  - cbn [gather_bits].
    set (bit := getBit (party_tape tapes i0) (pos tapes)).
    destruct (IH (S i0) tapes (setBit shares i0 bit)) as (L & K & R).
    { rewrite setBit_length. lia. }
    { now apply setBit_bytes_ok. }
    split; [now rewrite L, setBit_length|]. split; [exact K|].
    intros m. rewrite R, setBit_getBit by (try apply getBit_is_bit; lia).
    destruct (Nat.eqb_spec m i0) as [->|Hne].
    + replace (S i0 <=? i0)%nat with false by (symmetry; apply Nat.leb_gt; lia).
      replace (i0 <=? i0)%nat with true by (symmetry; apply Nat.leb_le; lia).
      replace (i0 <? i0 + S n)%nat with true by (symmetry; apply Nat.ltb_lt; lia).
      reflexivity.
    + destruct (S i0 <=? m)%nat eqn:E1; destruct (i0 <=? m)%nat eqn:E2;
        destruct (m <? S i0 + n)%nat eqn:E3; destruct (m <? i0 + S n)%nat eqn:E4;
        cbn [andb]; try reflexivity; exfalso;
        repeat match goal with
               | H : (_ <=? _)%nat = true |- _ => apply Nat.leb_le in H
               | H : (_ <=? _)%nat = false |- _ => apply Nat.leb_gt in H
               | H : (_ <? _)%nat = true |- _ => apply Nat.ltb_lt in H
               | H : (_ <? _)%nat = false |- _ => apply Nat.ltb_ge in H
               end; lia.
Qed.

(** Bit [8 * k + r] of a word is bit [r] of byte [k] of its bytes. *)
Lemma word_of_bytes_testbit bs : bytes_ok bs ->
  forall q, Z.testbit (word_of_bytes bs) (Z.of_nat q)
            = Z.testbit (rdb bs (q / 8)) (Z.of_nat (q mod 8)).
Proof.
  induction 1 as [|b t Hb Ht IH]; intros q.
  - cbn [word_of_bytes]. unfold rdb, rd_gen.
    rewrite nth_overflow by (simpl; lia). now rewrite !Z.bits_0.
  - cbn [word_of_bytes]. rewrite Z.lor_spec, Z.shiftl_spec by lia.
    destruct (Nat.lt_ge_cases q 8) as [Hq|Hq].
    + rewrite Nat.div_small, Nat.mod_small by assumption.
      rewrite (Z.testbit_neg_r _ (Z.of_nat q - 8)) by lia.
      rewrite orb_false_r. reflexivity.
    + rewrite (byte_testbit_high b) by (auto; lia). cbn [orb].
      replace (Z.of_nat q - 8) with (Z.of_nat (q - 8)) by lia.
      rewrite IH.
      replace q with ((q - 8) + 1 * 8)%nat at 3 4 by lia.
      rewrite Nat.div_add, Nat.Div0.mod_add by lia.
      unfold rdb, rd_gen. rewrite Nat.add_1_r. reflexivity.
Qed.

Lemma word_of_bytes_nonneg bs : bytes_ok bs -> 0 <= word_of_bytes bs.
Proof.
  induction 1 as [|b t Hb Ht IH]; cbn [word_of_bytes]; [lia|].
  apply Z.lor_nonneg. split; [unfold byte_ok in Hb; lia|].
  apply Z.shiftl_nonneg. exact IH.
Qed.

Lemma word_of_bytes_in_range bs :
  bytes_ok bs -> length bs = 8%nat -> in_range (word_of_bytes bs).
Proof.
  intros Hok Hlen. apply testbit_range; [now apply word_of_bytes_nonneg|].
  intros i Hi. replace i with (Z.of_nat (Z.to_nat i)) by lia.
  rewrite word_of_bytes_testbit by assumption.
  unfold rdb, rd_gen. rewrite nth_overflow; [apply Z.bits_0|].
  rewrite Hlen. apply Nat.div_le_lower_bound; lia.
Qed.

Lemma bytes_of_word_length w : length (bytes_of_word w) = 8%nat.
Proof. reflexivity. Qed.

Lemma bytes_of_word_rdb w k :
  (k < 8)%nat -> rdb (bytes_of_word w) k = Z.land (Z.shiftr w (8 * Z.of_nat k)) 255.
Proof.
  intros Hk. unfold rdb, rd_gen, bytes_of_word.
  do 8 (destruct k as [|k]; [reflexivity|]). lia.
Qed.

(** Reading the bytes of a word back gives the word's bytes. *)
Lemma bytes_of_word_of_bytes bs :
  bytes_ok bs -> length bs = 8%nat -> bytes_of_word (word_of_bytes bs) = bs.
Proof.
  intros Hok Hlen. apply (rd_ext Z 0); [now rewrite bytes_of_word_length|].
  intros k Hk. rewrite bytes_of_word_length in Hk.
  fold (rdb (bytes_of_word (word_of_bytes bs)) k). fold (rdb bs k).
  rewrite bytes_of_word_rdb by assumption.
  apply Z.bits_inj'. intros t Ht.
  rewrite Z.land_spec, Z.shiftr_spec by assumption.
  destruct (Z_lt_le_dec t 8) as [Hlt|Hge].
  - change 255 with (Z.ones 8). rewrite Z.ones_spec_low, andb_true_r by lia.
    replace (t + 8 * Z.of_nat k) with (Z.of_nat (Z.to_nat t + k * 8)) by lia.
    rewrite word_of_bytes_testbit by assumption.
    rewrite Nat.div_add, Nat.Div0.mod_add, Nat.div_small, Nat.mod_small by lia.
    cbn [Nat.add]. f_equal. lia.
  - change 255 with (Z.ones 8). rewrite Z.ones_spec_high, andb_false_r by lia.
    symmetry. apply byte_testbit_high; [now apply rdb_ok | assumption].
Qed.

Lemma gf2_sum_blocks k n f :
  gf2_sum (n * k) f = gf2_sum n (fun q => gf2_sum k (fun r => f (q * k + r)%nat)).
Proof.
  induction n as [|n IH]; simpl; [reflexivity|].
  rewrite Nat.add_comm, gf2_sum_app, IH. reflexivity.
Qed.

Lemma gf2_sum_rev8 (g : nat -> bool) :
  gf2_sum 8 (fun r => g (7 - r)%nat) = gf2_sum 8 g.
Proof.
  simpl. destruct (g 0%nat), (g 1%nat), (g 2%nat), (g 3%nat), (g 4%nat),
    (g 5%nat), (g 6%nat), (g 7%nat); reflexivity.
Qed.

(** The parity of a word is the XOR of the 64 bits [getBit] finds in its
    bytes. *)
Lemma pbit_word_of_bytes bs :
  bytes_ok bs ->
  pbit (word_of_bytes bs) = gf2_sum 64 (fun i => getBit bs i =? 1).
Proof.
  intros Hok. unfold pbit.
  rewrite (gf2_sum_ext 64 _ (fun q => Z.testbit (rdb bs (q / 8)) (Z.of_nat (q mod 8))))
    by (intros; now apply word_of_bytes_testbit).
  change 64%nat with (8 * 8)%nat. rewrite !(gf2_sum_blocks 8 8).
  apply gf2_sum_ext. intros q Hq.
  transitivity (gf2_sum 8 (fun r => Z.testbit (rdb bs q) (Z.of_nat r))).
  - apply gf2_sum_ext. intros r Hr.
    replace (q * 8 + r)%nat with (r + q * 8)%nat by lia.
    rewrite Nat.div_add, Nat.Div0.mod_add, Nat.div_small, Nat.mod_small by lia.
    reflexivity.
  - rewrite <- (gf2_sum_rev8 (fun r => Z.testbit (rdb bs q) (Z.of_nat r))).
    apply gf2_sum_ext. intros r Hr. rewrite getBit_eqb.
    replace (q * 8 + r)%nat with (r + q * 8)%nat by lia.
    rewrite Nat.div_add, Nat.Div0.mod_add, Nat.div_small, Nat.mod_small by lia.
    cbn [Nat.add]. f_equal. lia.
Qed.

Lemma repeat_0_bytes_ok n : bytes_ok (repeat 0 n).
Proof.
  unfold bytes_ok. apply Forall_forall. intros x Hx.
  apply repeat_spec in Hx. subst x. unfold byte_ok. lia.
Qed.

(** What [tapesToWord] returns: a word whose bytes hold party [i]'s bit at
    the cursor as bit [i], and the tapes with the cursor one further. *)
Lemma tapesToWord_spec tapes :
  exists S,
    tapesToWord tapes = (word_of_bytes S, set_pos tapes (Datatypes.S (pos tapes))) /\
    length S = 8%nat /\ bytes_ok S /\
    forall i, (i < 64)%nat ->
      getBit S i = getBit (party_tape tapes i) (pos tapes).
Proof.
  destruct (gather_bits_spec 64 0 tapes (repeat 0 8)) as (L & K & R).
  { simpl. lia. }
  { apply repeat_0_bytes_ok. }
  exists (gather_bits 64 0 tapes (repeat 0 8)).
  split; [reflexivity|]. split; [exact L|]. split; [exact K|].
  intros i Hi. rewrite R. cbn [Nat.leb andb].
  replace (i <? 0 + 64)%nat with true by (symmetry; apply Nat.ltb_lt; lia).
  reflexivity.
Qed.

(** The parity of the and-helper shares at position [p] is the XOR over
    the 64 parties of the bit each party's tape holds at [p]. *)
Lemma parity_helper_shares tapes p :
  parity64_uint64 (helper_shares tapes p)
  = Z.b2z (gf2_sum 64 (fun i => getBit (party_tape tapes i) p =? 1)).
Proof.
  unfold helper_shares.
  destruct (tapesToWord_spec (set_pos tapes p)) as (S & E & L & K & R).
  rewrite E. cbn [fst]. unfold parity64_uint64. f_equal.
  rewrite pbit_word_of_bytes by assumption.
  apply gf2_sum_ext. intros i Hi. rewrite R by assumption. reflexivity.
Qed.

Lemma party_tape_set tapes i t j :
  (i < length (tape tapes))%nat ->
  party_tape (set_party_tape tapes i t) j
  = if (j =? i)%nat then t else party_tape tapes j.
Proof.
  intros Hi. unfold party_tape, set_party_tape. cbn [tape].
  change (nth j (upd (tape tapes) i t) []) with (rd_gen [] (upd (tape tapes) i t) j).
  destruct (Nat.eqb_spec j i) as [->|Hne].
  - now apply rd_upd_eq.
  - rewrite rd_upd_neq by congruence. reflexivity.
Qed.

Lemma is_bit_land a b : is_bit a -> is_bit b -> is_bit (Z.land a b).
Proof. intros [-> | ->] [-> | ->]; cbv; auto. Qed.

Lemma is_bit_lxor a b : is_bit a -> is_bit b -> is_bit (Z.lxor a b).
Proof. intros [-> | ->] [-> | ->]; cbv; auto. Qed.

Lemma is_bit_mod256 x : is_bit x -> x mod 256 = x.
Proof. intros [-> | ->]; reflexivity. Qed.

Lemma lxor_b2z_eqb x (p : bool) :
  is_bit x -> (Z.lxor x (Z.b2z p) =? 1) = xorb (x =? 1) p.
Proof. intros [-> | ->]; destruct p; reflexivity. Qed.

(** One AND gate. *)
Lemma aux_mpc_AND_spec a b tapes bits :
  tapes_ok tapes bits -> (pos tapes + 2 <= bits)%nat ->
  is_bit a -> is_bit b ->
  let r := aux_mpc_AND a b tapes in
  let h := S (pos tapes) in
  pos (snd r) = (pos tapes + 2)%nat /\
  tapes_ok (snd r) bits /\
  (forall i p, ~ (i = 63%nat /\ p = h) ->
     getBit (party_tape (snd r) i) p = getBit (party_tape tapes i) p) /\
  getBit (party_tape (snd r) 63) h
  = Z.lxor (Z.land a b)
      (Z.b2z (gf2_sum 63 (fun i => getBit (party_tape tapes i) h =? 1))) /\
  gate_ok (snd r) h a b /\
  fst r = fst (tapesToWord tapes).
Proof.
  intros Hok Hbits Ha Hb r h.
  destruct Hok as [Hn Hlen Hbytes Hlong].
  destruct (tapesToWord_spec tapes) as (S1 & E1 & L1 & K1 & R1).
  destruct (tapesToWord_spec (set_pos tapes (S (pos tapes))))
    as (S2 & E2 & L2 & K2 & R2).
  cbn [pos set_pos] in E2, R2.
  assert (Hr : r =
    (word_of_bytes S1,
     set_party_tape (set_pos tapes (S (S (pos tapes)))) 63
       (setBit (party_tape tapes 63) h
          (Z.lxor (Z.land a b)
             (Z.b2z (gf2_sum 63
                       (fun i => getBit (party_tape tapes i) h =? 1))))))).
  { unfold r, aux_mpc_AND. rewrite E1, E2.
    cbn [nTapes set_pos pos]. rewrite Hn.
    change (64 - 1)%nat with 63%nat.
    replace (S (S (pos tapes)) - 1)%nat with h by (unfold h; lia).
    rewrite bytes_of_word_of_bytes by assumption.
    assert (HP : parity64_uint64 (word_of_bytes (setBit S2 63 0))
                 = Z.b2z (gf2_sum 63
                            (fun i => getBit (party_tape tapes i) h =? 1))).
    { unfold parity64_uint64. f_equal.
      rewrite pbit_word_of_bytes by (now apply setBit_bytes_ok).
      rewrite (gf2_sum_S 63).
      rewrite setBit_getBit by (try (left; reflexivity); lia).
      rewrite Nat.eqb_refl. change (0 =? 1) with false. rewrite xorb_false_r.
      apply gf2_sum_ext. intros i Hi.
      rewrite setBit_getBit by (try (left; reflexivity); lia).
      replace (i =? 63)%nat with false by (symmetry; apply Nat.eqb_neq; lia).
      rewrite R2 by lia. reflexivity. }
    rewrite HP.
    rewrite is_bit_mod256
      by (apply is_bit_lxor; [now apply is_bit_land | apply b2z_is_bit]).
    reflexivity. }
  set (aux := Z.lxor (Z.land a b)
                (Z.b2z (gf2_sum 63
                          (fun i => getBit (party_tape tapes i) h =? 1)))) in *.
  assert (Haux : is_bit aux)
    by (apply is_bit_lxor; [now apply is_bit_land | apply b2z_is_bit]).
  assert (Hh : (h < 8 * length (party_tape tapes 63))%nat)
    by (specialize (Hlong 63%nat ltac:(lia)); unfold h; lia).
  assert (Hpt : forall i,
            party_tape (snd r) i
            = if (i =? 63)%nat then setBit (party_tape tapes 63) h aux
              else party_tape tapes i).
  { intros i. rewrite Hr. cbn [snd].
    rewrite party_tape_set by (cbn [tape set_pos]; lia). reflexivity. }
  assert (Hframe : forall i p, ~ (i = 63%nat /\ p = h) ->
            getBit (party_tape (snd r) i) p = getBit (party_tape tapes i) p).
  { intros i p Hne. rewrite Hpt.
    destruct (Nat.eqb_spec i 63) as [->|Hi]; [|reflexivity].
    rewrite setBit_getBit by assumption.
    destruct (Nat.eqb_spec p h) as [->|Hp]; [exfalso; auto | reflexivity]. }
  assert (Hlast : getBit (party_tape (snd r) 63) h = aux).
  { rewrite Hpt. rewrite Nat.eqb_refl, setBit_getBit by assumption.
    now rewrite Nat.eqb_refl. }
  split; [rewrite Hr; cbn [snd set_party_tape pos set_pos]; lia|].
  split.
  { constructor.
    - rewrite Hr. exact Hn.
    - rewrite Hr. cbn [snd set_party_tape tape set_pos]. now rewrite upd_length.
    - intros i Hi. rewrite Hpt. destruct (i =? 63)%nat.
      + apply setBit_bytes_ok. apply Hbytes. lia.
      + now apply Hbytes.
    - intros i Hi. rewrite Hpt. destruct (i =? 63)%nat.
      + rewrite setBit_length. apply Hlong. lia.
      + now apply Hlong. }
  split; [exact Hframe|]. split; [exact Hlast|]. split.
  - unfold gate_ok. rewrite parity_helper_shares.
    rewrite (gf2_sum_S 63). rewrite Hlast.
    rewrite (gf2_sum_ext 63 _ (fun i => getBit (party_tape tapes i) h =? 1))
      by (intros i Hi; rewrite Hframe by lia; reflexivity).
    unfold aux. rewrite lxor_b2z_eqb by (now apply is_bit_land).
    rewrite xorb_comm, xorb_assoc, xorb_nilpotent, xorb_false_r.
    symmetry. apply is_bit_b2z. now apply is_bit_land.
  - rewrite Hr, E1. reflexivity.
Qed.

Lemma tapes_okb_spec tapes bits : tapes_okb tapes bits = true -> tapes_ok tapes bits.
Proof.
  unfold tapes_okb. rewrite !andb_true_iff, !Nat.eqb_eq, forallb_forall.
  intros [[Hn Hl] Hall].
  assert (Hin : forall i, (i < 64)%nat -> In (party_tape tapes i) (tape tapes)).
  { intros i Hi. unfold party_tape. apply nth_In. lia. }
  constructor; auto.
  - intros i Hi. specialize (Hall _ (Hin i Hi)).
    apply andb_true_iff in Hall. now apply bytes_okb_spec.
  - intros i Hi. specialize (Hall _ (Hin i Hi)).
    apply andb_true_iff in Hall. destruct Hall as [_ H]. now apply Nat.leb_le in H.
Qed.

Lemma tapes_ok_set_pos tapes bits p :
  tapes_ok tapes bits -> tapes_ok (set_pos tapes p) bits.
Proof. intros [H1 H2 H3 H4]. constructor; auto. Qed.

Lemma tapesToWords_spec n : forall tapes,
  snd (tapesToWords n tapes) = set_pos tapes (pos tapes + n).
Proof.
  induction n as [|n IH]; intros tapes.
  - cbn [tapesToWords snd]. rewrite Nat.add_0_r. now destruct tapes.
  - cbn [tapesToWords].
    destruct (tapesToWord_spec tapes) as (S1 & E1 & _). rewrite E1.
    specialize (IH (set_pos tapes (S (pos tapes)))).
    destruct (tapesToWords n (set_pos tapes (S (pos tapes)))) as [ws t2].
    cbn [snd] in *. rewrite IH. unfold set_pos. cbn [tape pos nTapes].
    f_equal. lia.
Qed.

Lemma party_parity_helper tapes p :
  parity64_uint64 (helper_shares tapes p) = party_parity tapes p.
Proof. apply parity_helper_shares. Qed.

(** A run of gates: each gate ends up with its invariant, and the bits
    before the starting cursor are left alone. *)
Lemma run_gates_spec gates : forall tapes bits,
  tapes_ok tapes bits -> (pos tapes + 2 * length gates <= bits)%nat ->
  Forall masks_are_bits gates ->
  let tapes' := run_gates gates tapes in
  pos tapes' = (pos tapes + 2 * length gates)%nat /\
  tapes_ok tapes' bits /\
  (forall i p, (p < pos tapes)%nat \/ (i < 63)%nat ->
     getBit (party_tape tapes' i) p = getBit (party_tape tapes i) p) /\
  forall g a b, nth_error gates g = Some (a, b) ->
    let h := (pos tapes + 2 * g + 1)%nat in
    getBit (party_tape tapes' 63) h
    = Z.lxor (Z.land a b)
        (Z.b2z (gf2_sum 63 (fun i => getBit (party_tape tapes i) h =? 1))) /\
    party_parity tapes' h = Z.land a b.
Proof.
  induction gates as [|[a0 b0] rest IH]; intros tapes bits Hok Hbits Hm tapes'.
  - subst tapes'. cbn [run_gates length].
    split; [lia|]. split; [exact Hok|]. split; [reflexivity|].
    intros g a b Hg. destruct g; discriminate.
  - subst tapes'. cbn [run_gates length] in *.
    inversion Hm as [|x l [Ha Hb] Hrest]; subst. cbn [fst snd] in Ha, Hb.
    destruct (aux_mpc_AND_spec a0 b0 tapes bits Hok ltac:(lia) Ha Hb)
      as (P1 & K1 & F1 & A1 & G1 & _).
    set (t1 := snd (aux_mpc_AND a0 b0 tapes)) in *.
    destruct (IH t1 bits K1 ltac:(lia) Hrest) as (P2 & K2 & F2 & G2).
    split; [lia|]. split; [exact K2|]. split.
    + intros i p Hp. rewrite F2 by lia. apply F1. lia.
    + intros g a b Hg. destruct g as [|g].
      * injection Hg as <- <-. cbn zeta.
        replace (pos tapes + 2 * 0 + 1)%nat with (S (pos tapes)) by lia.
        split.
        -- rewrite F2 by lia. exact A1.
        -- unfold gate_ok in G1. rewrite party_parity_helper in G1.
           rewrite <- G1. unfold party_parity. f_equal.
           apply gf2_sum_ext. intros i Hi. rewrite F2 by lia. reflexivity.
      * cbn [nth_error] in Hg. specialize (G2 g a b Hg). cbn zeta in G2 |- *.
        replace (pos tapes + 2 * S g + 1)%nat with (pos t1 + 2 * g + 1)%nat by lia.
        destruct G2 as [G2a G2b]. split; [|exact G2b].
        rewrite G2a. do 2 f_equal. apply gf2_sum_ext. intros i Hi.
        rewrite F1 by lia. reflexivity.
Qed.

Lemma run_gates_app l1 : forall l2 tapes,
  run_gates (l1 ++ l2) tapes = run_gates l2 (run_gates l1 tapes).
Proof.
  induction l1 as [|[a b] l1 IH]; intros l2 tapes; cbn [run_gates app]; auto.
Qed.

(** One turn of the S-box loop is a run of its three gates, whose masks
    are bits. *)
Lemma sbox_aux_step_run i state tapes :
  snd (sbox_aux_step i (state, tapes))
  = run_gates (sbox_aux_step_gates i state) tapes /\
  Forall masks_are_bits (sbox_aux_step_gates i state).
Proof.
  unfold sbox_aux_step_gates. split.
  - unfold sbox_aux_step. cbn [run_gates].
    destruct (aux_mpc_AND (getBit state (i + 2)) (getBit state (i + 1)) tapes)
      as [m1 t1]. cbn [snd].
    destruct (aux_mpc_AND (getBit state (i + 1)) (getBit state (i + 0)) t1)
      as [m2 t2]. cbn [snd].
    destruct (aux_mpc_AND (getBit state (i + 0)) (getBit state (i + 2)) t2)
      as [m3 t3]. reflexivity.
  - repeat (apply Forall_cons; [split; apply getBit_is_bit|]). apply Forall_nil.
Qed.

Lemma sbox_aux_loop_run n : forall i st,
  snd (sbox_aux_loop n i st) = run_gates (sbox_aux_loop_gates n i st) (snd st) /\
  length (sbox_aux_loop_gates n i st) = (3 * n)%nat /\
  Forall masks_are_bits (sbox_aux_loop_gates n i st).
Proof.
  induction n as [|n IH]; intros i [state tapes];
    cbn [sbox_aux_loop sbox_aux_loop_gates fst snd].
  - repeat split; constructor.
  - destruct (sbox_aux_step_run i state tapes) as [E1 M1].
    destruct (IH (i + 3)%nat (sbox_aux_step i (state, tapes)))
      as (E2 & L2 & M2).
    split; [|split].
    + rewrite E2, E1. symmetry. apply run_gates_app.
    + rewrite length_app, L2. unfold sbox_aux_step_gates. cbn [length]. lia.
    + apply Forall_app. split; assumption.
Qed.

(** [sbox_layer_10_uint64_aux] touches the tapes through its 30 AND
    gates, whose input masks are bits. *)
Lemma sbox_layer_10_uint64_aux_run d tapes :
  snd (sbox_layer_10_uint64_aux d tapes)
  = run_gates (sbox_layer_10_gates d tapes) tapes /\
  length (sbox_layer_10_gates d tapes) = 30%nat /\
  Forall masks_are_bits (sbox_layer_10_gates d tapes).
Proof.
  unfold sbox_layer_10_uint64_aux, sbox_layer_10_gates.
  destruct (sbox_aux_loop_run 10 0 (be_bytes_of_word d, tapes))
    as (E & L & M).
  split; [|split; [exact L | exact M]].
  destruct (sbox_aux_loop 10 0 (be_bytes_of_word d, tapes)) as [st t].
  exact E.
Qed.

(** C4.  Let [gates] be the AND gates the cipher's aux evaluation
    processes through [aux_mpc_AND] on the key and the tapes
    [computeAuxTape] hands it, as [sbox_layer_10_uint64_aux] processes
    its 30 gates per layer.  Then after [computeAuxTape] the cursor is
    back at 0 and, for every gate [g] of [gates], with input masks
    [mask_a], [mask_b] and its and-helper word at tape position [h]:
    party 63's tape holds at [h] the bit
    [(mask_a AND mask_b) XOR parity(helper shares of parties 0..62)], and
    the XOR-parity over all 64 parties of the and-helper shares equals
    [mask_a AND mask_b].  The tapes of the parties 0 to 62 and the bits
    read for the key are not changed. *)
Theorem computeAuxTape_and_gate_invariant
  (mzd_from_char_array : mzd_local_t -> list Z -> nat -> mzd_local_t)
  (lowmc_aux_impl : mzd_local_t -> randomTape_t -> randomTape_t)
  (n : nat) (tapes : randomTape_t) (bits : nat)
  (gates : list (word * word)) :
  tapes_ok tapes bits ->
  Forall masks_are_bits gates ->
  (pos tapes + n + 2 * length gates <= bits)%nat ->
  let lowmc_key :=
    mzd_from_char_array (mzd_local_init_ex [] n 1 true)
      (key_bits (fst (tapesToWords n tapes)) 0%nat (repeat 0 32))
      (n / 8)%nat in
  let tapes1 := snd (tapesToWords n tapes) in
  lowmc_aux_impl lowmc_key tapes1 = run_gates gates tapes1 ->
  let tapes' := computeAuxTape mzd_from_char_array lowmc_aux_impl n tapes in
  pos tapes' = 0%nat /\
  (forall g mask_a mask_b, nth_error gates g = Some (mask_a, mask_b) ->
     let h := (pos tapes + n + 2 * g + 1)%nat in
     getBit (party_tape tapes' 63) h
     = Z.lxor (Z.land mask_a mask_b)
         (Z.b2z (gf2_sum 63 (fun i => getBit (party_tape tapes i) h =? 1))) /\
     party_parity tapes' h = Z.land mask_a mask_b /\
     parity64_uint64 (helper_shares tapes' h) = Z.land mask_a mask_b) /\
  (forall i p, (i < 63)%nat \/ (p < pos tapes + n)%nat ->
     getBit (party_tape tapes' i) p = getBit (party_tape tapes i) p) /\
  (forall d t,
     snd (sbox_layer_10_uint64_aux d t)
     = run_gates (sbox_layer_10_gates d t) t /\
     length (sbox_layer_10_gates d t) = 30%nat /\
     Forall masks_are_bits (sbox_layer_10_gates d t)).
Proof.
  intros Hok Hm Hbits lowmc_key tapes1 Himpl tapes'.
  assert (E : tapes' = set_pos (run_gates gates tapes1) 0).
  { unfold tapes', computeAuxTape. fold lowmc_key.
    unfold lowmc_key, tapes1 in *.
    destruct (tapesToWords n tapes) as [key t1]. cbn [fst snd] in *.
    now rewrite Himpl. }
  assert (E1 : tapes1 = set_pos tapes (pos tapes + n))
    by apply tapesToWords_spec.
  destruct (run_gates_spec gates tapes1 bits) as (_ & _ & F & G).
  { rewrite E1. now apply tapes_ok_set_pos. }
  { rewrite E1. cbn [pos set_pos]. lia. }
  { exact Hm. }
  assert (P : forall i, party_tape tapes' i
                        = party_tape (run_gates gates tapes1) i)
    by (intros i; rewrite E; reflexivity).
  assert (P1 : forall i, party_tape tapes1 i = party_tape tapes i)
    by (intros i; rewrite E1; reflexivity).
  assert (PP : forall p, party_parity tapes' p
                         = party_parity (run_gates gates tapes1) p).
  { intros p. unfold party_parity. f_equal. apply gf2_sum_ext.
    intros i Hi. now rewrite P. }
  split; [rewrite E; reflexivity|]. split; [|split].
  - intros g a b Hg. specialize (G g a b Hg). cbn zeta in G |- *.
    assert (Hp1 : pos tapes1 = (pos tapes + n)%nat)
      by (rewrite E1; reflexivity).
    rewrite Hp1 in G. destruct G as [G1 G2].
    rewrite P, PP, party_parity_helper, PP.
    split; [|split; exact G2].
    rewrite G1. do 2 f_equal. apply gf2_sum_ext. intros i Hi.
    now rewrite P1.
  - intros i p Hp. rewrite P, F, P1; [reflexivity|].
    assert (Hp1 : pos tapes1 = (pos tapes + n)%nat)
      by (rewrite E1; reflexivity).
    rewrite Hp1. tauto.
  - intros d t. apply sbox_layer_10_uint64_aux_run.
Qed.

Lemma demo_gates_values :
  firstn 8 Examples.demo_gates
  = [(0, 0); (0, 1); (1, 0); (0, 1); (1, 1); (1, 0); (0, 1); (1, 0)].
Proof. vm_compute. reflexivity. Qed.

Lemma demo_tapes_ok : tapes_ok Examples.demo_tapes 96.
Proof. apply tapes_okb_spec. vm_compute. reflexivity. Qed.

Lemma demo_gates_bits : Forall masks_are_bits Examples.demo_gates.
Proof. unfold Examples.demo_gates. apply sbox_layer_10_uint64_aux_run. Qed.

Lemma demo_gates_fit :
  (pos Examples.demo_tapes + 8 + 2 * length Examples.demo_gates <= 96)%nat.
Proof.
  unfold Examples.demo_gates.
  rewrite (proj1 (proj2 (sbox_layer_10_uint64_aux_run _ _))). cbn. lia.
Qed.

Lemma demo_aux_runs :
  Examples.demo_lowmc_aux
    (Examples.demo_from_char_array (mzd_local_init_ex [] 8 1 true)
       (key_bits (fst (tapesToWords 8 Examples.demo_tapes)) 0 (repeat 0 32))
       (8 / 8)%nat)
    (snd (tapesToWords 8 Examples.demo_tapes))
  = run_gates Examples.demo_gates (snd (tapesToWords 8 Examples.demo_tapes)).
Proof.
  unfold Examples.demo_lowmc_aux, Examples.demo_gates.
  apply sbox_layer_10_uint64_aux_run.
Qed.

Lemma demo_gate_1 : nth_error Examples.demo_gates 1 = Some (0, 1).
Proof. vm_compute. reflexivity. Qed.

Lemma demo_gate_4 : nth_error Examples.demo_gates 4 = Some (1, 1).
Proof. vm_compute. reflexivity. Qed.

Lemma demo_parity_before : party_parity Examples.demo_tapes 11 = 1.
Proof. vm_compute. reflexivity. Qed.

(** The theorem on 64 tapes of 96 bits, a key of 8 bits and one S-box
    layer: the 30 gates sit at the odd positions 9, 11, ..., 67.  Gate 1
    has masks 0 and 1 and turns the party parity at position 11 from 1
    into 0; gate 4 has masks 1 and 1 and leaves parity 1 at position
    17. *)
Lemma computeAuxTape_and_gate_invariant_witness :
  let tapes' := computeAuxTape Examples.demo_from_char_array
                  Examples.demo_lowmc_aux 8 Examples.demo_tapes in
  pos tapes' = 0%nat /\
  party_parity Examples.demo_tapes 11 = 1 /\
  party_parity tapes' 11 = Z.land 0 1 /\
  party_parity tapes' 17 = Z.land 1 1.
Proof.
  pose proof (computeAuxTape_and_gate_invariant Examples.demo_from_char_array
                Examples.demo_lowmc_aux 8 Examples.demo_tapes 96
                Examples.demo_gates
                demo_tapes_ok demo_gates_bits demo_gates_fit demo_aux_runs)
    as H.
  cbv zeta in H. destruct H as (H1 & H2 & _).
  split; [exact H1|]. split; [exact demo_parity_before|]. split.
  - exact (proj1 (proj2 (H2 1%nat 0 1 demo_gate_1))).
  - exact (proj1 (proj2 (H2 4%nat 1 1 demo_gate_4))).
Defined.

(** On the same tapes the invariant can be observed directly: the party
    parities at the first eight and-helper positions before and after
    the run; afterwards each is the AND of the gate's masks. *)
Example computeAuxTape_demo_parities :
  let tapes' := computeAuxTape Examples.demo_from_char_array
                  Examples.demo_lowmc_aux 8 Examples.demo_tapes in
  map (party_parity Examples.demo_tapes) [9; 11; 13; 15; 17; 19; 21; 23]%nat
  = [0; 1; 0; 1; 1; 0; 0; 1] /\
  map (party_parity tapes') [9; 11; 13; 15; 17; 19; 21; 23]%nat
  = map (fun g => Z.land (fst g) (snd g)) (firstn 8 Examples.demo_gates).
Proof. split; vm_compute; reflexivity. Qed.

End TapeFacts.

(* ================================================================== *)
(** * Signature (de)serialization *)
(* ================================================================== *)

Module SigFacts.

Import Tape TapeFacts Sig SigSpec.

(** ** The list helpers *)

Lemma existsb_map_comp {A B} (f : B -> bool) (g : A -> B) l :
  existsb f (map g l) = existsb (fun x => f (g x)) l.
Proof. induction l as [|x l IH]; simpl; [reflexivity | now rewrite IH]. Qed.

Lemma forallb_map_comp {A B} (f : B -> bool) (g : A -> B) l :
  forallb f (map g l) = forallb (fun x => f (g x)) l.
Proof. induction l as [|x l IH]; simpl; [reflexivity | now rewrite IH]. Qed.

Lemma skipn_cons_nth {A} (i : nat) (l : list A) (d : A) :
  (i < length l)%nat -> skipn i l = nth i l d :: skipn (S i) l.
Proof.
  revert l. induction i as [|i IH]; intros [|x l] Hi; simpl in *; try lia.
  - reflexivity.
  - apply IH. lia.
Qed.

Lemma contains_loop_spec n : forall i l v,
  contains_loop n i l v = if existsb (fun k => rd16 l k =? v) (seq i n) then 1 else 0.
Proof.
  induction n as [|n IH]; intros i l v; cbn [contains_loop seq existsb].
  - reflexivity.
  - destruct (rd16 l i =? v); cbn [orb]; [reflexivity | apply IH].
Qed.

Lemma rd16_nth l k : rd16 l k = nth k l 0.
Proof. reflexivity. Qed.

Lemma existsb_seq_nth (f : Z -> bool) l :
  existsb (fun k => f (nth k l 0)) (seq 0 (length l)) = existsb f l.
Proof.
  induction l as [|x l IH]; cbn [length seq existsb]; [reflexivity|].
  f_equal. rewrite <- IH, <- seq_shift, existsb_map_comp. reflexivity.
Qed.

(** [contains] on a full array is list membership. *)
Lemma contains_opened Cs t :
  Z.of_nat t < 65536 ->
  contains Cs (length Cs) (to_u16 t) = if opened Cs t then 1 else 0.
Proof.
  intros Ht. unfold contains, opened, to_u16.
  rewrite Z.mod_small by lia. rewrite contains_loop_spec.
  unfold rd16, rd_gen.
  rewrite (existsb_seq_nth (fun c => c =? Z.of_nat t)). reflexivity.
Qed.

Lemma to_u16_small t : Z.of_nat t < 65536 -> to_u16 t = Z.of_nat t.
Proof. intros H. unfold to_u16. apply Z.mod_small. lia. Qed.

(** Where [contains] answers yes, [indexOf] finds the value: its
    assertion is not reached. *)
Lemma contains_indexOf_loop n : forall i l v,
  contains_loop n i l v <> 0 ->
  exists k, indexOf_loop n i l v = Some (Z.of_nat k) /\ (i <= k < i + n)%nat.
Proof.
  induction n as [|n IH]; intros i l v H; cbn [contains_loop indexOf_loop] in *.
  - congruence.
  - destruct (rd16 l i =? v).
    + exists i. split; [reflexivity | lia].
    + destruct (IH (S i) l v H) as (k & E & Hk). exists k. split; [exact E|lia].
Qed.

Lemma contains_indexOf l len v :
  contains l len v <> 0 ->
  exists k, indexOf l len v = Some (Z.of_nat k) /\ (k < len)%nat.
Proof.
  intros H. destruct (contains_indexOf_loop len 0 l v H) as (k & E & Hk).
  exists k. split; [exact E | lia].
Qed.

Lemma indexOf_loop_hidden n : forall i Cs Ps t,
  (length Ps = length Cs)%nat -> (i + n = length Cs)%nat ->
  opened (skipn i Cs) t = true ->
  match indexOf_loop n i Cs (Z.of_nat t) with
  | Some P_index => rd16 Ps (Z.to_nat P_index)
  | None => 0
  end
  = hidden (skipn i Cs) (skipn i Ps) t.
Proof.
  induction n as [|n IH]; intros i Cs Ps t HP Hn Ho.
  - rewrite skipn_all2 in Ho by lia. discriminate.
  - cbn [indexOf_loop].
    assert (Hi : (i < length Cs)%nat) by lia.
    rewrite (skipn_cons_nth i Cs 0) in Ho |- * by lia.
    rewrite (skipn_cons_nth i Ps 0) by lia.
    cbn [hidden opened existsb] in Ho |- *.
    change (rd16 Cs i) with (nth i Cs 0).
    destruct (nth i Cs 0 =? Z.of_nat t) eqn:E.
    + rewrite Nat2Z.id. reflexivity.
    + cbn [orb] in Ho. apply IH; auto. lia.
Qed.

(** The code's hidden-party lookup is the specification's. *)
Lemma P_of_hidden Cs Ps t :
  Z.of_nat t < 65536 -> length Ps = length Cs -> opened Cs t = true ->
  P_of Cs Ps (length Cs) t = hidden Cs Ps t.
Proof.
  intros Ht HP Ho. unfold P_of, indexOf. rewrite to_u16_small by assumption.
  apply (indexOf_loop_hidden (length Cs) 0 Cs Ps t); auto.
Qed.

Lemma inRange_loop_spec n : forall i l lo hi,
  inRange_loop n i l lo hi
  = if forallb (fun k => (lo <=? rd16 l k) && (rd16 l k <=? hi)) (seq i n)
    then 1 else 0.
Proof.
  induction n as [|n IH]; intros i l lo hi; cbn [inRange_loop seq forallb].
  - reflexivity.
  - rewrite IH.
    destruct (Z.gtb_spec (rd16 l i) hi); destruct (Z.ltb_spec (rd16 l i) lo);
      destruct (Z.leb_spec lo (rd16 l i)); destruct (Z.leb_spec (rd16 l i) hi);
      cbn [orb andb]; try reflexivity; lia.
Qed.

Lemma forallb_seq_nth (f : Z -> bool) l :
  forallb (fun k => f (nth k l 0)) (seq 0 (length l)) = forallb f l.
Proof.
  induction l as [|x l IH]; cbn [length seq forallb]; [reflexivity|].
  f_equal. rewrite <- IH, <- seq_shift, forallb_map_comp. reflexivity.
Qed.

(** [inRange] on a full array: every entry lies in [[lo, hi]]. *)
Lemma inRange_spec l lo hi :
  inRange l (length l) lo hi <> 0 <-> Forall (fun x => lo <= x <= hi) l.
Proof.
  unfold inRange. rewrite inRange_loop_spec. unfold rd16, rd_gen.
  rewrite (forallb_seq_nth (fun x => (lo <=? x) && (x <=? hi))).
  destruct (forallb (fun x => (lo <=? x) && (x <=? hi)) l) eqn:E.
  - split; [intros _|discriminate].
    rewrite forallb_forall in E. apply Forall_forall. intros x Hx.
    specialize (E x Hx). apply andb_true_iff in E. destruct E as [E1 E2].
    apply Z.leb_le in E1. apply Z.leb_le in E2. lia.
  - split; [congruence|]. intros H. exfalso.
    assert (forallb (fun x => (lo <=? x) && (x <=? hi)) l = true); [|congruence].
    apply forallb_forall. intros x Hx. rewrite Forall_forall in H.
    specialize (H x Hx). apply andb_true_iff. split; apply Z.leb_le; lia.
Qed.

Lemma unique_inner_spec n : forall j l i,
  unique_inner n j l i = true <->
  forall k, (j <= k < j + n)%nat -> k <> i -> rd16 l i <> rd16 l k.
Proof.
  induction n as [|n IH]; intros j l i; cbn [unique_inner].
  - split; [intros _ k Hk; lia | reflexivity].
  - destruct (Nat.eqb_spec j i) as [->|Hne]; cbn [negb andb].
    + rewrite IH. split; intros H k Hk Hki; apply H; auto; lia.
    + destruct (Z.eqb_spec (rd16 l i) (rd16 l j)) as [E|E].
      * split; [discriminate|]. intros H. exfalso.
        apply (H j); [lia | assumption | assumption].
      * rewrite IH. split; intros H k Hk Hki.
        -- destruct (Nat.eq_dec k j) as [->|]; [assumption | apply H; auto; lia].
        -- apply H; auto; lia.
Qed.

Lemma unique_outer_spec n : forall i l len,
  unique_outer n i l len <> 0 <->
  forall a, (i <= a < i + n)%nat ->
    forall k, (k < len)%nat -> k <> a -> rd16 l a <> rd16 l k.
Proof.
  induction n as [|n IH]; intros i l len; cbn [unique_outer].
  - split; [intros _ a Ha; lia | discriminate].
  - destruct (unique_inner len 0 l i) eqn:E.
    + rewrite unique_inner_spec in E. rewrite IH. split; intros H a Ha k Hk Hka.
      * destruct (Nat.eq_dec a i) as [->|]; [apply E; auto; lia | apply H; auto; lia].
      * apply H; auto; lia.
    + split; [congruence|]. intros H. exfalso.
      assert (unique_inner len 0 l i = true); [|congruence].
      apply unique_inner_spec. intros k Hk Hki. apply H; auto; lia.
Qed.

(** [unique] on a full array: no value occurs twice. *)
Lemma unique_spec l : unique l (length l) <> 0 <-> NoDup l.
Proof.
  unfold unique. rewrite unique_outer_spec. rewrite (NoDup_nth l 0).
  unfold rd16, rd_gen. split.
  - intros H a k Ha Hk E. destruct (Nat.eq_dec a k) as [|Hne]; [assumption|].
    exfalso. apply (H a ltac:(lia) k Hk ltac:(congruence)). exact E.
  - intros H a Ha k Hk Hne E. apply Hne. symmetry. apply H; auto; lia.
Qed.

Lemma padding_loop_spec n : forall i data,
  padding_loop n i data <> 0 <->
  forall k, (i <= k < i + n)%nat -> getBit data k = 0.
Proof.
  induction n as [|n IH]; intros i data; cbn [padding_loop].
  - split; [intros _ k Hk; lia | discriminate].
  - destruct (Z.eqb_spec (getBit data i) 0) as [E|E].
    + rewrite IH. split; intros H k Hk.
      * destruct (Nat.eq_dec k i) as [->|]; [assumption | apply H; lia].
      * apply H; lia.
    + split; [congruence|]. intros H. exfalso. apply E. apply H. lia.
Qed.

(** [arePaddingBitsZero] decides the specification's padding condition. *)
Lemma arePaddingBitsZero_spec data byteLength bitLength :
  arePaddingBitsZero data byteLength bitLength <> 0 <->
  padding_zero data byteLength bitLength.
Proof.
  unfold arePaddingBitsZero, padding_zero. rewrite padding_loop_spec.
  split; intros H k Hk; apply H; lia.
Qed.

Lemma arePaddingBitsZero_01 data byteLength bitLength :
  arePaddingBitsZero data byteLength bitLength = 0 \/
  arePaddingBitsZero data byteLength bitLength = 1.
Proof.
  unfold arePaddingBitsZero.
  generalize (byteLength * 8 - bitLength)%nat as n. intros n.
  revert bitLength. induction n as [|n IH]; intros i; cbn [padding_loop]; auto.
  destruct (getBit data i =? 0); auto.
Qed.

(** ** Decoding the challenge lists *)

Lemma rdb_skipn bytes off j : rdb (skipn off bytes) j = rdb bytes (off + j).
Proof. unfold rdb, rd_gen. apply nth_skipn. Qed.

Lemma deserialize_u16_spec n : forall bytes off,
  deserialize_u16 (skipn off bytes) n = le16_list bytes off n.
Proof.
  unfold le16_list. induction n as [|n IH]; intros bytes off.
  - reflexivity.
  - cbn [deserialize_u16 seq map]. f_equal.
    + unfold le16_at. rewrite !rdb_skipn.
      replace (off + 2 * 0)%nat with (off + 0)%nat by lia.
      replace (off + 0 + 1)%nat with (off + 1)%nat by lia. reflexivity.
    + rewrite skipn_skipn, IH, <- seq_shift, map_map.
      apply map_ext. intros k. unfold le16_at.
      replace (off + 2 * S k)%nat with (2 + off + 2 * k)%nat by lia.
      reflexivity.
Qed.

Lemma le16_list_length bytes off n : length (le16_list bytes off n) = n.
Proof. unfold le16_list. now rewrite length_map, length_seq. Qed.

(** ** The size computation *)

Lemma round_u16 params t :
  params_ok params -> (t < num_rounds params)%nat -> Z.of_nat t < 65536.
Proof. intros Hpar Ht. pose proof (po_rounds params Hpar). lia. Qed.

Lemma contains_round params Cs t :
  params_ok params -> length Cs = num_opened_rounds params ->
  (t < num_rounds params)%nat ->
  (contains Cs (num_opened_rounds params) (to_u16 t) =? 0) = negb (opened Cs t).
Proof.
  intros Hpar HCs Ht.
  rewrite <- HCs, contains_opened by (now apply (round_u16 params)).
  now destruct (opened Cs t).
Qed.

Lemma P_of_round params Cs Ps t :
  params_ok params -> length Cs = num_opened_rounds params ->
  length Ps = num_opened_rounds params ->
  (t < num_rounds params)%nat -> opened Cs t = true ->
  P_of Cs Ps (num_opened_rounds params) t = hidden Cs Ps t.
Proof.
  intros Hpar HCs HPs Ht Ho. rewrite <- HCs. apply P_of_hidden; auto.
  - now apply (round_u16 params).
  - congruence.
Qed.

Lemma required_loop_spec revealSeedsSize params Cs Ps n :
  params_ok params -> length Cs = num_opened_rounds params ->
  length Ps = num_opened_rounds params ->
  forall t acc,
  (t + n <= num_rounds params)%nat ->
  (required_loop n t Cs Ps (seedInfo_size revealSeedsSize params) params acc
   + proofs_offset revealSeedsSize params Cs Ps t
   = acc + proofs_offset revealSeedsSize params Cs Ps (t + n))%nat.
Proof.
  intros Hpar HCs HPs.
  induction n as [|n IH]; intros t acc Ht.
  - cbn [required_loop]. rewrite Nat.add_0_r. reflexivity.
  - cbn [required_loop]. rewrite contains_round by (auto; lia).
    replace (t + S n)%nat with (S t + n)%nat by lia.
    destruct (opened Cs t) eqn:Eo; cbn [negb].
    + rewrite P_of_round by (auto; lia).
      specialize (IH (S t)). cbn [proofs_offset] in IH. rewrite Eo in IH.
      match goal with
      | |- (required_loop n (S t) _ _ _ _ ?a + _ = _)%nat =>
          specialize (IH a ltac:(lia))
      end.
      unfold proof_size, has_aux in IH |- *.
      destruct (hidden Cs Ps t =? Z.of_nat (num_MPC_parties params - 1));
        cbn [negb] in IH |- *; lia.
    + specialize (IH (S t) acc ltac:(lia)). cbn [proofs_offset] in IH.
      rewrite Eo in IH. lia.
Qed.

(** ** Reading the proofs *)

Lemma getBit_app_l a b i :
  (i / 8 < length a)%nat -> getBit (a ++ b) i = getBit a i.
Proof.
  intros Hi. unfold getBit, rdb, rd_gen. now rewrite app_nth1.
Qed.

Lemma padding_zero_memcpy dst src n b :
  (n <= length src)%nat ->
  padding_zero (memcpy dst src n) n b <-> padding_zero (firstn n src) n b.
Proof.
  intros Hn. unfold padding_zero, memcpy.
  split; intros H i Hi; specialize (H i Hi).
  - rewrite getBit_app_l in H; [exact H|].
    rewrite length_firstn, Nat.min_l by lia.
    apply Nat.Div0.div_lt_upper_bound. lia.
  - rewrite getBit_app_l; [exact H|].
    rewrite length_firstn, Nat.min_l by lia.
    apply Nat.Div0.div_lt_upper_bound. lia.
Qed.

Lemma set_proof_challenges sig t p :
  challengeC (set_proof sig t p) = challengeC sig /\
  challengeP (set_proof sig t p) = challengeP sig.
Proof. split; reflexivity. Qed.

Section Reading.

Variable revealSeedsSize : nat -> list Z -> nat -> picnic_instance_t -> nat.
Variable openMerkleTreeSize : nat -> list Z -> nat -> picnic_instance_t -> nat.
Variable allocateProof2 : picnic_instance_t -> proof2_t.
Variable params : picnic_instance_t.
Hypothesis Hpar : params_ok params.

Variables Cs Ps : list Z.
Hypothesis HCs : length Cs = num_opened_rounds params.
Hypothesis HPs : length Ps = num_opened_rounds params.

Variable bytes : list Z.

Let s := seedInfo_size revealSeedsSize params.
Let base := proofs_start revealSeedsSize openMerkleTreeSize params Cs.
Let off := proofs_offset revealSeedsSize params Cs Ps.

(** The padding conditions of round [t]. *)
Definition round_padding_ok (t : nat) : Prop :=
  (has_aux params Cs Ps t = true ->
   padding_zero
     (aux_field revealSeedsSize openMerkleTreeSize params bytes Cs Ps t)
     (view_size params) (3 * lowmc_r params * lowmc_m params)) /\
  padding_zero
    (msgs_field revealSeedsSize openMerkleTreeSize params bytes Cs Ps t)
    (input_size params + view_size params)
    (lowmc_n params + 3 * lowmc_r params * lowmc_m params).

Lemma off_S t :
  off (S t) = (off t + if opened Cs t
                       then proof_size revealSeedsSize params Cs Ps t
                       else 0)%nat.
Proof. reflexivity. Qed.

Lemma off_mono t n : (off t <= off (t + n))%nat.
Proof.
  induction n as [|n IH]; [rewrite Nat.add_0_r; lia|].
  rewrite Nat.add_succ_r, off_S. lia.
Qed.

Lemma read_proofs_accept n : forall t sig,
  challengeC sig = Cs -> challengeP sig = Ps ->
  (t + n <= num_rounds params)%nat ->
  (base + off (t + n) <= length bytes)%nat ->
  let ret := fst (fst (read_proofs allocateProof2 n t s params sig
                         (skipn (base + off t) bytes))) in
  (ret = 0 \/ ret = -1) /\
  (ret = 0 <->
   forall t', (t <= t' < t + n)%nat -> opened Cs t' = true -> round_padding_ok t').
Proof.
  induction n as [|n IH]; intros t sig HC HP Ht Hlen ret.
  - subst ret. cbn [read_proofs fst]. split; [left; reflexivity|].
    split; [intros _ t' Ht'; lia | reflexivity].
  - subst ret. cbn [read_proofs]. rewrite HC, HP.
    rewrite contains_round by (auto; lia).
    replace (t + S n)%nat with (S t + n)%nat in * by lia.
    pose proof (off_mono (S t) n) as Hmono.
    destruct (opened Cs t) eqn:Eo; cbn [negb].
    2:{ assert (E : off (S t) = off t) by (rewrite off_S, Eo; lia).
        rewrite <- E.
        destruct (IH (S t) sig HC HP ltac:(lia) Hlen) as [I1 I2].
        split; [exact I1|]. rewrite I2. split; intros H t' Ht' Ho.
        - destruct (Nat.eq_dec t' t) as [->|]; [congruence | apply H; auto; lia].
        - apply H; auto; lia. }
    rewrite P_of_round by (auto; lia).
    assert (Hsz : off (S t) = (off t + proof_size revealSeedsSize params Cs Ps t)%nat)
      by (rewrite off_S, Eo; reflexivity).
    unfold proof_size in Hsz. fold s in Hsz.
    set (cur := skipn (base + off t) bytes).
    assert (Hcur : forall k m, m = (base + off t + k)%nat ->
                               skipn m bytes = skipn k cur).
    { intros k m ->. unfold cur. rewrite skipn_skipn. f_equal. lia. }
    assert (Hcl : forall k, length (skipn k cur) = (length bytes - (base + off t + k))%nat).
    { intros k. rewrite <- (Hcur k _ eq_refl), length_skipn. reflexivity. }
    assert (Hpad : round_padding_ok t <->
              (has_aux params Cs Ps t = true ->
               padding_zero (firstn (view_size params) (skipn s cur))
                 (view_size params) (3 * lowmc_r params * lowmc_m params)) /\
              padding_zero
                (firstn (input_size params + view_size params)
                   (skipn (input_size params)
                      (if has_aux params Cs Ps t
                       then skipn (view_size params) (skipn s cur)
                       else skipn s cur)))
                (input_size params + view_size params)
                (lowmc_n params + 3 * lowmc_r params * lowmc_m params)).
    { unfold round_padding_ok, aux_field, msgs_field, sub. fold s base off.
      rewrite (Hcur s) by lia.
      replace (skipn (base + off t + s
                      + (if has_aux params Cs Ps t then view_size params else 0)
                      + input_size params) bytes)
        with (skipn (input_size params)
                (if has_aux params Cs Ps t
                 then skipn (view_size params) (skipn s cur)
                 else skipn s cur)); [reflexivity|].
      unfold cur. destruct (has_aux params Cs Ps t);
        rewrite !skipn_skipn; f_equal; lia. }
    assert (Hstep : forall sg c,
              challengeC sg = Cs -> challengeP sg = Ps ->
              c = skipn (base + off (S t)) bytes ->
              round_padding_ok t ->
              let r := fst (fst (read_proofs allocateProof2 n (S t) s params sg c)) in
              (r = 0 \/ r = -1) /\
              (r = 0 <-> forall t', (t <= t' < S t + n)%nat ->
                           opened Cs t' = true -> round_padding_ok t')).
    { intros sg c HC' HP' -> Hok r. subst r.
      destruct (IH (S t) sg HC' HP' ltac:(lia) Hlen) as [I1 I2].
      split; [exact I1|]. rewrite I2. split; intros H t' Ht' Ho.
      - destruct (Nat.eq_dec t' t) as [->|]; [exact Hok | apply H; auto; lia].
      - apply H; auto; lia. }
    assert (Hrej : ~ round_padding_ok t ->
              (-1 = 0 \/ -1 = -1) /\
              (-1 = 0 <-> forall t', (t <= t' < S t + n)%nat ->
                            opened Cs t' = true -> round_padding_ok t')).
    { intros Hno. split; [right; reflexivity|]. split; [discriminate|].
      intros H. exfalso. apply Hno. apply H; auto. lia. }
    assert (Haux_eq : has_aux params Cs Ps t
                      = negb (hidden Cs Ps t =? Z.of_nat (num_MPC_parties params - 1)))
      by reflexivity.
    rewrite <- Haux_eq.
    destruct (has_aux params Cs Ps t) eqn:Eaux; cbn [andb].
    + (* the round carries aux *)
      pose proof (padding_zero_memcpy (aux (allocateProof2 params))
                    (skipn s cur) (view_size params)
                    (3 * lowmc_r params * lowmc_m params)
                    ltac:(rewrite Hcl; lia)) as Paux.
      rewrite <- arePaddingBitsZero_spec in Paux.
      pose proof (padding_zero_memcpy (msgs (allocateProof2 params))
                    (skipn (input_size params) (skipn (view_size params) (skipn s cur)))
                    (input_size params + view_size params)
                    (lowmc_n params + 3 * lowmc_r params * lowmc_m params)
                    ltac:(rewrite !skipn_skipn, Hcl; lia)) as Pmsgs.
      rewrite <- arePaddingBitsZero_spec in Pmsgs.
      destruct (Z.eqb_spec
                  (arePaddingBitsZero
                     (memcpy (aux (allocateProof2 params)) (skipn s cur)
                        (view_size params))
                     (view_size params) (3 * lowmc_r params * lowmc_m params)) 0)
        as [Ea|Ea].
      * cbn [fst]. apply Hrej. intros Hok. apply Hpad in Hok.
        destruct Hok as [Hx _]. apply Paux in Hx; auto.
      * destruct (Z.eqb_spec
                    (arePaddingBitsZero
                       (memcpy (msgs (allocateProof2 params))
                          (skipn (input_size params)
                             (skipn (view_size params) (skipn s cur)))
                          (input_size params + view_size params))
                       (input_size params + view_size params)
                       (lowmc_n params + 3 * lowmc_r params * lowmc_m params)) 0)
          as [Em|Em].
        -- cbn [fst]. apply Hrej. intros Hok. apply Hpad in Hok.
           destruct Hok as [_ Hx]. apply Pmsgs in Hx; auto.
        -- apply Hstep; [exact HC | exact HP | |].
           ++ unfold cur. rewrite !skipn_skipn. f_equal. lia.
           ++ apply Hpad. split; [intros _; now apply Paux | now apply Pmsgs].
    + (* the hidden party is the last one: no aux *)
      pose proof (padding_zero_memcpy (msgs (allocateProof2 params))
                    (skipn (input_size params) (skipn s cur))
                    (input_size params + view_size params)
                    (lowmc_n params + 3 * lowmc_r params * lowmc_m params)
                    ltac:(rewrite !skipn_skipn, Hcl; lia)) as Pmsgs.
      rewrite <- arePaddingBitsZero_spec in Pmsgs.
      destruct (Z.eqb_spec
                  (arePaddingBitsZero
                     (memcpy (msgs (allocateProof2 params))
                        (skipn (input_size params) (skipn s cur))
                        (input_size params + view_size params))
                     (input_size params + view_size params)
                     (lowmc_n params + 3 * lowmc_r params * lowmc_m params)) 0)
        as [Em|Em].
      * cbn [fst]. apply Hrej. intros Hok. apply Hpad in Hok.
        destruct Hok as [_ Hx]. apply Pmsgs in Hx; auto.
      * apply Hstep; [exact HC | exact HP | |].
        -- unfold cur. rewrite !skipn_skipn. f_equal. lia.
        -- apply Hpad. split; [discriminate | now apply Pmsgs].
Qed.

End Reading.

(** ** The deserializer accepts exactly what the layout allows *)

Lemma le16_at_nonneg bytes off k : bytes_ok bytes -> 0 <= le16_at bytes off k.
Proof.
  intros Hb. unfold le16_at.
  pose proof (rdb_ok bytes (off + 2 * k) Hb) as H1.
  pose proof (rdb_ok bytes (off + 2 * k + 1) Hb) as H2.
  unfold byte_ok in *. lia.
Qed.

Lemma le16_list_nonneg bytes off n :
  bytes_ok bytes -> Forall (fun x => 0 <= x) (le16_list bytes off n).
Proof.
  intros Hb. unfold le16_list. apply Forall_forall. intros x Hx.
  apply in_map_iff in Hx. destruct Hx as (k & <- & _).
  now apply le16_at_nonneg.
Qed.

Lemma inRange_below l hi :
  Forall (fun x => 0 <= x) l ->
  (inRange l (length l) 0 (hi - 1) <> 0 <-> Forall (fun x => x < hi) l).
Proof.
  intros Hnn. rewrite inRange_spec. rewrite !Forall_forall in *.
  split; intros H x Hx; specialize (H x Hx); specialize (Hnn x Hx); lia.
Qed.

(** C6.  For a parameter set with rounds and parties within 16 bits and
    an input of bytes, [deserializeSignature2] returns [EXIT_SUCCESS]
    exactly when the byte string has the recomputed required length, every
    [challengeC] entry is below [num_rounds], [challengeC] has no
    duplicate, every [challengeP] entry is below [num_MPC_parties], and
    the padding bits of every opened round's [aux] (beyond [3 r m] bits)
    and [msgs] (beyond [n + 3 r m] bits) are zero; in every other case it
    returns a nonzero code ([EXIT_FAILURE] or [-1]). *)
Theorem deserializeSignature2_rejects_exactly
  (revealSeedsSize openMerkleTreeSize : nat -> list Z -> nat -> picnic_instance_t -> nat)
  (allocateProof2 : picnic_instance_t -> proof2_t)
  (params : picnic_instance_t) (sig : signature2_t) (sigBytes : list Z) :
  params_ok params -> bytes_ok sigBytes ->
  let ret := fst (deserializeSignature2 revealSeedsSize openMerkleTreeSize
                    allocateProof2 sig sigBytes (length sigBytes) params) in
  (ret = EXIT_SUCCESS <->
   accepts revealSeedsSize openMerkleTreeSize params sigBytes) /\
  (~ accepts revealSeedsSize openMerkleTreeSize params sigBytes ->
   ret = EXIT_FAILURE \/ ret = -1).
Proof.
  intros Hpar Hb ret.
  set (tau := num_opened_rounds params).
  set (Cs := le16_list sigBytes 0 tau).
  set (Ps := le16_list sigBytes (2 * tau) tau).
  assert (HCs : length Cs = num_opened_rounds params) by apply le16_list_length.
  assert (HPs : length Ps = num_opened_rounds params) by apply le16_list_length.
  assert (Hreq : required_loop (num_rounds params) 0 Cs Ps
                   (seedInfo_size revealSeedsSize params) params
                   (proofs_start revealSeedsSize openMerkleTreeSize params Cs)
                 = required_size revealSeedsSize openMerkleTreeSize params Cs Ps).
  { pose proof (required_loop_spec revealSeedsSize params Cs Ps
                  (num_rounds params) Hpar HCs HPs 0
                  (proofs_start revealSeedsSize openMerkleTreeSize params Cs)
                  ltac:(lia)) as H.
    cbn [proofs_offset Nat.add] in H. unfold required_size. lia. }
  assert (Hret :
    (ret = EXIT_SUCCESS <->
     accepts revealSeedsSize openMerkleTreeSize params sigBytes) /\
    (ret = EXIT_SUCCESS \/ ret = EXIT_FAILURE \/ ret = -1)).
  { subst ret. unfold deserializeSignature2, accepts. fold tau.
    change (deserialize_u16 sigBytes tau)
      with (deserialize_u16 (skipn 0 sigBytes) tau).
    rewrite !deserialize_u16_spec. fold Cs Ps.
    destruct (Nat.ltb_spec (length sigBytes) (4 * tau + SALT_SIZE)) as [Hshort|Hlong].
    { cbn [fst]. split; [|right; left; reflexivity].
      split; [discriminate|]. intros (Hl & _). exfalso.
      unfold required_size, proofs_start in Hl. fold tau in Hl. lia. }
    pose proof (inRange_below Cs (Z.of_nat (num_rounds params))
                  (le16_list_nonneg sigBytes 0 tau Hb)) as RC.
    rewrite HCs in RC. fold tau in RC.
    destruct (Z.eqb_spec (inRange Cs tau 0 (Z.of_nat (num_rounds params) - 1)) 0)
      as [E1|E1].
    { cbn [fst]. split; [|right; left; reflexivity].
      split; [discriminate|]. intros (_ & HF & _). exfalso.
      apply RC in HF. auto. }
    pose proof (unique_spec Cs) as RU. rewrite HCs in RU. fold tau in RU.
    destruct (Z.eqb_spec (unique Cs tau) 0) as [E2|E2].
    { cbn [fst]. split; [|right; left; reflexivity].
      split; [discriminate|]. intros (_ & _ & HN & _). exfalso.
      apply RU in HN. auto. }
    pose proof (inRange_below Ps (Z.of_nat (num_MPC_parties params))
                  (le16_list_nonneg sigBytes (2 * tau) tau Hb)) as RP.
    rewrite HPs in RP. fold tau in RP.
    destruct (Z.eqb_spec (inRange Ps tau 0 (Z.of_nat (num_MPC_parties params) - 1)) 0)
      as [E3|E3].
    { cbn [fst]. split; [|right; left; reflexivity].
      split; [discriminate|]. intros (_ & _ & _ & HF & _). exfalso.
      apply RP in HF. auto. }
    change (revealSeedsSize (num_rounds params) Cs tau params)
      with (iSeedInfo_size revealSeedsSize params Cs).
    change (openMerkleTreeSize (num_rounds params)
              (getMissingLeavesList Cs params) (num_rounds params - tau)%nat params)
      with (cvInfo_size openMerkleTreeSize params Cs).
    change (revealSeedsSize (num_MPC_parties params) [0] 1%nat params)
      with (seedInfo_size revealSeedsSize params).
    change (4 * tau + SALT_SIZE + iSeedInfo_size revealSeedsSize params Cs
            + cvInfo_size openMerkleTreeSize params Cs)%nat
      with (proofs_start revealSeedsSize openMerkleTreeSize params Cs).
    rewrite Hreq.
    destruct (Nat.eqb_spec (length sigBytes)
                (required_size revealSeedsSize openMerkleTreeSize params Cs Ps))
      as [El|El]; cbn [negb].
    2:{ cbn [fst]. split; [|right; left; reflexivity].
        split; [discriminate|]. intros (Hl & _). exfalso. auto. }
    match goal with
    | |- context [read_proofs allocateProof2 (num_rounds params) 0 _ params ?sg ?c] =>
        assert (Hc : c = skipn (proofs_start revealSeedsSize openMerkleTreeSize
                                  params Cs
                                + proofs_offset revealSeedsSize params Cs Ps 0)
                           sigBytes)
          by (rewrite !skipn_skipn; f_equal;
              unfold proofs_start; cbn [proofs_offset]; fold tau; lia);
        rewrite Hc;
        pose proof (read_proofs_accept revealSeedsSize openMerkleTreeSize
                      allocateProof2 params Hpar Cs Ps HCs HPs sigBytes
                      (num_rounds params) 0 sg eq_refl eq_refl ltac:(lia)
                      ltac:(unfold required_size in El; cbn [Nat.add]; lia))
          as HR
    end.
    cbn zeta in HR.
    match type of HR with
    | context [fst (fst ?r)] => destruct r as [[r0 sg4] rest]
    end.
    cbn [fst] in HR |- *. destruct HR as [HR1 HR2].
    split.
    - rewrite HR2. unfold EXIT_SUCCESS. split.
      + intros H. split; [exact El|]. split; [now apply RC|].
        split; [now apply RU|]. split; [now apply RP|].
        intros t Ht Ho. apply (H t); auto. lia.
      + intros (_ & _ & _ & _ & H) t Ht Ho. apply (H t); auto. lia.
    - destruct HR1 as [->| ->]; [left | right; right]; reflexivity. }
  destruct Hret as [H1 H2]. split; [exact H1|].
  intros Hna. destruct H2 as [H2|H2]; [|exact H2].
  exfalso. apply Hna. now apply H1.
Qed.

Lemma demo_params_ok : params_ok Examples.demo_params.
Proof. split; cbn; lia. Qed.

Lemma deserializeSignature2_rejects_exactly_witness :
  params_ok Examples.demo_params /\ bytes_ok Examples.demo_sigBytes /\
  (fst (deserializeSignature2 Examples.demo_revealSeedsSize
          Examples.demo_openMerkleTreeSize Examples.demo_allocateProof2
          (Examples.blank_signature Examples.demo_params)
          Examples.demo_sigBytes (length Examples.demo_sigBytes)
          Examples.demo_params) = EXIT_SUCCESS <->
   accepts Examples.demo_revealSeedsSize Examples.demo_openMerkleTreeSize
     Examples.demo_params Examples.demo_sigBytes).
Proof.
  split; [exact demo_params_ok|].
  split; [apply bytes_okb_spec; reflexivity|].
  apply (deserializeSignature2_rejects_exactly
           Examples.demo_revealSeedsSize Examples.demo_openMerkleTreeSize
           Examples.demo_allocateProof2 Examples.demo_params
           (Examples.blank_signature Examples.demo_params)
           Examples.demo_sigBytes demo_params_ok).
  apply bytes_okb_spec; reflexivity.
Defined.

(** The toy signature is let through, and setting one padding bit of
    its [aux] turns the result into [-1]. *)
Example deserializeSignature2_demo :
  fst (deserializeSignature2 Examples.demo_revealSeedsSize
         Examples.demo_openMerkleTreeSize Examples.demo_allocateProof2
         (Examples.blank_signature Examples.demo_params)
         Examples.demo_sigBytes (length Examples.demo_sigBytes)
         Examples.demo_params) = EXIT_SUCCESS /\
  fst (deserializeSignature2 Examples.demo_revealSeedsSize
         Examples.demo_openMerkleTreeSize Examples.demo_allocateProof2
         (Examples.blank_signature Examples.demo_params)
         Examples.demo_sigBytes_bad_padding
         (length Examples.demo_sigBytes_bad_padding)
         Examples.demo_params) = -1.
Proof. split; vm_compute; reflexivity. Qed.

End SigFacts.

(* ================================================================== *)
(** * Serializing a signature and reading it back *)
(* ================================================================== *)

Module RoundTripFacts.

Import Tape Sig SigSpec TapeFacts SigFacts.

Lemma firstn_exact {A} (a b : list A) n : length a = n -> firstn n (a ++ b) = a.
Proof.
  intros <-. rewrite firstn_app, Nat.sub_diag, firstn_all. cbn [firstn].
  apply app_nil_r.
Qed.

Lemma skipn_exact {A} (a b : list A) n : length a = n -> skipn n (a ++ b) = b.
Proof.
  intros <-. rewrite skipn_app, Nat.sub_diag, skipn_all. reflexivity.
Qed.

Lemma firstn_whole {A} (a : list A) n : length a = n -> firstn n a = a.
Proof. intros <-. apply firstn_all. Qed.

Lemma memcpy_exact dst a b n :
  length a = n -> length dst = n -> memcpy dst (a ++ b) n = a.
Proof.
  intros Ha Hd. unfold memcpy. rewrite (firstn_exact a b n Ha).
  rewrite skipn_all2 by lia. apply app_nil_r.
Qed.

Lemma serialize_u16_length n : forall l, length (serialize_u16 l n) = (2 * n)%nat.
Proof.
  induction n as [|n IH]; intros l; cbn [serialize_u16 length]; [reflexivity|].
  rewrite IH. lia.
Qed.

Lemma deserialize_serialize_u16 n : forall l rest,
  length l = n -> Forall (fun c => 0 <= c < 65536) l ->
  deserialize_u16 (serialize_u16 l n ++ rest) n = l.
Proof.
  induction n as [|n IH]; intros l rest Hl Hr.
  - destruct l; [reflexivity | discriminate].
  - destruct l as [|c l]; [discriminate|].
    inversion Hr as [|? ? Hc Hr']; subst.
    cbn [serialize_u16 deserialize_u16 app]. f_equal.
    + unfold rdb, rd16, rd_gen. cbn [nth].
      pose proof (Z.div_mod c 256 ltac:(lia)) as E.
      rewrite (Z.mod_small (c / 256)); [lia|].
      split; [apply Z.div_pos; lia | apply Z.div_lt_upper_bound; lia].
    + cbn [skipn]. apply IH; [now injection Hl | exact Hr'].
Qed.

Lemma proof_at_set_same sig t p :
  (t < length (proofs sig))%nat -> proof_at (set_proof sig t p) t = p.
Proof. intros H. exact (rd_upd_eq proof2_t empty_proof (proofs sig) t p H). Qed.

Lemma proof_at_set_other sig t t' p :
  t <> t' -> proof_at (set_proof sig t p) t' = proof_at sig t'.
Proof. intros H. exact (rd_upd_neq proof2_t empty_proof (proofs sig) t t' p H). Qed.

Lemma write_proofs_app n : forall t sig params out,
  write_proofs n t sig params out = out ++ write_proofs n t sig params [].
Proof.
  induction n as [|n IH]; intros t sig params out; cbn [write_proofs].
  - now rewrite app_nil_r.
  - destruct (contains (challengeC sig) (num_opened_rounds params) (to_u16 t) =? 0).
    + apply IH.
    + rewrite IH. symmetry. rewrite IH. cbn [app].
      destruct (P_of (challengeC sig) (challengeP sig) (num_opened_rounds params) t
                =? Z.of_nat (num_MPC_parties params - 1));
        now rewrite <- !app_assoc.
Qed.

Section Writing.

Variable revealSeedsSize : nat -> list Z -> nat -> picnic_instance_t -> nat.
Variable openMerkleTreeSize : nat -> list Z -> nat -> picnic_instance_t -> nat.
Variable allocateProof2 : picnic_instance_t -> proof2_t.
Variable params : picnic_instance_t.
Variable sig : signature2_t.
Hypothesis Hpar : params_ok params.
Hypothesis Hvalid : valid_signature revealSeedsSize openMerkleTreeSize params sig.

(** What one opened round contributes to the byte string. *)
Definition round_bytes (t : nat) : list Z :=
  seedInfo (proof_at sig t)
  ++ (if has_aux params (challengeC sig) (challengeP sig) t
      then aux (proof_at sig t) else [])
  ++ input (proof_at sig t) ++ msgs (proof_at sig t) ++ C (proof_at sig t).

Lemma write_proofs_skip n t :
  (t < num_rounds params)%nat -> opened (challengeC sig) t = false ->
  write_proofs (S n) t sig params [] = write_proofs n (S t) sig params [].
Proof.
  intros Ht Ho. cbn [write_proofs].
  rewrite contains_round, Ho by (auto; apply Hvalid). reflexivity.
Qed.

Lemma write_proofs_step n t :
  (t < num_rounds params)%nat -> opened (challengeC sig) t = true ->
  write_proofs (S n) t sig params []
  = round_bytes t ++ write_proofs n (S t) sig params [].
Proof.
  intros Ht Ho. cbn [write_proofs].
  rewrite contains_round, Ho by (auto; apply Hvalid). cbn [negb].
  rewrite P_of_round by (auto; apply Hvalid).
  destruct (vs_proofs _ _ _ _ Hvalid t Ht Ho) as [V1 V2 V3 V4 V5 V6 V7].
  rewrite write_proofs_app. f_equal. unfold round_bytes, has_aux in *.
  rewrite V1.
  rewrite (firstn_whole (seedInfo (proof_at sig t)) _ V2).
  rewrite (firstn_whole (input (proof_at sig t)) _ V4).
  rewrite (firstn_whole (msgs (proof_at sig t)) _ V5).
  rewrite (firstn_whole (C (proof_at sig t)) _ V7).
  destruct (hidden (challengeC sig) (challengeP sig) t
            =? Z.of_nat (num_MPC_parties params - 1)); cbn [negb app] in *.
  - now rewrite <- !app_assoc.
  - destruct (V3 eq_refl) as [V3a _].
    rewrite (firstn_whole (aux (proof_at sig t)) _ V3a).
    now rewrite <- !app_assoc.
Qed.

Lemma round_bytes_length t :
  (t < num_rounds params)%nat -> opened (challengeC sig) t = true ->
  length (round_bytes t)
  = proof_size revealSeedsSize params (challengeC sig) (challengeP sig) t.
Proof.
  intros Ht Ho.
  destruct (vs_proofs _ _ _ _ Hvalid t Ht Ho) as [V1 V2 V3 V4 V5 V6 V7].
  unfold round_bytes, proof_size. rewrite !length_app, V2, V4, V5, V7.
  destruct (has_aux params (challengeC sig) (challengeP sig) t).
  - destruct (V3 eq_refl) as [-> _]. lia.
  - cbn [length]. lia.
Qed.

Lemma write_proofs_length n : forall t,
  (t + n <= num_rounds params)%nat ->
  (length (write_proofs n t sig params [])
   + proofs_offset revealSeedsSize params (challengeC sig) (challengeP sig) t
   = proofs_offset revealSeedsSize params (challengeC sig) (challengeP sig) (t + n))%nat.
Proof.
  induction n as [|n IH]; intros t Ht.
  - cbn [write_proofs length]. now rewrite Nat.add_0_r.
  - replace (t + S n)%nat with (S t + n)%nat by lia.
    specialize (IH (S t) ltac:(lia)). cbn [proofs_offset] in IH.
    destruct (opened (challengeC sig) t) eqn:Eo.
    + rewrite write_proofs_step, length_app, round_bytes_length by (auto; lia).
      lia.
    + rewrite write_proofs_skip by (auto; lia). lia.
Qed.

Lemma ser_required_loop_spec n : forall t acc,
  (t + n <= num_rounds params)%nat ->
  (ser_required_loop n t sig params acc
   + proofs_offset revealSeedsSize params (challengeC sig) (challengeP sig) t
   = acc + proofs_offset revealSeedsSize params (challengeC sig) (challengeP sig)
             (t + n))%nat.
Proof.
  induction n as [|n IH]; intros t acc Ht.
  - cbn [ser_required_loop]. now rewrite Nat.add_0_r.
  - cbn [ser_required_loop].
    rewrite contains_round by (auto; try apply Hvalid; lia).
    replace (t + S n)%nat with (S t + n)%nat by lia.
    destruct (opened (challengeC sig) t) eqn:Eo; cbn [negb].
    + rewrite P_of_round by (auto; try apply Hvalid; lia).
      destruct (vs_proofs _ _ _ _ Hvalid t ltac:(lia) Eo) as [V1 _ _ _ _ _ _].
      rewrite V1.
      specialize (IH (S t)). cbn [proofs_offset] in IH. rewrite Eo in IH.
      match goal with
      | |- (ser_required_loop n (S t) _ _ ?a + _ = _)%nat =>
          specialize (IH a ltac:(lia))
      end.
      unfold proof_size, has_aux in IH |- *.
      destruct (hidden (challengeC sig) (challengeP sig) t
                =? Z.of_nat (num_MPC_parties params - 1));
        cbn [negb] in IH |- *; lia.
    + specialize (IH (S t) acc ltac:(lia)). cbn [proofs_offset] in IH.
      rewrite Eo in IH. lia.
Qed.

(** The byte string of the whole signature. *)
Definition signature_bytes : list Z :=
  serialize_u16 (challengeC sig) (num_opened_rounds params)
  ++ serialize_u16 (challengeP sig) (num_opened_rounds params)
  ++ salt sig ++ iSeedInfo sig ++ cvInfo sig
  ++ write_proofs (num_rounds params) 0 sig params [].

Lemma signature_bytes_length :
  length signature_bytes
  = required_size revealSeedsSize openMerkleTreeSize params
      (challengeC sig) (challengeP sig).
Proof.
  unfold signature_bytes, required_size, proofs_start.
  rewrite !length_app, !serialize_u16_length.
  pose proof (write_proofs_length (num_rounds params) 0 ltac:(lia)) as W.
  cbn [proofs_offset Nat.add] in W.
  rewrite (vs_salt _ _ _ _ Hvalid), (vs_iSeedInfo _ _ _ _ Hvalid),
    (vs_cvInfo _ _ _ _ Hvalid).
  rewrite <- (vs_iSeedInfoLen _ _ _ _ Hvalid), <- (vs_cvInfoLen _ _ _ _ Hvalid).
  lia.
Qed.

Lemma serializeSignature2_writes buf :
  serializeSignature2 sig buf (length buf) params
  = if (length buf <? length signature_bytes)%nat then (-1, buf)
    else (Z.of_nat (length signature_bytes),
          signature_bytes ++ skipn (length signature_bytes) buf).
Proof.
  unfold serializeSignature2.
  assert (E : ser_required_loop (num_rounds params) 0 sig params
                (4 * num_opened_rounds params + SALT_SIZE + iSeedInfoLen sig
                 + cvInfoLen sig)
              = length signature_bytes).
  { pose proof (ser_required_loop_spec (num_rounds params) 0
                  (4 * num_opened_rounds params + SALT_SIZE + iSeedInfoLen sig
                   + cvInfoLen sig) ltac:(lia)) as H.
    cbn [proofs_offset Nat.add] in H.
    rewrite signature_bytes_length. unfold required_size, proofs_start.
    rewrite <- (vs_iSeedInfoLen _ _ _ _ Hvalid), <- (vs_cvInfoLen _ _ _ _ Hvalid).
    lia. }
  rewrite E.
  destruct (length buf <? length signature_bytes)%nat; [reflexivity|].
  assert (W : write_proofs (num_rounds params) 0 sig params
                ((((serialize_u16 (challengeC sig) (num_opened_rounds params)
                    ++ serialize_u16 (challengeP sig) (num_opened_rounds params))
                   ++ firstn SALT_SIZE (salt sig))
                  ++ firstn (iSeedInfoLen sig) (iSeedInfo sig))
                 ++ firstn (cvInfoLen sig) (cvInfo sig))
              = signature_bytes).
  { rewrite write_proofs_app. unfold signature_bytes.
    rewrite (firstn_whole (salt sig) _ (vs_salt _ _ _ _ Hvalid)).
    rewrite (firstn_whole (iSeedInfo sig) _ (vs_iSeedInfo _ _ _ _ Hvalid)).
    rewrite (firstn_whole (cvInfo sig) _ (vs_cvInfo _ _ _ _ Hvalid)).
    now rewrite <- !app_assoc. }
  rewrite W. reflexivity.
Qed.

End Writing.

Section ReadingBack.

Variable revealSeedsSize : nat -> list Z -> nat -> picnic_instance_t -> nat.
Variable openMerkleTreeSize : nat -> list Z -> nat -> picnic_instance_t -> nat.
Variable allocateProof2 : picnic_instance_t -> proof2_t.
Variable params : picnic_instance_t.
Variable sig : signature2_t.
Hypothesis Hpar : params_ok params.
Hypothesis Hseed : seed_size params = input_size params.
Hypothesis Hvalid : valid_signature revealSeedsSize openMerkleTreeSize params sig.
Hypothesis Halloc : proof_allocated params (allocateProof2 params).

Lemma read_written_proofs n : forall t sig3 rest,
  challengeC sig3 = challengeC sig -> challengeP sig3 = challengeP sig ->
  length (proofs sig3) = num_rounds params ->
  (t + n <= num_rounds params)%nat ->
  exists prfs,
    read_proofs allocateProof2 n t (seedInfo_size revealSeedsSize params) params
      sig3 (write_proofs n t sig params [] ++ rest)
    = (EXIT_SUCCESS,
       {| salt := salt sig3; iSeedInfo := iSeedInfo sig3;
          iSeedInfoLen := iSeedInfoLen sig3; cvInfo := cvInfo sig3;
          cvInfoLen := cvInfoLen sig3; challengeC := challengeC sig3;
          challengeP := challengeP sig3; proofs := prfs |},
       rest) /\
    length prfs = num_rounds params /\
    (forall t', (t' < t)%nat -> nth t' prfs empty_proof = proof_at sig3 t') /\
    (forall t', (t <= t' < t + n)%nat -> opened (challengeC sig) t' = true ->
       same_proof (has_aux params (challengeC sig) (challengeP sig) t')
         (proof_at sig t') (nth t' prfs empty_proof)).
Proof.
  induction n as [|n IH]; intros t sig3 rest HC HP Hlen Ht.
  - exists (proofs sig3). cbn [read_proofs write_proofs app].
    destruct sig3; cbn [salt iSeedInfo iSeedInfoLen cvInfo cvInfoLen challengeC
                        challengeP proofs proof_at] in *.
    split; [reflexivity|]. split; [exact Hlen|].
    split; [reflexivity | intros t' Ht'; lia].
  - replace (t + S n)%nat with (S t + n)%nat by lia.
    destruct (opened (challengeC sig) t) eqn:Eo.
    + rewrite (write_proofs_step revealSeedsSize openMerkleTreeSize params sig
                 Hpar Hvalid) by (auto; lia).
      cbn [read_proofs]. rewrite HC, HP.
      rewrite contains_round, Eo by (auto; try apply Hvalid; lia). cbn [negb].
      rewrite P_of_round by (auto; try apply Hvalid; lia).
      destruct (vs_proofs _ _ _ _ Hvalid t ltac:(lia) Eo) as [V1 V2 V3 V4 V5 V6 V7].
      destruct Halloc as [A1 A2 A3 A4].
      unfold round_bytes. rewrite <- !app_assoc.
      change (negb (hidden (challengeC sig) (challengeP sig) t
                    =? Z.of_nat (num_MPC_parties params - 1)))
        with (has_aux params (challengeC sig) (challengeP sig) t).
      rewrite (firstn_exact (seedInfo (proof_at sig t))) by exact V2.
      rewrite (skipn_exact (seedInfo (proof_at sig t))) by exact V2.
      rewrite Hseed.
      destruct (has_aux params (challengeC sig) (challengeP sig) t) eqn:Eaux;
        cbn [andb app].
      * destruct (V3 eq_refl) as [V3a V3b].
        rewrite (memcpy_exact _ (aux (proof_at sig t))) by assumption.
        rewrite (skipn_exact (aux (proof_at sig t))) by exact V3a.
        apply arePaddingBitsZero_spec in V3b.
        destruct (Z.eqb_spec
                    (arePaddingBitsZero (aux (proof_at sig t)) (view_size params)
                       (3 * lowmc_r params * lowmc_m params)) 0) as [E|_];
          [contradiction|].
        rewrite (memcpy_exact _ (input (proof_at sig t))) by assumption.
        rewrite (skipn_exact (input (proof_at sig t))) by exact V4.
        rewrite (memcpy_exact _ (msgs (proof_at sig t))) by assumption.
        rewrite (skipn_exact (msgs (proof_at sig t))) by exact V5.
        apply arePaddingBitsZero_spec in V6.
        destruct (Z.eqb_spec
                    (arePaddingBitsZero (msgs (proof_at sig t))
                       (input_size params + view_size params)
                       (lowmc_n params + 3 * lowmc_r params * lowmc_m params)) 0)
          as [E|_]; [contradiction|].
        rewrite (memcpy_exact _ (C (proof_at sig t))) by assumption.
        rewrite (skipn_exact (C (proof_at sig t))) by exact V7.
        match goal with
        | |- context [read_proofs _ n (S t) _ params (set_proof sig3 t ?p) _] =>
            destruct (IH (S t) (set_proof sig3 t p) rest HC HP
                        ltac:(cbn [set_proof proofs]; rewrite upd_length; exact Hlen)
                        ltac:(lia))
              as (prfs & R & L & Hold & Hnew);
            exists prfs; rewrite R; cbn [set_proof salt iSeedInfo iSeedInfoLen
                                         cvInfo cvInfoLen challengeC challengeP];
            rewrite ?HC, ?HP;
            split; [reflexivity|]; split; [exact L|]; split;
            [ intros t' Ht'; rewrite Hold by lia;
              apply proof_at_set_other; lia
            | intros t' Ht' Ho';
              destruct (Nat.eq_dec t' t) as [->|Hne];
              [ rewrite Hold by lia; rewrite proof_at_set_same by lia;
                rewrite Eaux; unfold same_proof;
                cbn [seedInfo seedInfoLen aux input msgs C]; rewrite V1;
                repeat split; auto
              | apply Hnew; auto; lia ] ]
        end.
      * rewrite (memcpy_exact _ (input (proof_at sig t))) by assumption.
        rewrite (skipn_exact (input (proof_at sig t))) by exact V4.
        rewrite (memcpy_exact _ (msgs (proof_at sig t))) by assumption.
        rewrite (skipn_exact (msgs (proof_at sig t))) by exact V5.
        apply arePaddingBitsZero_spec in V6.
        destruct (Z.eqb_spec
                    (arePaddingBitsZero (msgs (proof_at sig t))
                       (input_size params + view_size params)
                       (lowmc_n params + 3 * lowmc_r params * lowmc_m params)) 0)
          as [E|_]; [contradiction|].
        rewrite (memcpy_exact _ (C (proof_at sig t))) by assumption.
        rewrite (skipn_exact (C (proof_at sig t))) by exact V7.
        match goal with
        | |- context [read_proofs _ n (S t) _ params (set_proof sig3 t ?p) _] =>
            destruct (IH (S t) (set_proof sig3 t p) rest HC HP
                        ltac:(cbn [set_proof proofs]; rewrite upd_length; exact Hlen)
                        ltac:(lia))
              as (prfs & R & L & Hold & Hnew);
            exists prfs; rewrite R; cbn [set_proof salt iSeedInfo iSeedInfoLen
                                         cvInfo cvInfoLen challengeC challengeP];
            rewrite ?HC, ?HP;
            split; [reflexivity|]; split; [exact L|]; split;
            [ intros t' Ht'; rewrite Hold by lia;
              apply proof_at_set_other; lia
            | intros t' Ht' Ho';
              destruct (Nat.eq_dec t' t) as [->|Hne];
              [ rewrite Hold by lia; rewrite proof_at_set_same by lia;
                rewrite Eaux; unfold same_proof;
                cbn [seedInfo seedInfoLen aux input msgs C]; rewrite V1;
                repeat split; auto; discriminate
              | apply Hnew; auto; lia ] ]
        end.
    + rewrite (write_proofs_skip revealSeedsSize openMerkleTreeSize params sig
                 Hpar Hvalid) by (auto; lia).
      cbn [read_proofs]. rewrite HC.
      rewrite contains_round, Eo by (auto; try apply Hvalid; lia). cbn [negb].
      destruct (IH (S t) sig3 rest HC HP Hlen ltac:(lia))
        as (prfs & R & L & Hold & Hnew).
      exists prfs. split; [rewrite R, ?HC, ?HP; reflexivity|].
      split; [exact L|]. split.
      * intros t' Ht'. apply Hold. lia.
      * intros t' Ht' Ho'. destruct (Nat.eq_dec t' t) as [->|Hne];
          [congruence | apply Hnew; auto; lia].
Qed.

Lemma challenges_u16 l bound :
  bound <= 65536 -> Forall (fun c => 0 <= c < bound) l ->
  Forall (fun c => 0 <= c < 65536) l.
Proof.
  intros Hb H. eapply Forall_impl; [|exact H]. cbn. intros c Hc. lia.
Qed.

Lemma inRange_valid l n bound :
  length l = n -> Forall (fun c => 0 <= c < bound) l ->
  (inRange l n 0 (bound - 1) =? 0) = false.
Proof.
  intros <- H. apply Z.eqb_neq. apply inRange_spec.
  eapply Forall_impl; [|exact H]. cbn. intros c Hc. lia.
Qed.

Lemma deserializeSignature2_reads_back sig0 :
  signature_allocated params sig0 ->
  exists sig',
    deserializeSignature2 revealSeedsSize openMerkleTreeSize allocateProof2
      sig0 (signature_bytes params sig) (length (signature_bytes params sig))
      params
    = (EXIT_SUCCESS, sig') /\
    same_signature params sig sig'.
Proof.
  intros [S1 S2].
  pose proof (signature_bytes_length revealSeedsSize openMerkleTreeSize params
                sig Hpar Hvalid) as Hlen.
  destruct Hvalid as [VC VP VCr VCd VPr Vs ViL Vi VcL Vc Vp].
  destruct Hpar as [Pr Pp Po].
  assert (HCu : Forall (fun c => 0 <= c < 65536) (challengeC sig))
    by (apply (challenges_u16 _ (Z.of_nat (num_rounds params))); auto; lia).
  assert (HPu : Forall (fun c => 0 <= c < 65536) (challengeP sig))
    by (apply (challenges_u16 _ (Z.of_nat (num_MPC_parties params))); auto; lia).
  unfold signature_bytes in *.
  remember (write_proofs (num_rounds params) 0 sig params []) as W eqn:EW.
  remember (cvInfo sig ++ W) as b4 eqn:E4.
  remember (iSeedInfo sig ++ b4) as b3 eqn:E3.
  remember (salt sig ++ b3) as b2 eqn:E2.
  remember (serialize_u16 (challengeP sig) (num_opened_rounds params) ++ b2)
    as b1 eqn:E1.
  remember (serialize_u16 (challengeC sig) (num_opened_rounds params) ++ b1)
    as b0 eqn:E0.
  assert (D0 : deserialize_u16 b0 (num_opened_rounds params) = challengeC sig)
    by (rewrite E0; now apply deserialize_serialize_u16).
  assert (K0 : skipn (2 * num_opened_rounds params) b0 = b1)
    by (rewrite E0; apply skipn_exact, serialize_u16_length).
  assert (D1 : deserialize_u16 b1 (num_opened_rounds params) = challengeP sig)
    by (rewrite E1; now apply deserialize_serialize_u16).
  assert (K1 : skipn (2 * num_opened_rounds params) b1 = b2)
    by (rewrite E1; apply skipn_exact, serialize_u16_length).
  assert (M2 : memcpy (salt sig0) b2 SALT_SIZE = salt sig)
    by (rewrite E2; now apply memcpy_exact).
  assert (K2 : skipn SALT_SIZE b2 = b3) by (rewrite E2; now apply skipn_exact).
  assert (F3 : firstn (iSeedInfo_size revealSeedsSize params (challengeC sig)) b3
               = iSeedInfo sig)
    by (rewrite E3; apply firstn_exact; congruence).
  assert (K3 : skipn (iSeedInfo_size revealSeedsSize params (challengeC sig)) b3
               = b4)
    by (rewrite E3; apply skipn_exact; congruence).
  assert (F4 : firstn (cvInfo_size openMerkleTreeSize params (challengeC sig)) b4
               = cvInfo sig)
    by (rewrite E4; apply firstn_exact; congruence).
  assert (K4 : skipn (cvInfo_size openMerkleTreeSize params (challengeC sig)) b4
               = W ++ [])
    by (rewrite E4, app_nil_r; apply skipn_exact; congruence).
  unfold deserializeSignature2.
  assert (Hge : (4 * num_opened_rounds params + SALT_SIZE <= length b0)%nat).
  { rewrite Hlen. unfold required_size, proofs_start. lia. }
  destruct (Nat.ltb_spec (length b0)
              (4 * num_opened_rounds params + SALT_SIZE)) as [Hlt|_]; [lia|].
  rewrite !D0, !K0, !D1, !K1, !M2, !K2.
  rewrite (inRange_valid _ _ _ VC VCr).
  assert (U : (unique (challengeC sig) (num_opened_rounds params) =? 0) = false).
  { apply Z.eqb_neq. rewrite <- VC. now apply unique_spec. }
  rewrite U.
  rewrite (inRange_valid _ _ _ VP VPr).
  change (revealSeedsSize (num_rounds params) (challengeC sig)
            (num_opened_rounds params) params)
    with (iSeedInfo_size revealSeedsSize params (challengeC sig)).
  change (openMerkleTreeSize (num_rounds params)
            (getMissingLeavesList (challengeC sig) params)
            (num_rounds params - num_opened_rounds params)%nat params)
    with (cvInfo_size openMerkleTreeSize params (challengeC sig)).
  change (revealSeedsSize (num_MPC_parties params) [0] 1%nat params)
    with (seedInfo_size revealSeedsSize params).
  change (4 * num_opened_rounds params + SALT_SIZE
          + iSeedInfo_size revealSeedsSize params (challengeC sig)
          + cvInfo_size openMerkleTreeSize params (challengeC sig))%nat
    with (proofs_start revealSeedsSize openMerkleTreeSize params (challengeC sig)).
  assert (Hreq : required_loop (num_rounds params) 0 (challengeC sig)
                   (challengeP sig) (seedInfo_size revealSeedsSize params) params
                   (proofs_start revealSeedsSize openMerkleTreeSize params
                      (challengeC sig))
                 = length b0).
  { pose proof (required_loop_spec revealSeedsSize params (challengeC sig)
                  (challengeP sig) (num_rounds params)
                  (Build_params_ok params Pr Pp Po) VC VP 0
                  (proofs_start revealSeedsSize openMerkleTreeSize params
                     (challengeC sig)) ltac:(lia)) as H.
    cbn [proofs_offset Nat.add] in H. rewrite Hlen. unfold required_size. lia. }
  rewrite Hreq, Nat.eqb_refl. cbn [negb].
  rewrite !F3, !K3, !F4, !K4.
  match goal with
  | |- context [read_proofs _ _ 0 _ params ?sg (W ++ [])] =>
      destruct (read_written_proofs (num_rounds params) 0 sg [] eq_refl eq_refl
                  S2 ltac:(lia)) as (prfs & R & L & _ & Hnew)
  end.
  rewrite EW. rewrite R.
  eexists. split; [reflexivity|].
  unfold same_signature.
  cbn [salt iSeedInfo iSeedInfoLen cvInfo cvInfoLen challengeC challengeP
       proofs proof_at].
  repeat (split; [congruence|]).
  intros t Ht Ho. apply Hnew; auto. lia.
Qed.

End ReadingBack.

(** C7.  For a valid signature structure, [serializeSignature2] fails
    (with [-1], leaving the buffer alone) only when the buffer is shorter
    than the recomputed required size; otherwise it returns that size and
    changes exactly that many leading bytes.  When the seeds and the
    inputs of the parameter set have the same length,
    [deserializeSignature2] on those bytes returns [EXIT_SUCCESS] with
    the same [challengeC], [challengeP], [salt], [iSeedInfo], [cvInfo]
    and, for every opened round, the same proof fields.  When the two
    lengths differ, the [input] field does not come back: the reader
    copies [seed_size] bytes of it. *)
Theorem serializeSignature2_round_trip
  (revealSeedsSize openMerkleTreeSize : nat -> list Z -> nat -> picnic_instance_t -> nat)
  (allocateProof2 : picnic_instance_t -> proof2_t)
  (params : picnic_instance_t) (sig sig0 : signature2_t) (buf : list Z) :
  params_ok params ->
  valid_signature revealSeedsSize openMerkleTreeSize params sig ->
  proof_allocated params (allocateProof2 params) ->
  signature_allocated params sig0 ->
  let required :=
    required_size revealSeedsSize openMerkleTreeSize params
      (challengeC sig) (challengeP sig) in
  let written := serializeSignature2 sig buf (length buf) params in
  ((length buf < required)%nat -> written = (-1, buf)) /\
  ((required <= length buf)%nat ->
   fst written = Z.of_nat required /\
   length (snd written) = length buf /\
   skipn required (snd written) = skipn required buf /\
   (seed_size params = input_size params ->
    let back :=
      deserializeSignature2 revealSeedsSize openMerkleTreeSize allocateProof2
        sig0 (firstn required (snd written)) required params in
    fst back = EXIT_SUCCESS /\ same_signature params sig (snd back))).
Proof.
  intros Hpar Hvalid Halloc Hsig0 required written.
  pose proof (signature_bytes_length revealSeedsSize openMerkleTreeSize params
                sig Hpar Hvalid) as Hlen.
  fold required in Hlen.
  subst written.
  rewrite (serializeSignature2_writes revealSeedsSize openMerkleTreeSize params
             sig Hpar Hvalid buf), Hlen.
  split; intros Hb.
  - destruct (Nat.ltb_spec (length buf) required) as [_|H]; [reflexivity | lia].
  - destruct (Nat.ltb_spec (length buf) required) as [H|_]; [lia|].
    cbn [fst snd]. split; [reflexivity|].
    split; [rewrite length_app, length_skipn; lia|].
    split; [now rewrite (skipn_exact _ _ required Hlen)|].
    intros Hseed.
    rewrite (firstn_exact _ _ required Hlen).
    destruct (deserializeSignature2_reads_back revealSeedsSize openMerkleTreeSize
                allocateProof2 params sig Hpar Hseed Hvalid Halloc sig0 Hsig0)
      as (sig' & R & Hsame).
    rewrite Hlen in R. rewrite R. split; [reflexivity | exact Hsame].
Qed.

Lemma demo_signature_valid :
  valid_signature Examples.demo_revealSeedsSize Examples.demo_openMerkleTreeSize
    Examples.demo_params Examples.demo_signature.
Proof.
  split; try reflexivity.
  - apply Forall_cons; [cbn; lia | apply Forall_nil].
  - apply NoDup_cons; [intros [] | apply NoDup_nil].
  - apply Forall_cons; [cbn; lia | apply Forall_nil].
  - intros [|[|t]] Ht Ho; try (cbn in Ht; lia); try discriminate.
    split; try reflexivity.
    + intros _. split; [reflexivity|].
      apply arePaddingBitsZero_spec. vm_compute. discriminate.
    + apply arePaddingBitsZero_spec. vm_compute. discriminate.
Qed.

Lemma serializeSignature2_round_trip_witness :
  fst (serializeSignature2 Examples.demo_signature (repeat 0 50) 50
         Examples.demo_params) = 44 /\
  fst (deserializeSignature2 Examples.demo_revealSeedsSize
         Examples.demo_openMerkleTreeSize Examples.demo_allocateProof2
         (Examples.blank_signature Examples.demo_params)
         (firstn 44
            (snd (serializeSignature2 Examples.demo_signature (repeat 0 50) 50
                    Examples.demo_params)))
         44 Examples.demo_params) = EXIT_SUCCESS /\
  same_signature Examples.demo_params Examples.demo_signature
    (snd (deserializeSignature2 Examples.demo_revealSeedsSize
            Examples.demo_openMerkleTreeSize Examples.demo_allocateProof2
            (Examples.blank_signature Examples.demo_params)
            (firstn 44
               (snd (serializeSignature2 Examples.demo_signature (repeat 0 50)
                       50 Examples.demo_params)))
            44 Examples.demo_params)).
Proof.
  pose proof (serializeSignature2_round_trip
                Examples.demo_revealSeedsSize Examples.demo_openMerkleTreeSize
                Examples.demo_allocateProof2 Examples.demo_params
                Examples.demo_signature
                (Examples.blank_signature Examples.demo_params)
                (repeat 0 50)
                demo_params_ok demo_signature_valid
                ltac:(split; reflexivity) ltac:(split; reflexivity)) as H.
  destruct H as [_ H]. specialize (H ltac:(vm_compute; lia)).
  destruct H as (H1 & _ & _ & H). destruct (H eq_refl) as [H2 H3].
  split; [exact H1|]. split; [exact H2 | exact H3].
Defined.

Lemma skewed_params_ok : params_ok Examples.skewed_params.
Proof. split; cbn; lia. Qed.

Lemma skewed_signature_valid :
  valid_signature Examples.demo_revealSeedsSize Examples.demo_openMerkleTreeSize
    Examples.skewed_params Examples.skewed_signature.
Proof.
  split; try reflexivity.
  - apply Forall_cons; [cbn; lia | apply Forall_nil].
  - apply NoDup_cons; [intros [] | apply NoDup_nil].
  - apply Forall_cons; [cbn; lia | apply Forall_nil].
  - intros [|[|t]] Ht Ho; try (cbn in Ht; lia); try discriminate.
    split; try reflexivity.
    + intros _. split; [reflexivity|].
      apply arePaddingBitsZero_spec. vm_compute. discriminate.
    + apply arePaddingBitsZero_spec. vm_compute. discriminate.
Qed.

(** With one-byte seeds and two-byte inputs the round trip fails for a
    valid signature structure: the 46 bytes written are read back with
    [EXIT_SUCCESS], but the [input] of the opened round comes back as
    [77; 0] where [77; 78] was written, so the signature read is not the
    one written. *)
Lemma serializeSignature2_round_trip_skewed :
  params_ok Examples.skewed_params /\
  valid_signature Examples.demo_revealSeedsSize Examples.demo_openMerkleTreeSize
    Examples.skewed_params Examples.skewed_signature /\
  proof_allocated Examples.skewed_params
    (Examples.demo_allocateProof2 Examples.skewed_params) /\
  signature_allocated Examples.skewed_params
    (Examples.blank_signature Examples.skewed_params) /\
  seed_size Examples.skewed_params <> input_size Examples.skewed_params /\
  let written :=
    serializeSignature2 Examples.skewed_signature (repeat 0 46) 46
      Examples.skewed_params in
  let back :=
    deserializeSignature2 Examples.demo_revealSeedsSize
      Examples.demo_openMerkleTreeSize Examples.demo_allocateProof2
      (Examples.blank_signature Examples.skewed_params)
      (firstn 46 (snd written)) 46 Examples.skewed_params in
  fst written = 46 /\
  fst back = EXIT_SUCCESS /\
  input (proof_at Examples.skewed_signature 1) = [77; 78] /\
  input (proof_at (snd back) 1) = [77; 0] /\
  ~ same_signature Examples.skewed_params Examples.skewed_signature (snd back).
Proof.
  split; [exact skewed_params_ok|]. split; [exact skewed_signature_valid|].
  split; [split; reflexivity|]. split; [split; reflexivity|].
  split; [cbn; lia|]. cbv zeta.
  split; [vm_compute; reflexivity|]. split; [vm_compute; reflexivity|].
  split; [reflexivity|]. split; [vm_compute; reflexivity|].
  intros (_ & _ & _ & _ & _ & _ & _ & H).
  specialize (H 1%nat ltac:(cbn; lia) eq_refl).
  destruct H as (_ & _ & _ & H & _).
  vm_compute in H. discriminate.
Qed.

(** The bytes written for the toy signature are [demo_sigBytes]. *)
Example serializeSignature2_demo :
  serializeSignature2 Examples.demo_signature (repeat 0 44) 44
    Examples.demo_params = (44, Examples.demo_sigBytes).
Proof. vm_compute. reflexivity. Qed.

End RoundTripFacts.

(* ================================================================== *)
(** * The [input] field read by [deserializeSignature2] *)
(* ================================================================== *)

Module InputFieldFacts.

Import Tape Sig SigSpec TapeFacts SigFacts RoundTripFacts.

(** The proof loop never writes a slot below the round it is at. *)
Lemma read_proofs_keeps_earlier allocateProof2 n : forall t s params sig bytes t',
  (t' < t)%nat ->
  proof_at (snd (fst (read_proofs allocateProof2 n t s params sig bytes))) t'
  = proof_at sig t'.
Proof.
  induction n as [|n IH]; intros t s params sig bytes t' Ht'; cbn [read_proofs].
  - reflexivity.
  - destruct (contains (challengeC sig) (num_opened_rounds params) (to_u16 t) =? 0).
    + apply IH. lia.
    + destruct (negb _ && _); cbn [fst snd];
        [apply proof_at_set_other; lia|].
      destruct (arePaddingBitsZero _ _ _ =? 0); cbn [fst snd];
        [apply proof_at_set_other; lia|].
      rewrite IH by lia. apply proof_at_set_other. lia.
Qed.

(** Where the [input] field of round [t] starts, counted from the start
    of the round's proof: after [seedInfo] and, when present, [aux]. *)
Definition input_field_offset (params : picnic_instance_t) (sig : signature2_t)
           (s t : nat) : nat :=
  if P_of (challengeC sig) (challengeP sig) (num_opened_rounds params) t
     =? Z.of_nat (num_MPC_parties params - 1)
  then s else (s + view_size params)%nat.

(** C9.  When the proof loop of [deserializeSignature2] gets through an
    opened round [t] whose proof starts at [bytes], the [input] buffer of
    [proofs[t]] holds the first [seed_size] bytes of the field followed by
    what the allocator left beyond them, while [msgs] is read from
    [input_size] bytes past the start of the field: [seed_size] bytes are
    copied and the cursor moves by [input_size]. *)
Theorem read_proofs_input_field
  (allocateProof2 : picnic_instance_t -> proof2_t) (n t s : nat)
  (params : picnic_instance_t) (sig : signature2_t) (bytes : list Z) :
  (t < length (proofs sig))%nat ->
  contains (challengeC sig) (num_opened_rounds params) (to_u16 t) <> 0 ->
  fst (fst (read_proofs allocateProof2 (S n) t s params sig bytes))
  = EXIT_SUCCESS ->
  let field := skipn (input_field_offset params sig s t) bytes in
  let p := proof_at (snd (fst (read_proofs allocateProof2 (S n) t s params
                                 sig bytes))) t in
  input p = firstn (seed_size params) field
            ++ skipn (seed_size params) (input (allocateProof2 params)) /\
  msgs p = memcpy (msgs (allocateProof2 params))
             (skipn (input_size params) field)
             (input_size params + view_size params).
Proof.
  intros Hlen Hopen Hret field p. subst field p. revert Hret.
  cbn [read_proofs]. unfold input_field_offset.
  destruct (Z.eqb_spec
              (contains (challengeC sig) (num_opened_rounds params) (to_u16 t)) 0)
    as [E|_]; [contradiction|].
  destruct (P_of (challengeC sig) (challengeP sig) (num_opened_rounds params) t
            =? Z.of_nat (num_MPC_parties params - 1)); cbn [negb andb].
  - destruct (arePaddingBitsZero _ _ _ =? 0); cbn [fst snd]; [discriminate|].
    intros _. rewrite read_proofs_keeps_earlier by lia.
    rewrite proof_at_set_same by exact Hlen. cbn [input msgs].
    split; reflexivity.
  - destruct (arePaddingBitsZero _ _ _ =? 0); cbn [fst snd]; [discriminate|].
    destruct (arePaddingBitsZero _ _ _ =? 0); cbn [fst snd]; [discriminate|].
    intros _. rewrite read_proofs_keeps_earlier by lia.
    rewrite proof_at_set_same by exact Hlen. cbn [input msgs].
    rewrite !skipn_skipn.
    replace (view_size params + s)%nat with (s + view_size params)%nat by lia.
    split; reflexivity.
Qed.

Lemma read_proofs_input_field_witness :
  input (proof_at
           (snd (fst (read_proofs Examples.demo_allocateProof2 1 1 1
                        Examples.demo_params Examples.demo_signature
                        [5; 224; 77; 255; 224; 3]))) 1)
  = firstn (seed_size Examples.demo_params)
      (skipn (input_field_offset Examples.demo_params Examples.demo_signature 1 1)
         [5; 224; 77; 255; 224; 3])
    ++ skipn (seed_size Examples.demo_params)
         (input (Examples.demo_allocateProof2 Examples.demo_params)) /\
  msgs (proof_at
          (snd (fst (read_proofs Examples.demo_allocateProof2 1 1 1
                       Examples.demo_params Examples.demo_signature
                       [5; 224; 77; 255; 224; 3]))) 1)
  = memcpy (msgs (Examples.demo_allocateProof2 Examples.demo_params))
      (skipn (input_size Examples.demo_params)
         (skipn (input_field_offset Examples.demo_params
                   Examples.demo_signature 1 1)
            [5; 224; 77; 255; 224; 3]))
      (input_size Examples.demo_params + view_size Examples.demo_params).
Proof.
  apply (read_proofs_input_field Examples.demo_allocateProof2 0 1 1
           Examples.demo_params Examples.demo_signature
           [5; 224; 77; 255; 224; 3]).
  - cbn. lia.
  - vm_compute. discriminate.
  - vm_compute. reflexivity.
Defined.

(** With two-byte inputs and one-byte seeds, a serialized signature is
    read back successfully, yet the second byte of the opened round's
    [input] is the allocator's zero and not the byte that was written. *)
Example deserializeSignature2_input_truncated :
  seed_size Examples.skewed_params = 1%nat /\
  input_size Examples.skewed_params = 2%nat /\
  serializeSignature2 Examples.skewed_signature (repeat 0 46) 46
    Examples.skewed_params
  = (46, [1; 0; 0; 0] ++ repeat 7 32 ++ [9; 8; 5; 224; 77; 78; 255; 224; 0; 3]) /\
  fst (deserializeSignature2 Examples.demo_revealSeedsSize
         Examples.demo_openMerkleTreeSize Examples.demo_allocateProof2
         (Examples.blank_signature Examples.skewed_params)
         ([1; 0; 0; 0] ++ repeat 7 32 ++ [9; 8; 5; 224; 77; 78; 255; 224; 0; 3])
         46 Examples.skewed_params) = EXIT_SUCCESS /\
  input (proof_at
           (snd (deserializeSignature2 Examples.demo_revealSeedsSize
                   Examples.demo_openMerkleTreeSize Examples.demo_allocateProof2
                   (Examples.blank_signature Examples.skewed_params)
                   ([1; 0; 0; 0] ++ repeat 7 32
                    ++ [9; 8; 5; 224; 77; 78; 255; 224; 0; 3])
                   46 Examples.skewed_params)) 1) = [77; 0] /\
  input (proof_at Examples.skewed_signature 1) = [77; 78].
Proof. repeat split; vm_compute; reflexivity. Qed.

End InputFieldFacts.

(* ================================================================== *)
(** * The challenge lists [HCP] produces *)
(* ================================================================== *)

Module ChallengeFacts.

Import Tape Sig Challenge TapeFacts SigFacts RoundTripFacts.

(** ** Lists of first occurrences *)

Lemma first_occurrences_app l1 : forall seen l2,
  first_occurrences seen (l1 ++ l2)
  = first_occurrences seen l1
    ++ first_occurrences (seen ++ first_occurrences seen l1) l2.
Proof.
  induction l1 as [|x l1 IH]; intros seen l2; cbn [first_occurrences app].
  - now rewrite app_nil_r.
  - destruct (existsb (fun y => y =? x) seen).
    + apply IH.
    + cbn [app]. f_equal. rewrite IH. do 2 f_equal.
      now rewrite <- app_assoc.
Qed.

Lemma first_occurrences_Forall (P : Z -> Prop) l : forall seen,
  Forall P l -> Forall P (first_occurrences seen l).
Proof.
  induction l as [|x l IH]; intros seen H; cbn [first_occurrences].
  - constructor.
  - inversion H; subst.
    destruct (existsb (fun y => y =? x) seen); [auto|].
    constructor; auto.
Qed.

Lemma existsb_eqb_In x l : existsb (fun y => y =? x) l = true <-> In x l.
Proof.
  rewrite existsb_exists. split.
  - intros (y & Hy & E). apply Z.eqb_eq in E. now subst.
  - intros H. exists x. split; [exact H | apply Z.eqb_refl].
Qed.

Lemma first_occurrences_NoDup l : forall seen,
  NoDup seen -> NoDup (seen ++ first_occurrences seen l).
Proof.
  induction l as [|x l IH]; intros seen H; cbn [first_occurrences].
  - now rewrite app_nil_r.
  - destruct (existsb (fun y => y =? x) seen) eqn:E; [auto|].
    change (x :: first_occurrences (seen ++ [x]) l)
      with ([x] ++ first_occurrences (seen ++ [x]) l).
    rewrite app_assoc. apply IH.
    apply NoDup_app; [exact H | repeat constructor; intros [] |].
    intros y Hy [<-|[]].
    apply existsb_eqb_In in Hy. congruence.
Qed.

Lemma NoDup_firstn_of {A} n (l : list A) : NoDup l -> NoDup (firstn n l).
Proof.
  intros H. rewrite <- (firstn_skipn n l) in H.
  now apply NoDup_app_remove_r in H.
Qed.

Lemma Forall_firstn_of {A} (P : A -> Prop) n l : Forall P l -> Forall P (firstn n l).
Proof.
  intros H. rewrite <- (firstn_skipn n l) in H.
  now apply Forall_app in H.
Qed.

Lemma append_new_app acc l1 l2 :
  append_new acc (l1 ++ l2) = append_new (append_new acc l1) l2.
Proof.
  unfold append_new. rewrite first_occurrences_app. now rewrite app_assoc.
Qed.

Lemma firstn_prefix_app {A} n (a x y : list A) :
  firstn n (firstn n a ++ x) = firstn n (a ++ y) \/ (length a <= n)%nat.
Proof.
  destruct (Nat.le_gt_cases (length a) n) as [H|H]; [now right | left].
  rewrite !firstn_app, firstn_firstn, Nat.min_id, length_firstn, Nat.min_l by lia.
  replace (n - n)%nat with O by lia.
  replace (n - length a)%nat with O by lia.
  reflexivity.
Qed.

(** Cutting at [n] after one part and again after the next gives the first
    [n] entries of the whole. *)
Lemma firstn_append_new n acc cs rest :
  firstn n (append_new (firstn n (append_new acc cs)) rest)
  = firstn n (append_new acc (cs ++ rest)).
Proof.
  rewrite append_new_app. set (a := append_new acc cs).
  destruct (Nat.le_gt_cases (length a) n) as [H|H].
  - now rewrite (firstn_all2 (n := n) a) by exact H.
  - unfold append_new.
    destruct (firstn_prefix_app n a
                (first_occurrences (firstn n a) rest)
                (first_occurrences a rest)) as [E|E]; [exact E | lia].
Qed.

Lemma firstn_filter_parts {A} n (acc f1 f2 : list A) :
  firstn n (firstn n (acc ++ f1) ++ f2) = firstn n (acc ++ f1 ++ f2).
Proof.
  rewrite (app_assoc acc f1 f2). set (a := acc ++ f1).
  destruct (firstn_prefix_app n a f2 f2) as [E|E]; [exact E|].
  now rewrite (firstn_all2 (n := n) a) by exact E.
Qed.

(** ** Chunks of a digest *)

Lemma chunk_bits_bound len h base : 0 <= chunk_bits len h base < 2 ^ Z.of_nat len.
Proof.
  induction len as [|len IH]; cbn [chunk_bits]; [cbn; lia|].
  rewrite Nat2Z.inj_succ, Z.pow_succ_r by lia.
  destruct (getBit_is_bit h (base + len)) as [-> | ->]; lia.
Qed.

(** For chunks of at most 16 bits the assertion inside the loop holds
    at every turn, and the loop leaves the chunk's bits. *)
Lemma chunk_loop_spec h base len n : forall j,
  (j + n = len)%nat -> (len <= 16)%nat ->
  chunk_loop n j len h base (chunk_bits j h base)
  = Some (chunk_bits len h base).
Proof.
  induction n as [|n IH]; intros j Hj Hlen; cbn [chunk_loop].
  - rewrite Nat.add_0_r in Hj. now subst.
  - pose proof (chunk_bits_bound (S j) h base) as B. cbn [chunk_bits] in B.
    assert (P1 : 2 ^ Z.of_nat (S j) <= 2 ^ Z.of_nat len)
      by (apply Z.pow_le_mono_r; lia).
    assert (P2 : 2 ^ Z.of_nat len <= 2 ^ 16)
      by (apply Z.pow_le_mono_r; lia).
    change (2 ^ 16) with 65536 in P2.
    rewrite Z.shiftl_mul_pow2 by lia.
    rewrite Z.mod_small by lia.
    rewrite Z.shiftl_1_l.
    destruct (Z.ltb_spec (chunk_bits j h base
                          + getBit h (base + j) * 2 ^ Z.of_nat j)
                         (2 ^ Z.of_nat len)) as [_|H]; [|lia].
    apply (IH (S j)); lia.
Qed.

Lemma chunks_loop_spec len h n : forall i chunks,
  (len <= 16)%nat ->
  (i + n <= length chunks)%nat ->
  exists chunks1,
    chunks_loop n i len h chunks = Some chunks1 /\
    length chunks1 = length chunks /\
    forall k,
      rd16 chunks1 k
      = if (i <=? k)%nat && (k <? i + n)%nat
        then chunk_bits len h (k * len)
        else rd16 chunks k.
Proof.
  induction n as [|n IH]; intros i chunks Hlen Hi; cbn [chunks_loop].
  - exists chunks. split; [reflexivity|]. split; [reflexivity|]. intros k.
    destruct (Nat.leb_spec i k), (Nat.ltb_spec k (i + 0)); cbn [andb];
      try reflexivity; lia.
  - pose proof (chunk_loop_spec h (i * len) len len 0 eq_refl Hlen) as Ec.
    cbn [chunk_bits] in Ec. rewrite Ec.
    destruct (IH (S i) (upd chunks i (chunk_bits len h (i * len))) Hlen
                ltac:(rewrite upd_length; lia)) as (chunks1 & E & L & R).
    rewrite upd_length in L. exists chunks1.
    split; [exact E|]. split; [exact L|]. intros k. rewrite R.
    destruct (Nat.leb_spec (S i) k), (Nat.ltb_spec k (S i + n)),
      (Nat.leb_spec i k), (Nat.ltb_spec k (i + S n)); cbn [andb];
      try reflexivity; try lia;
      first [ assert (k = i) by lia; subst k; apply (rd_upd_eq Z 0); lia
            | apply (rd_upd_neq Z 0); lia ].
Qed.

(** A digest too short for one chunk holds no chunk. *)
Lemma digest_chunks_short len h digest_bytes :
  (digest_bytes * 8 < len)%nat \/ len = 0%nat ->
  digest_chunks len h digest_bytes = [].
Proof.
  intros [H | ->]; unfold digest_chunks.
  - now rewrite Nat.div_small by exact H.
  - reflexivity.
Qed.

Lemma chunk_stream_short next len digest_bytes k : forall h,
  (digest_bytes * 8 < len)%nat \/ len = 0%nat ->
  chunk_stream next len digest_bytes k h = [].
Proof.
  induction k as [|k IH]; intros h H; cbn [chunk_stream]; [reflexivity|].
  now rewrite digest_chunks_short, IH.
Qed.

(** [bitsToChunks] returns unless the digest is too short for one chunk
    (or chunks have no bits); what it returns are the chunks of the
    digest. *)
Lemma bitsToChunks_spec len h digest_bytes chunks :
  (len <= 16)%nat ->
  (digest_bytes * 8 / len <= length chunks)%nat ->
  match bitsToChunks len h digest_bytes chunks with
  | Some (numChunks, chunks1) =>
      length chunks1 = length chunks /\
      map (rd16 chunks1) (seq 0 numChunks) = digest_chunks len h digest_bytes
  | None => (digest_bytes * 8 < len)%nat \/ len = 0%nat
  end.
Proof.
  intros Hlen Hcap. unfold bitsToChunks.
  destruct (Nat.ltb_spec (digest_bytes * 8) len) as [Hs|Hs]; [now left|].
  destruct (Nat.eqb_spec len 0) as [H0|H0]; [now right|].
  destruct (chunks_loop_spec len h (digest_bytes * 8 / len) 0 chunks Hlen
              ltac:(lia)) as (chunks1 & E & L & R).
  rewrite E. split; [exact L|]. unfold digest_chunks.
  apply map_ext_in. intros k Hk.
  apply in_seq in Hk. rewrite R.
  destruct (Nat.leb_spec 0 k), (Nat.ltb_spec k (0 + digest_bytes * 8 / len));
    cbn [andb]; try lia; reflexivity.
Qed.

(** ** Appending to the challenge arrays *)

Lemma firstn_S_upd (l : list Z) : forall pos v,
  (pos < length l)%nat -> firstn (S pos) (upd l pos v) = firstn pos l ++ [v].
Proof.
  induction l as [|x l IH]; intros [|pos] v H; cbn [length] in H; try lia.
  - reflexivity.
  - cbn [upd]. rewrite firstn_cons, (firstn_cons pos x l), IH by lia. reflexivity.
Qed.

Lemma firstn_upd_above (l : list Z) : forall n pos v,
  (n <= pos)%nat -> firstn n (upd l pos v) = firstn n l.
Proof.
  induction l as [|x l IH]; intros [|n] [|pos] v H; cbn [upd firstn];
    try reflexivity; try lia.
  f_equal. apply IH. lia.
Qed.

Lemma appendUnique_loop_spec n : forall i l v,
  (i + n <= length l)%nat ->
  appendUnique_loop n i l v = existsb (fun y => y =? v) (firstn n (skipn i l)).
Proof.
  induction n as [|n IH]; intros i l v H; cbn [appendUnique_loop].
  - reflexivity.
  - rewrite (skipn_cons_nth i l 0) by lia. cbn [firstn existsb].
    change (nth i l 0) with (rd16 l i).
    destruct (rd16 l i =? v); cbn [orb]; [reflexivity|].
    apply IH. lia.
Qed.

Lemma appendUnique_spec l v pos :
  (pos < length l)%nat ->
  length (snd (appendUnique l v pos)) = length l /\
  (fst (appendUnique l v pos) <= S pos)%nat /\
  firstn (fst (appendUnique l v pos)) (snd (appendUnique l v pos))
  = append_new (firstn pos l) [v] /\
  length (append_new (firstn pos l) [v]) = fst (appendUnique l v pos).
Proof.
  intros H. unfold appendUnique, append_new. cbn [first_occurrences].
  assert (Hf : length (firstn pos l) = pos)
    by (rewrite length_firstn; lia).
  destruct (Nat.eqb_spec pos 0) as [->|Hp]; cbn [fst snd].
  - cbn [firstn existsb app]. rewrite upd_length.
    repeat split; auto. destruct l; [cbn in H; lia | reflexivity].
  - rewrite appendUnique_loop_spec by (cbn; lia). cbn [skipn].
    destruct (existsb (fun y => y =? v) (firstn pos l)); cbn [fst snd].
    + rewrite app_nil_r. repeat split; auto.
    + rewrite upd_length, firstn_S_upd, length_app, Hf by lia.
      cbn [length]. repeat split; auto. lia.
Qed.

Section Picking.

Variable params : picnic_instance_t.

Lemma pick_rounds_spec n : forall i chunks challengeC countC,
  (countC < num_opened_rounds params)%nat ->
  (num_opened_rounds params <= length challengeC)%nat ->
  let r := pick_rounds n i chunks params challengeC countC in
  length (fst r) = length challengeC /\
  (snd r <= num_opened_rounds params)%nat /\
  firstn (snd r) (fst r)
  = firstn (num_opened_rounds params)
      (append_new (firstn countC challengeC)
         (filter (below (num_rounds params)) (map (rd16 chunks) (seq i n)))).
Proof.
  induction n as [|n IH]; intros i chunks challengeC countC Hc Hl r; subst r.
  - cbn [pick_rounds fst snd seq map filter]. unfold append_new.
    cbn [first_occurrences]. rewrite app_nil_r.
    rewrite firstn_firstn. rewrite Nat.min_r by lia.
    repeat split; auto. lia.
  - cbn [pick_rounds seq map filter]. unfold below at 1.
    destruct (rd16 chunks i <? Z.of_nat (num_rounds params)).
    + destruct (appendUnique_spec challengeC (rd16 chunks i) countC ltac:(lia))
        as (A1 & A2 & A3 & A4).
      destruct (appendUnique challengeC (rd16 chunks i) countC)
        as [countC1 challengeC1]. cbn [fst snd] in A1, A2, A3, A4.
      change (rd16 chunks i :: ?f) with ([rd16 chunks i] ++ f).
      rewrite append_new_app, <- A3.
      destruct (Nat.eqb_spec countC1 (num_opened_rounds params)) as [E|E];
        cbn [fst snd].
      * split; [exact A1|]. split; [lia|].
        unfold append_new. rewrite firstn_app, length_firstn.
        rewrite Nat.min_l by lia.
        replace (num_opened_rounds params - countC1)%nat with O by lia.
        cbn [firstn]. rewrite app_nil_r, firstn_firstn, E, Nat.min_id.
        reflexivity.
      * destruct (IH (S i) chunks challengeC1 countC1 ltac:(lia) ltac:(lia))
          as (I1 & I2 & I3).
        split; [lia|]. split; [exact I2 | exact I3].
    + destruct (Nat.eqb_spec countC (num_opened_rounds params)) as [E|E]; [lia|].
      apply IH; auto.
Qed.

Lemma pick_parties_spec n : forall i chunks challengeP countP,
  (countP < num_opened_rounds params)%nat ->
  (num_opened_rounds params <= length challengeP)%nat ->
  let r := pick_parties n i chunks params challengeP countP in
  length (fst r) = length challengeP /\
  (snd r <= num_opened_rounds params)%nat /\
  firstn (snd r) (fst r)
  = firstn (num_opened_rounds params)
      (firstn countP challengeP
       ++ filter (below (num_MPC_parties params)) (map (rd16 chunks) (seq i n))).
Proof.
  induction n as [|n IH]; intros i chunks challengeP countP Hc Hl r; subst r.
  - cbn [pick_parties fst snd seq map filter]. rewrite app_nil_r.
    rewrite firstn_firstn. rewrite Nat.min_r by lia.
    repeat split; auto. lia.
  - cbn [pick_parties seq map filter]. unfold below at 1.
    destruct (rd16 chunks i <? Z.of_nat (num_MPC_parties params)).
    + assert (A3 : firstn (S countP) (upd challengeP countP (rd16 chunks i))
                   = firstn countP challengeP ++ [rd16 chunks i])
        by (apply firstn_S_upd; lia).
      change (rd16 chunks i :: ?f) with ([rd16 chunks i] ++ f).
      rewrite app_assoc, <- A3.
      destruct (Nat.eqb_spec (S countP) (num_opened_rounds params)) as [E|E];
        cbn [fst snd].
      * rewrite upd_length. split; [reflexivity|]. split; [lia|].
        symmetry. apply firstn_exact.
        rewrite length_firstn, upd_length. lia.
      * destruct (IH (S i) chunks (upd challengeP countP (rd16 chunks i))
                    (S countP) ltac:(lia) ltac:(rewrite upd_length; lia))
          as (I1 & I2 & I3).
        rewrite upd_length in I1.
        split; [exact I1|]. split; [exact I2 | exact I3].
    + destruct (Nat.eqb_spec countP (num_opened_rounds params)) as [E|E]; [lia|].
      apply IH; auto.
Qed.

End Picking.

(** ** The two [while] loops *)

Lemma append_new_length_ge acc l : (length acc <= length (append_new acc l))%nat.
Proof. unfold append_new. rewrite length_app. lia. Qed.

Section Loops.

Variable shake : picnic_instance_t -> list Z -> nat -> list Z.
Variable params : picnic_instance_t.

Let next := rehash shake params.
Let tau := num_opened_rounds params.
Let ds := digest_size params.

Lemma populate_C_spec bits fuel : forall h chunks challengeC countC out,
  (bits <= 16)%nat -> (ds * 8 / bits <= length chunks)%nat ->
  (countC <= tau)%nat -> (tau <= length challengeC)%nat ->
  populate_C shake fuel params bits h chunks challengeC countC = Some out ->
  exists k,
    snd (fst out) = nth_digest next k h /\
    length (fst (fst out)) = length challengeC /\
    length (snd out) = length chunks /\
    firstn tau (fst (fst out))
    = firstn tau
        (append_new (firstn countC challengeC)
           (filter (below (num_rounds params)) (chunk_stream next bits ds k h))) /\
    forall j, (j < k)%nat ->
      (length (append_new (firstn countC challengeC)
                 (filter (below (num_rounds params))
                    (chunk_stream next bits ds j h))) < tau)%nat.
Proof.
  induction fuel as [|fuel IH]; intros h chunks challengeC countC out
    Hbits Hcap Hc Hl Hrun.
  - cbn [populate_C] in Hrun. fold tau in Hrun.
    destruct (Nat.ltb_spec countC tau) as [Hlt|Hge]; [discriminate|].
    injection Hrun as <-. exists O. cbn [fst snd nth_digest chunk_stream filter].
    repeat split; auto; [|intros j Hj; lia].
    unfold append_new. cbn [first_occurrences]. rewrite app_nil_r.
    rewrite firstn_firstn. f_equal. lia.
  - cbn [populate_C] in Hrun. fold tau ds in Hrun.
    destruct (Nat.ltb_spec countC tau) as [Hlt|Hge].
    + pose proof (bitsToChunks_spec bits h ds chunks Hbits Hcap) as B.
      destruct (bitsToChunks bits h ds chunks) as [[numChunks chunks1]|];
        [|discriminate].
      destruct B as [B1 B2].
      pose proof (pick_rounds_spec params numChunks 0 chunks1 challengeC countC
                    Hlt Hl) as Pk.
      cbn zeta in Pk. rewrite B2 in Pk. fold tau in Pk.
      destruct (pick_rounds numChunks 0 chunks1 params challengeC countC)
        as [challengeC1 countC1]. cbn [fst snd] in Pk.
      destruct Pk as (P1 & P2 & P3).
      destruct (IH (next h) chunks1 challengeC1 countC1 out Hbits
                  ltac:(lia) P2 ltac:(lia) Hrun) as (k & K1 & K2 & K3 & K4 & K5).
      assert (Hlen1 : length (firstn countC1 challengeC1) = countC1)
        by (rewrite length_firstn; lia).
      exists (S k). cbn [nth_digest chunk_stream]. rewrite filter_app.
      split; [exact K1|]. split; [lia|]. split; [lia|]. split.
      * rewrite K4, P3. apply firstn_append_new.
      * intros [|j] Hj.
        -- cbn [chunk_stream filter]. unfold append_new.
           cbn [first_occurrences]. rewrite app_nil_r, length_firstn. lia.
        -- cbn [chunk_stream]. rewrite filter_app, append_new_app.
           specialize (K5 j ltac:(lia)). rewrite P3 in K5.
           pose proof (append_new_length_ge
                         (firstn tau
                            (append_new (firstn countC challengeC)
                               (filter (below (num_rounds params))
                                  (digest_chunks bits h ds))))
                         (filter (below (num_rounds params))
                            (chunk_stream next bits ds j (next h)))) as G.
           rewrite length_firstn in G.
           rewrite firstn_all2 in K5 by lia. exact K5.
    + injection Hrun as <-. exists O. cbn [fst snd nth_digest chunk_stream filter].
      repeat split; auto; [|intros j Hj; lia].
      unfold append_new. cbn [first_occurrences]. rewrite app_nil_r.
      rewrite firstn_firstn. f_equal. lia.
Qed.

Lemma populate_P_spec bits fuel : forall h chunks challengeP countP out,
  (bits <= 16)%nat -> (ds * 8 / bits <= length chunks)%nat ->
  (countP <= tau)%nat -> (tau <= length challengeP)%nat ->
  populate_P shake fuel params bits h chunks challengeP countP = Some out ->
  exists k,
    length out = length challengeP /\
    firstn tau out
    = firstn tau
        (firstn countP challengeP
         ++ filter (below (num_MPC_parties params))
              (chunk_stream next bits ds k h)) /\
    forall j, (j < k)%nat ->
      (length (firstn countP challengeP
               ++ filter (below (num_MPC_parties params))
                    (chunk_stream next bits ds j h)) < tau)%nat.
Proof.
  induction fuel as [|fuel IH]; intros h chunks challengeP countP out
    Hbits Hcap Hc Hl Hrun.
  - cbn [populate_P] in Hrun. fold tau in Hrun.
    destruct (Nat.ltb_spec countP tau) as [Hlt|Hge]; [discriminate|].
    injection Hrun as <-. exists O. cbn [chunk_stream filter].
    repeat split; auto; [|intros j Hj; lia].
    rewrite app_nil_r, firstn_firstn. f_equal. lia.
  - cbn [populate_P] in Hrun. fold tau ds in Hrun.
    destruct (Nat.ltb_spec countP tau) as [Hlt|Hge].
    + pose proof (bitsToChunks_spec bits h ds chunks Hbits Hcap) as B.
      destruct (bitsToChunks bits h ds chunks) as [[numChunks chunks1]|];
        [|discriminate].
      destruct B as [B1 B2].
      pose proof (pick_parties_spec params numChunks 0 chunks1 challengeP countP
                    Hlt Hl) as Pk.
      cbn zeta in Pk. rewrite B2 in Pk. fold tau in Pk.
      destruct (pick_parties numChunks 0 chunks1 params challengeP countP)
        as [challengeP1 countP1]. cbn [fst snd] in Pk.
      destruct Pk as (P1 & P2 & P3).
      destruct (IH (next h) chunks1 challengeP1 countP1 out Hbits
                  ltac:(lia) P2 ltac:(lia) Hrun) as (k & K2 & K4 & K5).
      exists (S k). cbn [chunk_stream]. rewrite filter_app.
      split; [lia|]. split.
      * rewrite K4, P3. apply firstn_filter_parts.
      * intros [|j] Hj.
        -- cbn [chunk_stream filter]. rewrite app_nil_r, length_firstn. lia.
        -- cbn [chunk_stream]. rewrite filter_app, app_assoc.
           specialize (K5 j ltac:(lia)). rewrite P3 in K5.
           rewrite length_app, length_firstn in K5.
           rewrite (length_app (_ ++ _)). lia.
    + injection Hrun as <-. exists O. cbn [chunk_stream filter].
      repeat split; auto; [|intros j Hj; lia].
      rewrite app_nil_r, firstn_firstn. f_equal. lia.
Qed.

Lemma populate_C_returns bits k : forall h chunks challengeC countC fuel,
  (bits <= 16)%nat -> (ds * 8 / bits <= length chunks)%nat ->
  (countC <= tau)%nat -> (tau <= length challengeC)%nat ->
  (k <= fuel)%nat ->
  (tau <= length (append_new (firstn countC challengeC)
                    (filter (below (num_rounds params))
                       (chunk_stream next bits ds k h))))%nat ->
  exists out,
    populate_C shake fuel params bits h chunks challengeC countC = Some out.
Proof.
  induction k as [|k IH]; intros h chunks challengeC countC fuel
    Hbits Hcap Hc Hl Hk Hen.
  - cbn [chunk_stream filter] in Hen. unfold append_new in Hen.
    cbn [first_occurrences] in Hen.
    rewrite app_nil_r, length_firstn in Hen.
    destruct fuel; cbn [populate_C]; fold tau;
      (destruct (Nat.ltb_spec countC tau); [lia | eauto]).
  - destruct fuel as [|fuel]; [lia|]. cbn [populate_C]. fold tau ds.
    destruct (Nat.ltb_spec countC tau) as [Hlt|Hge]; [|eauto].
    pose proof (bitsToChunks_spec bits h ds chunks Hbits Hcap) as B.
    destruct (bitsToChunks bits h ds chunks) as [[numChunks chunks1]|].
    2:{ exfalso. rewrite (chunk_stream_short next bits ds (S k) h B) in Hen.
        unfold append_new in Hen. cbn [filter first_occurrences] in Hen.
        rewrite app_nil_r, length_firstn in Hen. lia. }
    destruct B as [B1 B2].
    pose proof (pick_rounds_spec params numChunks 0 chunks1 challengeC countC
                  Hlt Hl) as Pk.
    cbn zeta in Pk. rewrite B2 in Pk. fold tau in Pk.
    destruct (pick_rounds numChunks 0 chunks1 params challengeC countC)
      as [challengeC1 countC1]. cbn [fst snd] in Pk.
    destruct Pk as (P1 & P2 & P3).
    apply IH; try lia. rewrite P3.
    cbn [chunk_stream] in Hen. rewrite filter_app, append_new_app in Hen.
    set (a := append_new (firstn countC challengeC)
                (filter (below (num_rounds params)) (digest_chunks bits h ds)))
      in *.
    destruct (Nat.le_gt_cases (length a) tau) as [H|H].
    + now rewrite (firstn_all2 (n := tau) a) by exact H.
    + pose proof (append_new_length_ge (firstn tau a)
                    (filter (below (num_rounds params))
                       (chunk_stream next bits ds k (next h)))) as G.
      rewrite length_firstn in G. fold next. lia.
Qed.

Lemma populate_P_returns bits k : forall h chunks challengeP countP fuel,
  (bits <= 16)%nat -> (ds * 8 / bits <= length chunks)%nat ->
  (countP <= tau)%nat -> (tau <= length challengeP)%nat ->
  (k <= fuel)%nat ->
  (tau <= length (firstn countP challengeP
                  ++ filter (below (num_MPC_parties params))
                       (chunk_stream next bits ds k h)))%nat ->
  exists out,
    populate_P shake fuel params bits h chunks challengeP countP = Some out.
Proof.
  induction k as [|k IH]; intros h chunks challengeP countP fuel
    Hbits Hcap Hc Hl Hk Hen.
  - cbn [chunk_stream filter] in Hen.
    rewrite app_nil_r, length_firstn in Hen.
    destruct fuel; cbn [populate_P]; fold tau;
      (destruct (Nat.ltb_spec countP tau); [lia | eauto]).
  - destruct fuel as [|fuel]; [lia|]. cbn [populate_P]. fold tau ds.
    destruct (Nat.ltb_spec countP tau) as [Hlt|Hge]; [|eauto].
    pose proof (bitsToChunks_spec bits h ds chunks Hbits Hcap) as B.
    destruct (bitsToChunks bits h ds chunks) as [[numChunks chunks1]|].
    2:{ exfalso. rewrite (chunk_stream_short next bits ds (S k) h B) in Hen.
        cbn [filter] in Hen.
        rewrite app_nil_r, length_firstn in Hen. lia. }
    destruct B as [B1 B2].
    pose proof (pick_parties_spec params numChunks 0 chunks1 challengeP countP
                  Hlt Hl) as Pk.
    cbn zeta in Pk. rewrite B2 in Pk. fold tau in Pk.
    destruct (pick_parties numChunks 0 chunks1 params challengeP countP)
      as [challengeP1 countP1]. cbn [fst snd] in Pk.
    destruct Pk as (P1 & P2 & P3).
    apply IH; try lia. rewrite P3.
    cbn [chunk_stream] in Hen. rewrite filter_app, app_assoc in Hen.
    fold next. rewrite length_app in Hen |- *. rewrite length_firstn. lia.
Qed.

End Loops.

(** ** Chunk widths and ranges *)

Lemma ceil_log2_mono x y : (x <= y)%nat -> (ceil_log2 x <= ceil_log2 y)%nat.
Proof.
  intros H. unfold ceil_log2. apply Z2Nat.inj_le; try apply Z.log2_up_nonneg.
  apply Z.log2_up_le_mono. lia.
Qed.

Lemma ceil_log2_u16 x : Z.of_nat x <= 65536 -> (ceil_log2 x <= 16)%nat.
Proof.
  intros H. unfold ceil_log2.
  pose proof (Z.log2_up_le_mono (Z.of_nat x) 65536 H) as L.
  change (Z.log2_up 65536) with 16 in L.
  pose proof (Z.log2_up_nonneg (Z.of_nat x)). lia.
Qed.

Lemma ceil_log2_pos x : (2 <= x)%nat -> (1 <= ceil_log2 x)%nat.
Proof.
  intros H. unfold ceil_log2.
  pose proof (Z.log2_up_le_mono 2 (Z.of_nat x) ltac:(lia)) as L.
  change (Z.log2_up 2) with 1 in L. lia.
Qed.

Lemma chunk_stream_nonneg next len digest_bytes k : forall h,
  Forall (fun c => 0 <= c) (chunk_stream next len digest_bytes k h).
Proof.
  induction k as [|k IH]; intros h; cbn [chunk_stream]; [constructor|].
  apply Forall_app. split; [|apply IH].
  unfold digest_chunks. apply Forall_forall. intros c Hc.
  apply in_map_iff in Hc. destruct Hc as (i & <- & _).
  apply chunk_bits_bound.
Qed.

Lemma filter_below_range bound l :
  Forall (fun c => 0 <= c) l ->
  Forall (fun c => 0 <= c < Z.of_nat bound) (filter (below bound) l).
Proof.
  intros H. apply Forall_forall. intros c Hc. apply filter_In in Hc.
  destruct Hc as [Hin Hb]. rewrite Forall_forall in H.
  unfold below in Hb. apply Z.ltb_lt in Hb. split; [now apply H | exact Hb].
Qed.

(** C5.  When [HCP] returns, [challengeC] is the list of the first
    [num_opened_rounds] distinct values, in order of first occurrence, among
    the [ceil_log2(num_rounds)]-bit chunks below [num_rounds] of the
    digests [h], [H(1, h)], ...; it has no duplicate and its entries are
    below [num_rounds].  [challengeP] is the list of the first
    [num_opened_rounds] chunks below [num_MPC_parties] among the
    [ceil_log2(num_MPC_parties)]-bit chunks of the digests that follow,
    repetitions kept.  In both cases a new digest is taken exactly when
    the chunks of the digests before it did not give enough entries. *)
Theorem HCP_challenges
  (shake : picnic_instance_t -> list Z -> nat -> list Z) (fuel : nat)
  (challengeC0 challengeP0 : list Z) (hashes : list (list Z))
  (hCv salt pubKey plaintext message : list Z) (messageByteLength : nat)
  (params : picnic_instance_t) (challengeC challengeP : list Z) :
  hcp_params_ok params ->
  length challengeC0 = num_opened_rounds params ->
  length challengeP0 = num_opened_rounds params ->
  HCP shake fuel challengeC0 challengeP0 hashes hCv salt pubKey plaintext
    message messageByteLength params = Some (challengeC, challengeP) ->
  let tau := num_opened_rounds params in
  let next := rehash shake params in
  let h := first_digest shake hashes hCv salt pubKey plaintext message
             messageByteLength params in
  let chunksC := chunk_stream next (ceil_log2 (num_rounds params))
                   (digest_size params) in
  let chunksP := chunk_stream next (ceil_log2 (num_MPC_parties params))
                   (digest_size params) in
  exists kC kP,
    let roundsC k :=
      first_occurrences [] (filter (below (num_rounds params)) (chunksC k h)) in
    let partiesP k :=
      filter (below (num_MPC_parties params))
        (chunksP k (nth_digest next kC h)) in
    challengeC = firstn tau (roundsC kC) /\
    challengeP = firstn tau (partiesP kP) /\
    length challengeC = tau /\ length challengeP = tau /\
    NoDup challengeC /\
    Forall (fun c => 0 <= c < Z.of_nat (num_rounds params)) challengeC /\
    Forall (fun p => 0 <= p < Z.of_nat (num_MPC_parties params)) challengeP /\
    (forall j, (j < kC)%nat -> (length (roundsC j) < tau)%nat) /\
    (forall j, (j < kP)%nat -> (length (partiesP j) < tau)%nat).
Proof.
  intros [Hp1 Hp2 Hp3 Hp4] HC0 HP0 Hrun tau next h chunksC chunksP.
  unfold HCP in Hrun.
  replace (num_opened_rounds params <? num_rounds params)%nat with true
    in Hrun by (symmetry; apply Nat.ltb_lt; exact Hp4).
  cbn [negb] in Hrun. fold h in Hrun.
  set (bitsC := ceil_log2 (num_rounds params)) in *.
  set (bitsP := ceil_log2 (num_MPC_parties params)) in *.
  assert (HbC : (bitsC <= 16)%nat) by (apply ceil_log2_u16; exact Hp3).
  assert (HbPC : (bitsP <= bitsC)%nat) by (apply ceil_log2_mono; exact Hp2).
  assert (HbP : (1 <= bitsP)%nat) by (apply ceil_log2_pos; exact Hp1).
  assert (Hcap : (digest_size params * 8 / bitsC
                  <= length (repeat 0%Z (digest_size params * 8 / bitsP)))%nat).
  { rewrite repeat_length. apply Nat.div_le_compat_l. lia. }
  replace (bitsP =? 0)%nat with false in Hrun
    by (symmetry; apply Nat.eqb_neq; lia).
  destruct (populate_C shake fuel params bitsC h
              (repeat 0 (digest_size params * 8 / bitsP)) challengeC0 0)
    as [[[challengeC1 h1] chunks1]|] eqn:EC; [|discriminate].
  destruct (populate_C_spec shake params bitsC fuel h _ challengeC0 0 _
              HbC Hcap ltac:(lia) ltac:(lia) EC)
    as (kC & C1 & C2 & C3 & C4 & C5).
  cbn [fst snd] in C1, C2, C3, C4. cbn [firstn] in C4, C5.
  destruct (populate_P shake fuel params bitsP h1 chunks1 challengeP0 0)
    as [challengeP1|] eqn:EP; [|discriminate].
  injection Hrun as <- <-.
  destruct (populate_P_spec shake params bitsP fuel h1 chunks1 challengeP0 0 _
              ltac:(lia) ltac:(rewrite C3, repeat_length; lia)
              ltac:(lia) ltac:(lia) EP)
    as (kP & P2 & P4 & P5).
  cbn [firstn app] in P4, P5. subst h1.
  unfold append_new in C4, C5. cbn [app] in C4, C5.
  rewrite firstn_all2 in C4 by lia. rewrite firstn_all2 in P4 by lia.
  fold next chunksC in C4, C5. fold next chunksP in P4, P5. fold tau in C4, P4.
  exists kC, kP. cbn zeta.
  split; [exact C4|]. split; [exact P4|].
  split; [lia|]. split; [lia|]. split.
  { rewrite C4. apply NoDup_firstn_of.
    apply (first_occurrences_NoDup _ []). constructor. }
  split.
  { rewrite C4. apply Forall_firstn_of, first_occurrences_Forall.
    apply filter_below_range, chunk_stream_nonneg. }
  split.
  { rewrite P4. apply Forall_firstn_of.
    apply filter_below_range, chunk_stream_nonneg. }
  split; [exact C5 | exact P5].
Qed.

(** The arrays [HCP] returns have the length of the arrays it was
    given. *)
Lemma HCP_returns_lengths
  (shake : picnic_instance_t -> list Z -> nat -> list Z) (fuel : nat)
  (challengeC0 challengeP0 : list Z) (hashes : list (list Z))
  (hCv salt pubKey plaintext message : list Z) (messageByteLength : nat)
  (params : picnic_instance_t) (kC kP : nat) :
  hcp_params_ok params ->
  length challengeC0 = num_opened_rounds params ->
  length challengeP0 = num_opened_rounds params ->
  let tau := num_opened_rounds params in
  let next := rehash shake params in
  let h := first_digest shake hashes hCv salt pubKey plaintext message
             messageByteLength params in
  let roundsC k :=
    first_occurrences []
      (filter (below (num_rounds params))
         (chunk_stream next (ceil_log2 (num_rounds params))
            (digest_size params) k h)) in
  let partiesP k :=
    filter (below (num_MPC_parties params))
      (chunk_stream next (ceil_log2 (num_MPC_parties params))
         (digest_size params) k (nth_digest next kC h)) in
  (tau <= length (roundsC kC))%nat ->
  (forall j, (j < kC)%nat -> (length (roundsC j) < tau)%nat) ->
  (tau <= length (partiesP kP))%nat ->
  (kC <= fuel)%nat -> (kP <= fuel)%nat ->
  exists challengeC challengeP,
    HCP shake fuel challengeC0 challengeP0 hashes hCv salt pubKey plaintext
      message messageByteLength params = Some (challengeC, challengeP) /\
    length challengeC = tau /\ length challengeP = tau.
Proof.
  intros [Hp1 Hp2 Hp3 Hp4] HC0 HP0 tau next h roundsC partiesP
    HenC HminC HenP HfC HfP.
  unfold HCP.
  replace (num_opened_rounds params <? num_rounds params)%nat with true
    by (symmetry; apply Nat.ltb_lt; exact Hp4).
  cbn [negb]. fold h.
  set (bitsC := ceil_log2 (num_rounds params)) in *.
  set (bitsP := ceil_log2 (num_MPC_parties params)) in *.
  assert (HbC : (bitsC <= 16)%nat) by (apply ceil_log2_u16; exact Hp3).
  assert (HbPC : (bitsP <= bitsC)%nat) by (apply ceil_log2_mono; exact Hp2).
  assert (HbP : (1 <= bitsP)%nat) by (apply ceil_log2_pos; exact Hp1).
  assert (Hcap : (digest_size params * 8 / bitsC
                  <= length (repeat 0%Z (digest_size params * 8 / bitsP)))%nat).
  { rewrite repeat_length. apply Nat.div_le_compat_l. lia. }
  replace (bitsP =? 0)%nat with false
    by (symmetry; apply Nat.eqb_neq; lia).
  destruct (populate_C_returns shake params bitsC kC h _ challengeC0 0 fuel
              HbC Hcap ltac:(lia) ltac:(lia) HfC HenC)
    as ([[challengeC1 h1] chunks1] & EC).
  rewrite EC.
  destruct (populate_C_spec shake params bitsC fuel h _ challengeC0 0 _
              HbC Hcap ltac:(lia) ltac:(lia) EC)
    as (k' & C1 & C2 & C3 & C4 & C5).
  cbn [fst snd] in C1, C2, C3, C4. cbn [firstn] in C4, C5.
  unfold append_new in C4, C5. cbn [app] in C4, C5.
  fold next tau in C4, C5.
  assert (Hk : k' = kC).
  { assert (Hen' : (tau <= length (roundsC k'))%nat).
    { apply (f_equal (@length Z)) in C4.
      rewrite !length_firstn in C4. subst roundsC. cbn beta. lia. }
    destruct (Nat.lt_trichotomy k' kC) as [H|[H|H]]; [|exact H|].
    - specialize (HminC k' H). lia.
    - specialize (C5 kC H). subst roundsC. cbn beta in HenC. lia. }
  subst k' h1.
  assert (Hcap' : (digest_size params * 8 / bitsP <= length chunks1)%nat)
    by (rewrite C3, repeat_length; lia).
  destruct (populate_P_returns shake params bitsP kP (nth_digest next kC h)
              chunks1 challengeP0 0 fuel ltac:(lia) Hcap' ltac:(lia)
              ltac:(lia) HfP HenP) as (challengeP1 & EP).
  destruct (populate_P_spec shake params bitsP fuel (nth_digest next kC h)
              chunks1 challengeP0 0 _ ltac:(lia) Hcap' ltac:(lia) ltac:(lia)
              EP) as (k'' & P1 & _).
  fold next. rewrite EP. exists challengeC1, challengeP1.
  split; [reflexivity|]. split; [fold tau in HC0; lia | fold tau in HP0; lia].
Qed.

(** With enough fuel [HCP] returns as soon as some number of digests
    holds enough qualifying chunks for the rounds and, from the digest
    reached then, for the parties. *)
Theorem HCP_returns
  (shake : picnic_instance_t -> list Z -> nat -> list Z) (fuel : nat)
  (challengeC0 challengeP0 : list Z) (hashes : list (list Z))
  (hCv salt pubKey plaintext message : list Z) (messageByteLength : nat)
  (params : picnic_instance_t) (kC kP : nat) :
  hcp_params_ok params ->
  length challengeC0 = num_opened_rounds params ->
  length challengeP0 = num_opened_rounds params ->
  let tau := num_opened_rounds params in
  let next := rehash shake params in
  let h := first_digest shake hashes hCv salt pubKey plaintext message
             messageByteLength params in
  let roundsC k :=
    first_occurrences []
      (filter (below (num_rounds params))
         (chunk_stream next (ceil_log2 (num_rounds params))
            (digest_size params) k h)) in
  let partiesP k :=
    filter (below (num_MPC_parties params))
      (chunk_stream next (ceil_log2 (num_MPC_parties params))
         (digest_size params) k (nth_digest next kC h)) in
  (tau <= length (roundsC kC))%nat ->
  (forall j, (j < kC)%nat -> (length (roundsC j) < tau)%nat) ->
  (tau <= length (partiesP kP))%nat ->
  (kC <= fuel)%nat -> (kP <= fuel)%nat ->
  exists challengeC challengeP,
    HCP shake fuel challengeC0 challengeP0 hashes hCv salt pubKey plaintext
      message messageByteLength params = Some (challengeC, challengeP).
Proof.
  intros Hp HC0 HP0 tau next h roundsC partiesP HenC HminC HenP HfC HfP.
  destruct (HCP_returns_lengths shake fuel challengeC0 challengeP0 hashes hCv
              salt pubKey plaintext message messageByteLength params kC kP
              Hp HC0 HP0 HenC HminC HenP HfC HfP)
    as (challengeC & challengeP & E & _).
  exists challengeC, challengeP. exact E.
Qed.

Lemma hcp_params_valid : hcp_params_ok Examples.hcp_params.
Proof. split; cbn; lia. Qed.

Lemma HCP_challenges_witness :
  exists kC kP,
    [1; 3; 0]
    = firstn 3
        (first_occurrences []
           (filter (below 5)
              (chunk_stream (rehash Examples.toy_shake Examples.hcp_params)
                 (ceil_log2 5) 2 kC Examples.hcp_first_digest))) /\
    [1; 2; 2]
    = firstn 3
        (filter (below 3)
           (chunk_stream (rehash Examples.toy_shake Examples.hcp_params)
              (ceil_log2 3) 2 kP
              (nth_digest (rehash Examples.toy_shake Examples.hcp_params) kC
                 Examples.hcp_first_digest))).
Proof.
  destruct (HCP_challenges Examples.toy_shake 5 [0; 0; 0] [0; 0; 0]
              [[1; 2]; [3; 4]; [5; 6]; [7; 8]; [9; 10]]
              [11; 12] (repeat 1 32) [2] [3] [4; 5; 6] 3 Examples.hcp_params
              [1; 3; 0] [1; 2; 2]
              hcp_params_valid eq_refl eq_refl
              ltac:(vm_compute; reflexivity))
    as (kC & kP & H1 & H2 & _).
  exists kC, kP. split; [exact H1 | exact H2].
Defined.

(** On the toy input two digests are needed for the rounds and one for
    the parties; the parties repeat, the rounds do not. *)
Example HCP_demo :
  HCP Examples.toy_shake 2 [0; 0; 0] [0; 0; 0]
    [[1; 2]; [3; 4]; [5; 6]; [7; 8]; [9; 10]]
    [11; 12] (repeat 1 32) [2] [3] [4; 5; 6] 3 Examples.hcp_params
  = Some ([1; 3; 0], [1; 2; 2]) /\
  HCP Examples.toy_shake 1 [0; 0; 0] [0; 0; 0]
    [[1; 2]; [3; 4]; [5; 6]; [7; 8]; [9; 10]]
    [11; 12] (repeat 1 32) [2] [3] [4; 5; 6] 3 Examples.hcp_params
  = None.
Proof. split; vm_compute; reflexivity. Qed.

Lemma HCP_returns_witness :
  exists challengeC challengeP,
    HCP Examples.toy_shake 2 [0; 0; 0] [0; 0; 0]
      [[1; 2]; [3; 4]; [5; 6]; [7; 8]; [9; 10]]
      [11; 12] (repeat 1 32) [2] [3] [4; 5; 6] 3 Examples.hcp_params
    = Some (challengeC, challengeP).
Proof.
  refine (HCP_returns Examples.toy_shake 2 [0; 0; 0] [0; 0; 0]
            [[1; 2]; [3; 4]; [5; 6]; [7; 8]; [9; 10]]
            [11; 12] (repeat 1 32) [2] [3] [4; 5; 6] 3 Examples.hcp_params
            2 1 hcp_params_valid eq_refl eq_refl _ _ _ _ _).
  - vm_compute. lia.
  - intros j Hj.
    assert (E : j = 0%nat \/ j = 1%nat) by lia.
    destruct E as [-> | ->]; vm_compute; lia.
  - vm_compute. lia.
  - lia.
  - lia.
Defined.

End ChallengeFacts.

(* ================================================================== *)
(** * Signing does not depend on uninitialized memory *)
(* ================================================================== *)

Module SigningFacts.

Import Tape Sig SigSpec Challenge Signing.
Import TapeFacts SigFacts RoundTripFacts ChallengeFacts.

(** ** Buffers that are written in full *)

Lemma hash_squeeze_fresh shake params ctx buffer n :
  length (shake params ctx n) = n -> length buffer = n ->
  hash_squeeze shake params ctx buffer n = shake params ctx n.
Proof.
  intros Hs Hb. unfold hash_squeeze, memcpy.
  rewrite firstn_all2, skipn_all2 by lia. apply app_nil_r.
Qed.

Lemma upd_app_l {A} (a b : list A) : forall i x,
  (i < length a)%nat -> upd (a ++ b) i x = upd a i x ++ b.
Proof.
  induction a as [|y a IH]; intros [|i] x H; cbn [length] in H; try lia.
  - reflexivity.
  - cbn [app upd]. f_equal. apply IH. lia.
Qed.

Lemma setBit_app_l a b pos v :
  (pos / 8 < length a)%nat -> setBit (a ++ b) pos v = setBit a pos v ++ b.
Proof.
  intros H. unfold setBit. rewrite upd_app_l by exact H.
  unfold rdb, rd_gen. rewrite app_nth1 by exact H. reflexivity.
Qed.

Lemma aux_bits_loop_app tape firstAuxIndex b n : forall i pos a,
  (pos + n <= 8 * length a)%nat ->
  aux_bits_loop n i pos (a ++ b) tape firstAuxIndex
  = aux_bits_loop n i pos a tape firstAuxIndex ++ b.
Proof.
  induction n as [|n IH]; intros i pos a H; cbn [aux_bits_loop].
  - reflexivity.
  - rewrite setBit_app_l by (apply Nat.Div0.div_lt_upper_bound; lia).
    apply IH. rewrite setBit_length. lia.
Qed.

Lemma aux_bits_loop_length tape firstAuxIndex n : forall i pos a,
  length (aux_bits_loop n i pos a tape firstAuxIndex) = length a.
Proof.
  induction n as [|n IH]; intros i pos a; cbn [aux_bits_loop].
  - reflexivity.
  - rewrite IH. apply setBit_length.
Qed.



(** ** The challenge arrays are overwritten *)

Section Buffers.

Variable shake : picnic_instance_t -> list Z -> nat -> list Z.
Variable params : picnic_instance_t.

Let tau := num_opened_rounds params.
Let ds := digest_size params.






End Buffers.

(** ** Two runs of the signer *)

Lemma nth_upd_same {A} (d : A) l i x :
  (i < length l)%nat -> nth i (upd l i x) d = x.
Proof. exact (rd_upd_eq A d l i x). Qed.

Lemma nth_upd_other {A} (d : A) l i j x :
  i <> j -> nth j (upd l i x) d = nth j l d.
Proof. exact (rd_upd_neq A d l i j x). Qed.



(** Signatures that agree on what is serialized give the same bytes. *)
Section SameBytes.

Variable params : picnic_instance_t.
Variables sig sig' : signature2_t.
Hypothesis Hpar : params_ok params.
Hypothesis HC : length (challengeC sig) = num_opened_rounds params.
Hypothesis HP : length (challengeP sig) = num_opened_rounds params.
Hypothesis Hsame : same_signature params sig sig'.




End SameBytes.

Section TwoRuns.

Variable shake : picnic_instance_t -> list Z -> nat -> list Z.
Variable tree_t : Type.
Variable nodes : tree_t -> list (list Z).
Variable generateSeeds : nat -> list Z -> list Z -> nat -> picnic_instance_t -> tree_t.
Variable getLeaves : tree_t -> list (list Z).
Variable getLeaf : tree_t -> nat -> list Z.
Variable allocateRandomTape : picnic_instance_t -> randomTape_t.
Variable mzd_from_char_array :
  BinMat.mzd_local_t -> list Z -> nat -> BinMat.mzd_local_t.
Variable lowmc_aux_impl : BinMat.mzd_local_t -> randomTape_t -> randomTape_t.
Variable allocateCommitments : picnic_instance_t -> nat -> list commitments_t.
Variable allocateCommitments2 : picnic_instance_t -> nat -> commitments_t.
Variable allocateInputs : picnic_instance_t -> list (list Z).
Variable allocateMsgs : picnic_instance_t -> list msgs_t.
Variable allocateShares : nat -> list word.
Variable reconstructShares : list Z -> list word -> list Z.
Variable xor_word_array : list Z -> list Z -> list Z -> nat -> list Z.
Variable lowmc_simulate_online :
  list Z -> list word -> randomTape_t -> msgs_t -> list Z -> list Z ->
  picnic_instance_t -> Z * (list Z * list word * randomTape_t * msgs_t).
Variable createTree : nat -> nat -> tree_t.
Variable buildMerkleTree :
  tree_t -> list (list Z) -> list Z -> picnic_instance_t -> tree_t.
Variable openMerkleTree : tree_t -> list Z -> nat -> list Z.
Variable revealSeeds :
  tree_t -> list Z -> nat -> nat -> picnic_instance_t -> list Z.
Variable allocateProof2 : picnic_instance_t -> proof2_t.

Variable params : picnic_instance_t.
Hypothesis Hbits :
  (3 * lowmc_r params * lowmc_m params <= 8 * view_size params)%nat.







Section Commitments.

Variables privateKey pubKey plaintext message : list Z.
Variable messageByteLength : nat.

Hypothesis Hn : Z.of_nat (lowmc_n params) < 65536.
Hypothesis Hshake : forall ctx n, length (shake params ctx n) = n.

Let out :=
  shake params
    (salt_and_root_transcript privateKey pubKey plaintext message
       messageByteLength params) (seed_size params + SALT_SIZE).





End Commitments.


End TwoRuns.








(** Both toy runs return, with the same value and challenges; the slots
    of the rounds that are not opened keep what the two structures held
    before and differ. *)
Example toy_sign_returns :
  option_map (fun r => (fst r, challengeC (snd r), challengeP (snd r)))
    (Examples.toy_sign 4 Examples.raw_a
       (Examples.blank_signature Examples.sign_params))
  = Some (0, [3; 2; 4], [1; 0; 3]) /\
  option_map (fun r => (fst r, challengeC (snd r), challengeP (snd r)))
    (Examples.toy_sign 4 Examples.raw_b Examples.used_signature)
  = Some (0, [3; 2; 4], [1; 0; 3]) /\
  option_map (fun r => proof_at (snd r) 0)
    (Examples.toy_sign 4 Examples.raw_a
       (Examples.blank_signature Examples.sign_params))
  <> option_map (fun r => proof_at (snd r) 0)
       (Examples.toy_sign 4 Examples.raw_b Examples.used_signature).
Proof.
  split; [vm_compute; reflexivity|]. split; [vm_compute; reflexivity|].
  vm_compute. discriminate.
Qed.

End SigningFacts.

(* ================================================================== *)
(** * Picnic2: the list and bit helpers on their own *)
(* ================================================================== *)

Module HelperFacts.

Import Tape Sig SigSpec Challenge TapeFacts SigFacts RoundTripFacts
       ChallengeFacts.

Lemma contains_loop_01 n : forall i l v,
  contains_loop n i l v = 0 \/ contains_loop n i l v = 1.
Proof.
  induction n as [|n IH]; intros i l v; cbn [contains_loop]; [now left|].
  destruct (rd16 l i =? v); [now right | apply IH].
Qed.

Lemma indexOf_loop_first n : forall i l v,
  (contains_loop n i l v = 0 /\ indexOf_loop n i l v = None /\
   forall k, (i <= k < i + n)%nat -> rd16 l k <> v) \/
  (contains_loop n i l v = 1 /\
   exists k, indexOf_loop n i l v = Some (Z.of_nat k) /\ (i <= k < i + n)%nat /\
             rd16 l k = v /\
             forall k', (i <= k' < k)%nat -> rd16 l k' <> v).
Proof.
  induction n as [|n IH]; intros i l v; cbn [contains_loop indexOf_loop].
  - left. split; [reflexivity|]. split; [reflexivity|]. intros k Hk. lia.
  - destruct (rd16 l i =? v) eqn:E.
    + right. split; [reflexivity|]. exists i. apply Z.eqb_eq in E.
      split; [reflexivity|]. split; [lia|]. split; [exact E|].
      intros k' Hk'. lia.
    + apply Z.eqb_neq in E.
      destruct (IH (S i) l v) as [(H1 & H2 & H3) | (H1 & k & H2 & H3 & H4 & H5)].
      * left. split; [exact H1|]. split; [exact H2|].
        intros k Hk. destruct (Nat.eq_dec k i) as [->|Hne]; [exact E|].
        apply H3. lia.
      * right. split; [exact H1|]. exists k.
        split; [exact H2|]. split; [lia|]. split; [exact H4|].
        intros k' Hk'. destruct (Nat.eq_dec k' i) as [->|Hne]; [exact E|].
        apply H5. lia.
Qed.

(** [contains] answers 1 exactly when the value occurs among the first
    [len] entries and 0 otherwise.  When it occurs, [indexOf] returns the
    index of its first occurrence.  When it does not, [indexOf] falls
    through its loop into the assertion that fails there: the call does
    not return.  So [indexOf] returns exactly where [contains] is
    nonzero, which is where the callers use it. *)
Theorem indexOf_first_occurrence (list : list Z) (len : nat) (value : Z) :
  (len <= length list)%nat ->
  (contains list len value = 1 <->
   exists i, (i < len)%nat /\ rd16 list i = value) /\
  (contains list len value = 0 <->
   forall i, (i < len)%nat -> rd16 list i <> value) /\
  (contains list len value = 0 <-> indexOf list len value = None) /\
  (contains list len value = 1 ->
   exists i, indexOf list len value = Some (Z.of_nat i) /\ (i < len)%nat /\
             rd16 list i = value /\
             forall k, (k < i)%nat -> rd16 list k <> value).
Proof.
  intros _. unfold contains, indexOf.
  destruct (indexOf_loop_first len 0 list value)
    as [(H1 & H2 & H3) | (H1 & k & H2 & H3 & H4 & H5)].
  - rewrite H1, H2. split; [|split; [|split]].
    + split; [discriminate|]. intros (i & Hi & E). exfalso.
      apply (H3 i); [lia | exact E].
    + split; [|reflexivity]. intros _ i Hi. apply H3. lia.
    + split; reflexivity.
    + discriminate.
  - rewrite H1, H2. split; [|split; [|split]].
    + split; [|reflexivity]. intros _. exists k. split; [lia | exact H4].
    + split; [discriminate|]. intros H. exfalso. apply (H k); [lia | exact H4].
    + split; discriminate.
    + intros _. exists k. split; [reflexivity|]. split; [lia|].
      split; [exact H4|]. intros k' Hk'. apply H5. lia.
Qed.

Lemma indexOf_first_occurrence_witness :
  contains [7; 3; 9; 3] 4 3 = 1 /\ indexOf [7; 3; 9; 3] 4 3 = Some 1 /\
  contains [7; 3; 9; 3] 4 5 = 0 /\ indexOf [7; 3; 9; 3] 4 5 = None /\
  (contains [7; 3; 9; 3] 4 5 = 0 <-> indexOf [7; 3; 9; 3] 4 5 = None).
Proof.
  split; [reflexivity|]. split; [reflexivity|]. split; [reflexivity|].
  split; [reflexivity|].
  exact (proj1 (proj2 (proj2
           (indexOf_first_occurrence [7; 3; 9; 3] 4 5 (le_n 4))))).
Defined.

Lemma unique_outer_01 n : forall i l len,
  unique_outer n i l len = 0 \/ unique_outer n i l len = 1.
Proof.
  induction n as [|n IH]; intros i l len; cbn [unique_outer]; [now right|].
  destruct (unique_inner len 0 l i); [apply IH | now left].
Qed.

Lemma inRange_loop_01 n : forall i l lo hi,
  inRange_loop n i l lo hi = 0 \/ inRange_loop n i l lo hi = 1.
Proof.
  induction n as [|n IH]; intros i l lo hi; cbn [inRange_loop]; [now right|].
  destruct ((rd16 l i >? hi) || (rd16 l i <? lo)); [now left | apply IH].
Qed.

(** [unique] answers 1 exactly when the entries of the list are pairwise
    distinct, and 0 as soon as one value occurs at two places; the empty
    list passes. *)
Theorem unique_decides_distinct (l : list Z) :
  (unique l (length l) = 1 <-> NoDup l) /\
  (unique l (length l) = 0 <->
   exists i j, (i < length l)%nat /\ (j < length l)%nat /\ i <> j /\
               rd16 l i = rd16 l j) /\
  unique [] 0 = 1.
Proof.
  pose proof (unique_spec l) as S.
  assert (E01 : unique l (length l) = 0 \/ unique l (length l) = 1)
    by apply unique_outer_01.
  destruct E01 as [E | E].
  - assert (N : ~ NoDup l) by (intros N; apply (proj2 S N); exact E).
    split; [|split; [|reflexivity]].
    + rewrite E. split; [discriminate | intros H; contradiction].
    + split; [|intros _; exact E]. intros _.
      unfold unique in E.
      assert (X : ~ forall a, (0 <= a < 0 + length l)%nat ->
                    forall k, (k < length l)%nat -> k <> a ->
                      rd16 l a <> rd16 l k).
      { intros H.
        apply (proj2 (unique_outer_spec (length l) 0 l (length l)) H).
        exact E. }
      clear S N E.
      assert (D : forall n,
                 (exists i j, (i < length l)%nat /\ (j < length l)%nat /\
                              i <> j /\ rd16 l i = rd16 l j) \/
                 (forall a, (a < n)%nat -> (a < length l)%nat -> forall k,
                     (k < length l)%nat -> k <> a -> rd16 l a <> rd16 l k)).
      { induction n as [|n IH].
        - right. intros a Ha. lia.
        - destruct IH as [IH | IH]; [left; exact IH|].
          assert (Q : forall m,
                    (exists k, (k < m)%nat /\ k <> n /\ rd16 l n = rd16 l k) \/
                    (forall k, (k < m)%nat -> k <> n ->
                               rd16 l n <> rd16 l k)).
          { induction m as [|m IHm]; [right; intros k Hk; lia|].
            destruct IHm as [(k & Hk & Hne & E') | IHm].
            - left. exists k. split; [lia|]. split; assumption.
            - destruct (Nat.eq_dec m n) as [->|Hmn].
              + right. intros k Hk Hne. apply IHm; [lia | exact Hne].
              + destruct (Z.eq_dec (rd16 l n) (rd16 l m)) as [E'|E'].
                * left. exists m. split; [lia|]. split; assumption.
                * right. intros k Hk Hne.
                  destruct (Nat.eq_dec k m) as [->|Hkm]; [exact E'|].
                  apply IHm; [lia | exact Hne]. }
          destruct (Q (length l)) as [(k & Hk & Hne & E') | Q'].
          + destruct (Nat.lt_ge_cases n (length l)) as [Hn | Hn].
            * left. exists n, k.
              split; [exact Hn|]. split; [exact Hk|].
              split; [congruence | exact E'].
            * right. intros a Ha Hal k' Hk' Hne'.
              apply IH; try assumption. lia.
          + right. intros a Ha Hal k' Hk' Hne'.
            destruct (Nat.eq_dec a n) as [->|Han]; [apply Q'; assumption|].
            apply IH; try assumption. lia. }
      destruct (D (length l)) as [D' | D']; [exact D'|].
      exfalso. apply X. intros a Ha. apply D'; lia.
  - assert (N : NoDup l) by (apply S; congruence).
    split; [|split; [|reflexivity]].
    + rewrite E. split; [intros _; exact N | reflexivity].
    + rewrite E. split; [discriminate|].
      intros (i & j & Hi & Hj & Hne & Eij). exfalso.
      rewrite !rd16_nth in Eij.
      apply Hne. apply (proj1 (NoDup_nth l 0) N i j Hi Hj Eij).
Qed.

(** [inRange] answers 1 exactly when every entry lies in [[low, high]]
    and 0 as soon as one entry is outside; the empty list passes. *)
Theorem inRange_decides_bounds (l : list Z) (low high : Z) :
  (inRange l (length l) low high = 1 <->
   Forall (fun x => low <= x <= high) l) /\
  (inRange l (length l) low high = 0 <->
   Exists (fun x => x < low \/ high < x) l) /\
  inRange [] 0 low high = 1.
Proof.
  pose proof (inRange_spec l low high) as S.
  assert (X : Exists (fun x => x < low \/ high < x) l <->
              ~ Forall (fun x => low <= x <= high) l).
  { rewrite <- Exists_Forall_neg by (intros x; lia).
    split; apply Exists_impl; intros x; lia. }
  assert (E01 : inRange l (length l) low high = 0 \/
                inRange l (length l) low high = 1) by apply inRange_loop_01.
  destruct E01 as [E | E]; rewrite E.
  - assert (N : ~ Forall (fun x => low <= x <= high) l)
      by (intros N; apply (proj2 S N); exact E).
    split; [|split; [|reflexivity]].
    + split; [discriminate | intros H; contradiction].
    + split; [intros _; apply X, N | reflexivity].
  - assert (N : Forall (fun x => low <= x <= high) l) by (apply S; congruence).
    split; [|split; [|reflexivity]].
    + split; [intros _; exact N | reflexivity].
    + split; [discriminate|]. intros H. apply X in H. contradiction.
Qed.

(** [arePaddingBitsZero] answers 1 exactly when every bit from
    [bitLength] up to the end of the [byteLength] bytes is zero, and 0 as
    soon as one of them is set; with no bit to look at it answers 1. *)
Theorem arePaddingBitsZero_decides (data : list Z) (byteLength bitLength : nat) :
  (arePaddingBitsZero data byteLength bitLength = 1 <->
   forall i, (bitLength <= i < byteLength * 8)%nat -> getBit data i = 0) /\
  (arePaddingBitsZero data byteLength bitLength = 0 <->
   exists i, (bitLength <= i < byteLength * 8)%nat /\ getBit data i = 1) /\
  ((byteLength * 8 <= bitLength)%nat ->
   arePaddingBitsZero data byteLength bitLength = 1).
Proof.
  pose proof (arePaddingBitsZero_spec data byteLength bitLength) as S.
  unfold padding_zero in S.
  assert (D : (exists i, (bitLength <= i < byteLength * 8)%nat /\
                         getBit data i = 1) \/
              (forall i, (bitLength <= i < byteLength * 8)%nat ->
                         getBit data i = 0)).
  { generalize (byteLength * 8)%nat as n. intros n.
    induction n as [|n IH]; [right; intros i Hi; lia|].
    destruct IH as [(i & Hi & E) | IH].
    - left. exists i. split; [lia | exact E].
    - destruct (getBit_is_bit data n) as [E | E].
      + right. intros i Hi.
        destruct (Nat.eq_dec i n) as [->|Hne]; [exact E | apply IH; lia].
      + destruct (Nat.le_gt_cases bitLength n) as [Hn | Hn].
        * left. exists n. split; [lia | exact E].
        * right. intros i Hi. lia. }
  destruct (arePaddingBitsZero_01 data byteLength bitLength) as [E | E];
    rewrite E.
  - assert (N : ~ forall i, (bitLength <= i < byteLength * 8)%nat ->
                            getBit data i = 0)
      by (intros N; apply (proj2 S N); exact E).
    split; [|split].
    + split; [discriminate | intros H; contradiction].
    + split; [|reflexivity]. intros _.
      destruct D as [D | D]; [exact D | contradiction].
    + intros H. exfalso. apply N. intros i Hi. lia.
  - assert (N : forall i, (bitLength <= i < byteLength * 8)%nat ->
                          getBit data i = 0) by (apply S; congruence).
    split; [|split].
    + split; [intros _; exact N | reflexivity].
    + split; [discriminate|]. intros (i & Hi & Ei).
      rewrite (N i Hi) in Ei. discriminate.
    + reflexivity.
Qed.

Lemma serialize_deserialize_u16 n : forall bytes,
  bytes_ok bytes -> (2 * n <= length bytes)%nat ->
  serialize_u16 (deserialize_u16 bytes n) n = firstn (2 * n) bytes.
Proof.
  induction n as [|n IH]; intros bytes Hb Hl; [reflexivity|].
  destruct bytes as [|b0 [|b1 rest]]; cbn [length] in Hl; try lia.
  assert (H0 : byte_ok b0) by (inversion Hb; assumption).
  assert (H1 : byte_ok b1) by (inversion Hb as [|? ? ? Hb']; inversion Hb'; assumption).
  assert (Hr : bytes_ok rest)
    by (inversion Hb as [|? ? ? Hb']; inversion Hb'; assumption).
  unfold byte_ok in H0, H1.
  replace (2 * S n)%nat with (S (S (2 * n))) by lia.
  cbn [deserialize_u16 serialize_u16 firstn skipn].
  unfold rd16, rdb, rd_gen. cbn [nth].
  rewrite IH by (try assumption; lia).
  f_equal; [|f_equal].
  - rewrite (Z.mul_comm 256 b1), Z_mod_plus_full. apply Z.mod_small. lia.
  - rewrite (Z.mul_comm 256 b1), Z_div_plus_full by lia.
    rewrite (Z.div_small b0) by lia. apply Z.mod_small. lia.
Qed.

(** [serialize_u16] writes two bytes per value, low byte first, and
    [deserialize_u16] reads them back: values below 2^16 survive the
    round trip whatever follows them in the buffer, and the bytes of a
    buffer survive reading and writing back. *)
Theorem u16_round_trip (n : nat) (l rest bytes : list Z) :
  length l = n -> Forall (fun c => 0 <= c < 65536) l ->
  bytes_ok bytes -> (2 * n <= length bytes)%nat ->
  length (serialize_u16 l n) = (2 * n)%nat /\
  bytes_ok (serialize_u16 l n) /\
  deserialize_u16 (serialize_u16 l n ++ rest) n = l /\
  serialize_u16 (deserialize_u16 bytes n) n = firstn (2 * n) bytes.
Proof.
  intros Hl Hr Hb Hn.
  split; [apply serialize_u16_length|].
  split; [|split; [apply deserialize_serialize_u16; assumption
                  | apply serialize_deserialize_u16; assumption]].
  clear Hr Hb Hn bytes rest. revert l Hl.
  induction n as [|n IH]; intros l Hl; cbn [serialize_u16]; [constructor|].
  constructor; [unfold byte_ok; apply Z.mod_pos_bound; lia|].
  constructor; [unfold byte_ok; apply Z.mod_pos_bound; lia|].
  destruct l as [|c l]; [discriminate|]. apply IH.
  cbn [skipn]. cbn [length] in Hl. lia.
Qed.

Lemma u16_round_trip_witness :
  length (serialize_u16 [513; 7] 2) = 4%nat /\
  bytes_ok (serialize_u16 [513; 7] 2) /\
  deserialize_u16 (serialize_u16 [513; 7] 2 ++ [9]) 2 = [513; 7] /\
  serialize_u16 (deserialize_u16 [1; 2; 7; 0; 9] 2) 2
  = firstn 4 [1; 2; 7; 0; 9].
Proof.
  apply (u16_round_trip 2 [513; 7] [9] [1; 2; 7; 0; 9]).
  - reflexivity.
  - repeat constructor; lia.
  - apply bytes_okb_spec. reflexivity.
  - simpl; lia.
Defined.

(** ** The rounds that are not opened *)

Lemma firstn_skipn_upd (l : list Z) : forall pos v,
  (pos < length l)%nat ->
  upd l pos v = firstn pos l ++ v :: skipn (S pos) l.
Proof.
  induction l as [|x l IH]; intros pos v Hp; cbn [length] in Hp; [lia|].
  destruct pos as [|pos]; cbn [upd firstn skipn app]; [reflexivity|].
  f_equal. apply IH. lia.
Qed.

Lemma missing_loop_spec Cs n : forall i ml pos,
  Z.of_nat (i + n) <= 65536 ->
  (pos + length (filter (fun t => negb (opened Cs t)) (seq i n))
   <= length ml)%nat ->
  missing_loop n i Cs (length Cs) ml pos
  = firstn pos ml
    ++ map Z.of_nat (filter (fun t => negb (opened Cs t)) (seq i n))
    ++ skipn (pos + length (filter (fun t => negb (opened Cs t)) (seq i n))) ml.
Proof.
  induction n as [|n IH]; intros i ml pos Hi Hl.
  - cbn [missing_loop seq filter map length app]. rewrite Nat.add_0_r.
    symmetry. apply firstn_skipn.
  - cbn [missing_loop seq filter] in *.
    rewrite contains_opened by lia. rewrite to_u16_small by lia.
    destruct (opened Cs i) eqn:E; cbn [negb] in *.
    + change (1 =? 0) with false. apply IH; [lia | exact Hl].
    + change (0 =? 0) with true. cbn [length map app] in *.
      rewrite IH by (rewrite ?upd_length; lia).
      rewrite (firstn_skipn_upd ml pos (Z.of_nat i)) by lia.
      remember (skipn (S pos) ml) as tl eqn:Etl.
      assert (Hp : length (firstn pos ml) = pos)
        by (rewrite length_firstn; lia).
      rewrite firstn_app, Hp, firstn_firstn.
      replace (Nat.min (S pos) pos) with pos by lia.
      replace (S pos - pos)%nat with 1%nat by lia.
      cbn [firstn]. rewrite <- app_assoc. cbn [app]. f_equal. f_equal.
      f_equal.
      rewrite skipn_app, Hp.
      rewrite (skipn_all2 (firstn pos ml)) by lia. cbn [app].
      match goal with
      | |- skipn ?a (_ :: ?t) = _ =>
          replace a with (S (a - 1)) by lia; cbn [skipn]
      end.
      subst tl. rewrite skipn_skipn. f_equal. lia.
Qed.

Lemma filter_split_length {A} (f : A -> bool) (l : list A) :
  (length (filter f l) + length (filter (fun x => negb (f x)) l))%nat
  = length l.
Proof.
  induction l as [|x l IH]; [reflexivity|].
  cbn [filter]. destruct (f x); cbn [negb length]; lia.
Qed.

Lemma opened_In Cs t : opened Cs t = true <-> In (Z.of_nat t) Cs.
Proof. unfold opened. apply existsb_eqb_In. Qed.

Lemma NoDup_map_of_nat (l : list nat) : NoDup l -> NoDup (map Z.of_nat l).
Proof.
  induction 1 as [|x l Hx Hl IH]; cbn [map]; constructor; [|exact IH].
  intros Hin. apply in_map_iff in Hin. destruct Hin as (y & E & Hy).
  apply Nat2Z.inj in E. subst y. contradiction.
Qed.

Lemma opened_count (Cs : list Z) (n : nat) :
  NoDup Cs -> Forall (fun c => 0 <= c < Z.of_nat n) Cs ->
  length (filter (opened Cs) (seq 0 n)) = length Cs.
Proof.
  intros Hd Hr.
  assert (Hn : NoDup (map Z.of_nat (filter (opened Cs) (seq 0 n)))).
  { apply NoDup_map_of_nat, NoDup_filter, seq_NoDup. }
  rewrite <- (length_map Z.of_nat).
  apply Nat.le_antisymm.
  - apply NoDup_incl_length; [exact Hn|].
    intros x Hx. apply in_map_iff in Hx. destruct Hx as (t & <- & Ht).
    apply filter_In in Ht. apply opened_In, Ht.
  - apply NoDup_incl_length; [exact Hd|].
    intros c Hc. rewrite Forall_forall in Hr. specialize (Hr c Hc).
    apply in_map_iff. exists (Z.to_nat c). split; [lia|].
    apply filter_In. split; [apply in_seq; lia|].
    apply opened_In. rewrite Z2Nat.id by lia. exact Hc.
Qed.

(** With a duplicate-free challenge list of [num_opened_rounds] rounds,
    all below [num_rounds], [getMissingLeavesList] fills its buffer of
    [num_rounds - num_opened_rounds] entries exactly, with the rounds that
    are not in the challenge, in increasing order. *)
Theorem getMissingLeavesList_complement
        (challengeC : list Z) (params : picnic_instance_t) :
  Z.of_nat (num_rounds params) <= 65536 ->
  length challengeC = num_opened_rounds params ->
  NoDup challengeC ->
  Forall (fun c => 0 <= c < Z.of_nat (num_rounds params)) challengeC ->
  let m := getMissingLeavesList challengeC params in
  m = missing_rounds challengeC (num_rounds params) /\
  length m = (num_rounds params - num_opened_rounds params)%nat /\
  (forall t, (t < num_rounds params)%nat ->
     (In (Z.of_nat t) m <-> ~ In (Z.of_nat t) challengeC)) /\
  (forall i j, (i < j < length m)%nat -> rd16 m i < rd16 m j).
Proof.
  intros H16 Hlen Hd Hr m.
  pose proof (opened_count challengeC (num_rounds params) Hd Hr) as Hc.
  pose proof (filter_split_length (opened challengeC)
                (seq 0 (num_rounds params))) as Hs.
  rewrite length_seq, Hc, Hlen in Hs.
  assert (Hm : m = missing_rounds challengeC (num_rounds params)).
  { unfold m, getMissingLeavesList. rewrite <- Hlen at 1.
    rewrite missing_loop_spec
      by (rewrite ?repeat_length; cbn [Nat.add]; lia).
    cbn [firstn app Nat.add].
    rewrite skipn_all2 by (rewrite repeat_length; lia).
    apply app_nil_r. }
  split; [exact Hm|]. rewrite Hm. unfold missing_rounds.
  split; [rewrite length_map; lia|]. split.
  - intros t Ht. rewrite in_map_iff. split.
    + intros (t' & E & Hin). apply Nat2Z.inj in E. subst t'.
      apply filter_In in Hin. destruct Hin as [_ Hn].
      intros Hc'. apply opened_In in Hc'. rewrite Hc' in Hn. discriminate.
    + intros Hn. exists t. split; [reflexivity|].
      apply filter_In. split; [apply in_seq; lia|].
      destruct (opened challengeC t) eqn:E; [|reflexivity].
      exfalso. apply Hn, opened_In, E.
  - rewrite length_map.
    assert (Hsorted : forall l : list nat,
               (forall a b, (a < b < length l)%nat ->
                            (nth a l O < nth b l O)%nat) ->
               forall f a b, (a < b < length (filter f l))%nat ->
                 (nth a (filter f l) O < nth b (filter f l) O)%nat).
    { clear. induction l as [|x l IH]; intros Hl f a b Hab.
      - cbn in Hab. lia.
      - assert (Hl' : forall a b, (a < b < length l)%nat ->
                        (nth a l O < nth b l O)%nat).
        { intros a' b' H'. apply (Hl (S a') (S b')). cbn [length]. lia. }
        cbn [filter] in *. destruct (f x).
        + destruct a as [|a]; destruct b as [|b]; cbn [length] in Hab;
            try lia; cbn [nth].
          * assert (Hin : In (nth b (filter f l) O) l).
            { apply (proj1 (filter_In f _ l)). apply nth_In. lia. }
            apply (In_nth l _ O) in Hin. destruct Hin as (k & Hk & <-).
            apply (Hl O (S k)). cbn [length]. lia.
          * apply IH; [exact Hl' | lia].
        + apply IH; [exact Hl' | exact Hab]. }
    intros i j Hij. unfold rd16, rd_gen.
    rewrite <- (Nat2Z.inj_0) at 1 2.
    rewrite !map_nth. apply inj_lt.
    apply Hsorted; [|exact Hij].
    intros a b Hab. rewrite length_seq in Hab.
    rewrite !seq_nth by lia. lia.
Qed.

Lemma demo_challenge_distinct : NoDup [3; 0; 4].
Proof.
  repeat (apply NoDup_cons; [cbn; intuition lia|]). apply NoDup_nil.
Qed.

Lemma demo_challenge_in_range :
  Forall (fun c => 0 <= c < Z.of_nat (num_rounds Examples.hcp_params))
    [3; 0; 4].
Proof. repeat (apply Forall_cons; [cbn; lia|]). apply Forall_nil. Qed.

Lemma demo_rounds_u16 : Z.of_nat (num_rounds Examples.hcp_params) <= 65536.
Proof. cbn. lia. Qed.

Lemma getMissingLeavesList_complement_witness :
  getMissingLeavesList [3; 0; 4] Examples.hcp_params
  = missing_rounds [3; 0; 4] (num_rounds Examples.hcp_params) /\
  getMissingLeavesList [3; 0; 4] Examples.hcp_params = [1; 2].
Proof.
  split; [|reflexivity].
  exact (proj1 (getMissingLeavesList_complement [3; 0; 4] Examples.hcp_params
                  demo_rounds_u16 eq_refl demo_challenge_distinct
                  demo_challenge_in_range)).
Defined.

(** ** Chunks of a digest *)

Lemma chunk_bits_testbit h base len : forall j,
  (j < len)%nat ->
  Z.testbit (chunk_bits len h base) (Z.of_nat j)
  = (getBit h (base + j) =? 1).
Proof.
  induction len as [|len IH]; intros j Hj; [lia|].
  cbn [chunk_bits].
  pose proof (chunk_bits_bound len h base) as B.
  destruct (Nat.eq_dec j len) as [-> | Hne].
  - rewrite Z.testbit_eqb by lia.
    rewrite Z.div_add by (apply Z.pow_nonzero; lia).
    rewrite Z.div_small by lia. cbn [Z.add].
    destruct (getBit_is_bit h (base + len)) as [-> | ->]; reflexivity.
  - rewrite <- IH by lia.
    rewrite <- (Z.mod_pow2_bits_low _ (Z.of_nat len)) by lia.
    rewrite Z.mod_add by (apply Z.pow_nonzero; lia).
    rewrite Z.mod_small by lia. reflexivity.
Qed.

(** With chunks of 1 to 16 bits and at least one chunk of input,
    [bitsToChunks] returns [inputLen * 8 / chunkLenBits] and writes that
    many chunks: chunk [i] is below [2^chunkLenBits] (the assertion in
    the loop holds) and its bit [j] is bit [i * chunkLenBits + j] of the
    input; the rest of the chunk buffer is left alone.  With fewer input
    bits than one chunk the call runs into the assertion that fails
    there and does not return. *)
Theorem bitsToChunks_chunks
        (chunkLenBits : nat) (input : list Z) (inputLen : nat)
        (chunks : list Z) :
  (0 < chunkLenBits <= 16)%nat ->
  (inputLen * 8 / chunkLenBits <= length chunks)%nat ->
  ((inputLen * 8 < chunkLenBits)%nat <->
   bitsToChunks chunkLenBits input inputLen chunks = None) /\
  ((chunkLenBits <= inputLen * 8)%nat ->
   exists chunks1,
     bitsToChunks chunkLenBits input inputLen chunks
     = Some ((inputLen * 8 / chunkLenBits)%nat, chunks1) /\
     length chunks1 = length chunks /\
     (forall i, (i < inputLen * 8 / chunkLenBits)%nat ->
        0 <= rd16 chunks1 i < 2 ^ Z.of_nat chunkLenBits /\
        forall j, (j < chunkLenBits)%nat ->
          Z.testbit (rd16 chunks1 i) (Z.of_nat j)
          = (getBit input (i * chunkLenBits + j) =? 1)) /\
     (forall i, (inputLen * 8 / chunkLenBits <= i)%nat ->
        rd16 chunks1 i = rd16 chunks i)).
Proof.
  intros Hlen Hbuf. unfold bitsToChunks.
  destruct (chunks_loop_spec chunkLenBits input
              (inputLen * 8 / chunkLenBits) 0 chunks ltac:(lia))
    as (chunks1 & E & L1 & L2); [cbn [Nat.add]; exact Hbuf|].
  destruct (Nat.ltb_spec (inputLen * 8) chunkLenBits) as [Hs | Hs].
  - split; [split; auto|]. intros H. lia.
  - destruct (Nat.eqb_spec chunkLenBits 0) as [H0|_]; [lia|].
    rewrite E. split; [split; [lia|discriminate]|].
    intros _. exists chunks1. split; [reflexivity|]. split; [exact L1|].
    split.
    + intros i Hi. rewrite L2. cbn [Nat.leb Nat.add andb].
      apply Nat.ltb_lt in Hi. rewrite Hi.
      split; [apply chunk_bits_bound|].
      intros j Hj. apply chunk_bits_testbit. exact Hj.
    + intros i Hi. rewrite L2. cbn [Nat.leb Nat.add andb].
      apply Nat.ltb_ge in Hi. rewrite Hi. reflexivity.
Qed.

Lemma bitsToChunks_chunks_witness :
  bitsToChunks 3 [177; 64] 2 [0; 0; 0; 0; 0; 9]
  = Some (5%nat, [5; 1; 2; 1; 0; 9]) /\
  bitsToChunks 9 [177] 1 [0; 0] = None /\
  ((2 * 8 < 3)%nat <-> bitsToChunks 3 [177; 64] 2 [0; 0; 0; 0; 0; 9] = None).
Proof.
  split; [reflexivity|]. split; [reflexivity|].
  exact (proj1 (bitsToChunks_chunks 3 [177; 64] 2 [0; 0; 0; 0; 0; 9]
                  (conj (proj1 (Nat.leb_le 1 3) eq_refl)
                        (proj1 (Nat.leb_le 3 16) eq_refl))
                  (proj1 (Nat.leb_le 5 6) eq_refl))).
Defined.

(** ** Appending without duplicates *)

(** [appendUnique] leaves the list and the position alone when the value
    is already among the first [position] entries; otherwise it stores
    the value at [position] and returns [position + 1].  Either way the
    entries before [position] are untouched, the value is among the
    entries counted by the result, and a duplicate-free prefix stays
    duplicate-free. *)
Theorem appendUnique_keeps_distinct
        (list : list Z) (value : Z) (position : nat) :
  (position < length list)%nat ->
  let r := appendUnique list value position in
  (In value (firstn position list) -> r = (position, list)) /\
  (~ In value (firstn position list) ->
   r = (S position, upd list position value)) /\
  length (snd r) = length list /\
  firstn position (snd r) = firstn position list /\
  In value (firstn (fst r) (snd r)) /\
  (NoDup (firstn position list) -> NoDup (firstn (fst r) (snd r))).
Proof.
  intros Hp r.
  assert (Hloop : appendUnique_loop position 0 list value = true
                  <-> In value (firstn position list)).
  { rewrite appendUnique_loop_spec by (cbn [Nat.add]; lia).
    cbn [skipn]. apply existsb_eqb_In. }
  assert (Hcase : (In value (firstn position list) /\ r = (position, list)) \/
                  (~ In value (firstn position list) /\
                   r = (S position, upd list position value))).
  { unfold r, appendUnique.
    destruct (Nat.eqb_spec position 0) as [-> | Hne].
    - right. split; [cbn [firstn]; intros []|reflexivity].
    - destruct (appendUnique_loop position 0 list value) eqn:E.
      + left. split; [apply Hloop; reflexivity | reflexivity].
      + right. split; [|reflexivity]. intros Hin. apply Hloop in Hin.
        discriminate. }
  destruct Hcase as [[Hin E] | [Hnin E]]; rewrite E; cbn [fst snd].
  - split; [reflexivity|]. split; [intros H; contradiction|].
    split; [reflexivity|]. split; [reflexivity|].
    split; [exact Hin | intros H; exact H].
  - split; [intros H; contradiction|]. split; [reflexivity|].
    split; [apply upd_length|].
    split; [apply firstn_upd_above; lia|].
    rewrite (firstn_S_upd list position value Hp).
    split; [apply in_or_app; right; left; reflexivity|].
    intros Hd. clear E Hloop r. revert Hd Hnin.
    generalize (firstn position list) as l. clear.
    induction l as [|x l IH]; intros Hd Hn; cbn [app].
    + constructor; [intros [] | constructor].
    + inversion Hd as [|? ? Hx Hl]; subst. constructor.
      * intros Hin. apply in_app_or in Hin. destruct Hin as [Hin | [E | []]].
        -- contradiction.
        -- apply Hn. left. congruence.
      * apply IH; [exact Hl|]. intros Hin. apply Hn. right. exact Hin.
Qed.

Lemma appendUnique_keeps_distinct_witness :
  appendUnique [4; 1; 0; 0] 4 2 = (2%nat, [4; 1; 0; 0]) /\
  appendUnique [4; 1; 0; 0] 7 2 = (3%nat, [4; 1; 7; 0]) /\
  In 7 (firstn (fst (appendUnique [4; 1; 0; 0] 7 2))
          (snd (appendUnique [4; 1; 0; 0] 7 2))).
Proof.
  split; [reflexivity|]. split; [reflexivity|].
  exact (proj1 (proj2 (proj2 (proj2 (proj2
           (appendUnique_keeps_distinct [4; 1; 0; 0] 7 2
              (proj1 (Nat.leb_le 3 4) eq_refl))))))).
Defined.

End HelperFacts.

(* ================================================================== *)
(** * Picnic2: the aux bits between tape and proof *)
(* ================================================================== *)

Module AuxBitsFacts.

Import Tape Sig SigSpec Signing TapeFacts SigFacts SigningFacts.

Lemma bytes_eq_of_bits (a b : list Z) :
  bytes_ok a -> bytes_ok b -> length a = length b ->
  (forall p, (p < 8 * length a)%nat -> getBit a p = getBit b p) ->
  a = b.
Proof.
  intros Ha Hb Hl Hbits. apply (rd_ext Z 0); [exact Hl|].
  intros i Hi. fold (rdb a i). fold (rdb b i).
  pose proof (rdb_ok a i Ha) as Ra. pose proof (rdb_ok b i Hb) as Rb.
  apply Z.bits_inj'. intros t Ht.
  destruct (Z_lt_le_dec t 8) as [Hlt | Hge].
  - specialize (Hbits (8 * i + (7 - Z.to_nat t))%nat).
    rewrite !getBit_testbit in Hbits.
    replace ((8 * i + (7 - Z.to_nat t)) / 8)%nat with i in Hbits
      by (apply Nat.div_unique with (r := (7 - Z.to_nat t)%nat); lia).
    replace ((8 * i + (7 - Z.to_nat t)) mod 8)%nat with (7 - Z.to_nat t)%nat
      in Hbits
      by (apply Nat.mod_unique with (q := i); lia).
    replace (7 - Z.of_nat (7 - Z.to_nat t)) with t in Hbits by lia.
    assert (E : Z.b2z (Z.testbit (rdb a i) t) = Z.b2z (Z.testbit (rdb b i) t))
      by (apply Hbits; lia).
    destruct (Z.testbit (rdb a i) t), (Z.testbit (rdb b i) t);
      cbn in E; congruence.
  - rewrite !byte_testbit_high by assumption. reflexivity.
Qed.

Lemma aux_bits_loop_getBit tape f n : forall i pos out p,
  (pos + n <= 8 * length out)%nat ->
  getBit (aux_bits_loop n i pos out tape f) p
  = if ((pos <=? p) && (p <? pos + n))%nat
    then getBit tape (f + i + 2 * (p - pos))
    else getBit out p.
Proof.
  induction n as [|n IH]; intros i pos out p Hn; cbn [aux_bits_loop].
  - replace ((pos <=? p) && (p <? pos + 0))%nat with false; [reflexivity|].
    symmetry. apply andb_false_iff.
    destruct (Nat.leb_spec pos p); [right; apply Nat.ltb_ge; lia | now left].
  - rewrite IH by (rewrite setBit_length; lia).
    rewrite setBit_getBit by (try apply getBit_is_bit; lia).
    destruct (Nat.leb_spec (S pos) p); destruct (Nat.ltb_spec p (S pos + n));
      destruct (Nat.leb_spec pos p); destruct (Nat.ltb_spec p (pos + S n));
      destruct (Nat.eqb_spec p pos); cbn [andb]; try lia; try reflexivity.
    + f_equal. lia.
    + subst p. f_equal. lia.
Qed.

Lemma aux_bits_loop_bytes_ok tape f n : forall i pos out,
  bytes_ok out -> bytes_ok (aux_bits_loop n i pos out tape f).
Proof.
  induction n as [|n IH]; intros i pos out Ho; cbn [aux_bits_loop];
    [exact Ho|].
  apply IH, setBit_bytes_ok, Ho.
Qed.

Lemma set_aux_bits_loop_length input f n : forall i pos tape,
  length (set_aux_bits_loop n i pos tape input f) = length tape.
Proof.
  induction n as [|n IH]; intros i pos tape; cbn [set_aux_bits_loop];
    [reflexivity|].
  rewrite IH. apply setBit_length.
Qed.

Lemma set_aux_bits_loop_getBit input f n : forall i pos tape p,
  (f + i + 2 * n <= 8 * length tape + 1)%nat ->
  getBit (set_aux_bits_loop n i pos tape input f) p
  = if ((f + i <=? p) && (p <? f + i + 2 * n))%nat && Nat.even (p - (f + i))
    then getBit input (pos + (p - (f + i)) / 2)
    else getBit tape p.
Proof.
  induction n as [|n IH]; intros i pos tape p Hn; cbn [set_aux_bits_loop].
  - replace ((f + i <=? p) && (p <? f + i + 2 * 0))%nat with false;
      [reflexivity|].
    symmetry. apply andb_false_iff.
    destruct (Nat.leb_spec (f + i) p); [right; apply Nat.ltb_ge; lia | now left].
  - rewrite IH by (rewrite setBit_length; lia).
    rewrite setBit_getBit by (try apply getBit_is_bit; lia).
    replace (f + (i + 2))%nat with (f + i + 2)%nat by lia.
    destruct (Nat.leb_spec (f + i + 2) p) as [H1 | H1].
    + replace (f + i <=? p)%nat with true by (symmetry; apply Nat.leb_le; lia).
      replace (p <? f + i + 2 * S n)%nat with (p <? f + i + 2 + 2 * n)%nat
        by (f_equal; lia).
      replace (p - (f + i))%nat with (S (S (p - (f + i + 2)))) by lia.
      cbn [andb].
      change (Nat.even (S (S (p - (f + i + 2)))))
        with (Nat.even (p - (f + i + 2))).
      replace (S (S (p - (f + i + 2))) / 2)%nat
        with (S ((p - (f + i + 2)) / 2)).
      2:{ replace (S (S (p - (f + i + 2))))
            with ((p - (f + i + 2)) + 1 * 2)%nat by lia.
          rewrite Nat.div_add by lia. lia. }
      replace (pos + S ((p - (f + i + 2)) / 2))%nat
        with (S pos + (p - (f + i + 2)) / 2)%nat by lia.
      destruct ((p <? f + i + 2 + 2 * n)%nat && Nat.even (p - (f + i + 2)));
        [reflexivity|].
      destruct (Nat.eqb_spec p (f + i)); [lia | reflexivity].
    + cbn [andb].
      destruct (Nat.eqb_spec p (f + i)) as [-> | Hne].
      * replace (f + i <=? f + i)%nat with true
          by (symmetry; apply Nat.leb_le; lia).
        replace (f + i <? f + i + 2 * S n)%nat with true
          by (symmetry; apply Nat.ltb_lt; lia).
        rewrite Nat.sub_diag. change (0 / 2)%nat with 0%nat.
        cbn [andb Nat.even]. rewrite Nat.add_0_r. reflexivity.
      * destruct (Nat.leb_spec (f + i) p) as [H2 | H2]; cbn [andb];
          [|reflexivity].
        replace p with (S (f + i)) by lia.
        replace (S (f + i) - (f + i))%nat with 1%nat by lia.
        cbn [Nat.even]. rewrite andb_false_r. reflexivity.
Qed.

(** [setAuxBits] of what [getAuxBits] read from the signer's tapes: on
    the last party's tape of the verifier, the aux positions
    [firstAuxIndex + 2 q] below the AND count now hold the signer's bits,
    the ones from there up to [8 * view_size] are cleared, and every
    other bit, every other tape and the cursor are as before. *)
Theorem setAuxBits_transports_aux
        (output : list Z) (signer verifier : randomTape_t)
        (params : picnic_instance_t) :
  let f := (lowmc_n params + 1)%nat in
  let last := (num_MPC_parties params - 1)%nat in
  let ands := (3 * lowmc_r params * lowmc_m params)%nat in
  (ands <= 8 * view_size params)%nat ->
  (view_size params <= length output)%nat ->
  (last < length (tape verifier))%nat ->
  (f + 16 * view_size params <= 8 * length (party_tape verifier last) + 1)%nat ->
  let verifier' :=
    setAuxBits verifier (getAuxBits output signer params) params in
  (forall q, (q < ands)%nat ->
     getBit (party_tape verifier' last) (f + 2 * q)
     = getBit (party_tape signer last) (f + 2 * q)) /\
  (forall q, (ands <= q < 8 * view_size params)%nat ->
     getBit (party_tape verifier' last) (f + 2 * q) = 0) /\
  (forall p, (p < f)%nat \/ (f + 16 * view_size params <= p)%nat \/
             Nat.even (p - f) = false ->
     getBit (party_tape verifier' last) p
     = getBit (party_tape verifier last) p) /\
  (forall j, j <> last -> party_tape verifier' j = party_tape verifier j) /\
  length (party_tape verifier' last) = length (party_tape verifier last) /\
  pos verifier' = pos verifier.
Proof.
  intros f last ands Hands Hout Hlast Hlen verifier'.
  assert (Hset : party_tape verifier' last
                 = set_aux_bits_loop (view_size params * 8) 0 0
                     (party_tape verifier last)
                     (getAuxBits output signer params) f).
  { unfold verifier', setAuxBits. fold f. fold last.
    unfold party_tape at 1, set_party_tape. cbn [tape].
    apply nth_upd_same. exact Hlast. }
  assert (Hget : forall p,
             getBit (getAuxBits output signer params) p
             = if ((0 <=? p) && (p <? 0 + ands))%nat
               then getBit (party_tape signer last) (f + 0 + 2 * (p - 0))
               else getBit (memset0 output (view_size params)) p).
  { intros p. unfold getAuxBits. fold f. fold last. fold ands.
    apply aux_bits_loop_getBit.
    unfold memset0. rewrite length_app, repeat_length, length_skipn. lia. }
  assert (Hz : forall p, (p < 8 * view_size params)%nat ->
             getBit (memset0 output (view_size params)) p = 0).
  { intros p Hp. unfold memset0. rewrite getBit_app_l.
    - unfold getBit, rdb, rd_gen. rewrite nth_repeat, Z.shiftr_0_l.
      reflexivity.
    - rewrite repeat_length. apply Nat.Div0.div_lt_upper_bound. lia. }
  split; [|split; [|split; [|split; [|split]]]].
  - intros q Hq. rewrite Hset, set_aux_bits_loop_getBit by lia.
    replace ((f + 0 <=? f + 2 * q)%nat) with true
      by (symmetry; apply Nat.leb_le; lia).
    replace ((f + 2 * q <? f + 0 + 2 * (view_size params * 8))%nat) with true
      by (symmetry; apply Nat.ltb_lt; lia).
    replace (f + 2 * q - (f + 0))%nat with (q * 2)%nat by lia.
    rewrite Nat.even_mul, Nat.div_mul by lia.
    cbn [andb Nat.even orb]. rewrite orb_true_r. cbn [Nat.add].
    rewrite Hget.
    replace ((0 <=? q) && (q <? 0 + ands))%nat with true.
    + f_equal. lia.
    + symmetry. apply andb_true_iff. split;
        [apply Nat.leb_le | apply Nat.ltb_lt]; lia.
  - intros q Hq. rewrite Hset, set_aux_bits_loop_getBit by lia.
    replace ((f + 0 <=? f + 2 * q)%nat) with true
      by (symmetry; apply Nat.leb_le; lia).
    replace ((f + 2 * q <? f + 0 + 2 * (view_size params * 8))%nat) with true
      by (symmetry; apply Nat.ltb_lt; lia).
    replace (f + 2 * q - (f + 0))%nat with (q * 2)%nat by lia.
    rewrite Nat.even_mul, Nat.div_mul by lia.
    cbn [andb Nat.even orb]. rewrite orb_true_r. cbn [Nat.add].
    rewrite Hget.
    replace ((0 <=? q) && (q <? 0 + ands))%nat with false.
    + apply Hz. lia.
    + symmetry. apply andb_false_iff. right. apply Nat.ltb_ge. lia.
  - intros p Hp. rewrite Hset, set_aux_bits_loop_getBit by lia.
    rewrite Nat.add_0_r.
    destruct Hp as [Hp | [Hp | Hp]].
    + replace (f <=? p)%nat with false by (symmetry; apply Nat.leb_gt; lia).
      reflexivity.
    + replace (p <? f + 2 * (view_size params * 8))%nat with false
        by (symmetry; apply Nat.ltb_ge; lia).
      rewrite andb_false_r. reflexivity.
    + rewrite Hp, andb_false_r. reflexivity.
  - intros j Hj. unfold verifier', setAuxBits. fold last.
    unfold party_tape, set_party_tape. cbn [tape].
    apply nth_upd_other. congruence.
  - rewrite Hset. apply set_aux_bits_loop_length.
  - reflexivity.
Qed.

Lemma setAuxBits_transports_aux_witness :
  getBit (party_tape
            (setAuxBits Examples.verifier_tapes
               (getAuxBits [9; 9] Examples.signer_tapes Examples.aux_params)
               Examples.aux_params) 1) (3 + 2 * 1)
  = getBit (party_tape Examples.signer_tapes 1) (3 + 2 * 1).
Proof.
  exact (proj1 (setAuxBits_transports_aux [9; 9] Examples.signer_tapes
                  Examples.verifier_tapes Examples.aux_params
                  (proj1 (Nat.leb_le 3 8) eq_refl) (proj1 (Nat.leb_le 1 2) eq_refl)
                  (proj1 (Nat.leb_le 2 2) eq_refl) (proj1 (Nat.leb_le 19 25) eq_refl))
           1%nat (proj1 (Nat.leb_le 2 3) eq_refl)).
Defined.

(** [getAuxBits] after [setAuxBits] gives back the aux bytes that were
    written, provided their bits from the AND count on are zero. *)
Theorem getAuxBits_reads_back
        (output input : list Z) (tapes : randomTape_t)
        (params : picnic_instance_t) :
  let f := (lowmc_n params + 1)%nat in
  let last := (num_MPC_parties params - 1)%nat in
  let ands := (3 * lowmc_r params * lowmc_m params)%nat in
  (ands <= 8 * view_size params)%nat ->
  (view_size params <= length output)%nat ->
  (last < length (tape tapes))%nat ->
  (f + 16 * view_size params <= 8 * length (party_tape tapes last) + 1)%nat ->
  length input = view_size params -> bytes_ok input ->
  padding_zero input (view_size params) ands ->
  firstn (view_size params)
    (getAuxBits output (setAuxBits tapes input params) params)
  = input /\
  skipn (view_size params)
    (getAuxBits output (setAuxBits tapes input params) params)
  = skipn (view_size params) output.
Proof.
  intros f last ands Hands Hout Hlast Hlen Hin Hok Hpad.
  assert (Hset : party_tape (setAuxBits tapes input params) last
                 = set_aux_bits_loop (view_size params * 8) 0 0
                     (party_tape tapes last) input f).
  { unfold setAuxBits. fold f. fold last.
    unfold party_tape at 1, set_party_tape. cbn [tape].
    apply nth_upd_same. exact Hlast. }
  unfold getAuxBits. fold f. fold last. fold ands. rewrite Hset.
  unfold memset0.
  rewrite aux_bits_loop_app by (rewrite repeat_length; lia).
  assert (Hl : length (aux_bits_loop ands 0 0 (repeat 0 (view_size params))
                         (set_aux_bits_loop (view_size params * 8) 0 0
                            (party_tape tapes last) input f) f)
               = view_size params)
    by (rewrite aux_bits_loop_length; apply repeat_length).
  split.
  - rewrite firstn_app, Hl, Nat.sub_diag. cbn [firstn].
    rewrite app_nil_r, firstn_all2 by lia.
    apply bytes_eq_of_bits.
    + apply aux_bits_loop_bytes_ok, repeat_0_bytes_ok.
    + exact Hok.
    + congruence.
    + intros p Hp. rewrite Hl in Hp.
      rewrite aux_bits_loop_getBit by (rewrite repeat_length; lia).
      cbn [Nat.leb andb Nat.add].
      destruct (Nat.ltb_spec p ands) as [Hlt | Hge].
      * rewrite set_aux_bits_loop_getBit by lia.
        replace ((f + 0 <=? f + 0 + 2 * (p - 0))%nat) with true
          by (symmetry; apply Nat.leb_le; lia).
        replace ((f + 0 + 2 * (p - 0) <? f + 0 + 2 * (view_size params * 8))%nat)
          with true by (symmetry; apply Nat.ltb_lt; lia).
        replace (f + 0 + 2 * (p - 0) - (f + 0))%nat with (p * 2)%nat by lia.
        rewrite Nat.even_mul, Nat.div_mul by lia.
        cbn [andb Nat.even orb]. rewrite orb_true_r. reflexivity.
      * rewrite (Hpad p) by lia.
        unfold getBit, rdb, rd_gen. rewrite nth_repeat, Z.shiftr_0_l.
        reflexivity.
  - rewrite skipn_app, Hl, Nat.sub_diag. cbn [skipn].
    rewrite skipn_all2 by lia. reflexivity.
Qed.

Lemma getAuxBits_reads_back_witness :
  firstn 1 (getAuxBits [9; 9]
              (setAuxBits Examples.verifier_tapes [160] Examples.aux_params)
              Examples.aux_params)
  = [160].
Proof.
  refine (proj1 (getAuxBits_reads_back [9; 9] [160] Examples.verifier_tapes
                   Examples.aux_params
                   (proj1 (Nat.leb_le 3 8) eq_refl) (proj1 (Nat.leb_le 1 2) eq_refl)
                   (proj1 (Nat.leb_le 2 2) eq_refl) (proj1 (Nat.leb_le 19 25) eq_refl)
                   eq_refl _ _)).
  - apply bytes_okb_spec. reflexivity.
  - intros i Hi. cbn in Hi.
    assert (E : i = 3%nat \/ i = 4%nat \/ i = 5%nat \/ i = 6%nat \/ i = 7%nat)
      by lia.
    destruct E as [-> | [-> | [-> | [-> | ->]]]]; reflexivity.
Defined.

End AuxBitsFacts.
